(** * Three kinds of timer queue: sorted list, binary heap, hashed time wheel

    A shallow embedding of [lst_timer.hpp] and [time_heap_timer.hpp] (the
    latter also carries the time wheel), and the properties of the three
    timer containers stated over it.

    The C++ code manipulates timer objects through raw pointers.  The
    embedding keeps that: every container state carries the free store
    [mem] (a finite map from addresses to timer objects), a pointer is an
    [option nat] ([None] is [nullptr]), [new] extends the store and
    [delete] shrinks it.  Dereferencing [nullptr] or a deleted object and
    indexing an array out of bounds is undefined behaviour in C++; the
    embedding reports it as [Fault].  *)

From Stdlib Require Import ZArith Lia.
From stdpp Require Import base option list gmap.

Local Open Scope Z_scope.

(** ** Outcomes, callbacks and the invocation trace *)

(** What running a member function can lead to. *)
Inductive result (A : Type) : Type :=
| Ok (a : A)      (* the function returns *)
| Throw           (* it throws [std::exception] *)
| Fault           (* undefined behaviour: null or dangling dereference,
                     index out of bounds, call through a null callback *)
| NoFuel.         (* the iteration bound of the embedding ran out *)

Arguments Ok {A} a.
Arguments Throw {A}.
Arguments Fault {A}.
Arguments NoFuel {A}.

Definition result_bind {A B} (f : A → result B) (r : result A) : result B :=
  match r with
  | Ok a => f a
  | Throw => Throw
  | Fault => Fault
  | NoFuel => NoFuel
  end.

#[global] Instance result_mbind : MBind result := @result_bind.
#[global] Instance result_mret : MRet result := @Ok.

(** The function pointer [cb_func]: a callback is identified by the
    function it points to, its [client_data] argument by the address it
    holds.  Both are opaque to the containers. *)
Definition callback := nat.
Definition client_data := nat.

(** One call [t->cb_func(t->user_data)] made by a [tick], tagged with the
    address of the timer [t] it was made for. *)
Record fired : Type := Fired {
  f_timer : nat;
  f_cb : callback;
  f_arg : client_data
}.

#[global] Instance fired_eq_dec : EqDecision fired.
Proof. solve_decision. Defined.

(** [t->cb_func(t->user_data)]: the trace grows by one call, or the call
    goes through a null function pointer. *)
Definition invoke (t : nat) (cb : option callback) (arg : client_data)
    (log : list fired) : result (list fired) :=
  match cb with
  | Some f => Ok (log ++ [Fired t f arg])
  | None => Fault
  end.

(** Iterating a state transformer that may fail. *)
Fixpoint iter_result {A} (n : nat) (f : A → result A) (a : A) : result A :=
  match n with
  | O => Ok a
  | S k => a' ← f a; iter_result k f a'
  end.

(** ** The ascending list of [lst_timer.hpp] *)

Module Lst.

Record util_timer : Type := mk_util_timer {
  expire : Z;                    (* time_t expire *)
  cb_func : option callback;     (* the callback function pointer *)
  user_data : client_data;       (* pointer to the client data *)
  prev : option nat;             (* pointer to the previous timer *)
  next : option nat              (* pointer to the next timer *)
}.

Definition with_expire (e : Z) (t : util_timer) : util_timer :=
  mk_util_timer e (cb_func t) (user_data t) (prev t) (next t).
Definition with_prev (p : option nat) (t : util_timer) : util_timer :=
  mk_util_timer (expire t) (cb_func t) (user_data t) p (next t).
Definition with_next (n : option nat) (t : util_timer) : util_timer :=
  mk_util_timer (expire t) (cb_func t) (user_data t) (prev t) n.

(** [util_timer()] followed by the host's assignments to [expire],
    [cb_func] and [user_data]: both links start out null. *)
Definition util_timer_new (e : Z) (cb : option callback) (d : client_data)
    : util_timer :=
  mk_util_timer e cb d None None.

Record sort_timer_lst : Type := mk_lst {
  mem : gmap nat util_timer;     (* the free store holding the timers *)
  head : option nat;             (* first timer *)
  tail : option nat              (* last timer *)
}.

Definition set_mem (m : gmap nat util_timer) (s : sort_timer_lst) :=
  mk_lst m (head s) (tail s).
Definition set_head (h : option nat) (s : sort_timer_lst) :=
  mk_lst (mem s) h (tail s).
Definition set_tail (t : option nat) (s : sort_timer_lst) :=
  mk_lst (mem s) (head s) t.

(** [sort_timer_lst()] over a given free store. *)
Definition sort_timer_lst_new (m : gmap nat util_timer) : sort_timer_lst :=
  mk_lst m None None.

(** Reading the object [p] points to. *)
Definition rd (s : sort_timer_lst) (p : option nat) : result util_timer :=
  match p with
  | None => Fault
  | Some a => match mem s !! a with Some t => Ok t | None => Fault end
  end.

(** An assignment to one field of the object [p] points to. *)
Definition wr (f : util_timer → util_timer) (p : option nat)
    (s : sort_timer_lst) : result sort_timer_lst :=
  match p with
  | None => Fault
  | Some a =>
      match mem s !! a with
      | Some t => Ok (set_mem (<[a := f t]> (mem s)) s)
      | None => Fault
      end
  end.

(** [delete p] for a non-null [p] *)
Definition free (a : nat) (s : sort_timer_lst) : result sort_timer_lst :=
  match mem s !! a with
  | Some _ => Ok (set_mem (delete a (mem s)) s)
  | None => Fault
  end.

(** The host side of scheduling: [new util_timer] with its fields set. *)
Definition alloc (t : util_timer) (s : sort_timer_lst) : nat * sort_timer_lst :=
  let a := fresh (dom (mem s)) in (a, set_mem (<[a := t]> (mem s)) s).

(** The loop and the trailing [if(!tmp)] of the private
    [add_timer(timer, lst_head)]; [prv] and [tmp] are its locals. *)
Fixpoint add_timer_walk (fuel : nat) (s : sort_timer_lst) (timer prv : nat)
    (tmp : option nat) : result sort_timer_lst :=
  match tmp with
  | None =>
      s1 ← wr (with_next (Some timer)) (Some prv) s;
      s2 ← wr (with_prev (Some prv)) (Some timer) s1;
      s3 ← wr (with_next None) (Some timer) s2;
      Ok (set_tail (Some timer) s3)
  | Some q =>
      match fuel with
      | O => NoFuel
      | S fuel' =>
          tm ← rd s (Some timer);
          tq ← rd s (Some q);
          if expire tm <? expire tq then
            s1 ← wr (with_next (Some timer)) (Some prv) s;
            s2 ← wr (with_next (Some q)) (Some timer) s1;
            s3 ← wr (with_prev (Some timer)) (Some q) s2;
            wr (with_prev (Some prv)) (Some timer) s3
          else
            add_timer_walk fuel' s timer q (next tq)
      end
  end.

(** The private overload [add_timer(timer, lst_head)]. *)
Definition add_timer_lst_head (s : sort_timer_lst) (timer : nat)
    (lst_head : option nat) : result sort_timer_lst :=
  th ← rd s lst_head;
  match lst_head with
  | Some prv => add_timer_walk (size (mem s)) s timer prv (next th)
  | None => Fault
  end.

(** The public [add_timer(timer)]. *)
Definition add_timer (s : sort_timer_lst) (timer : option nat)
    : result sort_timer_lst :=
  match timer with
  | None => Ok s
  | Some t =>
      match head s with
      | None => Ok (set_tail (Some t) (set_head (Some t) s))
      | Some h =>
          tm ← rd s (Some t);
          th ← rd s (Some h);
          if expire tm <? expire th then
            s1 ← wr (with_next (Some h)) (Some t) s;
            s2 ← wr (with_prev (Some t)) (head s1) s1;
            Ok (set_head (Some t) s2)
          else
            add_timer_lst_head s t (head s)
      end
  end.

(** [adjust_timer(timer)], called after the host has changed
    [timer->expire]. *)
Definition adjust_timer (s : sort_timer_lst) (timer : option nat)
    : result sort_timer_lst :=
  match timer with
  | None => Ok s
  | Some t =>
      tm ← rd s (Some t);
      match next tm with
      | None => Ok s
      | Some q =>
          tq ← rd s (Some q);
          if expire tm <? expire tq then Ok s
          else if decide (Some t = head s) then
            th ← rd s (head s);
            let s1 := set_head (next th) s in
            s2 ← wr (with_prev None) (head s1) s1;
            s3 ← wr (with_next None) (Some t) s2;
            add_timer_lst_head s3 t (head s3)
          else
            s1 ← wr (with_next (next tm)) (prev tm) s;
            t1 ← rd s1 (Some t);
            s2 ← wr (with_prev (prev t1)) (next t1) s1;
            t2 ← rd s2 (Some t);
            add_timer_lst_head s2 t (next t2)
      end
  end.

(** [del_timer(timer)] *)
Definition del_timer (s : sort_timer_lst) (timer : option nat)
    : result sort_timer_lst :=
  match timer with
  | None => Ok s
  | Some t =>
      if decide (Some t = head s ∧ Some t = tail s) then
        s1 ← free t s;
        Ok (set_tail None (set_head None s1))
      else if decide (Some t = head s) then
        th ← rd s (head s);
        let s1 := set_head (next th) s in
        s2 ← wr (with_prev None) (head s1) s1;
        free t s2
      else if decide (Some t = tail s) then
        tl ← rd s (tail s);
        let s1 := set_tail (prev tl) s in
        s2 ← wr (with_next None) (tail s1) s1;
        free t s2
      else
        tm ← rd s (Some t);
        s1 ← wr (with_next (next tm)) (prev tm) s;
        t1 ← rd s1 (Some t);
        s2 ← wr (with_prev (prev t1)) (next t1) s1;
        free t s2
  end.

(** The [while(tmp)] loop of [tick]; [cur] is the value of [time(NULL)],
    [log] the calls made so far. *)
Fixpoint tick_loop (fuel : nat) (s : sort_timer_lst) (cur : Z)
    (tmp : option nat) (log : list fired)
    : result (list fired * sort_timer_lst) :=
  match tmp with
  | None => Ok (log, s)
  | Some p =>
      match fuel with
      | O => NoFuel
      | S fuel' =>
          tp ← rd s (Some p);
          if cur <? expire tp then Ok (log, s)
          else
            log' ← invoke p (cb_func tp) (user_data tp) log;
            let s1 := set_head (next tp) s in
            s2 ← match head s1 with
                 | Some _ => wr (with_prev None) (head s1) s1
                 | None => Ok s1
                 end;
            s3 ← free p s2;
            tick_loop fuel' s3 cur (head s3) log'
      end
  end.

(** [tick()], with the clock reading [cur] made a parameter. *)
Definition tick (s : sort_timer_lst) (cur : Z)
    : result (list fired * sort_timer_lst) :=
  match head s with
  | None => Ok ([], s)
  | Some _ => tick_loop (S (size (mem s))) s cur (head s) []
  end.

(** The [while(tmp)] loop of the destructor [~sort_timer_lst()]. *)
Fixpoint destroy_loop (fuel : nat) (s : Lst.sort_timer_lst) (tmp : option nat)
    : result Lst.sort_timer_lst :=
  match tmp with
  | None => Ok s
  | Some p =>
      match fuel with
      | O => NoFuel
      | S fuel' =>
          tp ← Lst.rd s (Some p);
          let s1 := Lst.set_head (Lst.next tp) s in
          s2 ← Lst.free p s1;
          destroy_loop fuel' s2 (Lst.head s2)
      end
  end.

(** [~sort_timer_lst()]; the result is the free store the list object
    leaves behind. *)
Definition destroy (s : Lst.sort_timer_lst) : result (gmap nat Lst.util_timer) :=
  s' ← destroy_loop (size (Lst.mem s)) s (Lst.head s);
  Ok (Lst.mem s').

End Lst.

(** ** The min-heap of [time_heap_timer.hpp] *)

Module Heap.

Record heap_timer : Type := mk_heap_timer {
  expire : Z;                    (* time_t expire *)
  cb_func : option callback;     (* the callback function pointer *)
  user_data : client_data        (* pointer to the client data *)
}.

Definition with_cb_func (cb : option callback) (t : heap_timer) : heap_timer :=
  mk_heap_timer (expire t) cb (user_data t).

Record time_heap : Type := mk_heap {
  mem : gmap nat heap_timer;     (* the free store holding the timers *)
  array : list (option nat);     (* the array of timer pointers *)
  capacity : Z;                  (* int capacity *)
  cur_size : Z                   (* int cur_size *)
}.

Definition set_mem (m : gmap nat heap_timer) (h : time_heap) :=
  mk_heap m (array h) (capacity h) (cur_size h).
Definition set_array (a : list (option nat)) (h : time_heap) :=
  mk_heap (mem h) a (capacity h) (cur_size h).
Definition set_cur_size (n : Z) (h : time_heap) :=
  mk_heap (mem h) (array h) (capacity h) n.

(** [time_heap(int cap)] over a given free store: [cap] null entries. *)
Definition time_heap_new (m : gmap nat heap_timer) (cap : Z) : time_heap :=
  mk_heap m (replicate (Z.to_nat cap) None) cap 0.

(** Reading the object [p] points to. *)
Definition rd (h : time_heap) (p : option nat) : result heap_timer :=
  match p with
  | None => Fault
  | Some a => match mem h !! a with Some t => Ok t | None => Fault end
  end.

(** [delete p] for a non-null [p] *)
Definition free (a : nat) (h : time_heap) : result time_heap :=
  match mem h !! a with
  | Some _ => Ok (set_mem (delete a (mem h)) h)
  | None => Fault
  end.

(** The host side of scheduling: [new heap_timer] with its fields set. *)
Definition alloc (t : heap_timer) (h : time_heap) : nat * time_heap :=
  let a := fresh (dom (mem h)) in (a, set_mem (<[a := t]> (mem h)) h).

(** [array[i]] as an rvalue *)
Definition arr_get (h : time_heap) (i : Z) : result (option nat) :=
  if decide (0 ≤ i < capacity h) then
    match array h !! Z.to_nat i with
    | Some p => Ok p
    | None => Fault
    end
  else Fault.

(** [array[i] = p] *)
Definition arr_set (i : Z) (p : option nat) (h : time_heap) : result time_heap :=
  if decide (0 ≤ i < capacity h) then
    if decide (Z.to_nat i < length (array h))%nat then
      Ok (set_array (<[Z.to_nat i := p]> (array h)) h)
    else Fault
  else Fault.

(** [empty()] *)
Definition empty (h : time_heap) : bool := 0 =? cur_size h.

(** [resize()]: a null-filled array of twice the capacity receives the
    first [cur_size] entries. *)
Definition resize (h : time_heap) : time_heap :=
  let cap2 := 2 * capacity h in
  mk_heap (mem h)
    (take (Z.to_nat (cur_size h)) (array h)
       ++ replicate (Z.to_nat cap2 - Z.to_nat (cur_size h)) None)
    cap2 (cur_size h).

(** The [for] loop of [add_timer] with the final [array[hole] = timer]. *)
Fixpoint add_timer_loop (fuel : nat) (h : time_heap) (timer : nat) (hole : Z)
    : result time_heap :=
  if hole >? 0 then
    match fuel with
    | O => NoFuel
    | S fuel' =>
        let parent := (hole - 1) ÷ 2 in
        pp ← arr_get h parent;
        tp ← rd h pp;
        tm ← rd h (Some timer);
        if expire tp <=? expire tm then arr_set hole (Some timer) h
        else
          h' ← arr_set hole pp h;
          add_timer_loop fuel' h' timer parent
    end
  else arr_set hole (Some timer) h.

(** [add_timer(timer)] *)
Definition add_timer (h : time_heap) (timer : option nat) : result time_heap :=
  match timer with
  | None => Throw
  | Some t =>
      let h1 := if cur_size h >=? capacity h then resize h else h in
      let hole := cur_size h1 in
      let h2 := set_cur_size (cur_size h1 + 1) h1 in
      add_timer_loop (Z.to_nat hole) h2 t hole
  end.

(** [del_timer(timer)]: only the callback is cleared. *)
Definition del_timer (h : time_heap) (timer : option nat) : result time_heap :=
  match timer with
  | None => Ok h
  | Some t =>
      match mem h !! t with
      | Some tm => Ok (set_mem (<[t := with_cb_func None tm]> (mem h)) h)
      | None => Fault
      end
  end.

(** [top()] *)
Definition top (h : time_heap) : result (option nat) :=
  if empty h then Ok None else arr_get h 0.

(** The [for] loop of [percolate_down] with the final
    [array[hole] = temp]. *)
Fixpoint percolate_down_loop (fuel : nat) (h : time_heap) (temp : option nat)
    (hole : Z) : result time_heap :=
  if hole * 2 + 1 <=? cur_size h - 1 then
    match fuel with
    | O => NoFuel
    | S fuel' =>
        let child := hole * 2 + 1 in
        child' ← (if child <? cur_size h - 1 then
                    p1 ← arr_get h (child + 1);
                    t1 ← rd h p1;
                    p0 ← arr_get h child;
                    t0 ← rd h p0;
                    Ok (if expire t1 <? expire t0 then child + 1 else child)
                  else Ok child);
        pc ← arr_get h child';
        tc ← rd h pc;
        tm ← rd h temp;
        if expire tc <? expire tm then
          h' ← arr_set hole pc h;
          percolate_down_loop fuel' h' temp child'
        else arr_set hole temp h
    end
  else arr_set hole temp h.

(** [percolate_down(hole)] *)
Definition percolate_down (h : time_heap) (hole : Z) : result time_heap :=
  temp ← arr_get h hole;
  percolate_down_loop (Z.to_nat (cur_size h)) h temp hole.

(** [pop_timer()] *)
Definition pop_timer (h : time_heap) : result time_heap :=
  if empty h then Ok h
  else
    a0 ← arr_get h 0;
    match a0 with
    | None => Ok h
    | Some p =>
        h1 ← free p h;
        let h2 := set_cur_size (cur_size h1 - 1) h1 in
        lst ← arr_get h2 (cur_size h2);
        h3 ← arr_set 0 lst h2;
        percolate_down h3 0
    end.

(** The [while(!empty())] loop of [tick]. *)
Fixpoint tick_loop (fuel : nat) (h : time_heap) (cur : Z) (tmp : option nat)
    (log : list fired) : result (list fired * time_heap) :=
  if empty h then Ok (log, h)
  else
    match fuel with
    | O => NoFuel
    | S fuel' =>
        match tmp with
        | None => Ok (log, h)
        | Some p =>
            tp ← rd h (Some p);
            if expire tp >? cur then Ok (log, h)
            else
              a0 ← arr_get h 0;
              t0 ← rd h a0;
              let log' := match a0, cb_func t0 with
                          | Some a, Some f => log ++ [Fired a f (user_data t0)]
                          | _, _ => log
                          end in
              h1 ← pop_timer h;
              tmp' ← arr_get h1 0;
              tick_loop fuel' h1 cur tmp' log'
        end
    end.

(** [tick()], with the clock reading [cur] made a parameter. *)
Definition tick (h : time_heap) (cur : Z) : result (list fired * time_heap) :=
  tmp ← arr_get h 0;
  tick_loop (Z.to_nat (cur_size h)) h cur tmp [].

(** [for(int i = 0; i < size; ++i) array[i] = init_array[i];] of the
    second constructor; [n] iterations are left and [i] is the index. *)
Fixpoint init_copy (n : nat) (i : Z) (init_array : list (option nat))
    (h : Heap.time_heap) : result Heap.time_heap :=
  match n with
  | O => Ok h
  | S n' =>
      p ← from_option Ok Fault (init_array !! Z.to_nat i);
      h' ← Heap.arr_set i p h;
      init_copy n' (i + 1) init_array h'
  end.

(** [for(int i = (cur_size-1)/2; i >= 0; i--) percolate_down(i);] *)
Fixpoint init_heapify (fuel : nat) (h : Heap.time_heap) (i : Z)
    : result Heap.time_heap :=
  if i >=? 0 then
    match fuel with
    | O => NoFuel
    | S fuel' =>
        h' ← Heap.percolate_down h i;
        init_heapify fuel' h' (i - 1)
    end
  else Ok h.

(** [time_heap(heap_timer** init_array, int size, int capacity)] over a
    given free store.  [new heap_timer*[capacity]] throws for a negative
    capacity. *)
Definition time_heap_init (m : gmap nat Heap.heap_timer)
    (init_array : list (option nat)) (size capacity : Z)
    : result Heap.time_heap :=
  if capacity <? size then Throw
  else if capacity <? 0 then Throw
  else
    let h0 := Heap.mk_heap m (replicate (Z.to_nat capacity) None) capacity size in
    if size =? 0 then Ok h0
    else
      h1 ← init_copy (Z.to_nat size) 0 init_array h0;
      init_heapify (Z.to_nat (Heap.cur_size h1)) h1 ((Heap.cur_size h1 - 1) ÷ 2).

(** [for(int i = 0; i < cur_size; ++i) delete array[i];] of the
    destructor; deleting a null pointer does nothing. *)
Fixpoint destroy_loop (n : nat) (i : Z) (h : Heap.time_heap)
    : result Heap.time_heap :=
  match n with
  | O => Ok h
  | S n' =>
      p ← Heap.arr_get h i;
      h' ← match p with
           | Some a => Heap.free a h
           | None => Ok h
           end;
      destroy_loop n' (i + 1) h'
  end.

(** [~time_heap()]; the result is the free store the heap object leaves
    behind. *)
Definition destroy (h : Heap.time_heap) : result (gmap nat Heap.heap_timer) :=
  h' ← destroy_loop (Z.to_nat (Heap.cur_size h)) 0 h;
  Ok (Heap.mem h').

End Heap.

(** ** The time wheel of [time_heap_timer.hpp] *)

Module Wheel.

Record tw_timer : Type := mk_tw_timer {
  rotation : Z;                  (* int rotation *)
  time_slot : Z;                 (* int time_slot *)
  cb_func : option callback;     (* the callback function pointer *)
  user_data : client_data;       (* pointer to the client data *)
  next : option nat;             (* pointer to the next timer *)
  prev : option nat              (* pointer to the previous timer *)
}.

Definition with_rotation (r : Z) (t : tw_timer) : tw_timer :=
  mk_tw_timer r (time_slot t) (cb_func t) (user_data t) (next t) (prev t).
Definition with_cb (cb : option callback) (d : client_data) (t : tw_timer)
    : tw_timer :=
  mk_tw_timer (rotation t) (time_slot t) cb d (next t) (prev t).
Definition with_next (n : option nat) (t : tw_timer) : tw_timer :=
  mk_tw_timer (rotation t) (time_slot t) (cb_func t) (user_data t) n (prev t).
Definition with_prev (p : option nat) (t : tw_timer) : tw_timer :=
  mk_tw_timer (rotation t) (time_slot t) (cb_func t) (user_data t) (next t) p.

(** [tw_timer(int rot, int ts)]: the links are null; the constructor
    leaves [cb_func] and [user_data] unset, which is rendered as a null
    callback until the host assigns one. *)
Definition tw_timer_new (rot ts : Z) : tw_timer :=
  mk_tw_timer rot ts None O None None.

(** [static const int N = 60] and [static const int SI = 1] *)
Definition N : Z := 60.
Definition SI : Z := 1.

Record time_wheel : Type := mk_wheel {
  mem : gmap nat tw_timer;       (* the free store holding the timers *)
  slots : list (option nat);     (* the N list heads *)
  cur_slot : Z                   (* int cur_slot *)
}.

Definition set_mem (m : gmap nat tw_timer) (w : time_wheel) :=
  mk_wheel m (slots w) (cur_slot w).
Definition set_slots (l : list (option nat)) (w : time_wheel) :=
  mk_wheel (mem w) l (cur_slot w).
Definition set_cur_slot (c : Z) (w : time_wheel) :=
  mk_wheel (mem w) (slots w) c.

(** [time_wheel()] over a given free store. *)
Definition time_wheel_new (m : gmap nat tw_timer) : time_wheel :=
  mk_wheel m (replicate (Z.to_nat N) None) 0.

(** Reading the object [p] points to. *)
Definition rd (w : time_wheel) (p : option nat) : result tw_timer :=
  match p with
  | None => Fault
  | Some a => match mem w !! a with Some t => Ok t | None => Fault end
  end.

(** An assignment to one field of the object [p] points to. *)
Definition wr (f : tw_timer → tw_timer) (p : option nat) (w : time_wheel)
    : result time_wheel :=
  match p with
  | None => Fault
  | Some a =>
      match mem w !! a with
      | Some t => Ok (set_mem (<[a := f t]> (mem w)) w)
      | None => Fault
      end
  end.

(** [delete p] for a non-null [p] *)
Definition free (a : nat) (w : time_wheel) : result time_wheel :=
  match mem w !! a with
  | Some _ => Ok (set_mem (delete a (mem w)) w)
  | None => Fault
  end.

(** [slots[i]] as an rvalue *)
Definition slot_get (w : time_wheel) (i : Z) : result (option nat) :=
  if decide (0 ≤ i < N) then
    match slots w !! Z.to_nat i with
    | Some p => Ok p
    | None => Fault
    end
  else Fault.

(** [slots[i] = p] *)
Definition slot_set (i : Z) (p : option nat) (w : time_wheel)
    : result time_wheel :=
  if decide (0 ≤ i < N) then
    if decide (Z.to_nat i < length (slots w))%nat then
      Ok (set_slots (<[Z.to_nat i := p]> (slots w)) w)
    else Fault
  else Fault.

(** The locals [ticks], [rotation] and [ts] of [add_timer], for a
    timeout that passed the guard. *)
Definition add_timer_ticks (timeout : Z) : Z :=
  if timeout <? SI then 1 else timeout ÷ SI.
Definition add_timer_rotation (timeout : Z) : Z :=
  add_timer_ticks timeout ÷ N.
Definition add_timer_ts (cur : Z) (timeout : Z) : Z :=
  cur + Z.rem (add_timer_ticks timeout) N.

(** [add_timer(int timeout)]; the result carries the returned pointer. *)
Definition add_timer (w : time_wheel) (timeout : Z)
    : result (option nat * time_wheel) :=
  if timeout <? 0 then Ok (None, w)
  else
    let rotation := add_timer_rotation timeout in
    let ts := add_timer_ts (cur_slot w) timeout in
    let timer := fresh (dom (mem w)) in
    let w0 := set_mem (<[timer := tw_timer_new rotation ts]> (mem w)) w in
    hd ← slot_get w0 ts;
    match hd with
    | None =>
        w1 ← slot_set ts (Some timer) w0;
        Ok (Some timer, w1)
    | Some _ =>
        w1 ← wr (with_next hd) (Some timer) w0;
        hd1 ← slot_get w1 ts;
        w2 ← wr (with_prev (Some timer)) hd1 w1;
        w3 ← slot_set ts (Some timer) w2;
        Ok (Some timer, w3)
    end.

(** [del_timer(timer)] *)
Definition del_timer (w : time_wheel) (timer : option nat) : result time_wheel :=
  match timer with
  | None => Ok w
  | Some t =>
      tm ← rd w (Some t);
      let ts := time_slot tm in
      hd ← slot_get w ts;
      if decide (Some t = hd) then
        th ← rd w hd;
        w1 ← slot_set ts (next th) w;
        hd1 ← slot_get w1 ts;
        w2 ← match hd1 with
             | Some _ => wr (with_prev None) hd1 w1
             | None => Ok w1
             end;
        free t w2
      else
        w1 ← wr (with_next (next tm)) (prev tm) w;
        t1 ← rd w1 (Some t);
        w2 ← match next t1 with
             | Some _ => wr (with_prev (prev t1)) (next t1) w1
             | None => Ok w1
             end;
        free t w2
  end.

(** The [while(tmp)] loop of [tick]. *)
Fixpoint tick_loop (fuel : nat) (w : time_wheel) (tmp : option nat)
    (log : list fired) : result (list fired * time_wheel) :=
  match tmp with
  | None => Ok (log, w)
  | Some p =>
      match fuel with
      | O => NoFuel
      | S fuel' =>
          tp ← rd w (Some p);
          if rotation tp >? 0 then
            w1 ← wr (with_rotation (rotation tp - 1)) (Some p) w;
            t1 ← rd w1 (Some p);
            tick_loop fuel' w1 (next t1) log
          else
            log' ← invoke p (cb_func tp) (user_data tp) log;
            hd ← slot_get w (cur_slot w);
            if decide (Some p = hd) then
              w1 ← slot_set (cur_slot w) (next tp) w;
              w2 ← free p w1;
              hd1 ← slot_get w2 (cur_slot w2);
              w3 ← match hd1 with
                   | Some _ => wr (with_prev None) hd1 w2
                   | None => Ok w2
                   end;
              hd2 ← slot_get w3 (cur_slot w3);
              tick_loop fuel' w3 hd2 log'
            else
              w1 ← wr (with_next (next tp)) (prev tp) w;
              t1 ← rd w1 (Some p);
              w2 ← match next t1 with
                   | Some _ => wr (with_prev (prev t1)) (next t1) w1
                   | None => Ok w1
                   end;
              t2 ← rd w2 (Some p);
              w3 ← free p w2;
              tick_loop fuel' w3 (next t2) log'
      end
  end.

(** [tick()] *)
Definition tick (w : time_wheel) : result (list fired * time_wheel) :=
  tmp ← slot_get w (cur_slot w);
  '(log, w') ← tick_loop (S (size (mem w))) w tmp [];
  Ok (log, set_cur_slot (Z.rem (cur_slot w' + 1) N) w').

(** The [while(tmp)] loop of the destructor for the slot [i]. *)
Fixpoint destroy_slot (fuel : nat) (w : Wheel.time_wheel) (i : Z)
    (tmp : option nat) : result Wheel.time_wheel :=
  match tmp with
  | None => Ok w
  | Some p =>
      match fuel with
      | O => NoFuel
      | S fuel' =>
          tp ← Wheel.rd w (Some p);
          w1 ← Wheel.slot_set i (Wheel.next tp) w;
          w2 ← Wheel.free p w1;
          hd ← Wheel.slot_get w2 i;
          destroy_slot fuel' w2 i hd
      end
  end.

(** The [for(int i = 0; i < N; ++i)] loop of the destructor; [n] slots
    are left. *)
Fixpoint destroy_slots (n : nat) (i : Z) (w : Wheel.time_wheel)
    : result Wheel.time_wheel :=
  match n with
  | O => Ok w
  | S n' =>
      tmp ← Wheel.slot_get w i;
      w' ← destroy_slot (size (Wheel.mem w)) w i tmp;
      destroy_slots n' (i + 1) w'
  end.

(** [~time_wheel()]; the result is the free store the wheel object
    leaves behind. *)
Definition destroy (w : Wheel.time_wheel) : result (gmap nat Wheel.tw_timer) :=
  w' ← destroy_slots (Z.to_nat Wheel.N) 0 w;
  Ok (Wheel.mem w').

End Wheel.

(** ** The host's side of the three interfaces

    What a caller does around the member functions: allocate a timer and
    hand it over, assign the callback of a wheel timer after [add_timer]
    returned it, change [expire] before [adjust_timer], call [tick]
    repeatedly. *)

(** [t = new util_timer; t->expire = e; t->cb_func = cb; t->user_data = d;
    lst.add_timer(t)] *)
Definition lst_schedule (s : Lst.sort_timer_lst) (e : Z) (cb : callback)
    (d : client_data) : result (nat * Lst.sort_timer_lst) :=
  let '(p, s1) := Lst.alloc (Lst.util_timer_new e (Some cb) d) s in
  s2 ← Lst.add_timer s1 (Some p);
  Ok (p, s2).

(** [t->expire = e; lst.adjust_timer(t)] *)
Definition lst_adjust (s : Lst.sort_timer_lst) (t : option nat) (e : Z)
    : result Lst.sort_timer_lst :=
  s1 ← Lst.wr (Lst.with_expire e) t s;
  Lst.adjust_timer s1 t.

(** [t = new heap_timer; ...; heap.add_timer(t)] *)
Definition heap_schedule (h : Heap.time_heap) (e : Z) (cb : option callback)
    (d : client_data) : result (nat * Heap.time_heap) :=
  let '(p, h1) := Heap.alloc (Heap.mk_heap_timer e cb d) h in
  h2 ← Heap.add_timer h1 (Some p);
  Ok (p, h2).

(** [t = wheel.add_timer(timeout); if (t) { t->cb_func = cb;
    t->user_data = d; }] *)
Definition wheel_schedule (w : Wheel.time_wheel) (timeout : Z) (cb : callback)
    (d : client_data) : result (option nat * Wheel.time_wheel) :=
  '(p, w1) ← Wheel.add_timer w timeout;
  match p with
  | None => Ok (None, w1)
  | Some _ =>
      w2 ← Wheel.wr (Wheel.with_cb (Some cb) d) p w1;
      Ok (p, w2)
  end.

(** [n] calls of the wheel's [tick()] in a row, with all the callback
    invocations they made, in order. *)
Fixpoint wheel_ticks (n : nat) (w : Wheel.time_wheel)
    : result (list fired * Wheel.time_wheel) :=
  match n with
  | O => Ok ([], w)
  | S k =>
      '(l1, w1) ← Wheel.tick w;
      '(l2, w2) ← wheel_ticks k w1;
      Ok (l1 ++ l2, w2)
  end.

(** How often a timer's callback occurs in a trace. *)
Definition times_fired (p : nat) (log : list fired) : nat :=
  length (filter (λ f, f_timer f = p) log).

(** The spec's slot formula: [(c + max(1, t/SI)) mod N]. *)
Definition spec_slot (c t : Z) : Z := (c + Z.max 1 (t / Wheel.SI)) mod Wheel.N.
(** The spec's rotation formula: [max(1, t/SI) / N]. *)
Definition spec_rotation (t : Z) : Z := Z.max 1 (t / Wheel.SI) / Wheel.N.

(** ** Reading the heap as a tree *)

(** The timer pointer and the timer at array position [i], for the
    occupied positions [0 <= i < cur_size]. *)
Definition heap_at (h : Heap.time_heap) (i : Z) : option (nat * Heap.heap_timer) :=
  if decide (0 ≤ i < Heap.cur_size h) then
    match Heap.array h !! Z.to_nat i with
    | Some (Some p) => (λ t, (p, t)) <$> Heap.mem h !! p
    | _ => None
    end
  else None.

(** The timer [p] sits at an occupied position. *)
Definition in_heap (h : Heap.time_heap) (p : nat) : Prop :=
  ∃ i t, heap_at h i = Some (p, t).

(** Every occupied position holds a live timer, no timer sits at two
    positions, and the sizes are those of an array that was allocated. *)
Record heap_wf (h : Heap.time_heap) : Prop := mk_heap_wf {
  wf_capacity : 0 < Heap.capacity h;
  wf_cur_size : 0 ≤ Heap.cur_size h ≤ Heap.capacity h;
  wf_length : length (Heap.array h) = Z.to_nat (Heap.capacity h);
  wf_live : ∀ i, 0 ≤ i < Heap.cur_size h → is_Some (heap_at h i);
  wf_inj : ∀ i j p t t',
      heap_at h i = Some (p, t) → heap_at h j = Some (p, t') → i = j
}.

(** The min-heap property on [expire]: no occupied position other than
    the root is earlier than its parent at [(i-1)/2]. *)
Definition heap_ordered (h : Heap.time_heap) : Prop :=
  ∀ i, 0 < i < Heap.cur_size h →
    ∃ pi ti pp tp,
      heap_at h i = Some (pi, ti)
      ∧ heap_at h ((i - 1) / 2) = Some (pp, tp)
      ∧ Heap.expire tp ≤ Heap.expire ti.

(** What a host does to a heap. *)
Inductive heap_op : Type :=
| HSchedule (e : Z) (cb : option callback) (d : client_data)
| HCancel (i : Z)      (* [del_timer] on the timer at position [i] *)
| HTick (cur : Z).

Definition heap_step (h : Heap.time_heap) (op : heap_op) : result Heap.time_heap :=
  match op with
  | HSchedule e cb d => '(_, h') ← heap_schedule h e cb d; Ok h'
  | HCancel i => Heap.del_timer h (fst <$> heap_at h i)
  | HTick cur => '(_, h') ← Heap.tick h cur; Ok h'
  end.

Fixpoint heap_run (ops : list heap_op) (h : Heap.time_heap)
    : result Heap.time_heap :=
  match ops with
  | [] => Ok h
  | op :: ops' => h' ← heap_step h op; heap_run ops' h'
  end.

(** The expiry at position [i] (0 where the position is not occupied). *)
Definition hkey (h : Heap.time_heap) (i : Z) : Z :=
  from_option (λ x, Heap.expire x.2) 0 (heap_at h i).

(** The state of [add_timer]'s loop: a heap with a hole at [hole] that
    waits for [timer], whose expiry is [k]. *)
Record up_inv (h : Heap.time_heap) (timer : nat) (k hole : Z) : Prop := mk_up_inv {
  up_range : 0 ≤ hole < Heap.cur_size h ∧ Heap.cur_size h ≤ Heap.capacity h;
  up_length : length (Heap.array h) = Z.to_nat (Heap.capacity h);
  up_timer : ∃ tm, Heap.mem h !! timer = Some tm ∧ Heap.expire tm = k;
  up_live : ∀ i, 0 ≤ i < Heap.cur_size h → i ≠ hole →
      ∃ p t, heap_at h i = Some (p, t) ∧ p ≠ timer;
  up_inj : ∀ i j p t t', i ≠ hole → j ≠ hole →
      heap_at h i = Some (p, t) → heap_at h j = Some (p, t') → i = j;
  up_ord : ∀ i, 0 < i < Heap.cur_size h → i ≠ hole → (i - 1) / 2 ≠ hole →
      hkey h ((i - 1) / 2) ≤ hkey h i;
  up_chl : ∀ c, 0 < c < Heap.cur_size h → (c - 1) / 2 = hole →
      k ≤ hkey h c ∧ (0 < hole → hkey h ((hole - 1) / 2) ≤ hkey h c)
}.

(** The timers at the positions other than [hole]. *)
Definition in_heap_but (h : Heap.time_heap) (hole : Z) (p : nat) : Prop :=
  ∃ i t, i ≠ hole ∧ heap_at h i = Some (p, t).

(** The heap [add_timer] sifts up in: grown if it was full, and one
    position longer. *)
Definition add_timer_start (h : Heap.time_heap) : Heap.time_heap :=
  let h1 := if Heap.cur_size h >=? Heap.capacity h then Heap.resize h else h in
  Heap.set_cur_size (Heap.cur_size h1 + 1) h1.

(** The state of [percolate_down]'s loop: a heap with a hole at [hole]
    that waits for [temp], whose expiry is [k]. *)
Record down_inv (h : Heap.time_heap) (temp : nat) (k hole : Z) : Prop := mk_down_inv {
  dn_range : 0 ≤ hole < Heap.cur_size h ∧ Heap.cur_size h ≤ Heap.capacity h;
  dn_length : length (Heap.array h) = Z.to_nat (Heap.capacity h);
  dn_temp : ∃ tm, Heap.mem h !! temp = Some tm ∧ Heap.expire tm = k;
  dn_live : ∀ i, 0 ≤ i < Heap.cur_size h → i ≠ hole →
      ∃ p t, heap_at h i = Some (p, t) ∧ p ≠ temp;
  dn_inj : ∀ i j p t t', i ≠ hole → j ≠ hole →
      heap_at h i = Some (p, t) → heap_at h j = Some (p, t') → i = j;
  dn_ord : ∀ i, 0 < i < Heap.cur_size h → i ≠ hole → (i - 1) / 2 ≠ hole →
      hkey h ((i - 1) / 2) ≤ hkey h i;
  dn_par : 0 < hole →
      hkey h ((hole - 1) / 2) ≤ k
      ∧ ∀ c, 0 < c < Heap.cur_size h → (c - 1) / 2 = hole →
             hkey h ((hole - 1) / 2) ≤ hkey h c
}.

(** The smaller child, as the loop of [percolate_down] picks it. *)
Definition smaller_child (h : Heap.time_heap) (hole : Z) : result Z :=
  let child := hole * 2 + 1 in
  if child <? Heap.cur_size h - 1 then
    p1 ← Heap.arr_get h (child + 1);
    t1 ← Heap.rd h p1;
    p0 ← Heap.arr_get h child;
    t0 ← Heap.rd h p0;
    Ok (if Heap.expire t1 <? Heap.expire t0 then child + 1 else child)
  else Ok child.

(** The heap [pop_timer] sifts down in: the root [p0] deleted, the last
    entry [lst] copied over it, one position shorter. *)
Definition pop_timer_start (h : Heap.time_heap) (p0 : nat) (lst : option nat)
    : Heap.time_heap :=
  Heap.mk_heap (delete p0 (Heap.mem h)) (<[O := lst]> (Heap.array h))
    (Heap.capacity h) (Heap.cur_size h - 1).

(** The call [e] is one that a [tick] at time [cur] owes the heap [h]:
    it is the callback, with its argument, of a timer in the heap that
    has expired. *)
Definition heap_due (h : Heap.time_heap) (cur : Z) (e : fired) : Prop :=
  ∃ t, in_heap h (f_timer e)
       ∧ Heap.mem h !! f_timer e = Some t
       ∧ Heap.expire t ≤ cur
       ∧ Heap.cb_func t = Some (f_cb e)
       ∧ Heap.user_data t = f_arg e.

(** Calls of the heap's [tick()] in a row, one for each clock reading,
    with all the callback invocations they made, in order. *)
Fixpoint heap_ticks (curs : list Z) (h : Heap.time_heap)
    : result (list fired * Heap.time_heap) :=
  match curs with
  | [] => Ok ([], h)
  | cur :: curs' =>
      '(l1, h1) ← Heap.tick h cur;
      '(l2, h2) ← heap_ticks curs' h1;
      Ok (l1 ++ l2, h2)
  end.

(** ** Doubly linked lists in the free store

    The ascending list and every slot of the wheel are doubly linked
    lists threaded through the timers.  [nxt] and [prv] read the two
    link fields of a timer type. *)

Section dll_defs.
Context {T : Type} (nxt prv : T → option nat).

(** The timers at the addresses [l], in this order, form a segment in
    the store [m]: it is entered through the pointer [hd], the first
    timer's back link is [pv], and the last timer's forward link is
    [nx]. *)
Fixpoint dlseg (m : gmap nat T) (pv hd : option nat) (l : list nat)
    (nx : option nat) : Prop :=
  match l with
  | [] => hd = nx
  | p :: l' =>
      hd = Some p
      ∧ ∃ t, m !! p = Some t ∧ prv t = pv ∧ dlseg m (Some p) (nxt t) l' nx
  end.

(** The address of the last timer of a segment, or what precedes it. *)
Definition dl_last (pv : option nat) (l : list nat) : option nat :=
  from_option Some pv (last l).

(** The address of the first timer of a segment, or what follows it. *)
Definition dl_head (l : list nat) (nx : option nat) : option nat :=
  from_option Some nx (head l).

(** A whole list: null at both ends, no timer twice. *)
Definition dll (m : gmap nat T) (hd : option nat) (l : list nat) : Prop :=
  NoDup l ∧ dlseg m None hd l None.
End dll_defs.

(** ** Reading the ascending list *)

(** The list [s] holds exactly the timers at the addresses [l], linked
    in this order; [tail] points to the last of them. *)
Definition lst_inv (s : Lst.sort_timer_lst) (l : list nat) : Prop :=
  dll Lst.next Lst.prev (Lst.mem s) (Lst.head s) l
  ∧ (l ≠ [] → Lst.tail s = last l).

(** What a timer carries apart from its links. *)
Definition lst_data (t : Lst.util_timer) : Z * option callback * client_data :=
  (Lst.expire t, Lst.cb_func t, Lst.user_data t).

(** The expiry of the timer at [p] (0 if there is none). *)
Definition lst_expire (s : Lst.sort_timer_lst) (p : nat) : Z :=
  from_option Lst.expire 0 (Lst.mem s !! p).

(** Every adjacent pair is in order. *)
Fixpoint ascending (es : list Z) : Prop :=
  match es with
  | a :: (b :: _) as rest => a ≤ b ∧ ascending rest
  | _ => True
  end.

(** The list order is ascending in [expire]. *)
Definition lst_sorted (s : Lst.sort_timer_lst) (l : list nat) : Prop :=
  ascending (lst_expire s <$> l).

(** The call [e] is the one a [tick] makes for the timer at [p]. *)
Definition lst_fires (s : Lst.sort_timer_lst) (p : nat) (e : fired) : Prop :=
  ∃ t cb, Lst.mem s !! p = Some t ∧ Lst.cb_func t = Some cb
          ∧ e = Fired p cb (Lst.user_data t).

(** Every timer of the list has its callback set. *)
Definition lst_callbacks (s : Lst.sort_timer_lst) (l : list nat) : Prop :=
  ∀ p t, p ∈ l → Lst.mem s !! p = Some t → is_Some (Lst.cb_func t).

(** ** Reading the wheel *)

(** The remaining rotations of the timer at [p] (0 if there is none). *)
Definition wheel_rotation (w : Wheel.time_wheel) (p : nat) : Z :=
  from_option Wheel.rotation 0 (Wheel.mem w !! p).

(** The timer at [p] is due when the wheel reaches its slot: no rotation
    is left. *)
Definition wheel_due (w : Wheel.time_wheel) (p : nat) : Prop :=
  wheel_rotation w p ≤ 0.

(** The call [e] is the one a [tick] makes for the timer at [p]. *)
Definition wheel_fires (w : Wheel.time_wheel) (p : nat) (e : fired) : Prop :=
  ∃ t cb, Wheel.mem w !! p = Some t ∧ Wheel.cb_func t = Some cb
          ∧ e = Fired p cb (Wheel.user_data t).

(** What a wheel timer carries apart from its links and its rotation. *)
Definition wheel_data (t : Wheel.tw_timer) : Z * option callback * client_data :=
  (Wheel.time_slot t, Wheel.cb_func t, Wheel.user_data t).

(** The wheel [w] holds, slot by slot, exactly the timers at the
    addresses [ls], linked in this order; no timer is in two slots; each
    timer records the slot it is in. *)
Definition wheel_inv (w : Wheel.time_wheel) (ls : list (list nat)) : Prop :=
  0 ≤ Wheel.cur_slot w < Wheel.N
  ∧ length (Wheel.slots w) = Z.to_nat Wheel.N
  ∧ Forall2 (λ hd l, dlseg Wheel.next Wheel.prev (Wheel.mem w) None hd l None)
      (Wheel.slots w) ls
  ∧ NoDup (mjoin ls)
  ∧ (∀ i l p t, ls !! i = Some l → p ∈ l → Wheel.mem w !! p = Some t →
                Wheel.time_slot t = Z.of_nat i).

(** Every timer in the wheel has its callback set. *)
Definition wheel_callbacks (w : Wheel.time_wheel) (ls : list (list nat)) : Prop :=
  ∀ p t, p ∈ mjoin ls → Wheel.mem w !! p = Some t → is_Some (Wheel.cb_func t).

(** The fields of a wheel timer that no list operation touches. *)
Definition wheel_payload (t : Wheel.tw_timer)
    : Z * (Z * option callback * client_data) :=
  (Wheel.rotation t, wheel_data t).

(** The timers of a slot list that stay for another rotation, and those
    that are due. *)
Definition wheel_kept (w : Wheel.time_wheel) (l : list nat) : list nat :=
  filter (λ q, 0 < wheel_rotation w q) l.
Definition wheel_expired (w : Wheel.time_wheel) (l : list nat) : list nat :=
  filter (λ q, wheel_rotation w q ≤ 0) l.

(** What the loop of [tick] has done when it has gone through [rest],
    the part of the current slot's list behind [done]: [w'] is the wheel
    it leaves and [log'] are the calls it made. *)
Record wheel_loop_post (w : Wheel.time_wheel) (done rest : list nat)
    (w' : Wheel.time_wheel) (log' : list fired) : Prop := mk_wheel_loop_post {
  wl_cur : Wheel.cur_slot w' = Wheel.cur_slot w;
  wl_slots : Wheel.slots w'
    = <[Z.to_nat (Wheel.cur_slot w) := dl_head (done ++ wheel_kept w rest) None]>
        (Wheel.slots w);
  wl_seg : dlseg Wheel.next Wheel.prev (Wheel.mem w') None
    (dl_head (done ++ wheel_kept w rest) None) (done ++ wheel_kept w rest) None;
  wl_fired : Forall2 (wheel_fires w) (wheel_expired w rest) log';
  wl_gone : ∀ p, p ∈ wheel_expired w rest → Wheel.mem w' !! p = None;
  wl_kept : ∀ p t, p ∈ wheel_kept w rest → Wheel.mem w !! p = Some t →
    ∃ t', Wheel.mem w' !! p = Some t'
          ∧ Wheel.rotation t' = Wheel.rotation t - 1
          ∧ wheel_data t' = wheel_data t;
  wl_done : ∀ p, p ∈ done →
    wheel_payload <$> Wheel.mem w' !! p = wheel_payload <$> Wheel.mem w !! p;
  wl_frame : ∀ p, p ∉ done ++ rest → Wheel.mem w' !! p = Wheel.mem w !! p
}.

(** Calls of the list's [tick()] in a row, one for each clock reading,
    with all the callback invocations they made, in order. *)
Fixpoint lst_ticks (curs : list Z) (s : Lst.sort_timer_lst)
    : result (list fired * Lst.sort_timer_lst) :=
  match curs with
  | [] => Ok ([], s)
  | cur :: curs' =>
      '(l1, s1) ← Lst.tick s cur;
      '(l2, s2) ← lst_ticks curs' s1;
      Ok (l1 ++ l2, s2)
  end.

(** ** Small states to try the statements on *)

(** A list holding the timer at 1 (expiry 5) before the timer at 0
    (expiry 10), and a new timer at 2 (expiry 7) not yet added. *)
Definition lst_ex : Lst.sort_timer_lst :=
  Lst.mk_lst
    (<[2%nat := Lst.util_timer_new 7 (Some 3%nat) 3%nat]>
       (<[1%nat := Lst.mk_util_timer 5 (Some 2%nat) 2%nat None (Some 0%nat)]>
          (<[0%nat := Lst.mk_util_timer 10 (Some 1%nat) 1%nat (Some 1%nat) None]> ∅)))
    (Some 1%nat) (Some 0%nat).

(** The operations that build a heap of three timers, the one at the
    second position cancelled. *)
Definition heap_ex_ops : list heap_op :=
  [HSchedule 5 (Some 1%nat) 0%nat; HSchedule 1 (Some 2%nat) 0%nat;
   HSchedule 3 (Some 3%nat) 0%nat; HCancel 1].

(** The heap they build from an empty heap of capacity 2: the timers at
    1, 0 and 2 with expiries 1, 5 and 3, the timer at 0 tombstoned. *)
Definition heap_ex : Heap.time_heap :=
  Heap.mk_heap
    (<[0%nat := Heap.mk_heap_timer 5 None 0%nat]>
       (<[2%nat := Heap.mk_heap_timer 3 (Some 3%nat) 0%nat]>
          (<[1%nat := Heap.mk_heap_timer 1 (Some 2%nat) 0%nat]>
             (<[0%nat := Heap.mk_heap_timer 5 (Some 1%nat) 0%nat]> ∅))))
    [Some 1%nat; Some 0%nat; Some 2%nat; None] 4 3.

(** A heap with a single timer. *)
Definition heap_ex1 : Heap.time_heap :=
  Heap.mk_heap (<[0%nat := Heap.mk_heap_timer 5 (Some 1%nat) 0%nat]> ∅)
    [Some 0%nat; None] 2 1.

(** The slot lists of the wheel below: the timers at 1 and 0 in slot 1. *)
Definition wheel_ex_lists : list (list nat) :=
  <[1%nat := [1%nat; 0%nat]]> (replicate 60 []).

(** A wheel at slot 1 whose slot 1 holds the timer at 1 (one rotation
    left) before the timer at 0 (due). *)
Definition wheel_ex : Wheel.time_wheel :=
  Wheel.mk_wheel
    (<[1%nat := Wheel.mk_tw_timer 1 1 (Some 8%nat) 9%nat (Some 0%nat) None]>
       (<[0%nat := Wheel.mk_tw_timer 0 1 (Some 6%nat) 7%nat None (Some 1%nat)]> ∅))
    (<[1%nat := Some 1%nat]> (replicate 60 None)) 1.

(** ** More readings of the containers *)

(** The expiry of the heap timer at [p] (0 if there is none). *)
Definition heap_expire (h : Heap.time_heap) (p : nat) : Z :=
  from_option Heap.expire 0 (Heap.mem h !! p).

(** The timers a trace was made for, in the order of the calls. *)
Definition fired_timers (log : list fired) : list nat := f_timer <$> log.

(** The min-heap property from position [lo] on: every occupied position
    whose parent is at [lo] or behind it is no earlier than its parent.
    The second constructor establishes it for smaller and smaller [lo]. *)
Definition heap_ordered_from (lo : Z) (h : Heap.time_heap) : Prop :=
  ∀ i, 0 < i < Heap.cur_size h → lo ≤ (i - 1) / 2 →
    ∃ pi ti pp tp,
      heap_at h i = Some (pi, ti)
      ∧ heap_at h ((i - 1) / 2) = Some (pp, tp)
      ∧ Heap.expire tp ≤ Heap.expire ti.

(** The state of [percolate_down]'s loop when it was called for the
    position [lo] of an array that is a heap only behind [lo]: a hole at
    [hole], in the subtree of [lo], waits for [temp], whose expiry is
    [k]. *)
Record sift_inv (lo : Z) (h : Heap.time_heap) (temp : nat) (k hole : Z)
    : Prop := mk_sift_inv {
  sf_range : 0 ≤ lo ∧ lo ≤ hole < Heap.cur_size h
             ∧ Heap.cur_size h ≤ Heap.capacity h
             ∧ (hole = lo ∨ lo ≤ (hole - 1) / 2);
  sf_length : length (Heap.array h) = Z.to_nat (Heap.capacity h);
  sf_temp : ∃ tm, Heap.mem h !! temp = Some tm ∧ Heap.expire tm = k;
  sf_live : ∀ i, 0 ≤ i < Heap.cur_size h → i ≠ hole →
      ∃ p t, heap_at h i = Some (p, t) ∧ p ≠ temp;
  sf_inj : ∀ i j p t t', i ≠ hole → j ≠ hole →
      heap_at h i = Some (p, t) → heap_at h j = Some (p, t') → i = j;
  sf_ord : ∀ i, 0 < i < Heap.cur_size h → i ≠ hole → (i - 1) / 2 ≠ hole →
      lo ≤ (i - 1) / 2 → hkey h ((i - 1) / 2) ≤ hkey h i;
  sf_par : hole ≠ lo →
      hkey h ((hole - 1) / 2) ≤ k
      ∧ ∀ c, 0 < c < Heap.cur_size h → (c - 1) / 2 = hole →
             hkey h ((hole - 1) / 2) ≤ hkey h c
}.

(** How many calls of [tick] pass over the timer [t] of the wheel [w]
    before the call that finds it due: the slots between the current one
    and the timer's, and a full turn for every rotation left. *)
Definition wheel_wait (w : Wheel.time_wheel) (t : Wheel.tw_timer) : Z :=
  (Wheel.time_slot t - Wheel.cur_slot w) `mod` Wheel.N
  + Wheel.N * Wheel.rotation t.

(** ** More small states *)

(** An empty heap of capacity 2 over a store that holds a timer not yet
    added. *)
Definition heap_ex0 : Heap.time_heap :=
  Heap.time_heap_new (<[0%nat := Heap.mk_heap_timer 5 (Some 1%nat) 0%nat]> ∅) 2.

(** Three timers with the expiries 5, 3 and 1, and an array of pointers
    to them for the second constructor. *)
Definition heap_init_mem : gmap nat Heap.heap_timer :=
  <[2%nat := Heap.mk_heap_timer 1 (Some 3%nat) 0%nat]>
    (<[1%nat := Heap.mk_heap_timer 3 (Some 2%nat) 0%nat]>
       (<[0%nat := Heap.mk_heap_timer 5 (Some 1%nat) 0%nat]> ∅)).
Definition heap_init_array : list (option nat) :=
  [Some 0%nat; Some 1%nat; Some 2%nat].

(** A list of one timer whose callback was never assigned. *)
Definition lst_ex_nocb : Lst.sort_timer_lst :=
  Lst.mk_lst (<[0%nat := Lst.util_timer_new 5 None 0%nat]> ∅)
    (Some 0%nat) (Some 0%nat).

(** A wheel at slot 1 whose slot 1 holds one timer, due, whose callback
    was never assigned. *)
Definition wheel_ex_nocb_lists : list (list nat) :=
  <[1%nat := [0%nat]]> (replicate 60 []).
Definition wheel_ex_nocb : Wheel.time_wheel :=
  Wheel.mk_wheel (<[0%nat := Wheel.tw_timer_new 0 1]> ∅)
    (<[1%nat := Some 0%nat]> (replicate 60 None)) 1.

(** ** What [tick] relies on *)

(** Every timer of the list that has expired at time [cur] has its
    callback set.  These are the timers whose [cb_func] the list's [tick]
    at [cur] calls. *)
Definition lst_callbacks_due (cur : Z) (s : Lst.sort_timer_lst) (l : list nat)
    : Prop :=
  ∀ p t, p ∈ l → Lst.mem s !! p = Some t → Lst.expire t ≤ cur →
         is_Some (Lst.cb_func t).

(** Every timer of the current slot that is due has its callback set.
    These are the timers whose [cb_func] the wheel's [tick] calls. *)
Definition wheel_callbacks_due (w : Wheel.time_wheel) (ls : list (list nat))
    : Prop :=
  ∀ l p t, ls !! Z.to_nat (Wheel.cur_slot w) = Some l → p ∈ l →
           Wheel.mem w !! p = Some t → Wheel.rotation t ≤ 0 →
           is_Some (Wheel.cb_func t).

(** The largest [int], for an [int] of 32 bits. *)
Definition INT_MAX : Z := 2147483647.

(** A list of two timers that have both expired at time 9: the one in
    front (expiry 5) without a callback, the one behind it (expiry 6)
    with one. *)
Definition lst_ex_nocb2 : Lst.sort_timer_lst :=
  Lst.mk_lst
    (<[1%nat := Lst.mk_util_timer 6 (Some 4%nat) 5%nat (Some 0%nat) None]>
       (<[0%nat := Lst.mk_util_timer 5 None 0%nat None (Some 1%nat)]> ∅))
    (Some 0%nat) (Some 1%nat).

(** The list [lst_ex] after the host has raised the expiry of its first
    timer from 5 to 20, before [adjust_timer] is called. *)
Definition lst_ex_late : Lst.sort_timer_lst :=
  Lst.mk_lst
    (<[2%nat := Lst.util_timer_new 7 (Some 3%nat) 3%nat]>
       (<[1%nat := Lst.mk_util_timer 20 (Some 2%nat) 2%nat None (Some 0%nat)]>
          (<[0%nat := Lst.mk_util_timer 10 (Some 1%nat) 1%nat (Some 1%nat) None]> ∅)))
    (Some 1%nat) (Some 0%nat).

(** A full heap of capacity 2 (the timers at 1 and 0, expiries 3 and 5)
    over a store that also holds a timer not yet added, at 2, which
    expires before both. *)
Definition heap_ex_full : Heap.time_heap :=
  Heap.mk_heap
    (<[2%nat := Heap.mk_heap_timer 1 (Some 3%nat) 0%nat]>
       (<[1%nat := Heap.mk_heap_timer 3 (Some 2%nat) 0%nat]>
          (<[0%nat := Heap.mk_heap_timer 5 (Some 1%nat) 0%nat]> ∅)))
    [Some 1%nat; Some 0%nat] 2 2.

(** The number of calls of the wheel's [tick] that come before the call
    that invokes the timer [t]: the slots between the current one and the
    timer's, and a full turn for every rotation left (a rotation count
    below zero counts as none). *)
Definition wheel_due_in (w : Wheel.time_wheel) (t : Wheel.tw_timer) : Z :=
  (Wheel.time_slot t - Wheel.cur_slot w) `mod` Wheel.N
  + Wheel.N * Z.max 0 (Wheel.rotation t).

(** Every timer of the wheel that one of the next [n] calls of [tick]
    finds due has its callback set. *)
Definition wheel_callbacks_within (n : nat) (w : Wheel.time_wheel)
    (ls : list (list nat)) : Prop :=
  ∀ p t, p ∈ mjoin ls → Wheel.mem w !! p = Some t →
         wheel_due_in w t < Z.of_nat n → is_Some (Wheel.cb_func t).

(** A wheel at slot 1 whose slot 1 holds two timers that are both due:
    the one in front, at 1, with a null callback, the one behind it, at
    0, with a callback. *)
Definition wheel_ex_nocb2 : Wheel.time_wheel :=
  Wheel.mk_wheel
    (<[1%nat := Wheel.mk_tw_timer 0 1 None 9%nat (Some 0%nat) None]>
       (<[0%nat := Wheel.mk_tw_timer 0 1 (Some 6%nat) 7%nat None (Some 1%nat)]> ∅))
    (<[1%nat := Some 1%nat]> (replicate 60 None)) 1.

(** * Properties *)

(** ** The heap: array accesses *)

Ltac zlia := Z.to_euclidean_division_equations; lia.

Lemma arr_get_Ok (h : Heap.time_heap) (i : Z) (p : option nat) :
  Heap.arr_get h i = Ok p ↔
  0 ≤ i < Heap.capacity h ∧ Heap.array h !! Z.to_nat i = Some p.
Proof.
  unfold Heap.arr_get. case_decide.
  - destruct (Heap.array h !! Z.to_nat i); split; intros; simplify_eq; naive_solver.
  - split; [done | tauto].
Qed.

Lemma arr_get_in_range (h : Heap.time_heap) (i : Z) :
  length (Heap.array h) = Z.to_nat (Heap.capacity h) →
  0 ≤ i < Heap.capacity h →
  ∃ p, Heap.arr_get h i = Ok p ∧ Heap.array h !! Z.to_nat i = Some p.
Proof.
  intros Hlen Hi.
  destruct (lookup_lt_is_Some_2 (Heap.array h) (Z.to_nat i)) as [p Hp]; [lia|].
  exists p. split; [|done]. apply arr_get_Ok. done.
Qed.

Lemma arr_set_in_range (h : Heap.time_heap) (i : Z) (p : option nat) :
  length (Heap.array h) = Z.to_nat (Heap.capacity h) →
  0 ≤ i < Heap.capacity h →
  Heap.arr_set i p h = Ok (Heap.set_array (<[Z.to_nat i := p]> (Heap.array h)) h).
Proof.
  intros Hlen Hi. unfold Heap.arr_set.
  rewrite decide_True by done. rewrite decide_True by lia. done.
Qed.

Lemma heap_at_Some (h : Heap.time_heap) (i : Z) (p : nat) (t : Heap.heap_timer) :
  heap_at h i = Some (p, t) ↔
  0 ≤ i < Heap.cur_size h
  ∧ Heap.array h !! Z.to_nat i = Some (Some p)
  ∧ Heap.mem h !! p = Some t.
Proof.
  unfold heap_at. case_decide; [|split; [done | tauto]].
  destruct (Heap.array h !! Z.to_nat i) as [[q|]|]; [|naive_solver..].
  destruct (Heap.mem h !! q) as [t'|] eqn:Hq; simpl; [|naive_solver].
  split; [intros [= -> ->]; done | intros (_ & [= ->] & Ht)]. by simplify_eq.
Qed.

Lemma heap_at_set_other (h : Heap.time_heap) (i j : Z) (q : option nat) :
  0 ≤ i → 0 ≤ j → i ≠ j →
  heap_at (Heap.set_array (<[Z.to_nat j := q]> (Heap.array h)) h) i = heap_at h i.
Proof.
  intros Hi Hj Hne. unfold heap_at; simpl.
  rewrite list_lookup_insert_ne by lia. done.
Qed.

Lemma heap_at_set_other' (h : Heap.time_heap) (i j : Z) (q : option nat) :
  0 ≤ j → i ≠ j →
  heap_at (Heap.set_array (<[Z.to_nat j := q]> (Heap.array h)) h) i = heap_at h i.
Proof.
  intros Hj Hne. destruct (decide (0 ≤ i)); [by apply heap_at_set_other|].
  unfold heap_at; simpl. rewrite !decide_False by lia. done.
Qed.

Lemma heap_at_set_same (h : Heap.time_heap) (j : Z) (p : nat) :
  0 ≤ j < Heap.cur_size h →
  (Z.to_nat j < length (Heap.array h))%nat →
  heap_at (Heap.set_array (<[Z.to_nat j := Some p]> (Heap.array h)) h) j
  = (λ t, (p, t)) <$> Heap.mem h !! p.
Proof.
  intros Hj Hlen. unfold heap_at; simpl.
  rewrite decide_True by done. rewrite list_lookup_insert_eq by done. done.
Qed.

Lemma hkey_at (h : Heap.time_heap) (i : Z) (p : nat) (t : Heap.heap_timer) :
  heap_at h i = Some (p, t) → hkey h i = Heap.expire t.
Proof. unfold hkey. by intros ->. Qed.

(** ** The heap: sifting up *)

Lemma up_inv_parent_live (h : Heap.time_heap) (timer : nat) (k hole : Z) :
  up_inv h timer k hole → 0 < hole →
  ∃ pp tp, heap_at h ((hole - 1) ÷ 2) = Some (pp, tp)
           ∧ Heap.arr_get h ((hole - 1) ÷ 2) = Ok (Some pp)
           ∧ Heap.rd h (Some pp) = Ok tp
           ∧ pp ≠ timer.
Proof.
  intros Hinv Hpos. destruct Hinv as [Hr Hlen _ Hlive _ _ _].
  destruct (Hlive ((hole - 1) ÷ 2)) as (pp & tp & Hat & Hne); [zlia..|].
  exists pp, tp. split; [done|].
  apply heap_at_Some in Hat as (Hi & Ha & Hm).
  split; [apply arr_get_Ok; split; [lia | done]|].
  split; [|done]. unfold Heap.rd. by rewrite Hm.
Qed.

(** Leaving the loop: [timer] is written into the hole. *)
Lemma up_finish (h : Heap.time_heap) (timer : nat) (k hole : Z) :
  up_inv h timer k hole →
  (0 < hole → hkey h ((hole - 1) / 2) ≤ k) →
  ∃ h', Heap.arr_set hole (Some timer) h = Ok h'
        ∧ Heap.mem h' = Heap.mem h
        ∧ Heap.cur_size h' = Heap.cur_size h
        ∧ heap_wf h' ∧ heap_ordered h'
        ∧ (∀ p, in_heap h' p ↔ p = timer ∨ in_heap_but h hole p).
Proof.
  intros [Hr Hlen (tm & Htm & Hk) Hlive Hinj Hord Hchl] Hpar.
  eexists. split; [apply arr_set_in_range; [done | lia]|].
  set (h' := Heap.set_array _ h).
  assert (Hat_hole : heap_at h' hole = Some (timer, tm)).
  { unfold h'. rewrite heap_at_set_same by lia. by rewrite Htm. }
  assert (Hat_other : ∀ i, i ≠ hole → heap_at h' i = heap_at h i).
  { intros i Hi. unfold h'. apply heap_at_set_other'; lia. }
  assert (Hkey_hole : hkey h' hole = k).
  { by rewrite (hkey_at _ _ _ _ Hat_hole). }
  assert (Hkey_other : ∀ i, i ≠ hole → hkey h' i = hkey h i).
  { intros i Hi. unfold hkey. by rewrite Hat_other. }
  split; [done|]. split; [done|].
  assert (Hlive' : ∀ i, 0 ≤ i < Heap.cur_size h' → is_Some (heap_at h' i)).
  { intros i Hi. destruct (decide (i = hole)) as [->|Hne].
    - by rewrite Hat_hole.
    - rewrite Hat_other by done.
      destruct (Hlive i) as (p & t & -> & _); done. }
  split; [|split].
  - split; simpl; [lia | lia | by rewrite length_insert | done |].
    intros i j p t t' Hi Hj.
    destruct (decide (i = hole)) as [->|Hni], (decide (j = hole)) as [->|Hnj];
      [done|..].
    + rewrite Hat_hole in Hi. rewrite Hat_other in Hj by done. simplify_eq.
      apply heap_at_Some in Hj as Hj'.
      destruct (Hlive j) as (p' & t'' & Hat & Hne); [simpl in *; lia | done|].
      congruence.
    + rewrite Hat_hole in Hj. rewrite Hat_other in Hi by done. simplify_eq.
      apply heap_at_Some in Hi as Hi'.
      destruct (Hlive i) as (p' & t'' & Hat & Hne); [simpl in *; lia | done|].
      congruence.
    + rewrite Hat_other in Hi, Hj by done. eauto.
  - intros i Hi. simpl in Hi.
    destruct (Hlive' i) as [[pi ti] Hpi]; [simpl; lia|].
    destruct (Hlive' ((i - 1) / 2)) as [[pp tp] Hpp]; [simpl; zlia|].
    exists pi, ti, pp, tp. split; [done|]. split; [done|].
    rewrite <- (hkey_at _ _ _ _ Hpi), <- (hkey_at _ _ _ _ Hpp).
    destruct (decide (i = hole)) as [->|Hni].
    + rewrite Hkey_hole, Hkey_other by zlia. apply Hpar. lia.
    + destruct (decide ((i - 1) / 2 = hole)) as [Hp|Hnp].
      * rewrite Hp, Hkey_hole, Hkey_other by done. by apply Hchl.
      * rewrite !Hkey_other by done. by apply Hord.
  - intros p. split.
    + intros (i & t & Hi). destruct (decide (i = hole)) as [->|Hni].
      * rewrite Hat_hole in Hi. left. congruence.
      * right. exists i, t. by rewrite <- Hat_other.
    + intros [->|(i & t & Hi & Hat)].
      * by exists hole, tm.
      * exists i, t. by rewrite Hat_other.
Qed.

(** One turn of the loop: the parent moves down into the hole. *)
Lemma up_step (h : Heap.time_heap) (timer : nat) (k hole : Z)
    (pp : nat) (tp : Heap.heap_timer) :
  up_inv h timer k hole → 0 < hole →
  heap_at h ((hole - 1) ÷ 2) = Some (pp, tp) →
  k < Heap.expire tp →
  ∃ h', Heap.arr_set hole (Some pp) h = Ok h'
        ∧ Heap.mem h' = Heap.mem h
        ∧ Heap.cur_size h' = Heap.cur_size h
        ∧ up_inv h' timer k ((hole - 1) ÷ 2)
        ∧ (∀ p, in_heap_but h' ((hole - 1) ÷ 2) p ↔ in_heap_but h hole p).
Proof.
  intros [Hr Hlen (tm & Htm & Hk) Hlive Hinj Hord Hchl] Hpos Hpp Hlt.
  assert (Hq : (hole - 1) ÷ 2 = (hole - 1) / 2) by (apply Z.quot_div_nonneg; lia).
  rewrite Hq in *. set (par := (hole - 1) / 2) in *.
  assert (Hpar : 0 ≤ par < hole) by (unfold par; zlia).
  eexists. split; [apply arr_set_in_range; [done | lia]|].
  set (h' := Heap.set_array _ h).
  apply heap_at_Some in Hpp as Hpp'. destruct Hpp' as (_ & Happ & Hmpp).
  assert (Hat_hole : heap_at h' hole = Some (pp, tp)).
  { unfold h'. rewrite heap_at_set_same by lia. by rewrite Hmpp. }
  assert (Hat_other : ∀ i, i ≠ hole → heap_at h' i = heap_at h i).
  { intros i Hi. unfold h'. apply heap_at_set_other'; lia. }
  assert (Hkey_hole : hkey h' hole = Heap.expire tp).
  { by rewrite (hkey_at _ _ _ _ Hat_hole). }
  assert (Hkey_par : hkey h par = Heap.expire tp).
  { by rewrite (hkey_at _ _ _ _ Hpp). }
  assert (Hkey_other : ∀ i, i ≠ hole → hkey h' i = hkey h i).
  { intros i Hi. unfold hkey. by rewrite Hat_other. }
  split; [done|]. split; [done|]. split; [split|].
  - simpl. lia.
  - simpl. by rewrite length_insert.
  - by exists tm.
  - intros i Hi Hne. simpl in Hi.
    destruct (decide (i = hole)) as [->|Hnh].
    + exists pp, tp. split; [done|].
      destruct (Hlive par) as (p' & t' & Hat & Hnt); [lia..|]. congruence.
    + rewrite Hat_other by done. apply Hlive; done.
  - intros i j p t t' Hi Hj Hati Hatj.
    destruct (decide (i = hole)) as [->|Hni], (decide (j = hole)) as [->|Hnj];
      [done|..].
    + rewrite Hat_hole in Hati. rewrite Hat_other in Hatj by done.
      injection Hati as <- <-.
      exfalso. apply Hj. symmetry. eapply (Hinj par j); [lia | done..].
    + rewrite Hat_hole in Hatj. rewrite Hat_other in Hati by done.
      injection Hatj as <- <-.
      exfalso. apply Hi. eapply (Hinj i par); [done | lia | done..].
    + rewrite Hat_other in Hati, Hatj by done. eauto.
  - intros i Hi Hni Hnp. simpl in Hi.
    destruct (decide (i = hole)) as [->|Hnh]; [done|].
    destruct (decide ((i - 1) / 2 = hole)) as [Hph|Hnph].
    + rewrite Hph, Hkey_hole, Hkey_other by done.
      rewrite <- Hkey_par. apply Hchl; [done..|lia].
    + rewrite !Hkey_other by done. apply Hord; done.
  - intros c Hc Hcp. simpl in Hc.
    assert (Hgp : 0 < par → hkey h ((par - 1) / 2) ≤ hkey h par).
    { intros Hp. apply Hord; [lia | lia | zlia]. }
    destruct (decide (c = hole)) as [->|Hnh].
    + rewrite Hkey_hole. split; [lia|]. intros Hp.
      rewrite Hkey_other by zlia. rewrite <- Hkey_par. by apply Hgp.
    + rewrite Hkey_other by done.
      assert (hkey h par ≤ hkey h c).
      { rewrite <- Hcp. apply Hord; [done | done | lia]. }
      split; [lia|]. intros Hp. rewrite Hkey_other by zlia.
      specialize (Hgp Hp). lia.
  - intros p. unfold in_heap_but. split.
    + intros (i & t & Hi & Hat). destruct (decide (i = hole)) as [->|Hnh].
      * rewrite Hat_hole in Hat. injection Hat as <- <-.
        exists par, tp. split; [lia | done].
      * exists i, t. by rewrite <- Hat_other.
    + intros (i & t & Hi & Hat). destruct (decide (i = par)) as [->|Hnp].
      * exists hole, t. split; [lia|]. congruence.
      * exists i, t. split; [done|]. by rewrite Hat_other.
Qed.

Ltac mstep := cbn [mbind result_mbind result_bind].

Lemma add_timer_loop_unfold (fuel : nat) (h : Heap.time_heap) (timer : nat) (hole : Z) :
  Heap.add_timer_loop fuel h timer hole =
  if hole >? 0 then
    match fuel with
    | O => NoFuel
    | S fuel' =>
        pp ← Heap.arr_get h ((hole - 1) ÷ 2);
        tp ← Heap.rd h pp;
        tm ← Heap.rd h (Some timer);
        if Heap.expire tp <=? Heap.expire tm then Heap.arr_set hole (Some timer) h
        else
          h' ← Heap.arr_set hole pp h;
          Heap.add_timer_loop fuel' h' timer ((hole - 1) ÷ 2)
    end
  else Heap.arr_set hole (Some timer) h.
Proof. destruct fuel; reflexivity. Qed.

(** The loop of [add_timer] ends, and it ends with a heap. *)
Lemma add_timer_loop_spec (fuel : nat) :
  ∀ (h : Heap.time_heap) (timer : nat) (k hole : Z),
  up_inv h timer k hole → (Z.to_nat hole ≤ fuel)%nat →
  ∃ h', Heap.add_timer_loop fuel h timer hole = Ok h'
        ∧ Heap.mem h' = Heap.mem h
        ∧ Heap.cur_size h' = Heap.cur_size h
        ∧ heap_wf h' ∧ heap_ordered h'
        ∧ (∀ p, in_heap h' p ↔ p = timer ∨ in_heap_but h hole p).
Proof.
  induction fuel as [|fuel IH]; intros h timer k hole Hinv Hfuel;
    rewrite add_timer_loop_unfold.
  - assert (hole = 0) as -> by (destruct Hinv as [? _ _ _ _ _ _]; lia).
    simpl. apply (up_finish h timer k 0); [done | lia].
  - destruct (Z.gtb_spec hole 0) as [Hpos|Hle].
    + destruct (up_inv_parent_live _ _ _ _ Hinv Hpos)
        as (pp & tp & Hat & -> & Hrd & Hne).
      mstep. rewrite Hrd. mstep.
      destruct (up_timer _ _ _ _ Hinv) as (tm & Htm & Hk).
      replace (Heap.rd h (Some timer)) with (Ok tm)
        by (unfold Heap.rd; by rewrite Htm).
      mstep.
      destruct (Z.leb_spec (Heap.expire tp) (Heap.expire tm)) as [Hok|Hgt].
      * apply (up_finish h timer k hole); [done|]. intros _.
        rewrite <- Z.quot_div_nonneg by lia.
        rewrite (hkey_at _ _ _ _ Hat). lia.
      * destruct (up_step h timer k hole pp tp) as (h1 & -> & Hm & Hs & Hinv1 & Hin);
          [done | done | done | lia |].
        mstep.
        destruct (IH h1 timer k ((hole - 1) ÷ 2) Hinv1) as (h' & -> & Hm' & Hs' & Hwf & Hord & Hin');
          [zlia|].
        exists h'. split; [done|]. split; [congruence|]. split; [congruence|].
        split; [done|]. split; [done|].
        intros p. rewrite Hin'. by rewrite Hin.
    + assert (hole = 0) as -> by (destruct Hinv as [? _ _ _ _ _ _]; lia).
      apply (up_finish h timer k 0); [done | lia].
Qed.

(** ** The heap: [add_timer] *)

Lemma add_timer_start_at (h : Heap.time_heap) (i : Z) :
  heap_wf h → 0 ≤ i < Heap.cur_size h →
  heap_at (add_timer_start h) i = heap_at h i.
Proof.
  intros Hwf Hi. destruct Hwf as [Hcap Hsz Hlen _ _].
  unfold add_timer_start, heap_at.
  destruct (Z.geb_spec (Heap.cur_size h) (Heap.capacity h)); simpl.
  - rewrite !decide_True by lia.
    rewrite lookup_app_l by (rewrite length_take; lia).
    rewrite lookup_take_lt by lia. done.
  - rewrite !decide_True by lia. done.
Qed.

Lemma add_timer_start_up_inv (h : Heap.time_heap) (timer : nat) (tm : Heap.heap_timer) :
  heap_wf h → heap_ordered h →
  Heap.mem h !! timer = Some tm → ¬ in_heap h timer →
  up_inv (add_timer_start h) timer (Heap.expire tm) (Heap.cur_size h).
Proof.
  intros Hwf Hord Htm Hfresh.
  pose proof Hwf as [Hcap Hsz Hlen Hlive Hinj].
  assert (Hmem : Heap.mem (add_timer_start h) = Heap.mem h).
  { unfold add_timer_start. by destruct (_ >=? _). }
  assert (Hsize : Heap.cur_size (add_timer_start h) = Heap.cur_size h + 1).
  { unfold add_timer_start. by destruct (_ >=? _). }
  assert (Hat : ∀ i, i ≠ Heap.cur_size h → heap_at (add_timer_start h) i = heap_at h i).
  { intros i Hi. destruct (decide (0 ≤ i < Heap.cur_size h)).
    - by apply add_timer_start_at.
    - unfold heap_at. rewrite Hsize. rewrite !decide_False by lia. done. }
  assert (Hkey : ∀ i, i ≠ Heap.cur_size h → hkey (add_timer_start h) i = hkey h i).
  { intros i Hi. unfold hkey. by rewrite Hat. }
  split.
  - rewrite Hsize. unfold add_timer_start.
    destruct (Z.geb_spec (Heap.cur_size h) (Heap.capacity h)); simpl; lia.
  - unfold add_timer_start.
    destruct (Z.geb_spec (Heap.cur_size h) (Heap.capacity h)); simpl; [|done].
    rewrite length_app, length_take, length_replicate. lia.
  - exists tm. by rewrite Hmem.
  - intros i Hi Hne. rewrite Hsize in Hi. rewrite Hat by done.
    destruct (Hlive i) as [[p t] Hp]; [lia|].
    exists p, t. split; [done|]. intros ->. apply Hfresh. by exists i, t.
  - intros i j p t t' Hi Hj. rewrite !Hat by done. apply Hinj.
  - intros i Hi Hne Hnp. rewrite Hsize in Hi. rewrite !Hkey by done.
    destruct (Hord i) as (pi & ti & pp & tp & Hpi & Hpp & Hle); [lia|].
    by rewrite (hkey_at _ _ _ _ Hpi), (hkey_at _ _ _ _ Hpp).
  - intros c Hc Hcp. rewrite Hsize in Hc. zlia.
Qed.

Lemma in_heap_but_start (h : Heap.time_heap) (p : nat) :
  heap_wf h →
  in_heap_but (add_timer_start h) (Heap.cur_size h) p ↔ in_heap h p.
Proof.
  intros Hwf. unfold in_heap_but, in_heap. split.
  - intros (i & t & Hne & Hat). exists i, t.
    apply heap_at_Some in Hat as Hat'. destruct Hat' as (Hi & _).
    rewrite <- add_timer_start_at; [done | done |].
    replace (Heap.cur_size (add_timer_start h)) with (Heap.cur_size h + 1) in Hi
      by (unfold add_timer_start; by destruct (_ >=? _)).
    lia.
  - intros (i & t & Hat). exists i, t.
    apply heap_at_Some in Hat as Hat'. destruct Hat' as (Hi & _).
    split; [lia|]. by rewrite add_timer_start_at.
Qed.

(** [add_timer] of a live timer that is not yet in the heap: the heap
    stays a heap and gains exactly that timer. *)
Lemma heap_add_timer_spec (h : Heap.time_heap) (timer : nat) (tm : Heap.heap_timer) :
  heap_wf h → heap_ordered h →
  Heap.mem h !! timer = Some tm → ¬ in_heap h timer →
  ∃ h', Heap.add_timer h (Some timer) = Ok h'
        ∧ Heap.mem h' = Heap.mem h
        ∧ Heap.cur_size h' = Heap.cur_size h + 1
        ∧ heap_wf h' ∧ heap_ordered h'
        ∧ (∀ p, in_heap h' p ↔ p = timer ∨ in_heap h p).
Proof.
  intros Hwf Hord Htm Hfresh.
  pose proof (add_timer_start_up_inv h timer tm Hwf Hord Htm Hfresh) as Hinv.
  destruct (add_timer_loop_spec (Z.to_nat (Heap.cur_size h)) _ _ _ _ Hinv)
    as (h' & Hrun & Hm & Hs & Hwf' & Hord' & Hin); [lia|].
  exists h'. split.
  - unfold Heap.add_timer. unfold add_timer_start in Hrun.
    destruct (Heap.cur_size h >=? Heap.capacity h); exact Hrun.
  - split; [rewrite Hm; unfold add_timer_start; by destruct (_ >=? _)|].
    split; [rewrite Hs; unfold add_timer_start; by destruct (_ >=? _)|].
    split; [done|]. split; [done|].
    intros p. rewrite Hin. by rewrite in_heap_but_start.
Qed.

(** ** The heap: sifting down *)

Lemma down_finish (h : Heap.time_heap) (temp : nat) (k hole : Z) :
  down_inv h temp k hole →
  (∀ c, 0 < c < Heap.cur_size h → (c - 1) / 2 = hole → k ≤ hkey h c) →
  ∃ h', Heap.arr_set hole (Some temp) h = Ok h'
        ∧ Heap.mem h' = Heap.mem h
        ∧ Heap.cur_size h' = Heap.cur_size h
        ∧ heap_wf h' ∧ heap_ordered h'
        ∧ (∀ p, in_heap h' p ↔ p = temp ∨ in_heap_but h hole p).
Proof.
  intros [Hr Hlen Htm Hlive Hinj Hord Hpar] Hchl.
  apply (up_finish h temp k hole).
  - split; try done. intros c Hc Hcp. split; [by apply Hchl|].
    intros Hpos. by apply Hpar.
  - intros Hpos. by apply Hpar.
Qed.

(** One turn of the loop: the child at [c] moves up into the hole. *)
Lemma down_step (h : Heap.time_heap) (temp : nat) (k hole c : Z)
    (pc : nat) (tc : Heap.heap_timer) :
  down_inv h temp k hole →
  0 < c < Heap.cur_size h → (c - 1) / 2 = hole →
  heap_at h c = Some (pc, tc) →
  Heap.expire tc < k →
  (∀ c', 0 < c' < Heap.cur_size h → (c' - 1) / 2 = hole →
         Heap.expire tc ≤ hkey h c') →
  ∃ h', Heap.arr_set hole (Some pc) h = Ok h'
        ∧ Heap.mem h' = Heap.mem h
        ∧ Heap.cur_size h' = Heap.cur_size h
        ∧ down_inv h' temp k c
        ∧ (∀ p, in_heap_but h' c p ↔ in_heap_but h hole p).
Proof.
  intros [Hr Hlen (tm & Htm & Hk) Hlive Hinj Hord Hpar] Hc Hcp Hpc Hlt Hmin.
  assert (Hch : hole < c) by zlia.
  eexists. split; [apply arr_set_in_range; [done | lia]|].
  set (h' := Heap.set_array _ h).
  apply heap_at_Some in Hpc as Hpc'. destruct Hpc' as (_ & Hapc & Hmpc).
  assert (Hat_hole : heap_at h' hole = Some (pc, tc)).
  { unfold h'. rewrite heap_at_set_same by lia. by rewrite Hmpc. }
  assert (Hat_other : ∀ i, i ≠ hole → heap_at h' i = heap_at h i).
  { intros i Hi. unfold h'. apply heap_at_set_other'; lia. }
  assert (Hkey_hole : hkey h' hole = Heap.expire tc).
  { by rewrite (hkey_at _ _ _ _ Hat_hole). }
  assert (Hkey_c : hkey h c = Heap.expire tc).
  { by rewrite (hkey_at _ _ _ _ Hpc). }
  assert (Hkey_other : ∀ i, i ≠ hole → hkey h' i = hkey h i).
  { intros i Hi. unfold hkey. by rewrite Hat_other. }
  split; [done|]. split; [done|]. split; [split|].
  - simpl. lia.
  - simpl. by rewrite length_insert.
  - by exists tm.
  - intros i Hi Hne. simpl in Hi.
    destruct (decide (i = hole)) as [->|Hnh].
    + exists pc, tc. split; [done|].
      destruct (Hlive c) as (p' & t' & Hat & Hnt); [lia..|]. congruence.
    + rewrite Hat_other by done. apply Hlive; done.
  - intros i j p t t' Hi Hj Hati Hatj.
    destruct (decide (i = hole)) as [->|Hni], (decide (j = hole)) as [->|Hnj];
      [done|..].
    + rewrite Hat_hole in Hati. rewrite Hat_other in Hatj by done.
      injection Hati as <- <-.
      exfalso. apply Hj. symmetry. eapply (Hinj c j); [lia | done..].
    + rewrite Hat_hole in Hatj. rewrite Hat_other in Hati by done.
      injection Hatj as <- <-.
      exfalso. apply Hi. eapply (Hinj i c); [done | lia | done..].
    + rewrite Hat_other in Hati, Hatj by done. eauto.
  - intros i Hi Hni Hnp. simpl in Hi.
    destruct (decide (i = hole)) as [->|Hnh].
    + rewrite Hkey_hole, Hkey_other by zlia. rewrite <- Hkey_c.
      apply Hpar; [lia | lia | done].
    + destruct (decide ((i - 1) / 2 = hole)) as [Hph|Hnph].
      * rewrite Hph, Hkey_hole, Hkey_other by done. by apply Hmin.
      * rewrite !Hkey_other by done. apply Hord; done.
  - intros _. rewrite Hcp, Hkey_hole. split; [lia|].
    intros c' Hc' Hcp'. simpl in Hc'. rewrite Hkey_other by zlia.
    rewrite <- Hkey_c, <- Hcp'. apply Hord; [done | zlia | lia].
  - intros p. unfold in_heap_but. split.
    + intros (i & t & Hi & Hat). destruct (decide (i = hole)) as [->|Hnh].
      * rewrite Hat_hole in Hat. injection Hat as <- <-.
        exists c, tc. split; [lia | done].
      * exists i, t. by rewrite <- Hat_other.
    + intros (i & t & Hi & Hat). destruct (decide (i = c)) as [->|Hnp].
      * exists hole, t. split; [lia|]. congruence.
      * exists i, t. split; [done|]. by rewrite Hat_other.
Qed.

Lemma heap_at_reads (h : Heap.time_heap) (i : Z) (p : nat) (t : Heap.heap_timer) :
  Heap.cur_size h ≤ Heap.capacity h →
  heap_at h i = Some (p, t) →
  Heap.arr_get h i = Ok (Some p) ∧ Heap.rd h (Some p) = Ok t.
Proof.
  intros Hcap (Hi & Ha & Hm)%heap_at_Some. split.
  - apply arr_get_Ok. split; [lia | done].
  - unfold Heap.rd. by rewrite Hm.
Qed.

Lemma smaller_child_spec (h : Heap.time_heap) (temp : nat) (k hole : Z) :
  down_inv h temp k hole →
  hole * 2 + 1 ≤ Heap.cur_size h - 1 →
  ∃ c pc tc,
    smaller_child h hole = Ok c
    ∧ 0 < c < Heap.cur_size h ∧ (c - 1) / 2 = hole
    ∧ heap_at h c = Some (pc, tc)
    ∧ (∀ c', 0 < c' < Heap.cur_size h → (c' - 1) / 2 = hole →
             Heap.expire tc ≤ hkey h c').
Proof.
  intros Hinv Hin. pose proof Hinv as [Hr Hlen _ Hlive _ _ _].
  unfold smaller_child.
  destruct (Hlive (hole * 2 + 1)) as (p0 & t0 & Hat0 & _); [lia..|].
  destruct (heap_at_reads _ _ _ _ (proj2 Hr) Hat0) as [Hg0 Hr0].
  destruct (Z.ltb_spec (hole * 2 + 1) (Heap.cur_size h - 1)) as [Htwo|Hone].
  - destruct (Hlive (hole * 2 + 1 + 1)) as (p1 & t1 & Hat1 & _); [lia..|].
    destruct (heap_at_reads _ _ _ _ (proj2 Hr) Hat1) as [Hg1 Hr1].
    rewrite Hg1. mstep. rewrite Hr1. mstep. rewrite Hg0. mstep. rewrite Hr0. mstep.
    destruct (Z.ltb_spec (Heap.expire t1) (Heap.expire t0)) as [Hlt|Hge].
    + exists (hole * 2 + 1 + 1), p1, t1. split; [done|].
      split; [lia|]. split; [zlia|]. split; [done|].
      intros c' Hc' Hp'.
      assert (c' = hole * 2 + 1 ∨ c' = hole * 2 + 1 + 1) as [->| ->] by zlia.
      * rewrite (hkey_at _ _ _ _ Hat0). lia.
      * rewrite (hkey_at _ _ _ _ Hat1). lia.
    + exists (hole * 2 + 1), p0, t0. split; [done|].
      split; [lia|]. split; [zlia|]. split; [done|].
      intros c' Hc' Hp'.
      assert (c' = hole * 2 + 1 ∨ c' = hole * 2 + 1 + 1) as [->| ->] by zlia.
      * rewrite (hkey_at _ _ _ _ Hat0). lia.
      * rewrite (hkey_at _ _ _ _ Hat1). lia.
  - exists (hole * 2 + 1), p0, t0. split; [done|].
    split; [lia|]. split; [zlia|]. split; [done|].
    intros c' Hc' Hp'.
    assert (c' = hole * 2 + 1) as -> by zlia.
    rewrite (hkey_at _ _ _ _ Hat0). lia.
Qed.

Lemma percolate_down_loop_unfold (fuel : nat) (h : Heap.time_heap)
    (temp : option nat) (hole : Z) :
  Heap.percolate_down_loop fuel h temp hole =
  if hole * 2 + 1 <=? Heap.cur_size h - 1 then
    match fuel with
    | O => NoFuel
    | S fuel' =>
        child' ← smaller_child h hole;
        pc ← Heap.arr_get h child';
        tc ← Heap.rd h pc;
        tm ← Heap.rd h temp;
        if Heap.expire tc <? Heap.expire tm then
          h' ← Heap.arr_set hole pc h;
          Heap.percolate_down_loop fuel' h' temp child'
        else Heap.arr_set hole temp h
    end
  else Heap.arr_set hole temp h.
Proof. destruct fuel; reflexivity. Qed.

(** The loop of [percolate_down] ends, and it ends with a heap. *)
Lemma percolate_down_loop_spec (fuel : nat) :
  ∀ (h : Heap.time_heap) (temp : nat) (k hole : Z),
  down_inv h temp k hole →
  (Z.to_nat (Heap.cur_size h - hole) ≤ fuel)%nat →
  ∃ h', Heap.percolate_down_loop fuel h (Some temp) hole = Ok h'
        ∧ Heap.mem h' = Heap.mem h
        ∧ Heap.cur_size h' = Heap.cur_size h
        ∧ heap_wf h' ∧ heap_ordered h'
        ∧ (∀ p, in_heap h' p ↔ p = temp ∨ in_heap_but h hole p).
Proof.
  induction fuel as [|fuel IH]; intros h temp k hole Hinv Hfuel;
    rewrite percolate_down_loop_unfold;
    pose proof (dn_range _ _ _ _ Hinv) as Hr.
  - lia.
  - destruct (Z.leb_spec (hole * 2 + 1) (Heap.cur_size h - 1)) as [Hin|Hout].
    + destruct (smaller_child_spec h temp k hole Hinv Hin)
        as (c & pc & tc & -> & Hc & Hcp & Hat & Hmin).
      mstep.
      destruct (heap_at_reads _ _ _ _ (proj2 Hr) Hat) as [-> Hrd].
      mstep. rewrite Hrd. mstep.
      destruct (dn_temp _ _ _ _ Hinv) as (tm & Htm & Hk).
      replace (Heap.rd h (Some temp)) with (Ok tm)
        by (unfold Heap.rd; by rewrite Htm).
      mstep.
      destruct (Z.ltb_spec (Heap.expire tc) (Heap.expire tm)) as [Hlt|Hge].
      * destruct (down_step h temp k hole c pc tc)
          as (h1 & -> & Hm & Hs & Hinv1 & Hin1); [done | done | done | done | lia | done |].
        mstep.
        destruct (IH h1 temp k c Hinv1) as (h' & -> & Hm' & Hs' & Hwf & Hord & Hin');
          [rewrite Hs; zlia|].
        exists h'. split; [done|]. split; [congruence|]. split; [congruence|].
        split; [done|]. split; [done|].
        intros p. rewrite Hin'. by rewrite Hin1.
      * apply (down_finish h temp k hole); [done|].
        intros c' Hc' Hcp'. specialize (Hmin c' Hc' Hcp'). lia.
    + apply (down_finish h temp k hole); [done|].
      intros c' Hc' Hcp'. zlia.
Qed.

(** ** The heap: [pop_timer] *)

Lemma pop_timer_unfold (h : Heap.time_heap) (p0 : nat) (t0 : Heap.heap_timer) :
  heap_wf h → heap_at h 0 = Some (p0, t0) →
  ∃ lst, Heap.array h !! Z.to_nat (Heap.cur_size h - 1) = Some lst
         ∧ Heap.pop_timer h
           = Heap.percolate_down_loop (Z.to_nat (Heap.cur_size h - 1))
               (pop_timer_start h p0 lst) lst 0.
Proof.
  intros [Hcap Hsz Hlen Hlive Hinj] (Hn & Ha0 & Hm0)%heap_at_Some.
  destruct (lookup_lt_is_Some_2 (Heap.array h) (Z.to_nat (Heap.cur_size h - 1)))
    as [lst Hlst]; [lia|].
  exists lst. split; [done|].
  unfold Heap.pop_timer, Heap.empty.
  destruct (Z.eqb_spec 0 (Heap.cur_size h)) as [|_]; [lia|].
  replace (Heap.arr_get h 0) with (Ok (A:=option nat) (Some p0))
    by (symmetry; apply arr_get_Ok; split; [lia | done]).
  mstep. unfold Heap.free. rewrite Hm0. mstep.
  match goal with |- context [Heap.arr_get ?h2 ?i] =>
    replace (Heap.arr_get h2 i) with (Ok lst)
      by (symmetry; apply arr_get_Ok; simpl; split; [lia | done])
  end.
  mstep. rewrite arr_set_in_range by (simpl; lia). mstep.
  unfold Heap.percolate_down.
  match goal with |- context [Heap.arr_get ?h3 0] =>
    replace (Heap.arr_get h3 0) with (Ok lst)
  end; [done|].
  symmetry. apply arr_get_Ok. simpl. split; [lia|].
  apply list_lookup_insert_eq. lia.
Qed.

Lemma pop_timer_start_at (h : Heap.time_heap) (p0 : nat) (t0 : Heap.heap_timer)
    (lst : option nat) (i : Z) :
  heap_wf h → heap_at h 0 = Some (p0, t0) →
  0 < i < Heap.cur_size h - 1 →
  heap_at (pop_timer_start h p0 lst) i = heap_at h i.
Proof.
  intros Hwf H0 Hi. pose proof Hwf as [Hcap Hsz Hlen Hlive Hinj].
  destruct (Hlive i) as [[p t] Hp]; [lia|]. rewrite Hp.
  apply heap_at_Some. apply heap_at_Some in Hp as Hp'. destruct Hp' as (_ & Ha & Hm).
  simpl. split; [lia|]. split.
  - rewrite list_lookup_insert_ne by lia. done.
  - rewrite lookup_delete_ne; [done|]. intros <-.
    specialize (Hinj _ _ _ _ _ H0 Hp). lia.
Qed.

Lemma pop_timer_start_down_inv (h : Heap.time_heap) (p0 pl : nat)
    (t0 tl : Heap.heap_timer) :
  heap_wf h → heap_ordered h →
  heap_at h 0 = Some (p0, t0) →
  1 < Heap.cur_size h →
  heap_at h (Heap.cur_size h - 1) = Some (pl, tl) →
  down_inv (pop_timer_start h p0 (Some pl)) pl (Heap.expire tl) 0.
Proof.
  intros Hwf Hord H0 Hn Hl. pose proof Hwf as [Hcap Hsz Hlen Hlive Hinj].
  assert (Hne : pl ≠ p0).
  { intros ->. specialize (Hinj _ _ _ _ _ H0 Hl). lia. }
  split.
  - simpl. lia.
  - simpl. by rewrite length_insert.
  - exists tl. split; [|done]. simpl. rewrite lookup_delete_ne by done.
    by apply heap_at_Some in Hl as (_ & _ & ?).
  - intros i Hi Hi0. simpl in Hi.
    rewrite (pop_timer_start_at h p0 t0) by (done || lia).
    destruct (Hlive i) as [[p t] Hp]; [lia|].
    exists p, t. split; [done|]. intros ->.
    specialize (Hinj _ _ _ _ _ Hl Hp). lia.
  - intros i j p t t' Hi Hj Hati Hatj.
    apply heap_at_Some in Hati as Hi'. apply heap_at_Some in Hatj as Hj'.
    simpl in Hi', Hj'.
    rewrite (pop_timer_start_at h p0 t0) in Hati by (done || lia).
    rewrite (pop_timer_start_at h p0 t0) in Hatj by (done || lia).
    eauto.
  - intros i Hi Hi0 Hp0. simpl in Hi.
    assert (0 < (i - 1) / 2 < Heap.cur_size h - 1) by zlia.
    unfold hkey. rewrite !(pop_timer_start_at h p0 t0) by (done || lia).
    destruct (Hord i) as (pi & ti & pp & tp & -> & -> & Hle); [lia | done].
  - lia.
Qed.

(** [pop_timer] on a heap that is not empty: the root is deleted, the
    rest is a heap again. *)
Lemma heap_pop_timer_spec (h : Heap.time_heap) (p0 : nat) (t0 : Heap.heap_timer) :
  heap_wf h → heap_ordered h →
  heap_at h 0 = Some (p0, t0) →
  ∃ h', Heap.pop_timer h = Ok h'
        ∧ Heap.mem h' = delete p0 (Heap.mem h)
        ∧ Heap.cur_size h' = Heap.cur_size h - 1
        ∧ heap_wf h' ∧ heap_ordered h'
        ∧ (∀ p, in_heap h' p ↔ in_heap h p ∧ p ≠ p0).
Proof.
  intros Hwf Hord H0. pose proof Hwf as [Hcap Hsz Hlen Hlive Hinj].
  destruct (pop_timer_unfold h p0 t0 Hwf H0) as (lst & Hlst & ->).
  apply heap_at_Some in H0 as H0'. destruct H0' as (Hn & Ha0 & Hm0).
  destruct (decide (Heap.cur_size h = 1)) as [Hone|Hmore].
  - rewrite percolate_down_loop_unfold.
    replace (0 * 2 + 1 <=? Heap.cur_size (pop_timer_start h p0 lst) - 1) with false
      by (symmetry; apply Z.leb_gt; simpl; lia).
    rewrite arr_set_in_range by (simpl; rewrite ?length_insert; lia).
    eexists. split; [done|]. simpl. split; [done|]. split; [done|].
    assert (Hnone : ∀ i, heap_at (Heap.set_array
       (<[Z.to_nat 0:=lst]> (Heap.array (pop_timer_start h p0 lst)))
       (pop_timer_start h p0 lst)) i = None).
    { intros i. unfold heap_at. simpl. rewrite decide_False by lia. done. }
    split; [|split].
    + split; simpl; [lia | lia | by rewrite !length_insert | lia |].
      intros i j p t t' Hi. by rewrite Hnone in Hi.
    + intros i Hi. simpl in Hi. lia.
    + intros p. unfold in_heap. setoid_rewrite Hnone. split.
      * by intros (? & ? & ?).
      * intros [(i & t & Hat) Hne]. destruct Hne.
        assert (i = 0) as -> by (apply heap_at_Some in Hat; lia). congruence.
  - destruct (Hlive (Heap.cur_size h - 1)) as [[pl tl] Hl]; [lia|].
    apply heap_at_Some in Hl as Hl'. destruct Hl' as (_ & Hal & Hml).
    assert (lst = Some pl) as -> by congruence.
    assert (Hne : pl ≠ p0).
    { intros ->. specialize (Hinj _ _ _ _ _ H0 Hl). lia. }
    pose proof (pop_timer_start_down_inv h p0 pl t0 tl Hwf Hord H0 ltac:(lia) Hl) as Hinv.
    destruct (percolate_down_loop_spec (Z.to_nat (Heap.cur_size h - 1)) _ _ _ _ Hinv)
      as (h' & -> & Hm & Hs & Hwf' & Hord' & Hin); [simpl; lia|].
    exists h'. split; [done|]. split; [done|]. split; [done|].
    split; [done|]. split; [done|].
    intros p. rewrite Hin. unfold in_heap_but, in_heap. split.
    + intros [->|(i & t & Hi0 & Hat)].
      * split; [by exists (Heap.cur_size h - 1), tl | done].
      * apply heap_at_Some in Hat as Hat'. simpl in Hat'.
        rewrite (pop_timer_start_at h p0 t0) in Hat by (done || lia).
        split; [by exists i, t|]. intros ->.
        specialize (Hinj _ _ _ _ _ H0 Hat). lia.
    + intros [(i & t & Hat) Hnp].
      destruct (decide (i = Heap.cur_size h - 1)) as [->|Hni].
      * left. congruence.
      * right. exists i, t.
        assert (i ≠ 0) by (intros ->; congruence).
        apply heap_at_Some in Hat as Hat'.
        split; [done|]. rewrite (pop_timer_start_at h p0 t0) by (done || lia). done.
Qed.

(** ** The heap: [tick] *)

(** The root is the earliest timer of a heap. *)
Lemma heap_root_min (h : Heap.time_heap) (p0 : nat) (t0 : Heap.heap_timer) :
  heap_ordered h →
  heap_at h 0 = Some (p0, t0) →
  ∀ i p t, heap_at h i = Some (p, t) → Heap.expire t0 ≤ Heap.expire t.
Proof.
  intros Hord H0.
  assert (Hind : ∀ n : nat, ∀ i p t, (Z.to_nat i ≤ n)%nat →
            heap_at h i = Some (p, t) → Heap.expire t0 ≤ Heap.expire t).
  { induction n as [|n IH]; intros i p t Hn Hat;
      apply heap_at_Some in Hat as Hi; destruct Hi as (Hi & _).
    - assert (i = 0) as -> by lia. rewrite H0 in Hat. injection Hat as <- <-. lia.
    - destruct (decide (i = 0)) as [->|Hne].
      + rewrite H0 in Hat. injection Hat as <- <-. lia.
      + destruct (Hord i) as (pi & ti & pp & tp & Hpi & Hpp & Hle); [lia|].
        rewrite Hat in Hpi. injection Hpi as <- <-.
        specialize (IH ((i - 1) / 2) pp tp). etrans; [apply IH|]; [zlia | done | done]. }
  intros i p t. apply (Hind (Z.to_nat i)). lia.
Qed.

Lemma in_heap_empty (h : Heap.time_heap) (p : nat) :
  Heap.cur_size h = 0 → ¬ in_heap h p.
Proof. intros Hz (i & t & Hat). apply heap_at_Some in Hat. lia. Qed.

Lemma heap_tick_loop_unfold (fuel : nat) (h : Heap.time_heap) (cur : Z)
    (tmp : option nat) (log : list fired) :
  Heap.tick_loop fuel h cur tmp log =
  if Heap.empty h then Ok (log, h)
  else
    match fuel with
    | O => NoFuel
    | S fuel' =>
        match tmp with
        | None => Ok (log, h)
        | Some p =>
            tp ← Heap.rd h (Some p);
            if Heap.expire tp >? cur then Ok (log, h)
            else
              a0 ← Heap.arr_get h 0;
              t0 ← Heap.rd h a0;
              let log' := match a0, Heap.cb_func t0 with
                          | Some a, Some f => log ++ [Fired a f (Heap.user_data t0)]
                          | _, _ => log
                          end in
              h1 ← Heap.pop_timer h;
              tmp' ← Heap.arr_get h1 0;
              Heap.tick_loop fuel' h1 cur tmp' log'
        end
    end.
Proof. destruct fuel; reflexivity. Qed.

(** What the loop of [tick] does to a heap: it invokes exactly the
    callbacks owed, each once, destroys every expired timer, and leaves
    the timers that have not expired in a heap. *)
Lemma heap_tick_loop_spec (cur : Z) (fuel : nat) :
  ∀ (h : Heap.time_heap) (tmp : option nat) (log : list fired),
  heap_wf h → heap_ordered h →
  Heap.array h !! O = Some tmp →
  (Z.to_nat (Heap.cur_size h) ≤ fuel)%nat →
  ∃ log' h',
    Heap.tick_loop fuel h cur tmp log = Ok (log ++ log', h')
    ∧ heap_wf h' ∧ heap_ordered h'
    ∧ (∀ p, in_heap h' p ↔
            in_heap h p ∧ ∃ t, Heap.mem h !! p = Some t ∧ cur < Heap.expire t)
    ∧ (∀ p t, in_heap h p → Heap.mem h !! p = Some t →
              Heap.mem h' !! p = if decide (Heap.expire t ≤ cur) then None else Some t)
    ∧ (∀ p, ¬ in_heap h p → Heap.mem h' !! p = Heap.mem h !! p)
    ∧ NoDup (f_timer <$> log')
    ∧ (∀ e, e ∈ log' ↔ heap_due h cur e)
    ∧ Heap.mem h' ⊆ Heap.mem h.
Proof.
  induction fuel as [|fuel IH]; intros h tmp log Hwf Hord Htmp Hfuel;
    rewrite heap_tick_loop_unfold; unfold Heap.empty;
    pose proof Hwf as [Hcap Hsz Hlen Hlive Hinj].
  - destruct (Z.eqb_spec 0 (Heap.cur_size h)) as [Hz|Hnz]; [|lia].
    exists [], h. rewrite app_nil_r. split; [done|]. split; [done|]. split; [done|].
    split; [|split; [|split; [|split; [constructor|split; [|done]]]]].
    + intros p. split; [intros []%in_heap_empty | intros [[]%in_heap_empty _]]; done.
    + intros p t []%in_heap_empty. done.
    + done.
    + intros e. split; [by intros ?%elem_of_nil|].
      intros (t & []%in_heap_empty & _). done.
  - destruct (Z.eqb_spec 0 (Heap.cur_size h)) as [Hz|Hnz].
    { exists [], h. rewrite app_nil_r. split; [done|]. split; [done|]. split; [done|].
      split; [|split; [|split; [|split; [constructor|split; [|done]]]]].
      + intros p. split; [intros []%in_heap_empty | intros [[]%in_heap_empty _]]; done.
      + intros p t []%in_heap_empty. done.
      + done.
      + intros e. split; [by intros ?%elem_of_nil|].
        intros (t & []%in_heap_empty & _). done. }
    destruct (Hlive 0) as [[p0 t0] H0]; [lia|].
    apply heap_at_Some in H0 as H0'. destruct H0' as (_ & Ha0 & Hm0).
    change (Z.to_nat 0) with O in Ha0. rewrite Ha0 in Htmp. injection Htmp as <-.
    replace (Heap.rd h (Some p0)) with (Ok t0) by (unfold Heap.rd; by rewrite Hm0).
    mstep.
    destruct (Z.gtb_spec (Heap.expire t0) cur) as [Hlater|Hdue].
    { exists [], h. rewrite app_nil_r. split; [done|]. split; [done|]. split; [done|].
      assert (Hall : ∀ p t, in_heap h p → Heap.mem h !! p = Some t → cur < Heap.expire t).
      { intros p t (i & t' & Hat) Hm.
        pose proof (heap_root_min h p0 t0 Hord H0 i p t' Hat).
        apply heap_at_Some in Hat as (_ & _ & Hm'). simplify_eq. lia. }
      split; [|split; [|split; [|split; [constructor|split; [|done]]]]].
      + intros p. split; [|tauto]. intros Hin. split; [done|].
        destruct Hin as (i & t & Hat). exists t.
        pose proof (heap_root_min h p0 t0 Hord H0 i p t Hat).
        apply heap_at_Some in Hat as (_ & _ & Hm'). split; [done | lia].
      + intros p t Hin Hm. specialize (Hall p t Hin Hm).
        rewrite decide_False by lia. done.
      + done.
      + intros e. split; [by intros ?%elem_of_nil|].
        intros (t & Hin & Hm & Hle & _). specialize (Hall _ _ Hin Hm). lia. }
    replace (Heap.arr_get h 0) with (Ok (A:=option nat) (Some p0))
      by (symmetry; apply arr_get_Ok; split; [lia | done]).
    mstep.
    replace (Heap.rd h (Some p0)) with (Ok t0) by (unfold Heap.rd; by rewrite Hm0).
    mstep.
    destruct (heap_pop_timer_spec h p0 t0 Hwf Hord H0)
      as (h1 & -> & Hm1 & Hs1 & Hwf1 & Hord1 & Hin1).
    mstep.
    destruct (arr_get_in_range h1 0) as (tmp' & -> & Htmp');
      [apply Hwf1 | destruct Hwf1; lia |].
    mstep.
    set (ev := match Heap.cb_func t0 with
               | Some f => [Fired p0 f (Heap.user_data t0)]
               | None => []
               end).
    match goal with |- context [Heap.tick_loop _ _ _ _ ?l] =>
      replace l with (log ++ ev)
        by (unfold ev; destruct (Heap.cb_func t0); by rewrite ?app_nil_r)
    end.
    destruct (IH h1 tmp' (log ++ ev) Hwf1 Hord1 Htmp')
      as (log' & h' & -> & Hwf' & Hord' & Hin' & Hmem' & Hframe' & Hnd' & Hev' & Hsub');
      [lia|].
    exists (ev ++ log'), h'. rewrite app_assoc. split; [done|].
    split; [done|]. split; [done|].
    assert (Hin0 : in_heap h p0) by (by exists 0, t0).
    split; [|split; [|split; [|split; [|split]]]].
    + intros p. rewrite Hin', Hin1, Hm1. split.
      * intros [[Hin Hne] (t & Hm & Hlt)]. rewrite lookup_delete_ne in Hm by done. eauto.
      * intros [Hin (t & Hm & Hlt)].
        assert (p ≠ p0) by (intros ->; simplify_eq; lia).
        rewrite lookup_delete_ne by done. eauto.
    + intros p t Hin Hm. destruct (decide (p = p0)) as [->|Hne].
      * simplify_eq. rewrite decide_True by lia.
        rewrite Hframe'; [by rewrite Hm1, lookup_delete_eq|].
        rewrite Hin1. tauto.
      * apply Hmem'; [by apply Hin1|]. rewrite Hm1, lookup_delete_ne by done. done.
    + intros p Hnin. rewrite Hframe' by (rewrite Hin1; tauto).
      rewrite Hm1. apply lookup_delete_ne. intros ->. done.
    + rewrite fmap_app. apply NoDup_app. split; [|split; [|done]].
      * unfold ev. destruct (Heap.cb_func t0); simpl; [apply NoDup_singleton | constructor].
      * intros p Hp (e & -> & He)%list_elem_of_fmap.
        apply Hev' in He as (t & Hin & _). apply Hin1 in Hin as [_ Hne].
        unfold ev in Hp. destruct (Heap.cb_func t0); simpl in Hp.
        -- apply list_elem_of_singleton in Hp. done.
        -- by apply elem_of_nil in Hp.
    + intros e. rewrite elem_of_app, Hev'. unfold heap_due. split.
      * intros [He|(t & Hin & Hm & Hle & Hcb & Hd)].
        -- exists t0. unfold ev in He. destruct (Heap.cb_func t0) as [f|] eqn:Hcb;
             [apply list_elem_of_singleton in He as ->; simpl; repeat split; (done || lia)
             | by apply elem_of_nil in He].
        -- apply Hin1 in Hin as [Hin Hne].
           rewrite Hm1, lookup_delete_ne in Hm by done. by exists t.
      * intros (t & Hin & Hm & Hle & Hcb & Hd).
        destruct (decide (f_timer e = p0)) as [Heq|Hne].
        -- left. rewrite Heq in Hm. simplify_eq. unfold ev. rewrite Hcb.
           apply list_elem_of_singleton. destruct e; simpl in *. congruence.
        -- right. exists t. rewrite Hin1, Hm1, lookup_delete_ne by done. done.
    + etrans; [exact Hsub'|]. rewrite Hm1. apply delete_subseteq.
Qed.

(** [tick] on a heap. *)
Lemma heap_tick_spec (h : Heap.time_heap) (cur : Z) :
  heap_wf h → heap_ordered h →
  ∃ log h',
    Heap.tick h cur = Ok (log, h')
    ∧ heap_wf h' ∧ heap_ordered h'
    ∧ (∀ p, in_heap h' p ↔
            in_heap h p ∧ ∃ t, Heap.mem h !! p = Some t ∧ cur < Heap.expire t)
    ∧ (∀ p t, in_heap h p → Heap.mem h !! p = Some t →
              Heap.mem h' !! p = if decide (Heap.expire t ≤ cur) then None else Some t)
    ∧ (∀ p, ¬ in_heap h p → Heap.mem h' !! p = Heap.mem h !! p)
    ∧ NoDup (f_timer <$> log)
    ∧ (∀ e, e ∈ log ↔ heap_due h cur e)
    ∧ Heap.mem h' ⊆ Heap.mem h.
Proof.
  intros Hwf Hord. unfold Heap.tick.
  destruct (arr_get_in_range h 0) as (tmp & -> & Htmp);
    [apply Hwf | destruct Hwf; lia |].
  mstep.
  destruct (heap_tick_loop_spec cur (Z.to_nat (Heap.cur_size h)) h tmp [] Hwf Hord Htmp)
    as (log & h' & Hrun & Hrest); [lia|].
  exists log, h'. split; [exact Hrun | exact Hrest].
Qed.

(** ** The heap: [del_timer] and allocation *)

(** A store that agrees with the old one on [expire] wherever the heap
    points keeps the heap a heap. *)
Lemma heap_set_mem_inv (h : Heap.time_heap) (m : gmap nat Heap.heap_timer) :
  (∀ p t, in_heap h p → Heap.mem h !! p = Some t →
          ∃ t', m !! p = Some t' ∧ Heap.expire t' = Heap.expire t) →
  heap_wf h → heap_ordered h →
  heap_wf (Heap.set_mem m h) ∧ heap_ordered (Heap.set_mem m h)
  ∧ (∀ p, in_heap (Heap.set_mem m h) p ↔ in_heap h p).
Proof.
  intros Hm Hwf Hord. pose proof Hwf as [Hcap Hsz Hlen Hlive Hinj].
  assert (Hfwd : ∀ i p t, heap_at h i = Some (p, t) →
            ∃ t', heap_at (Heap.set_mem m h) i = Some (p, t')
                  ∧ Heap.expire t' = Heap.expire t).
  { intros i p t Hat. apply heap_at_Some in Hat as Hat'.
    destruct Hat' as (Hi & Ha & Hp).
    destruct (Hm p t) as (t' & Hp' & He); [by exists i, t | done |].
    exists t'. split; [|done]. apply heap_at_Some. done. }
  assert (Hbwd : ∀ i p t', heap_at (Heap.set_mem m h) i = Some (p, t') →
            ∃ t, heap_at h i = Some (p, t)).
  { intros i p t' Hat. apply heap_at_Some in Hat as (Hi & Ha & Hp). simpl in *.
    destruct (Hlive i) as [[q t] Hq]; [done|].
    apply heap_at_Some in Hq as Hq'. destruct Hq' as (_ & Ha' & _).
    exists t. congruence. }
  split; [|split].
  - split; simpl; try done.
    + intros i Hi. destruct (Hlive i) as [[p t] Hp]; [done|].
      destruct (Hfwd _ _ _ Hp) as (t' & -> & _). done.
    + intros i j p t t' Hi Hj.
      destruct (Hbwd _ _ _ Hi) as (ti & Hi'). destruct (Hbwd _ _ _ Hj) as (tj & Hj').
      eauto.
  - intros i Hi. simpl in Hi.
    destruct (Hord i Hi) as (pi & ti & pp & tp & Hpi & Hpp & Hle).
    destruct (Hfwd _ _ _ Hpi) as (ti' & Hpi' & Hei).
    destruct (Hfwd _ _ _ Hpp) as (tp' & Hpp' & Hep).
    exists pi, ti', pp, tp'. split; [done|]. split; [done | lia].
  - intros p. split.
    + intros (i & t' & Hat). destruct (Hbwd _ _ _ Hat) as (t & Ht). by exists i, t.
    + intros (i & t & Hat). destruct (Hfwd _ _ _ Hat) as (t' & Ht & _). by exists i, t'.
Qed.

(** [del_timer] of a live timer: nothing but its callback changes. *)
Lemma heap_del_timer_spec (h : Heap.time_heap) (p : nat) (t : Heap.heap_timer) :
  Heap.mem h !! p = Some t →
  Heap.del_timer h (Some p)
  = Ok (Heap.set_mem (<[p := Heap.with_cb_func None t]> (Heap.mem h)) h).
Proof. intros Hp. unfold Heap.del_timer. by rewrite Hp. Qed.

Lemma heap_del_timer_inv (h : Heap.time_heap) (p : nat) (t : Heap.heap_timer) :
  Heap.mem h !! p = Some t →
  heap_wf h → heap_ordered h →
  ∃ h', Heap.del_timer h (Some p) = Ok h' ∧ heap_wf h' ∧ heap_ordered h'.
Proof.
  intros Hp Hwf Hord. eexists. split; [by apply heap_del_timer_spec|].
  destruct (heap_set_mem_inv h (<[p := Heap.with_cb_func None t]> (Heap.mem h)))
    as (? & ? & _); [|done..|done].
  intros q tq _ Hq. destruct (decide (q = p)) as [->|Hne].
  - rewrite lookup_insert_eq. simplify_eq. by eexists.
  - rewrite lookup_insert_ne by done. by eexists.
Qed.

(** Scheduling: a new timer is allocated and added. *)
Lemma heap_schedule_spec (h : Heap.time_heap) (e : Z) (cb : option callback)
    (d : client_data) :
  heap_wf h → heap_ordered h →
  ∃ p h', heap_schedule h e cb d = Ok (p, h')
          ∧ Heap.mem h !! p = None
          ∧ Heap.mem h' = <[p := Heap.mk_heap_timer e cb d]> (Heap.mem h)
          ∧ Heap.cur_size h' = Heap.cur_size h + 1
          ∧ heap_wf h' ∧ heap_ordered h'
          ∧ (∀ q, in_heap h' q ↔ q = p ∨ in_heap h q).
Proof.
  intros Hwf Hord. unfold heap_schedule, Heap.alloc.
  set (p := fresh (dom (Heap.mem h))).
  assert (Hfresh : Heap.mem h !! p = None).
  { apply not_elem_of_dom. apply is_fresh. }
  set (m := <[p := Heap.mk_heap_timer e cb d]> (Heap.mem h)).
  destruct (heap_set_mem_inv h m) as (Hwf1 & Hord1 & Hin1); [|done..|].
  { intros q t _ Hq. exists t. unfold m. rewrite lookup_insert_ne; [done|].
    intros <-. congruence. }
  destruct (heap_add_timer_spec (Heap.set_mem m h) p (Heap.mk_heap_timer e cb d))
    as (h' & -> & Hm' & Hs' & Hwf' & Hord' & Hin'); [done | done | | |].
  { simpl. unfold m. apply lookup_insert_eq. }
  { rewrite Hin1. intros (i & t & (_ & _ & Hp)%heap_at_Some). congruence. }
  exists p, h'. split; [done|]. split; [done|]. split; [done|]. split; [done|].
  split; [done|]. split; [done|].
  intros q. rewrite Hin'. by rewrite Hin1.
Qed.

(** ** The heap: any run of operations *)

Lemma time_heap_new_wf (m : gmap nat Heap.heap_timer) (cap : Z) :
  0 < cap → heap_wf (Heap.time_heap_new m cap) ∧ heap_ordered (Heap.time_heap_new m cap).
Proof.
  intros Hcap. split.
  - split; simpl; [done | lia | by rewrite length_replicate | lia |].
    intros i j p t t' (Hi & _)%heap_at_Some. simpl in Hi. lia.
  - intros i Hi. simpl in Hi. lia.
Qed.

Lemma heap_step_inv (h : Heap.time_heap) (op : heap_op) :
  heap_wf h → heap_ordered h →
  ∃ h', heap_step h op = Ok h' ∧ heap_wf h' ∧ heap_ordered h'.
Proof.
  intros Hwf Hord. destruct op as [e cb d|i|cur]; simpl.
  - destruct (heap_schedule_spec h e cb d Hwf Hord)
      as (p & h' & -> & _ & _ & _ & Hwf' & Hord' & _).
    by exists h'.
  - destruct (heap_at h i) as [[p t]|] eqn:Hat; simpl.
    + apply heap_at_Some in Hat as (_ & _ & Hp).
      by apply (heap_del_timer_inv h p t).
    + by exists h.
  - destruct (heap_tick_spec h cur Hwf Hord) as (log & h' & -> & Hwf' & Hord' & _).
    by exists h'.
Qed.

Lemma heap_run_inv (ops : list heap_op) :
  ∀ h, heap_wf h → heap_ordered h →
  ∃ h', heap_run ops h = Ok h' ∧ heap_wf h' ∧ heap_ordered h'.
Proof.
  induction ops as [|op ops IH]; intros h Hwf Hord; simpl.
  - by exists h.
  - destruct (heap_step_inv h op Hwf Hord) as (h1 & -> & Hwf1 & Hord1).
    mstep. by apply IH.
Qed.

(** X27. Starting from an empty heap of a positive capacity, after any
    sequence of schedule, cancel and tick the run has returned and every
    occupied position other than the root holds a timer, tombstoned or
    not, that expires no earlier than the timer at its parent position
    [(i-1)/2]. *)
Theorem heap_order_invariant (m : gmap nat Heap.heap_timer) (cap : Z)
    (ops : list heap_op) :
  0 < cap →
  ∃ h, heap_run ops (Heap.time_heap_new m cap) = Ok h
       ∧ ∀ i, 0 < i < Heap.cur_size h →
           ∃ pi ti pp tp,
             heap_at h i = Some (pi, ti)
             ∧ heap_at h ((i - 1) / 2) = Some (pp, tp)
             ∧ Heap.expire tp ≤ Heap.expire ti.
Proof.
  intros Hcap. destruct (time_heap_new_wf m cap Hcap) as [Hwf Hord].
  destruct (heap_run_inv ops _ Hwf Hord) as (h & Hrun & _ & Hord').
  exists h. split; [done|]. exact Hord'.
Qed.

Lemma heap_order_invariant_witness :
  ∃ h, heap_run [HSchedule 5 (Some 1%nat) 0%nat; HSchedule 1 (Some 2%nat) 0%nat;
                 HSchedule 3 (Some 3%nat) 0%nat; HCancel 0; HTick 2;
                 HSchedule 2 None 0%nat]
         (Heap.time_heap_new ∅ 1) = Ok h
       ∧ ∀ i, 0 < i < Heap.cur_size h →
           ∃ pi ti pp tp,
             heap_at h i = Some (pi, ti)
             ∧ heap_at h ((i - 1) / 2) = Some (pp, tp)
             ∧ Heap.expire tp ≤ Heap.expire ti.
Proof. apply (heap_order_invariant ∅ 1). lia. Defined.

(** ** The heap: lazy cancellation *)

(** A tombstoned timer that has expired is not invoked by [tick], but it
    is destroyed and leaves the heap. *)
Lemma heap_tick_tombstone (h : Heap.time_heap) (p : nat) (t : Heap.heap_timer)
    (cur : Z) :
  heap_wf h → heap_ordered h →
  in_heap h p → Heap.mem h !! p = Some t →
  Heap.cb_func t = None → Heap.expire t ≤ cur →
  ∃ log h', Heap.tick h cur = Ok (log, h')
            ∧ (p ∉ (f_timer <$> log))
            ∧ Heap.mem h' !! p = None
            ∧ ¬ in_heap h' p.
Proof.
  intros Hwf Hord Hin Hp Hcb Hle.
  destruct (heap_tick_spec h cur Hwf Hord)
    as (log & h' & Hrun & _ & _ & Hin' & Hmem & _ & _ & Hev & _).
  exists log, h'. split; [done|]. split; [|split].
  - intros (e & -> & He)%list_elem_of_fmap.
    apply Hev in He as (t' & _ & Ht' & _ & Hcb' & _). congruence.
  - rewrite (Hmem p t Hin Hp). by rewrite decide_True.
  - rewrite Hin'. intros [_ (t' & Ht' & Hlt)]. simplify_eq. lia.
Qed.

(** C8. [del_timer] on a live timer clears its callback and nothing
    else: the array, [cur_size], [capacity] and every other timer are as
    before, the timer keeps its expiry and its payload.  When [tick]
    later finds such a tombstoned timer expired in the heap, it does not
    invoke it, and the timer is destroyed and gone from the heap. *)
Theorem heap_del_timer_lazy :
  (∀ h p t,
     Heap.mem h !! p = Some t →
     ∃ h', Heap.del_timer h (Some p) = Ok h'
           ∧ Heap.array h' = Heap.array h
           ∧ Heap.cur_size h' = Heap.cur_size h
           ∧ Heap.capacity h' = Heap.capacity h
           ∧ Heap.mem h' !! p
             = Some (Heap.mk_heap_timer (Heap.expire t) None (Heap.user_data t))
           ∧ (∀ q, q ≠ p → Heap.mem h' !! q = Heap.mem h !! q)
           ∧ (heap_wf h → heap_ordered h → heap_wf h' ∧ heap_ordered h')
           ∧ (∀ i, fst <$> heap_at h' i = fst <$> heap_at h i))
  ∧ (∀ h p t cur,
       heap_wf h → heap_ordered h →
       in_heap h p → Heap.mem h !! p = Some t →
       Heap.cb_func t = None → Heap.expire t ≤ cur →
       ∃ log h', Heap.tick h cur = Ok (log, h')
                 ∧ (p ∉ (f_timer <$> log))
                 ∧ Heap.mem h' !! p = None
                 ∧ ¬ in_heap h' p).
Proof.
  split; [|apply heap_tick_tombstone].
  intros h p t Hp. eexists. split; [by apply heap_del_timer_spec|].
  simpl. split; [done|]. split; [done|]. split; [done|].
  split; [by rewrite lookup_insert_eq|].
  split; [intros q Hq; by rewrite lookup_insert_ne|].
  split.
  - intros Hwf Hord.
    destruct (heap_del_timer_inv h p t Hp Hwf Hord) as (h' & Hdel & ? & ?).
    rewrite (heap_del_timer_spec h p t Hp) in Hdel. by injection Hdel as <-.
  - intros i. unfold heap_at; simpl. case_decide; [|done].
    destruct (Heap.array h !! Z.to_nat i) as [[q|]|]; [|done..].
    destruct (decide (q = p)) as [->|Hne].
    + rewrite lookup_insert_eq, Hp. done.
    + rewrite lookup_insert_ne by done. done.
Qed.

(** ** The heap when it is empty *)

(** C10. On an empty heap [top] returns the null pointer and
    [pop_timer] changes nothing; popping the only timer of a heap gives an
    empty heap, on which [top] returns the null pointer again. *)
Theorem heap_empty_top_pop (h : Heap.time_heap) :
  (Heap.cur_size h = 0 →
     Heap.empty h = true ∧ Heap.top h = Ok None ∧ Heap.pop_timer h = Ok h)
  ∧ (heap_wf h → Heap.cur_size h = 1 →
     ∃ p t h', heap_at h 0 = Some (p, t)
               ∧ Heap.pop_timer h = Ok h'
               ∧ Heap.cur_size h' = 0
               ∧ Heap.mem h' !! p = None
               ∧ Heap.empty h' = true
               ∧ Heap.top h' = Ok None).
Proof.
  split.
  - intros Hz. unfold Heap.top, Heap.pop_timer, Heap.empty. by rewrite Hz.
  - intros Hwf Hone.
    destruct (wf_live h Hwf 0) as [[p t] H0]; [lia|].
    assert (Hord : heap_ordered h) by (intros i Hi; lia).
    destruct (heap_pop_timer_spec h p t Hwf Hord H0)
      as (h' & Hpop & Hm & Hs & _).
    exists p, t, h'. split; [done|]. split; [done|].
    assert (Hz : Heap.cur_size h' = 0) by lia.
    split; [done|]. split; [by rewrite Hm, lookup_delete_eq|].
    unfold Heap.top, Heap.empty. by rewrite Hz.
Qed.

Lemma heap_ticks_tombstone (p : nat) (curs : list Z) :
  ∀ h, heap_wf h → heap_ordered h →
  (∀ t, Heap.mem h !! p = Some t → Heap.cb_func t = None) →
  ∃ log h', heap_ticks curs h = Ok (log, h') ∧ p ∉ (f_timer <$> log).
Proof.
  induction curs as [|cur curs IH]; intros h Hwf Hord Htomb; simpl.
  - exists [], h. split; [done|]. apply not_elem_of_nil.
  - destruct (heap_tick_spec h cur Hwf Hord)
      as (l1 & h1 & -> & Hwf1 & Hord1 & _ & _ & _ & _ & Hev & Hsub).
    mstep.
    destruct (IH h1 Hwf1 Hord1) as (l2 & h2 & -> & Hl2).
    { intros t Ht. apply Htomb. eapply lookup_weaken; done. }
    mstep. exists (l1 ++ l2), h2. split; [done|].
    rewrite fmap_app, not_elem_of_app. split; [|done].
    intros (e & -> & He)%list_elem_of_fmap.
    apply Hev in He as (t & _ & Ht & _ & Hcb & _).
    specialize (Htomb t Ht). congruence.
Qed.

(** A timer cancelled in the heap is never invoked by the ticks that
    follow. *)
Lemma heap_cancel_never_fires (h : Heap.time_heap) (p : nat)
    (t : Heap.heap_timer) (curs : list Z) :
  heap_wf h → heap_ordered h →
  Heap.mem h !! p = Some t →
  ∃ h1 log h2,
    Heap.del_timer h (Some p) = Ok h1
    ∧ heap_ticks curs h1 = Ok (log, h2)
    ∧ p ∉ (f_timer <$> log).
Proof.
  intros Hwf Hord Hp.
  destruct (heap_del_timer_inv h p t Hp Hwf Hord) as (h1 & Hdel & Hwf1 & Hord1).
  destruct (heap_ticks_tombstone p curs h1 Hwf1 Hord1) as (log & h2 & Hrun & Hnot).
  { rewrite (heap_del_timer_spec h p t Hp) in Hdel. injection Hdel as <-.
    simpl. rewrite lookup_insert_eq. by intros ? [= <-]. }
  by exists h1, log, h2.
Qed.

(** ** Doubly linked segments *)

Lemma dl_last_cons (pv : option nat) (a : nat) (l : list nat) :
  dl_last pv (a :: l) = dl_last (Some a) l.
Proof.
  unfold dl_last. destruct l as [|b l]; [done|].
  rewrite !last_cons. by destruct (last l).
Qed.

Lemma dl_last_snoc (pv : option nat) (l : list nat) (a : nat) :
  dl_last pv (l ++ [a]) = Some a.
Proof. unfold dl_last. by rewrite last_snoc. Qed.

Lemma dl_last_elem (pv : option nat) (l : list nat) (a : nat) :
  dl_last pv l = Some a → (l = [] ∧ pv = Some a) ∨ a ∈ l.
Proof.
  unfold dl_last. destruct (last l) as [x|] eqn:Hl; simpl.
  - intros [= ->]. right. apply last_Some in Hl as [l' ->].
    apply elem_of_app. right. apply list_elem_of_singleton. done.
  - apply last_None in Hl as ->. by left.
Qed.

Lemma dl_head_elem (l : list nat) (nx : option nat) (a : nat) :
  dl_head l nx = Some a → (l = [] ∧ nx = Some a) ∨ a ∈ l.
Proof.
  unfold dl_head. destruct l as [|x l]; simpl; [by left|].
  intros [= ->]. right. apply elem_of_cons. by left.
Qed.

Section dll.
Context {T : Type} (nxt prv : T → option nat).

Lemma dlseg_lookup (m : gmap nat T) (l : list nat) :
  ∀ pv hd nx p, dlseg nxt prv m pv hd l nx → p ∈ l → is_Some (m !! p).
Proof.
  induction l as [|a l IH]; intros pv hd nx p Hseg Hin.
  - by apply elem_of_nil in Hin.
  - destruct Hseg as (_ & t & Ht & _ & Hrest).
    apply elem_of_cons in Hin as [->|Hin]; [by exists t | by eapply IH].
Qed.

Lemma dlseg_head (m : gmap nat T) (l : list nat) (pv hd nx : option nat) :
  dlseg nxt prv m pv hd l nx → hd = dl_head l nx.
Proof. destruct l; simpl; [done|]. by intros [-> _]. Qed.

(** A store with the same links at the addresses of a segment holds the
    same segment. *)
Lemma dlseg_frame (m m' : gmap nat T) (l : list nat) :
  ∀ pv hd nx,
  (∀ q tq, q ∈ l → m !! q = Some tq →
           ∃ tq', m' !! q = Some tq' ∧ nxt tq' = nxt tq ∧ prv tq' = prv tq) →
  dlseg nxt prv m pv hd l nx → dlseg nxt prv m' pv hd l nx.
Proof.
  induction l as [|a l IH]; intros pv hd nx Hsame Hseg; [done|].
  destruct Hseg as (-> & t & Ht & Hpv & Hrest).
  destruct (Hsame a t) as (t' & Ht' & Hn & Hp); [left | done |].
  split; [done|]. exists t'. split; [done|]. split; [congruence|].
  rewrite Hn. apply IH; [|done].
  intros q tq Hq. apply Hsame. by right.
Qed.

(** Taking the timer [p] out of a segment: the links that pointed to
    [p] now pass it by, the other links are as they were. *)
Lemma dlseg_unlink (m m' : gmap nat T) (p : nat) (tp : T) (l2 : list nat)
    (nx : option nat) (l1 : list nat) :
  ∀ pv hd,
  NoDup (l1 ++ p :: l2) →
  (∀ x, pv = Some x → x ∉ l1 ++ p :: l2) →
  (∀ x, nx = Some x → x ∉ l1 ++ p :: l2) →
  dlseg nxt prv m pv hd (l1 ++ p :: l2) nx →
  m !! p = Some tp →
  (∀ q tq, q ∈ l1 ++ l2 → m !! q = Some tq →
     ∃ tq', m' !! q = Some tq'
            ∧ nxt tq' = (if decide (prv tp = Some q) then nxt tp else nxt tq)
            ∧ prv tq' = (if decide (nxt tp = Some q) then prv tp else prv tq)) →
  prv tp = dl_last pv l1 ∧ nxt tp = dl_head l2 nx
  ∧ dlseg nxt prv m' pv (match l1 with [] => nxt tp | _ => hd end) (l1 ++ l2) nx.
Proof.
  induction l1 as [|a l1 IH]; intros pv hd Hnd Hpv Hnx Hseg Hp Hupd.
  - simpl in *. destruct Hseg as (-> & t & Ht & Hprv & Hrest).
    rewrite Hp in Ht. injection Ht as <-.
    split; [done|]. split; [by eapply dlseg_head|].
    apply NoDup_cons in Hnd as [Hpl2 Hnd2].
    destruct l2 as [|b l2]; [done|].
    destruct Hrest as (Hnb & tb & Htb & Hprvb & Hrest).
    destruct (Hupd b tb) as (tb' & Htb' & Hnb' & Hpb'); [left | done |].
    rewrite decide_True in Hpb' by done.
    split; [done|]. exists tb'. split; [done|]. split; [congruence|].
    apply NoDup_cons in Hnd2 as [Hbl2 Hnd2].
    assert (Hpb : prv tp ≠ Some b).
    { rewrite Hprv. intros Heq. apply (Hpv b Heq). right. left. }
    rewrite decide_False in Hnb' by done. rewrite Hnb'.
    eapply dlseg_frame; [|exact Hrest].
    intros q tq Hq Hmq. destruct (Hupd q tq) as (tq' & Hq' & Hnq & Hpq); [by right | done|].
    exists tq'. split; [done|].
    rewrite decide_False in Hnq.
    2:{ rewrite Hprv. intros Heq. apply (Hpv q Heq). right. by right. }
    rewrite decide_False in Hpq.
    2:{ rewrite Hnb. intros [= ->]. done. }
    done.
  - simpl in Hseg. destruct Hseg as (-> & ta & Hta & Hprva & Hrest).
    change ((a :: l1) ++ p :: l2) with (a :: (l1 ++ p :: l2)) in Hnd, Hpv, Hnx.
    apply NoDup_cons in Hnd as [Hal Hnd].
    destruct (IH (Some a) (nxt ta)) as (Hprv & Hnxt & Hseg'); [done | | | done | done | |].
    { intros x [= <-]. done. }
    { intros x Hx Hin. apply (Hnx x Hx). by right. }
    { intros q tq Hq. apply Hupd. by right. }
    split; [by rewrite dl_last_cons|]. split; [done|].
    simpl. split; [done|].
    destruct (Hupd a ta) as (ta' & Hta' & Hna' & Hpa'); [left | done |].
    exists ta'. split; [done|].
    rewrite decide_False in Hpa'.
    2:{ rewrite Hnxt. intros Heq. apply dl_head_elem in Heq as [[_ Heq]|Heq].
        - apply (Hnx a Heq). left.
        - apply Hal. apply elem_of_app. right. by right. }
    split; [congruence|].
    destruct l1 as [|c l1].
    + simpl in *. rewrite decide_True in Hna' by done. by rewrite Hna'.
    + rewrite decide_False in Hna'; [by rewrite Hna'|].
      rewrite Hprv. intros Heq. apply dl_last_elem in Heq as [[? _]|Heq]; [done|].
      apply Hal. apply elem_of_app. by left.
Qed.

(** Putting the timer [t] into a segment between [l1] and [l2]: its
    neighbours point to it, it points to them, the other links are as
    they were. *)
Lemma dlseg_link (m m' : gmap nat T) (t : nat) (tt' : T) (l2 : list nat)
    (nx : option nat) (l1 : list nat) :
  ∀ pv hd,
  NoDup (l1 ++ l2) → t ∉ l1 ++ l2 →
  (∀ x, pv = Some x → x ∉ l1 ++ l2) →
  (∀ x, nx = Some x → x ∉ l1 ++ l2) →
  dlseg nxt prv m pv hd (l1 ++ l2) nx →
  m' !! t = Some tt' → prv tt' = dl_last pv l1 → nxt tt' = dl_head l2 nx →
  (∀ q tq, q ∈ l1 ++ l2 → m !! q = Some tq →
     ∃ tq', m' !! q = Some tq'
            ∧ nxt tq' = (if decide (dl_last pv l1 = Some q) then Some t else nxt tq)
            ∧ prv tq' = (if decide (dl_head l2 nx = Some q) then Some t else prv tq)) →
  dlseg nxt prv m' pv (match l1 with [] => Some t | _ => hd end) (l1 ++ t :: l2) nx.
Proof.
  induction l1 as [|a l1 IH]; intros pv hd Hnd Ht Hpv Hnx Hseg Hmt Hprv Hnxt Hupd.
  - simpl in *. split; [done|]. exists tt'. split; [done|]. split; [done|].
    rewrite Hnxt. destruct l2 as [|b l2]; [by simpl in *|].
    simpl in Hseg. destruct Hseg as (-> & tb & Htb & Hprvb & Hrest).
    change (dl_head (b :: l2) nx) with (Some b) in *.
    split; [done|].
    destruct (Hupd b tb) as (tb' & Htb' & Hnb' & Hpb'); [left | done |].
    rewrite decide_True in Hpb' by done.
    exists tb'. split; [done|]. split; [done|].
    apply NoDup_cons in Hnd as [Hbl2 Hnd2].
    rewrite decide_False in Hnb'.
    2:{ unfold dl_last; simpl. intros Heq. apply (Hpv b Heq). left. }
    rewrite Hnb'. eapply dlseg_frame; [|exact Hrest].
    intros q tq Hq Hmq.
    destruct (Hupd q tq) as (tq' & Hq' & Hnq & Hpq); [by right | done|].
    exists tq'. split; [done|].
    rewrite decide_False in Hnq.
    2:{ unfold dl_last; simpl. intros Heq. apply (Hpv q Heq). by right. }
    rewrite decide_False in Hpq.
    2:{ intros [= ->]. done. }
    done.
  - simpl in Hseg. destruct Hseg as (-> & ta & Hta & Hprva & Hrest).
    change ((a :: l1) ++ l2) with (a :: (l1 ++ l2)) in Hnd, Ht, Hpv, Hnx, Hupd.
    apply NoDup_cons in Hnd as [Hal Hnd].
    rewrite dl_last_cons in Hprv.
    assert (Hseg' : dlseg nxt prv m' (Some a)
              (match l1 with [] => Some t | _ => nxt ta end) (l1 ++ t :: l2) nx).
    { apply IH; try done.
      - intros Hin. apply Ht. by right.
      - intros x [= <-]. done.
      - intros x Hx Hin. apply (Hnx x Hx). by right.
      - intros q tq Hq Hmq. rewrite <- dl_last_cons with (pv := pv).
        apply Hupd; [by right | done]. }
    simpl. split; [done|].
    destruct (Hupd a ta) as (ta' & Hta' & Hna' & Hpa'); [left | done |].
    exists ta'. split; [done|].
    rewrite decide_False in Hpa'.
    2:{ intros Heq. apply dl_head_elem in Heq as [[_ Heq]|Heq].
        - apply (Hnx a Heq). left.
        - apply Hal. apply elem_of_app. by right. }
    split; [congruence|].
    rewrite dl_last_cons in Hna'.
    destruct l1 as [|c l1].
    + change (dl_last (Some a) []) with (Some a) in Hna'.
      rewrite decide_True in Hna' by done. by rewrite Hna'.
    + rewrite decide_False in Hna'; [by rewrite Hna'|].
      intros Heq. apply dl_last_elem in Heq as [[? _]|Heq]; [done|].
      apply Hal. apply elem_of_app. by left.
Qed.

End dll.

Section dll_at.
Context {T : Type} (nxt prv : T → option nat).

(** The links of a timer inside a segment. *)
Lemma dlseg_at (m : gmap nat T) (p : nat) (l2 : list nat) (nx : option nat)
    (l1 : list nat) :
  ∀ pv hd,
  dlseg nxt prv m pv hd (l1 ++ p :: l2) nx →
  ∃ tp, m !! p = Some tp ∧ prv tp = dl_last pv l1 ∧ nxt tp = dl_head l2 nx.
Proof.
  induction l1 as [|a l1 IH]; intros pv hd Hseg.
  - destruct Hseg as (_ & tp & Hp & Hprv & Hrest). exists tp.
    split; [done|]. split; [done|]. by eapply dlseg_head.
  - destruct Hseg as (_ & ta & _ & _ & Hrest).
    destruct (IH _ _ Hrest) as (tp & ? & ? & ?). exists tp.
    by rewrite dl_last_cons.
Qed.

Lemma dlseg_at_pred (m : gmap nat T) (a p : nat) (l1 l2 : list nat)
    (pv hd nx : option nat) :
  dlseg nxt prv m pv hd ((l1 ++ [a]) ++ p :: l2) nx →
  ∃ ta, m !! a = Some ta ∧ nxt ta = Some p.
Proof.
  rewrite <- app_assoc. simpl. intros Hseg.
  destruct (dlseg_at _ _ _ _ _ _ _ Hseg) as (ta & ? & _ & ?). by exists ta.
Qed.

Lemma dlseg_at_succ (m : gmap nat T) (p b : nat) (l1 l2 : list nat)
    (pv hd nx : option nat) :
  dlseg nxt prv m pv hd (l1 ++ p :: b :: l2) nx →
  ∃ tb, m !! b = Some tb ∧ prv tb = Some p.
Proof.
  replace (l1 ++ p :: b :: l2) with ((l1 ++ [p]) ++ b :: l2)
    by (by rewrite <- app_assoc).
  intros Hseg.
  destruct (dlseg_at _ _ _ _ _ _ _ Hseg) as (tb & ? & Hprv & _). exists tb.
  by rewrite dl_last_snoc in Hprv.
Qed.

End dll_at.

(** ** The list: reading and writing timers *)

Arguments Lst.rd : simpl never.
Arguments Lst.wr : simpl never.
Arguments Lst.free : simpl never.

Lemma lst_rd_Ok (s : Lst.sort_timer_lst) (p : nat) (t : Lst.util_timer) :
  Lst.mem s !! p = Some t → Lst.rd s (Some p) = Ok t.
Proof. intros Hp. unfold Lst.rd. by rewrite Hp. Qed.

Lemma lst_wr_Ok (f : Lst.util_timer → Lst.util_timer) (s : Lst.sort_timer_lst)
    (p : nat) (t : Lst.util_timer) :
  Lst.mem s !! p = Some t →
  Lst.wr f (Some p) s = Ok (Lst.set_mem (<[p := f t]> (Lst.mem s)) s).
Proof. intros Hp. unfold Lst.wr. by rewrite Hp. Qed.

Lemma lst_free_Ok (s : Lst.sort_timer_lst) (p : nat) (t : Lst.util_timer) :
  Lst.mem s !! p = Some t →
  Lst.free p s = Ok (Lst.set_mem (delete p (Lst.mem s)) s).
Proof. intros Hp. unfold Lst.free. by rewrite Hp. Qed.

Lemma lst_inv_head (s : Lst.sort_timer_lst) (l : list nat) :
  lst_inv s l → Lst.head s = head l.
Proof.
  intros [[_ Hseg] _]. apply dlseg_head in Hseg. rewrite Hseg.
  unfold dl_head. by destruct (head l).
Qed.

Lemma last_app_cons {A} (l1 l2 : list A) (x : A) :
  last (l1 ++ x :: l2) = last (x :: l2).
Proof.
  induction l1 as [|a l1 IH]; [done|].
  change ((a :: l1) ++ x :: l2) with (a :: (l1 ++ x :: l2)).
  destruct (l1 ++ x :: l2) eqn:E; [by destruct l1|].
  rewrite last_cons_cons. done.
Qed.

(** Whether the timer at [t] is the first, and whether it is the last. *)
Lemma lst_inv_is_head (s : Lst.sort_timer_lst) (l1 l2 : list nat) (t : nat) :
  lst_inv s (l1 ++ t :: l2) → (Some t = Lst.head s ↔ l1 = []).
Proof.
  intros Hinv. rewrite (lst_inv_head _ _ Hinv). destruct Hinv as [[Hnd _] _].
  destruct l1 as [|a l1]; simpl; [done|]. split; [|done].
  intros [= ->]. apply NoDup_cons in Hnd as [Hin _]. destruct Hin.
  apply elem_of_app. right. left.
Qed.

Lemma lst_inv_is_tail (s : Lst.sort_timer_lst) (l1 l2 : list nat) (t : nat) :
  lst_inv s (l1 ++ t :: l2) → (Some t = Lst.tail s ↔ l2 = []).
Proof.
  intros [[Hnd _] Htl]. rewrite Htl by (by destruct l1).
  rewrite last_app_cons. destruct l2 as [|b l2]; [done|]. split; [|done].
  rewrite last_cons_cons. intros Hl. symmetry in Hl.
  apply NoDup_app in Hnd as (_ & _ & Hnd). apply NoDup_cons in Hnd as [Hin _].
  destruct Hin. apply last_Some in Hl as [l' ->].
  apply elem_of_app. right. left.
Qed.

(** ** The list: [del_timer] *)

Lemma snoc_not_nil {A} (l : list A) (a : A) : l ++ [a] ≠ [].
Proof. by destruct l. Qed.

Lemma match_snoc {A B} (l : list A) (a : A) (x y : B) :
  match l ++ [a] with [] => x | _ => y end = y.
Proof. by destruct l. Qed.

Lemma NoDup_mid_ne (l1 l2 : list nat) (t q : nat) :
  NoDup (l1 ++ t :: l2) → q ∈ l1 ++ l2 → q ≠ t.
Proof.
  intros Hnd Hq ->. apply NoDup_app in Hnd as (_ & Hd & Hnd).
  apply NoDup_cons in Hnd as [Hin _].
  apply elem_of_app in Hq as [Hq|Hq]; [|done].
  apply (Hd t Hq). left.
Qed.

(** Settling the links of one address after a few assignments. *)
Ltac links_at :=
  repeat match goal with
  | |- context [<[?a := _]> _ !! ?q] =>
      first [ rewrite (lookup_insert_eq _ a)
            | rewrite (lookup_insert_ne _ a q) by congruence ]
  | |- context [delete ?a _ !! ?q] =>
      rewrite (lookup_delete_ne _ a q) by congruence
  end;
  eexists; split; [eassumption || reflexivity|]; simpl;
  repeat case_decide; simplify_eq; done.

Lemma lst_del_timer_spec (s : Lst.sort_timer_lst) (l1 l2 : list nat) (t : nat) :
  lst_inv s (l1 ++ t :: l2) →
  ∃ s', Lst.del_timer s (Some t) = Ok s'
        ∧ lst_inv s' (l1 ++ l2)
        ∧ Lst.mem s' !! t = None
        ∧ (∀ q, q ≠ t → lst_data <$> Lst.mem s' !! q = lst_data <$> Lst.mem s !! q).
Proof.
  intros Hinv.
  pose proof (lst_inv_is_head _ _ _ _ Hinv) as Hhd.
  pose proof (lst_inv_is_tail _ _ _ _ Hinv) as Htl.
  pose proof (lst_inv_head _ _ Hinv) as Hhead.
  destruct Hinv as [[Hnd Hseg] Htail].
  destruct (dlseg_at _ _ _ _ _ _ _ _ _ Hseg) as (tm & Ht & Hprv & Hnxt).
  unfold Lst.del_timer.
  destruct l1 as [|a l1 _] using rev_ind; destruct l2 as [|b l2].
  - (* the only timer *)
    rewrite decide_True by (split; [by apply Hhd | by apply Htl]).
    rewrite (lst_free_Ok _ _ _ Ht). mstep. eexists. split; [done|].
    split; [|split; [apply lookup_delete_eq | intros q Hq; simpl; by rewrite lookup_delete_ne]].
    split; [|done]. split; [constructor | done].
  - (* the first of several *)
    rewrite decide_False by (intros [_ ?%Htl]; done).
    rewrite decide_True by (by apply Hhd).
    destruct (dlseg_at_succ _ _ _ _ _ [] _ _ _ _ Hseg) as (tb & Hb & Hpb).
    assert (Hne : b ≠ t) by (eapply NoDup_mid_ne; [exact Hnd | left]).
    simpl in Hhead. rewrite Hhead, (lst_rd_Ok _ _ _ Ht). mstep.
    change (dl_head (b :: l2) None) with (Some b) in Hnxt. rewrite Hnxt. simpl.
    rewrite (lst_wr_Ok _ _ b tb) by done. mstep.
    rewrite (lst_free_Ok _ _ tm) by (simpl; by rewrite lookup_insert_ne).
    eexists. split; [done|]. simpl.
    split; [|split; [apply lookup_delete_eq|]].
    + split; [split|].
      * by apply NoDup_cons in Hnd as [_ ?].
      * destruct (dlseg_unlink Lst.next Lst.prev (Lst.mem s)
                    (delete t (<[b := Lst.with_prev None tb]> (Lst.mem s)))
                    t tm (b :: l2) None [] None (Lst.head s))
          as (_ & _ & Hres); try done.
        { intros q tq Hq Hmq.
          assert (q ≠ t) by (eapply NoDup_mid_ne; [exact Hnd | done]).
          rewrite Hprv, Hnxt. unfold dl_last; simpl.
          destruct (decide (q = b)) as [->|]; simplify_eq; links_at. }
        by rewrite Hnxt in Hres.
      * intros _. simpl. rewrite Htail by done. apply last_cons_cons.
    + intros q Hq. rewrite lookup_delete_ne by done.
      destruct (decide (q = b)) as [->|].
      * rewrite lookup_insert_eq, Hb. done.
      * rewrite lookup_insert_ne by done. done.
  - (* the last of several *)
    rewrite decide_False by (intros [?%Hhd _]; by eapply snoc_not_nil).
    rewrite decide_False by (intros ?%Hhd; by eapply snoc_not_nil).
    rewrite decide_True by (by apply Htl).
    destruct (dlseg_at_pred _ _ _ _ _ _ _ _ _ _ Hseg) as (ta & Ha & Hna).
    assert (Hne : a ≠ t).
    { eapply NoDup_mid_ne; [exact Hnd|]. rewrite app_nil_r. apply elem_of_app. right. left. }
    rewrite Htail by (by destruct (l1 ++ [a])).
    rewrite last_app_cons. simpl. rewrite (lst_rd_Ok _ _ _ Ht). mstep.
    rewrite dl_last_snoc in Hprv. rewrite Hprv. simpl.
    rewrite (lst_wr_Ok _ _ a ta) by done. mstep.
    rewrite (lst_free_Ok _ _ tm) by (simpl; by rewrite lookup_insert_ne).
    eexists. split; [done|]. simpl.
    split; [|split; [apply lookup_delete_eq|]].
    + split; [split|].
      * rewrite app_nil_r. by apply NoDup_app in Hnd as [? _].
      * simpl.
        destruct (dlseg_unlink Lst.next Lst.prev (Lst.mem s)
                    (delete t (<[a := Lst.with_next None ta]> (Lst.mem s)))
                    t tm [] None (l1 ++ [a]) None (Lst.head s))
          as (_ & _ & Hres); try done.
        { intros q tq Hq Hmq.
          assert (q ≠ t) by (eapply NoDup_mid_ne; [exact Hnd | done]).
          rewrite Hprv, Hnxt. unfold dl_head; simpl.
          destruct (decide (q = a)) as [->|]; simplify_eq; links_at. }
        by rewrite match_snoc in Hres.
      * intros _. simpl. rewrite app_nil_r. by rewrite last_snoc.
    + intros q Hq. rewrite lookup_delete_ne by done.
      destruct (decide (q = a)) as [->|].
      * rewrite lookup_insert_eq, Ha. done.
      * rewrite lookup_insert_ne by done. done.
  - (* one in the middle *)
    rewrite decide_False by (intros [?%Hhd _]; by eapply snoc_not_nil).
    rewrite decide_False by (intros ?%Hhd; by eapply snoc_not_nil).
    rewrite decide_False by (intros ?%Htl; done).
    destruct (dlseg_at_pred _ _ _ _ _ _ _ _ _ _ Hseg) as (ta & Ha & Hna).
    destruct (dlseg_at_succ _ _ _ _ _ _ _ _ _ _ Hseg) as (tb & Hb & Hpb).
    assert (Hat : a ≠ t).
    { eapply NoDup_mid_ne; [exact Hnd|]. apply elem_of_app. left.
      apply elem_of_app. right. left. }
    assert (Hbt : b ≠ t).
    { eapply NoDup_mid_ne; [exact Hnd|]. apply elem_of_app. right. left. }
    assert (Hab : a ≠ b).
    { intros ->. rewrite <- app_assoc in Hnd. apply NoDup_app in Hnd as (_ & _ & Hnd).
      apply NoDup_cons in Hnd as [Hin _]. apply Hin. right. left. }
    rewrite (lst_rd_Ok _ _ _ Ht). mstep.
    rewrite dl_last_snoc in Hprv.
    change (dl_head (b :: l2) None) with (Some b) in Hnxt.
    rewrite Hprv, Hnxt.
    rewrite (lst_wr_Ok _ _ a ta) by done. mstep.
    rewrite (lst_rd_Ok _ _ tm) by (simpl; by rewrite lookup_insert_ne).
    mstep. rewrite Hprv, Hnxt.
    rewrite (lst_wr_Ok _ _ b tb) by (simpl; by rewrite lookup_insert_ne).
    mstep.
    rewrite (lst_free_Ok _ _ tm) by (simpl; by rewrite !lookup_insert_ne).
    eexists. split; [done|]. simpl.
    split; [|split; [apply lookup_delete_eq|]].
    + split; [split|].
      * apply NoDup_app in Hnd as (Hn1 & Hd & Hn2). apply NoDup_cons in Hn2 as [_ Hn2].
        apply NoDup_app. split; [done|]. split; [|done].
        intros x Hx Hx2. apply (Hd x Hx). by right.
      * simpl.
        destruct (dlseg_unlink Lst.next Lst.prev (Lst.mem s)
                    (delete t (<[b := Lst.with_prev (Some a) tb]>
                                  (<[a := Lst.with_next (Some b) ta]> (Lst.mem s))))
                    t tm (b :: l2) None (l1 ++ [a]) None (Lst.head s))
          as (_ & _ & Hres); try done.
        { intros q tq Hq Hmq.
          assert (q ≠ t) by (eapply NoDup_mid_ne; [exact Hnd | done]).
          rewrite Hprv, Hnxt.
          destruct (decide (q = a)) as [->|]; [|destruct (decide (q = b)) as [->|]];
            simplify_eq; links_at. }
        by rewrite match_snoc in Hres.
      * intros _. simpl. rewrite Htail by (by destruct (l1 ++ [a])).
        by rewrite !last_app_cons, last_cons_cons.
    + intros q Hq. rewrite lookup_delete_ne by done.
      destruct (decide (q = b)) as [->|]; [by rewrite lookup_insert_eq, Hb|].
      rewrite lookup_insert_ne by done.
      destruct (decide (q = a)) as [->|]; [by rewrite lookup_insert_eq, Ha|].
      by rewrite lookup_insert_ne.
Qed.

(** ** The list: [tick] *)

Lemma lst_expire_at (s : Lst.sort_timer_lst) (p : nat) (t : Lst.util_timer) :
  Lst.mem s !! p = Some t → lst_expire s p = Lst.expire t.
Proof. unfold lst_expire. by intros ->. Qed.

Lemma lst_expire_data (s s' : Lst.sort_timer_lst) (q : nat) :
  lst_data <$> Lst.mem s' !! q = lst_data <$> Lst.mem s !! q →
  lst_expire s' q = lst_expire s q.
Proof.
  unfold lst_expire.
  destruct (Lst.mem s' !! q) as [t'|], (Lst.mem s !! q) as [t|]; simpl; try done.
  by intros [= -> _ _].
Qed.

Lemma lst_tick_loop_unfold (fuel : nat) (s : Lst.sort_timer_lst) (cur : Z)
    (tmp : option nat) (log : list fired) :
  Lst.tick_loop fuel s cur tmp log =
  match tmp with
  | None => Ok (log, s)
  | Some p =>
      match fuel with
      | O => NoFuel
      | S fuel' =>
          tp ← Lst.rd s (Some p);
          if cur <? Lst.expire tp then Ok (log, s)
          else
            log' ← invoke p (Lst.cb_func tp) (Lst.user_data tp) log;
            let s1 := Lst.set_head (Lst.next tp) s in
            s2 ← match Lst.head s1 with
                 | Some _ => Lst.wr (Lst.with_prev None) (Lst.head s1) s1
                 | None => Ok s1
                 end;
            s3 ← Lst.free p s2;
            Lst.tick_loop fuel' s3 cur (Lst.head s3) log'
      end
  end.
Proof. destruct fuel; reflexivity. Qed.

(** One turn of the loop on a timer that has expired: the first timer
    is invoked, unlinked and deleted. *)
Lemma lst_tick_step (s : Lst.sort_timer_lst) (p : nat) (l : list nat)
    (tp : Lst.util_timer) :
  lst_inv s (p :: l) → Lst.mem s !! p = Some tp →
  ∃ s2 s3,
    (let s1 := Lst.set_head (Lst.next tp) s in
     match Lst.head s1 with
     | Some _ => Lst.wr (Lst.with_prev None) (Lst.head s1) s1
     | None => Ok s1
     end) = Ok s2
    ∧ Lst.free p s2 = Ok s3
    ∧ lst_inv s3 l
    ∧ Lst.mem s3 !! p = None
    ∧ (∀ q, q ≠ p → lst_data <$> Lst.mem s3 !! q = lst_data <$> Lst.mem s !! q).
Proof.
  intros [[Hnd Hseg] Htail] Hp.
  destruct (dlseg_at _ _ _ _ _ _ [] _ _ Hseg) as (tm & Ht & Hprv & Hnxt).
  rewrite Hp in Ht. injection Ht as <-.
  destruct l as [|b l].
  - change (dl_head [] None) with (@None nat) in Hnxt. simpl. rewrite Hnxt.
    eexists _, _. split; [done|].
    split; [by apply (lst_free_Ok _ _ tp)|]. simpl.
    split; [|split; [apply lookup_delete_eq | intros q Hq; by rewrite lookup_delete_ne]].
    split; [|done]. split; [constructor | done].
  - change (dl_head (b :: l) None) with (Some b) in Hnxt. simpl. rewrite Hnxt.
    destruct (dlseg_at_succ _ _ _ _ _ [] _ _ _ _ Hseg) as (tb & Hb & Hpb).
    assert (Hne : b ≠ p) by (eapply (NoDup_mid_ne []); [exact Hnd | left]).
    eexists _, _. split; [by apply (lst_wr_Ok _ _ b tb)|].
    split; [apply (lst_free_Ok _ _ tp); simpl; by rewrite lookup_insert_ne|].
    simpl.
    split; [|split; [apply lookup_delete_eq|]].
    + split; [split|].
      * by apply NoDup_cons in Hnd as [_ ?].
      * destruct (dlseg_unlink Lst.next Lst.prev (Lst.mem s)
                    (delete p (<[b := Lst.with_prev None tb]> (Lst.mem s)))
                    p tp (b :: l) None [] None (Lst.head s))
          as (_ & _ & Hres); try done.
        { intros q tq Hq Hmq.
          assert (q ≠ p) by (eapply (NoDup_mid_ne []); [exact Hnd | done]).
          rewrite Hprv, Hnxt. unfold dl_last; simpl.
          destruct (decide (q = b)) as [->|]; simplify_eq; links_at. }
        by rewrite Hnxt in Hres.
      * intros _. simpl. rewrite Htail by done. apply last_cons_cons.
    + intros q Hq. rewrite lookup_delete_ne by done.
      destruct (decide (q = b)) as [->|].
      * rewrite lookup_insert_eq, Hb. done.
      * rewrite lookup_insert_ne by done. done.
Qed.

(** The loop of [tick]: it invokes and deletes the timers from the
    front of the list up to the first one that has not expired. *)
Lemma lst_tick_loop_spec (cur : Z) (l : list nat) :
  ∀ (fuel : nat) (s : Lst.sort_timer_lst) (log : list fired),
  lst_inv s l → lst_callbacks s l → (length l < fuel)%nat →
  ∃ log' s' l1 l2,
    l = l1 ++ l2
    ∧ Lst.tick_loop fuel s cur (Lst.head s) log = Ok (log ++ log', s')
    ∧ lst_inv s' l2
    ∧ Forall (λ p, lst_expire s p ≤ cur) l1
    ∧ (∀ b, head l2 = Some b → cur < lst_expire s b)
    ∧ Forall2 (lst_fires s) l1 log'
    ∧ (∀ p, p ∈ l1 → Lst.mem s' !! p = None)
    ∧ (∀ q, q ∉ l1 → lst_data <$> Lst.mem s' !! q = lst_data <$> Lst.mem s !! q).
Proof.
  induction l as [|p l IH]; intros fuel s log Hinv Hcb Hfuel;
    rewrite lst_tick_loop_unfold; rewrite (lst_inv_head _ _ Hinv); simpl.
  - exists [], s, [], []. split; [done|]. split; [by rewrite app_nil_r|].
    split; [done|]. split; [constructor|]. split; [done|].
    split; [constructor|]. split; [|done].
    intros p Hp. by apply elem_of_nil in Hp.
  - destruct fuel as [|fuel]; [simpl in Hfuel; lia|].
    pose proof Hinv as [[Hnd Hseg] _].
    destruct (dlseg_at _ _ _ _ _ _ [] _ _ Hseg) as (tp & Hp & _ & _).
    rewrite (lst_rd_Ok _ _ _ Hp). mstep.
    destruct (Z.ltb_spec cur (Lst.expire tp)) as [Hlater|Hdue].
    + exists [], s, [], (p :: l). split; [done|]. split; [by rewrite app_nil_r|].
      split; [done|]. split; [constructor|].
      split; [intros b [= <-]; by rewrite (lst_expire_at _ _ _ Hp)|].
      split; [constructor|]. split; [|done].
      intros q Hq. by apply elem_of_nil in Hq.
    + destruct (Hcb p tp) as [cb Hcbp]; [left | done |].
      rewrite Hcbp. unfold invoke. mstep.
      destruct (lst_tick_step s p l tp Hinv Hp)
        as (s2 & s3 & Hstep & Hfree & Hinv3 & Hdel & Hdata).
      simpl in Hstep. rewrite Hstep. mstep. rewrite Hfree. mstep.
      destruct (IH fuel s3 (log ++ [Fired p cb (Lst.user_data tp)]) Hinv3)
        as (log' & s' & l1 & l2 & -> & Hrun & Hinv' & Hdue' & Hhd' & Hfire' & Hdel' & Hdata');
        [|simpl in Hfuel; lia|].
      { intros q tq Hq Hmq. apply NoDup_cons in Hnd as [Hpl _].
        assert (q ≠ p) by (intros ->; done).
        specialize (Hdata q H). rewrite Hmq in Hdata.
        destruct (Lst.mem s !! q) as [tq0|] eqn:Hq0; [|done].
        simpl in Hdata. injection Hdata as He Hc Hu. rewrite Hc.
        apply (Hcb q tq0); [by right | done]. }
      apply NoDup_cons in Hnd as [Hpl Hnd].
      assert (Hne : ∀ q, q ∈ l1 ++ l2 → q ≠ p) by (intros q Hq ->; done).
      exists (Fired p cb (Lst.user_data tp) :: log'), s', (p :: l1), l2.
      split; [done|]. split; [by rewrite Hrun, <- app_assoc|].
      split; [done|]. split; [|split; [|split; [|split]]].
      * constructor; [by rewrite (lst_expire_at _ _ _ Hp)|].
        apply Forall_forall. intros q Hq. rewrite Forall_forall in Hdue'.
        rewrite <- (lst_expire_data s s3 q); [by apply Hdue'|].
        apply Hdata. apply Hne. apply elem_of_app. by left.
      * intros b Hb. rewrite <- (lst_expire_data s s3 b); [by apply Hhd'|].
        apply Hdata. apply Hne. apply elem_of_app. right.
        destruct l2; simpl in Hb; [done|]. injection Hb as ->. left.
      * constructor; [by exists tp, cb|].
        assert (Hl1 : ∀ q, q ∈ l1 → q ≠ p).
        { intros q Hq. apply Hne. apply elem_of_app. by left. }
        clear -Hfire' Hdata Hl1. induction Hfire' as [|q e l1 log' Hqe _ IH'];
          constructor.
        -- destruct Hqe as (t & c & Hq & Hc & ->).
           assert (Hqp : q ≠ p) by (apply Hl1; left).
           specialize (Hdata q Hqp). rewrite Hq in Hdata.
           destruct (Lst.mem s !! q) as [t0|] eqn:Hq0; [|done].
           injection Hdata as He Hcc Hu. exists t0, c.
           split; [done|]. split; [congruence|]. by rewrite Hu.
        -- apply IH'. intros q' Hq'. apply Hl1. by right.
      * intros q [->|Hq]%elem_of_cons; [|by apply Hdel'].
        destruct (decide (p ∈ l1)) as [Hin|Hnin]; [by apply Hdel'|].
        specialize (Hdata' p Hnin). rewrite Hdel in Hdata'.
        by destruct (Lst.mem s' !! p).
      * intros q Hq. apply not_elem_of_cons in Hq as [Hqp Hq].
        rewrite Hdata' by done. by apply Hdata.
Qed.

(** A list of distinct live addresses is no longer than the store is
    large: the iteration bounds taken from the store's size suffice. *)
Lemma NoDup_length_le_size {T} (m : gmap nat T) (l : list nat) :
  NoDup l → (∀ p, p ∈ l → is_Some (m !! p)) → (length l ≤ size m)%nat.
Proof.
  intros Hnd Hin.
  rewrite <- size_dom. unfold size at 1, set_size. simpl.
  apply submseteq_length, NoDup_submseteq; [done|].
  intros p Hp. apply elem_of_elements, elem_of_dom. by apply Hin.
Qed.

Lemma lst_inv_length (s : Lst.sort_timer_lst) (l : list nat) :
  lst_inv s l → (length l ≤ size (Lst.mem s))%nat.
Proof.
  intros [[Hnd Hseg] _]. apply NoDup_length_le_size; [done|].
  intros p Hp. by eapply dlseg_lookup.
Qed.

(** [tick] on the list. *)
Lemma lst_tick_spec (cur : Z) (s : Lst.sort_timer_lst) (l : list nat) :
  lst_inv s l → lst_callbacks s l →
  ∃ log s' l1 l2,
    l = l1 ++ l2
    ∧ Lst.tick s cur = Ok (log, s')
    ∧ lst_inv s' l2
    ∧ Forall (λ p, lst_expire s p ≤ cur) l1
    ∧ (∀ b, head l2 = Some b → cur < lst_expire s b)
    ∧ Forall2 (lst_fires s) l1 log
    ∧ (∀ p, p ∈ l1 → Lst.mem s' !! p = None)
    ∧ (∀ q, q ∉ l1 → lst_data <$> Lst.mem s' !! q = lst_data <$> Lst.mem s !! q).
Proof.
  intros Hinv Hcb. unfold Lst.tick.
  destruct (Lst.head s) as [h|] eqn:Hh.
  - rewrite <- Hh.
    destruct (lst_tick_loop_spec cur l (S (size (Lst.mem s))) s [] Hinv Hcb)
      as (log & s' & l1 & l2 & Hl & Hrun & Hrest).
    { pose proof (lst_inv_length _ _ Hinv). lia. }
    by exists log, s', l1, l2.
  - rewrite (lst_inv_head _ _ Hinv) in Hh. destruct l; [|done].
    exists [], s, [], []. split; [done|]. split; [done|].
    split; [done|]. split; [constructor|]. split; [done|].
    split; [constructor|]. split; [|done].
    intros p Hp. by apply elem_of_nil in Hp.
Qed.

(** ** The list: the insertion walk of [add_timer(timer, lst_head)] *)

Ltac nodup :=
  repeat match goal with
  | H : NoDup (_ ++ _) |- _ => apply NoDup_app in H as (? & ? & ?)
  | H : NoDup (_ :: _) |- _ => apply NoDup_cons in H as (? & ?)
  end;
  rewrite ?NoDup_app, ?NoDup_cons, ?NoDup_nil;
  set_solver.

Ltac solve_lookup :=
  simpl;
  repeat first [ rewrite lookup_insert_eq
               | rewrite lookup_insert_ne by congruence
               | rewrite lookup_delete_ne by congruence ];
  first [eassumption | reflexivity].

Ltac lst_wr_step a :=
  erewrite (lst_wr_Ok _ _ a) by solve_lookup; mstep.

Lemma lst_add_timer_walk_unfold (fuel : nat) (s : Lst.sort_timer_lst)
    (timer prv : nat) (tmp : option nat) :
  Lst.add_timer_walk fuel s timer prv tmp =
  match tmp with
  | None =>
      s1 ← Lst.wr (Lst.with_next (Some timer)) (Some prv) s;
      s2 ← Lst.wr (Lst.with_prev (Some prv)) (Some timer) s1;
      s3 ← Lst.wr (Lst.with_next None) (Some timer) s2;
      Ok (Lst.set_tail (Some timer) s3)
  | Some q =>
      match fuel with
      | O => NoFuel
      | S fuel' =>
          tm ← Lst.rd s (Some timer);
          tq ← Lst.rd s (Some q);
          if Lst.expire tm <? Lst.expire tq then
            s1 ← Lst.wr (Lst.with_next (Some timer)) (Some prv) s;
            s2 ← Lst.wr (Lst.with_next (Some q)) (Some timer) s1;
            s3 ← Lst.wr (Lst.with_prev (Some timer)) (Some q) s2;
            Lst.wr (Lst.with_prev (Some prv)) (Some timer) s3
          else
            Lst.add_timer_walk fuel' s timer q (Lst.next tq)
      end
  end.
Proof. destruct fuel; reflexivity. Qed.

Lemma lst_walk_spec (t : nat) (tm : Lst.util_timer) (l2 : list nat) :
  ∀ (l1 : list nat) (prv : nat) (fuel : nat) (s : Lst.sort_timer_lst),
  lst_inv s (l1 ++ prv :: l2) →
  t ∉ l1 ++ prv :: l2 →
  Lst.mem s !! t = Some tm →
  (length l2 ≤ fuel)%nat →
  ∃ s' l2a l2b,
    l2 = l2a ++ l2b
    ∧ Lst.add_timer_walk fuel s t prv (dl_head l2 None) = Ok s'
    ∧ lst_inv s' (l1 ++ prv :: l2a ++ t :: l2b)
    ∧ Forall (λ q, lst_expire s q ≤ Lst.expire tm) l2a
    ∧ (∀ b, head l2b = Some b → Lst.expire tm < lst_expire s b)
    ∧ (∀ q, lst_data <$> Lst.mem s' !! q = lst_data <$> Lst.mem s !! q).
Proof.
  induction l2 as [|q l2 IH]; intros l1 prv fuel s Hinv Hfresh Ht Hfuel;
    rewrite lst_add_timer_walk_unfold.
  - (* the end of the list: append *)
    change (dl_head [] None) with (@None nat). cbv iota.
    pose proof Hinv as [[Hnd Hseg] Htail].
    destruct (dlseg_at _ _ _ _ _ _ _ _ _ Hseg) as (tp & Hp & Hprv & Hnxt).
    assert (Htp : t ≠ prv) by (clear -Hfresh; set_solver).
    lst_wr_step prv. lst_wr_step t. lst_wr_step t.
    eexists _, [], []. split; [done|]. split; [done|]. simpl.
    split; [|split; [constructor|split; [done|]]].
    + split; [split|].
      * clear -Hnd Hfresh. nodup.
      * simpl.
        pose proof (dlseg_link Lst.next Lst.prev (Lst.mem s)
          (<[t:=Lst.with_next None (Lst.with_prev (Some prv) tm)]>
             (<[t:=Lst.with_prev (Some prv) tm]>
                (<[prv:=Lst.with_next (Some t) tp]> (Lst.mem s))))
          t (Lst.with_next None (Lst.with_prev (Some prv) tm))
          [] None (l1 ++ [prv]) None (Lst.head s)) as Hlink.
        rewrite match_snoc, dl_last_snoc, !app_nil_r in Hlink.
        rewrite <- app_assoc in Hlink. simpl in Hlink.
        apply Hlink; clear Hlink; try done.
        -- apply lookup_insert_eq.
        -- intros x tx Hx Hmx.
           assert (x ≠ t) by (intros ->; done).
           unfold dl_head; simpl.
           destruct (decide (x = prv)) as [->|]; simplify_eq; links_at.
      * intros _. simpl. rewrite cons_middle, app_assoc. by rewrite last_snoc.
    + intros x. destruct (decide (x = t)) as [->|];
        [by rewrite lookup_insert_eq, Ht|].
      rewrite !lookup_insert_ne by done.
      destruct (decide (x = prv)) as [->|];
        [by rewrite lookup_insert_eq, Hp|].
      by rewrite lookup_insert_ne.
  - change (dl_head (q :: l2) None) with (Some q). cbv iota.
    destruct fuel as [|fuel]; [simpl in Hfuel; lia|].
    pose proof Hinv as [[Hnd Hseg] Htail].
    destruct (dlseg_at _ _ _ _ _ _ _ _ _ Hseg) as (tp & Hp & Hprv & Hnxt).
    destruct (dlseg_at_succ _ _ _ _ _ _ _ _ _ _ Hseg) as (tq & Hq & Hpq).
    assert (Htp : t ≠ prv) by (clear -Hfresh; set_solver).
    assert (Htq : t ≠ q) by (clear -Hfresh; set_solver).
    assert (Hpq' : prv ≠ q) by (clear -Hnd; nodup).
    rewrite (lst_rd_Ok _ _ _ Ht). mstep. rewrite (lst_rd_Ok _ _ _ Hq). mstep.
    destruct (Z.ltb_spec (Lst.expire tm) (Lst.expire tq)) as [Hlt|Hge].
    + (* insert before [q] *)
      lst_wr_step prv. lst_wr_step t. lst_wr_step q.
      erewrite (lst_wr_Ok _ _ t) by solve_lookup.
      eexists _, [], (q :: l2). split; [done|]. split; [done|]. simpl.
      split; [|split; [constructor|split; [|]]].
      * split; [split|].
        -- clear -Hnd Hfresh. nodup.
        -- simpl.
           pose proof (dlseg_link Lst.next Lst.prev (Lst.mem s)
             (<[t:=Lst.with_prev (Some prv) (Lst.with_next (Some q) tm)]>
                (<[q:=Lst.with_prev (Some t) tq]>
                   (<[t:=Lst.with_next (Some q) tm]>
                      (<[prv:=Lst.with_next (Some t) tp]> (Lst.mem s)))))
             t (Lst.with_prev (Some prv) (Lst.with_next (Some q) tm))
             (q :: l2) None (l1 ++ [prv]) None (Lst.head s)) as Hlink.
           rewrite match_snoc, dl_last_snoc in Hlink.
           rewrite <- !app_assoc in Hlink. simpl in Hlink.
           apply Hlink; clear Hlink; try done.
           ++ apply lookup_insert_eq.
           ++ intros x tx Hx Hmx.
              assert (x ≠ t) by (intros ->; done).
              change (dl_head (q :: l2) None) with (Some q).
              destruct (decide (x = prv)) as [->|]; [|destruct (decide (x = q)) as [->|]];
                simplify_eq; links_at.
        -- intros _. simpl. rewrite Htail by (by destruct l1).
           rewrite !last_app_cons. by rewrite !last_cons_cons.
      * intros b [= <-]. by rewrite (lst_expire_at _ _ _ Hq).
      * intros x. destruct (decide (x = t)) as [->|];
          [by rewrite lookup_insert_eq, Ht|].
        rewrite lookup_insert_ne by done.
        destruct (decide (x = q)) as [->|];
          [by rewrite lookup_insert_eq, Hq|].
        rewrite !lookup_insert_ne by done.
        destruct (decide (x = prv)) as [->|];
          [by rewrite lookup_insert_eq, Hp|].
        by rewrite lookup_insert_ne.
    + (* walk on *)
      destruct (dlseg_at Lst.next Lst.prev (Lst.mem s) q l2 None (l1 ++ [prv]) None (Lst.head s))
        as (tq' & Hq' & _ & Hnq); [by rewrite <- app_assoc|].
      rewrite Hq in Hq'. injection Hq' as <-. rewrite Hnq.
      destruct (IH (l1 ++ [prv]) q fuel s) as (s' & l2a & l2b & -> & Hrun & Hinv' & Hle & Hhd & Hdata);
        [by rewrite <- app_assoc | by rewrite <- app_assoc | done | simpl in Hfuel; lia |].
      exists s', (q :: l2a), l2b. split; [done|]. split; [done|].
      split; [by rewrite <- app_assoc in Hinv'|].
      split; [|done].
      constructor; [|done]. rewrite (lst_expire_at _ _ _ Hq). lia.
Qed.

(** ** The list: [add_timer] *)

Lemma lst_add_timer_lst_head_spec (t : nat) (tm : Lst.util_timer)
    (l1 : list nat) (prv : nat) (l2 : list nat) (s : Lst.sort_timer_lst) :
  lst_inv s (l1 ++ prv :: l2) →
  t ∉ l1 ++ prv :: l2 →
  Lst.mem s !! t = Some tm →
  ∃ s' l2a l2b,
    l2 = l2a ++ l2b
    ∧ Lst.add_timer_lst_head s t (Some prv) = Ok s'
    ∧ lst_inv s' (l1 ++ prv :: l2a ++ t :: l2b)
    ∧ Forall (λ q, lst_expire s q ≤ Lst.expire tm) l2a
    ∧ (∀ b, head l2b = Some b → Lst.expire tm < lst_expire s b)
    ∧ (∀ q, lst_data <$> Lst.mem s' !! q = lst_data <$> Lst.mem s !! q).
Proof.
  intros Hinv Hfresh Ht. unfold Lst.add_timer_lst_head.
  pose proof Hinv as [[Hnd Hseg] _].
  destruct (dlseg_at _ _ _ _ _ _ _ _ _ Hseg) as (tp & Hp & _ & Hnxt).
  rewrite (lst_rd_Ok _ _ _ Hp). mstep. rewrite Hnxt.
  apply lst_walk_spec; [done..|].
  pose proof (lst_inv_length _ _ Hinv) as Hlen.
  rewrite length_app in Hlen. simpl in Hlen. lia.
Qed.

Lemma lst_add_timer_spec (s : Lst.sort_timer_lst) (l : list nat) (t : nat)
    (tm : Lst.util_timer) :
  lst_inv s l → t ∉ l →
  Lst.mem s !! t = Some tm → Lst.prev tm = None → Lst.next tm = None →
  ∃ s' la lb,
    l = la ++ lb
    ∧ Lst.add_timer s (Some t) = Ok s'
    ∧ lst_inv s' (la ++ t :: lb)
    ∧ Forall (λ q, lst_expire s q ≤ Lst.expire tm) la
    ∧ (∀ b, head lb = Some b → Lst.expire tm < lst_expire s b)
    ∧ (∀ q, lst_data <$> Lst.mem s' !! q = lst_data <$> Lst.mem s !! q).
Proof.
  intros Hinv Hfresh Ht Hprev Hnext. unfold Lst.add_timer.
  pose proof (lst_inv_head _ _ Hinv) as Hhead.
  destruct l as [|h l]; simpl in Hhead; rewrite Hhead.
  - (* the empty list *)
    eexists _, [], []. split; [done|]. split; [done|]. simpl.
    split; [|split; [constructor|done]].
    split; [split; [apply NoDup_singleton|]|done].
    simpl. split; [done|]. by exists tm.
  - pose proof Hinv as [[Hnd Hseg] Htail].
    destruct (dlseg_at _ _ _ _ _ _ [] _ _ Hseg) as (th & Hh & Hprv & Hnxt).
    assert (Hth : t ≠ h) by (clear -Hfresh; set_solver).
    rewrite (lst_rd_Ok _ _ _ Ht). mstep. rewrite (lst_rd_Ok _ _ _ Hh). mstep.
    destruct (Z.ltb_spec (Lst.expire tm) (Lst.expire th)) as [Hlt|Hge].
    + (* before the first timer *)
      lst_wr_step t. simpl. rewrite Hhead. lst_wr_step h.
      eexists _, [], (h :: l). split; [done|]. split; [done|]. simpl.
      split; [|split; [constructor|split]].
      * split; [split|].
        -- clear -Hnd Hfresh. nodup.
        -- pose proof (dlseg_link Lst.next Lst.prev (Lst.mem s)
             (<[h:=Lst.with_prev (Some t) th]>
                (<[t:=Lst.with_next (Some h) tm]> (Lst.mem s)))
             t (Lst.with_next (Some h) tm)
             (h :: l) None [] None (Lst.head s)) as Hlink.
           simpl in Hlink. apply Hlink; clear Hlink; try done.
           ++ by rewrite lookup_insert_ne, lookup_insert_eq.
           ++ intros x tx Hx Hmx.
              assert (x ≠ t) by (intros ->; done).
              change (dl_head (h :: l) None) with (Some h).
              change (dl_last None []) with (@None nat).
              destruct (decide (x = h)) as [->|]; simplify_eq; links_at.
        -- intros _. cbn [Lst.tail Lst.set_head Lst.set_mem Lst.set_tail].
           rewrite Htail by done. by rewrite (last_cons_cons t).
      * intros b [= <-]. by rewrite (lst_expire_at _ _ _ Hh).
      * intros x. destruct (decide (x = h)) as [->|];
          [by rewrite lookup_insert_eq, Hh|].
        rewrite lookup_insert_ne by done.
        destruct (decide (x = t)) as [->|];
          [by rewrite lookup_insert_eq, Ht|].
        by rewrite lookup_insert_ne.
    + (* somewhere after the first timer *)
      destruct (lst_add_timer_lst_head_spec t tm [] h l s Hinv Hfresh Ht)
        as (s' & l2a & l2b & -> & Hrun & Hinv' & Hle & Hhd & Hdata).
      exists s', (h :: l2a), l2b. split; [done|]. split; [done|].
      split; [done|]. split; [|done].
      constructor; [|done]. rewrite (lst_expire_at _ _ _ Hh). lia.
Qed.

(** ** Ascending sequences *)

Lemma ascending_cons (a : Z) (es : list Z) :
  ascending (a :: es) ↔ (∀ b, head es = Some b → a ≤ b) ∧ ascending es.
Proof.
  destruct es as [|b es]; simpl.
  - split; [done | tauto].
  - split.
    + intros [? ?]. split; [by intros ? [= <-] | done].
    + intros [Hb ?]. split; [by apply Hb | done].
Qed.

Lemma ascending_app_inv (xs ys : list Z) :
  ascending (xs ++ ys) → ascending xs ∧ ascending ys.
Proof.
  induction xs as [|a xs IH]; [done|].
  change ((a :: xs) ++ ys) with (a :: (xs ++ ys)).
  rewrite !ascending_cons. intros [Hhd Hrest].
  destruct (IH Hrest) as [? ?]. split; [|done]. split; [|done].
  intros b Hb. apply Hhd. destruct xs; [done|]. done.
Qed.

(** Inserting [e] between a part that ends no later and a part that
    starts no earlier. *)
Lemma ascending_insert (e : Z) (xs ys : list Z) :
  ascending (xs ++ ys) →
  (∀ a, last xs = Some a → a ≤ e) →
  (∀ b, head ys = Some b → e ≤ b) →
  ascending (xs ++ e :: ys).
Proof.
  induction xs as [|a xs IH]; intros Hasc Hlast Hhead.
  - simpl. apply ascending_cons. done.
  - change ((a :: xs) ++ ys) with (a :: (xs ++ ys)) in Hasc.
    change ((a :: xs) ++ e :: ys) with (a :: (xs ++ e :: ys)).
    apply ascending_cons in Hasc as [Hhd Hrest].
    apply ascending_cons. split.
    + destruct xs as [|c xs]; simpl.
      * intros b [= <-]. by apply Hlast.
      * intros b [= <-]. by apply Hhd.
    + apply IH; [done| |done].
      intros c Hc. apply Hlast. destruct xs; [done|]. by rewrite last_cons_cons.
Qed.

(** Removing [e] from between its neighbours. *)
Lemma ascending_delete (e : Z) (xs ys : list Z) :
  ascending (xs ++ e :: ys) → ascending (xs ++ ys).
Proof.
  induction xs as [|a xs IH]; intros Hasc.
  - simpl in *. by apply ascending_cons in Hasc as [_ ?].
  - change ((a :: xs) ++ e :: ys) with (a :: (xs ++ e :: ys)) in Hasc.
    change ((a :: xs) ++ ys) with (a :: (xs ++ ys)).
    apply ascending_cons in Hasc as [Hhd Hrest].
    apply ascending_cons. split; [|by apply IH].
    destruct xs as [|c xs]; cbn [app] in *.
    + destruct ys as [|y ys]; [done|]. intros b [= <-].
      apply ascending_cons in Hrest as [He _].
      specialize (Hhd e eq_refl). specialize (He y eq_refl). lia.
    + intros b [= <-]. by apply Hhd.
Qed.

(** In an ascending sequence nothing is earlier than the first. *)
Lemma ascending_head_min (a : Z) (es : list Z) :
  ascending (a :: es) → Forall (λ b, a ≤ b) es.
Proof.
  revert a. induction es as [|b es IH]; intros a Hasc; [constructor|].
  destruct Hasc as [Hab Hrest]. constructor; [done|].
  eapply Forall_impl; [by apply IH|]. simpl. intros. lia.
Qed.

Lemma lst_sorted_data (s s' : Lst.sort_timer_lst) (l : list nat) :
  (∀ q, q ∈ l → lst_data <$> Lst.mem s' !! q = lst_data <$> Lst.mem s !! q) →
  lst_expire s' <$> l = lst_expire s <$> l.
Proof.
  intros Hdata. apply list_fmap_ext. intros i q Hq.
  apply lst_expire_data, Hdata. by eapply list_elem_of_lookup_2.
Qed.

(** ** The list: [adjust_timer] *)

Lemma lst_data_trans (s s1 s2 : Lst.sort_timer_lst) :
  (∀ q, lst_data <$> Lst.mem s1 !! q = lst_data <$> Lst.mem s !! q) →
  (∀ q, lst_data <$> Lst.mem s2 !! q = lst_data <$> Lst.mem s1 !! q) →
  ∀ q, lst_data <$> Lst.mem s2 !! q = lst_data <$> Lst.mem s !! q.
Proof. intros H1 H2 q. by rewrite H2, H1. Qed.

Lemma lst_expire_data_all (s s' : Lst.sort_timer_lst) :
  (∀ q, lst_data <$> Lst.mem s' !! q = lst_data <$> Lst.mem s !! q) →
  ∀ q, lst_expire s' q = lst_expire s q.
Proof. intros H q. by apply lst_expire_data. Qed.

(** [adjust_timer] either leaves the timer where it is, because it is
    the last or still earlier than its successor, or moves it behind its
    successor to the place the walk finds. *)
Lemma lst_adjust_timer_spec (s : Lst.sort_timer_lst) (l1 l2 : list nat)
    (t : nat) (tm : Lst.util_timer) :
  lst_inv s (l1 ++ t :: l2) → Lst.mem s !! t = Some tm →
  ∃ s' l',
    Lst.adjust_timer s (Some t) = Ok s'
    ∧ lst_inv s' l'
    ∧ (∀ q, lst_data <$> Lst.mem s' !! q = lst_data <$> Lst.mem s !! q)
    ∧ ((l' = l1 ++ t :: l2
        ∧ ∀ b, head l2 = Some b → Lst.expire tm < lst_expire s b)
       ∨ (∃ b l2a l2b,
            l2 = b :: (l2a ++ l2b)
            ∧ lst_expire s b ≤ Lst.expire tm
            ∧ l' = l1 ++ b :: l2a ++ t :: l2b
            ∧ Forall (λ q, lst_expire s q ≤ Lst.expire tm) l2a
            ∧ ∀ c, head l2b = Some c → Lst.expire tm < lst_expire s c)).
Proof.
  intros Hinv Ht.
  pose proof (lst_inv_is_head _ _ _ _ Hinv) as Hhd.
  pose proof (lst_inv_head _ _ Hinv) as Hhead.
  pose proof Hinv as [[Hnd Hseg] Htail].
  destruct (dlseg_at _ _ _ _ _ _ _ _ _ Hseg) as (tm' & Ht' & Hprv & Hnxt).
  rewrite Ht in Ht'. injection Ht' as <-.
  unfold Lst.adjust_timer. rewrite (lst_rd_Ok _ _ _ Ht). mstep.
  destruct l2 as [|b l2].
  { change (dl_head [] None) with (@None nat) in Hnxt. rewrite Hnxt.
    exists s, (l1 ++ [t]). split; [done|]. split; [done|]. split; [done|].
    left. done. }
  change (dl_head (b :: l2) None) with (Some b) in Hnxt. rewrite Hnxt.
  destruct (dlseg_at_succ _ _ _ _ _ _ _ _ _ _ Hseg) as (tb & Hb & Hpb).
  assert (Hbt : b ≠ t) by (clear -Hnd; nodup).
  rewrite (lst_rd_Ok _ _ _ Hb). mstep.
  destruct (Z.ltb_spec (Lst.expire tm) (Lst.expire tb)) as [Hlt|Hge].
  { exists s, (l1 ++ t :: b :: l2). split; [done|]. split; [done|]. split; [done|].
    left. split; [done|]. intros ? [= <-]. by rewrite (lst_expire_at _ _ _ Hb). }
  assert (Hfresh : t ∉ l1 ++ b :: l2) by (clear -Hnd; nodup).
  destruct l1 as [|a l1 _] using rev_ind.
  - (* the first timer: the list now starts at its successor *)
    rewrite decide_True by (by apply Hhd).
    simpl in Hhead. rewrite Hhead, (lst_rd_Ok _ _ _ Ht). mstep. rewrite Hnxt.
    simpl. lst_wr_step b. lst_wr_step t. simpl.
    set (s3 := Lst.set_mem _ _).
    assert (Hinv3 : lst_inv s3 ([] ++ b :: l2)).
    { split; [split|].
      - clear -Hnd. nodup.
      - destruct (dlseg_unlink Lst.next Lst.prev (Lst.mem s) (Lst.mem s3)
                    t tm (b :: l2) None [] None (Lst.head s))
          as (_ & _ & Hres); try done.
        { intros q tq Hq Hmq.
          assert (q ≠ t) by (clear -Hq Hfresh; set_solver).
          rewrite Hprv, Hnxt. unfold dl_last, s3; simpl.
          destruct (decide (q = b)) as [->|]; simplify_eq; links_at. }
        by rewrite Hnxt in Hres.
      - intros _. simpl. rewrite Htail by done. apply last_cons_cons. }
    assert (Hdata3 : ∀ q, lst_data <$> Lst.mem s3 !! q = lst_data <$> Lst.mem s !! q).
    { intros x. simpl. destruct (decide (x = t)) as [->|];
        [by rewrite lookup_insert_eq, Ht|].
      rewrite lookup_insert_ne by done.
      destruct (decide (x = b)) as [->|];
        [by rewrite lookup_insert_eq, Hb|].
      by rewrite lookup_insert_ne. }
    destruct (lst_add_timer_lst_head_spec t (Lst.with_next None tm) [] b l2 s3 Hinv3)
      as (s' & l2a & l2b & -> & Hrun & Hinv' & Hle & Hhd' & Hdata');
      [done | simpl; apply lookup_insert_eq |].
    exists s', (b :: l2a ++ t :: l2b). split; [done|]. split; [done|].
    split; [by eapply lst_data_trans|].
    right. exists b, l2a, l2b. split; [done|].
    split; [by rewrite (lst_expire_at _ _ _ Hb)|]. split; [done|].
    split.
    + eapply Forall_impl; [exact Hle|]. simpl. intros q.
      by rewrite (lst_expire_data_all _ _ Hdata3).
    + intros c Hc. rewrite <- (lst_expire_data_all _ _ Hdata3). by apply Hhd'.
  - (* a later timer: its neighbours are linked to each other *)
    rewrite decide_False by (intros ?%Hhd; by eapply snoc_not_nil).
    rewrite dl_last_snoc in Hprv. rewrite Hprv.
    destruct (dlseg_at_pred _ _ _ _ _ _ _ _ _ _ Hseg) as (ta & Ha & Hna).
    assert (Hat : a ≠ t) by (clear -Hnd; nodup).
    assert (Hab : a ≠ b) by (clear -Hnd; nodup).
    lst_wr_step a. erewrite lst_rd_Ok by solve_lookup. mstep.
    rewrite Hprv, Hnxt. lst_wr_step b. erewrite lst_rd_Ok by solve_lookup. mstep.
    rewrite Hnxt.
    set (s2 := Lst.set_mem _ _).
    assert (Hinv2 : lst_inv s2 ((l1 ++ [a]) ++ b :: l2)).
    { split; [split|].
      - clear -Hnd. nodup.
      - destruct (dlseg_unlink Lst.next Lst.prev (Lst.mem s) (Lst.mem s2)
                    t tm (b :: l2) None (l1 ++ [a]) None (Lst.head s))
          as (_ & _ & Hres); try done.
        { intros q tq Hq Hmq.
          assert (q ≠ t) by (clear -Hq Hfresh; set_solver).
          rewrite Hprv, Hnxt. unfold s2; simpl.
          destruct (decide (q = a)) as [->|]; [|destruct (decide (q = b)) as [->|]];
            simplify_eq; links_at. }
        by rewrite match_snoc in Hres.
      - intros _. simpl. rewrite Htail by (by destruct (l1 ++ [a])).
        by rewrite !last_app_cons, last_cons_cons. }
    assert (Hdata2 : ∀ q, lst_data <$> Lst.mem s2 !! q = lst_data <$> Lst.mem s !! q).
    { intros x. simpl. destruct (decide (x = b)) as [->|];
        [by rewrite lookup_insert_eq, Hb|].
      rewrite lookup_insert_ne by done.
      destruct (decide (x = a)) as [->|];
        [by rewrite lookup_insert_eq, Ha|].
      by rewrite lookup_insert_ne. }
    destruct (lst_add_timer_lst_head_spec t tm (l1 ++ [a]) b l2 s2 Hinv2)
      as (s' & l2a & l2b & -> & Hrun & Hinv' & Hle & Hhd' & Hdata');
      [done | simpl; by rewrite !lookup_insert_ne |].
    exists s', ((l1 ++ [a]) ++ b :: l2a ++ t :: l2b). split; [done|]. split; [done|].
    split; [by eapply lst_data_trans|].
    right. exists b, l2a, l2b. split; [done|].
    split; [by rewrite (lst_expire_at _ _ _ Hb)|]. split; [done|].
    split.
    + eapply Forall_impl; [exact Hle|]. simpl. intros q.
      by rewrite (lst_expire_data_all _ _ Hdata2).
    + intros c Hc. rewrite <- (lst_expire_data_all _ _ Hdata2). by apply Hhd'.
Qed.

(** ** The list stays ascending *)

Lemma ascending_app_last (e : Z) (xs ys : list Z) :
  ascending (xs ++ e :: ys) → ∀ a, last xs = Some a → a ≤ e.
Proof.
  induction xs as [|x xs IH]; intros Hasc a Ha; [done|].
  change ((x :: xs) ++ e :: ys) with (x :: (xs ++ e :: ys)) in Hasc.
  apply ascending_cons in Hasc as [Hhd Hrest].
  destruct xs as [|c xs].
  - injection Ha as <-. by apply Hhd.
  - rewrite last_cons_cons in Ha. by apply IH.
Qed.

Lemma Forall_last_le (f : nat → Z) (e : Z) (l : list nat) :
  Forall (λ q, f q ≤ e) l → ∀ a, last (f <$> l) = Some a → a ≤ e.
Proof.
  intros Hall a Ha. rewrite fmap_last in Ha.
  destruct (last l) as [q|] eqn:Hq; [|done]. injection Ha as <-.
  rewrite Forall_forall in Hall. apply Hall.
  apply last_Some in Hq as [l' ->]. apply elem_of_app. right. left.
Qed.

Lemma head_fmap_lt (f : nat → Z) (e : Z) (l : list nat) :
  (∀ b, head l = Some b → e < f b) → ∀ b, head (f <$> l) = Some b → e ≤ b.
Proof.
  intros Hhd b Hb. destruct l as [|q l]; [done|]. injection Hb as <-.
  specialize (Hhd q eq_refl). lia.
Qed.

Lemma lst_add_timer_sorted (s : Lst.sort_timer_lst) (l : list nat) (t : nat)
    (tm : Lst.util_timer) :
  lst_inv s l → lst_sorted s l → t ∉ l →
  Lst.mem s !! t = Some tm → Lst.prev tm = None → Lst.next tm = None →
  ∃ s' la lb,
    l = la ++ lb
    ∧ Lst.add_timer s (Some t) = Ok s'
    ∧ lst_inv s' (la ++ t :: lb)
    ∧ lst_sorted s' (la ++ t :: lb).
Proof.
  intros Hinv Hsort Hfresh Ht Hp Hn.
  destruct (lst_add_timer_spec s l t tm Hinv Hfresh Ht Hp Hn)
    as (s' & la & lb & -> & Hrun & Hinv' & Hle & Hhd & Hdata).
  exists s', la, lb. split; [done|]. split; [done|]. split; [done|].
  unfold lst_sorted in *.
  rewrite (lst_sorted_data s s') by (intros; apply Hdata).
  rewrite fmap_app in *. rewrite fmap_cons.
  rewrite (lst_expire_at _ _ _ Ht).
  apply ascending_insert; [done | by apply Forall_last_le | by apply head_fmap_lt].
Qed.

Lemma lst_del_timer_sorted (s : Lst.sort_timer_lst) (l1 l2 : list nat) (t : nat) :
  lst_inv s (l1 ++ t :: l2) → lst_sorted s (l1 ++ t :: l2) →
  ∃ s', Lst.del_timer s (Some t) = Ok s'
        ∧ lst_inv s' (l1 ++ l2)
        ∧ lst_sorted s' (l1 ++ l2)
        ∧ Lst.mem s' !! t = None.
Proof.
  intros Hinv Hsort.
  pose proof Hinv as [[Hnd _] _].
  destruct (lst_del_timer_spec s l1 l2 t Hinv) as (s' & Hrun & Hinv' & Hgone & Hdata).
  exists s'. split; [done|]. split; [done|]. split; [|done].
  unfold lst_sorted in *.
  rewrite (lst_sorted_data s s').
  - rewrite fmap_app in *. rewrite fmap_cons in Hsort. by eapply ascending_delete.
  - intros q Hq. apply Hdata. by eapply NoDup_mid_ne.
Qed.

Lemma lst_tick_sorted (s : Lst.sort_timer_lst) (l : list nat) (cur : Z) :
  lst_inv s l → lst_sorted s l → lst_callbacks s l →
  ∃ log s' l1 l2,
    l = l1 ++ l2
    ∧ Lst.tick s cur = Ok (log, s')
    ∧ lst_inv s' l2
    ∧ lst_sorted s' l2.
Proof.
  intros Hinv Hsort Hcb.
  pose proof Hinv as [[Hnd _] _].
  destruct (lst_tick_spec cur s l Hinv Hcb)
    as (log & s' & l1 & l2 & -> & Hrun & Hinv' & _ & _ & _ & _ & Hdata).
  exists log, s', l1, l2. split; [done|]. split; [done|]. split; [done|].
  unfold lst_sorted in *.
  rewrite (lst_sorted_data s s').
  - rewrite fmap_app in Hsort. by apply ascending_app_inv in Hsort as [_ ?].
  - intros q Hq. apply Hdata. clear -Hnd Hq. nodup.
Qed.

(** Changing [expire] leaves the links alone. *)
Lemma lst_set_expire (s : Lst.sort_timer_lst) (l : list nat) (t : nat)
    (tm : Lst.util_timer) (e : Z) :
  lst_inv s l → Lst.mem s !! t = Some tm →
  ∃ s1, Lst.wr (Lst.with_expire e) (Some t) s = Ok s1
        ∧ lst_inv s1 l
        ∧ Lst.mem s1 !! t = Some (Lst.with_expire e tm)
        ∧ (∀ q, q ≠ t → Lst.mem s1 !! q = Lst.mem s !! q).
Proof.
  intros [[Hnd Hseg] Htail] Ht. rewrite (lst_wr_Ok _ _ _ _ Ht).
  eexists. split; [done|]. simpl.
  split; [|split; [apply lookup_insert_eq | intros q Hq; by apply lookup_insert_ne]].
  split; [split; [done|]|done]. simpl.
  eapply dlseg_frame; [|exact Hseg].
  intros q tq Hq Hmq. destruct (decide (q = t)) as [->|].
  - rewrite lookup_insert_eq. simplify_eq. by eexists.
  - rewrite lookup_insert_ne by done. by eexists.
Qed.

Lemma lst_adjust_sorted (s : Lst.sort_timer_lst) (l : list nat) (t : nat) (e' : Z) :
  lst_inv s l → lst_sorted s l → t ∈ l → lst_expire s t ≤ e' →
  ∃ s' l',
    lst_adjust s (Some t) e' = Ok s'
    ∧ lst_inv s' l'
    ∧ l' ≡ₚ l
    ∧ lst_sorted s' l'
    ∧ lst_expire s' t = e'.
Proof.
  intros Hinv Hsort Hin Hle.
  apply list_elem_of_split in Hin as (l1 & l2 & ->).
  pose proof Hinv as [[Hnd Hseg] _].
  destruct (dlseg_at _ _ _ _ _ _ _ _ _ Hseg) as (tm & Ht & _ & _).
  rewrite (lst_expire_at _ _ _ Ht) in Hle.
  destruct (lst_set_expire s _ t tm e' Hinv Ht) as (s1 & Hwr & Hinv1 & Ht1 & Hother).
  unfold lst_adjust. rewrite Hwr. mstep.
  destruct (lst_adjust_timer_spec s1 l1 l2 t _ Hinv1 Ht1)
    as (s' & l' & Hrun & Hinv' & Hdata & Hcase).
  exists s', l'. split; [done|]. split; [done|].
  assert (Hexp : ∀ q, q ≠ t → lst_expire s' q = lst_expire s q).
  { intros q Hq. rewrite (lst_expire_data_all _ _ Hdata).
    unfold lst_expire. by rewrite Hother. }
  assert (Hexp1 : ∀ q, q ≠ t → lst_expire s1 q = lst_expire s q).
  { intros q Hq. unfold lst_expire. by rewrite Hother. }
  assert (Hexpt : lst_expire s' t = e').
  { rewrite (lst_expire_data_all _ _ Hdata). by rewrite (lst_expire_at _ _ _ Ht1). }
  assert (Hmap : ∀ k : list nat, t ∉ k → lst_expire s' <$> k = lst_expire s <$> k).
  { intros k Hk. apply list_fmap_ext. intros i q Hq. apply Hexp.
    intros ->. apply Hk. by eapply list_elem_of_lookup_2. }
  assert (Hmap1 : ∀ k : list nat, t ∉ k → lst_expire s1 <$> k = lst_expire s <$> k).
  { intros k Hk. apply list_fmap_ext. intros i q Hq. apply Hexp1.
    intros ->. apply Hk. by eapply list_elem_of_lookup_2. }
  unfold lst_sorted in *. rewrite fmap_app, fmap_cons in Hsort.
  rewrite (lst_expire_at _ _ _ Ht) in Hsort.
  destruct Hcase as [[-> Hhd]|(b & l2a & l2b & -> & Hb & -> & Hl2a & Hhd)].
  - split; [done|]. split; [|done].
    rewrite fmap_app, fmap_cons, Hexpt.
    rewrite !Hmap by (clear -Hnd; nodup).
    apply ascending_insert.
    + by eapply ascending_delete.
    + intros a Ha. pose proof (ascending_app_last _ _ _ Hsort a Ha). lia.
    + apply head_fmap_lt. intros b Hb. specialize (Hhd b Hb). simpl in Hhd.
      rewrite <- Hexp1; [done|]. intros ->. destruct l2; [done|].
      injection Hb as ->. clear -Hnd. nodup.
  - split.
    { apply Permutation_app_head. rewrite <- Permutation_middle.
      apply Permutation_swap. }
    split; [|done].
    assert (Htb : t ≠ b) by (clear -Hnd; nodup).
    assert (Hn1 : t ∉ l1) by (clear -Hnd; nodup).
    assert (Hn2 : t ∉ l2a) by (clear -Hnd; nodup).
    assert (Hn3 : t ∉ l2b) by (clear -Hnd; nodup).
    simpl in Hb, Hhd, Hl2a.
    rewrite !fmap_app, !fmap_cons, !fmap_app, !fmap_cons in *.
    rewrite Hexpt, (Hexp b) by done. rewrite !Hmap by done.
    apply ascending_delete in Hsort.
    replace ((lst_expire s <$> l1) ++ lst_expire s b :: (lst_expire s <$> l2a)
               ++ e' :: (lst_expire s <$> l2b))
      with (((lst_expire s <$> l1) ++ lst_expire s b :: (lst_expire s <$> l2a))
              ++ e' :: (lst_expire s <$> l2b))
      by (by rewrite <- app_assoc).
    apply ascending_insert.
    + by rewrite <- app_assoc.
    + intros a Ha. rewrite last_app_cons in Ha.
      rewrite Hexp1 in Hb by done.
      destruct l2a as [|c l2a]; [injection Ha as <-; done|].
      rewrite fmap_cons, last_cons_cons in Ha.
      apply (Forall_last_le (lst_expire s) e' (c :: l2a)); [|done].
      eapply Forall_impl_strong || idtac.
      apply Forall_forall. intros q Hq. rewrite Forall_forall in Hl2a.
      rewrite <- Hexp1; [by apply Hl2a|]. intros ->. done.
    + apply head_fmap_lt. intros c Hc. specialize (Hhd c Hc).
      rewrite <- Hexp1; [done|]. intros ->. destruct l2b; [done|].
      injection Hc as ->. apply Hn3. left.
Qed.

(** ** The wheel: reading and writing timers and slots *)

Arguments Wheel.rd : simpl never.
Arguments Wheel.wr : simpl never.
Arguments Wheel.free : simpl never.
Arguments Wheel.slot_get : simpl never.
Arguments Wheel.slot_set : simpl never.

Lemma wheel_rd_Ok (w : Wheel.time_wheel) (p : nat) (t : Wheel.tw_timer) :
  Wheel.mem w !! p = Some t → Wheel.rd w (Some p) = Ok t.
Proof. intros Hp. unfold Wheel.rd. by rewrite Hp. Qed.

Lemma wheel_wr_Ok (f : Wheel.tw_timer → Wheel.tw_timer) (w : Wheel.time_wheel)
    (p : nat) (t : Wheel.tw_timer) :
  Wheel.mem w !! p = Some t →
  Wheel.wr f (Some p) w = Ok (Wheel.set_mem (<[p := f t]> (Wheel.mem w)) w).
Proof. intros Hp. unfold Wheel.wr. by rewrite Hp. Qed.

Lemma wheel_free_Ok (w : Wheel.time_wheel) (p : nat) (t : Wheel.tw_timer) :
  Wheel.mem w !! p = Some t →
  Wheel.free p w = Ok (Wheel.set_mem (delete p (Wheel.mem w)) w).
Proof. intros Hp. unfold Wheel.free. by rewrite Hp. Qed.

Lemma wheel_slot_get_Ok (w : Wheel.time_wheel) (i : Z) (hd : option nat) :
  0 ≤ i < Wheel.N → Wheel.slots w !! Z.to_nat i = Some hd →
  Wheel.slot_get w i = Ok hd.
Proof.
  intros Hi Hhd. unfold Wheel.slot_get. rewrite decide_True by done.
  by rewrite Hhd.
Qed.

Lemma wheel_slot_set_Ok (w : Wheel.time_wheel) (i : Z) (hd : option nat) :
  0 ≤ i < Wheel.N → length (Wheel.slots w) = Z.to_nat Wheel.N →
  Wheel.slot_set i hd w
  = Ok (Wheel.set_slots (<[Z.to_nat i := hd]> (Wheel.slots w)) w).
Proof.
  intros Hi Hlen. unfold Wheel.slot_set. rewrite decide_True by done.
  rewrite decide_True by lia. done.
Qed.

Lemma wheel_rotation_at (w : Wheel.time_wheel) (p : nat) (t : Wheel.tw_timer) :
  Wheel.mem w !! p = Some t → wheel_rotation w p = Wheel.rotation t.
Proof. unfold wheel_rotation. by intros ->. Qed.

Lemma wheel_tick_loop_unfold (fuel : nat) (w : Wheel.time_wheel)
    (tmp : option nat) (log : list fired) :
  Wheel.tick_loop fuel w tmp log =
  match tmp with
  | None => Ok (log, w)
  | Some p =>
      match fuel with
      | O => NoFuel
      | S fuel' =>
          tp ← Wheel.rd w (Some p);
          if Wheel.rotation tp >? 0 then
            w1 ← Wheel.wr (Wheel.with_rotation (Wheel.rotation tp - 1)) (Some p) w;
            t1 ← Wheel.rd w1 (Some p);
            Wheel.tick_loop fuel' w1 (Wheel.next t1) log
          else
            log' ← invoke p (Wheel.cb_func tp) (Wheel.user_data tp) log;
            hd ← Wheel.slot_get w (Wheel.cur_slot w);
            if decide (Some p = hd) then
              w1 ← Wheel.slot_set (Wheel.cur_slot w) (Wheel.next tp) w;
              w2 ← Wheel.free p w1;
              hd1 ← Wheel.slot_get w2 (Wheel.cur_slot w2);
              w3 ← match hd1 with
                   | Some _ => Wheel.wr (Wheel.with_prev None) hd1 w2
                   | None => Ok w2
                   end;
              hd2 ← Wheel.slot_get w3 (Wheel.cur_slot w3);
              Wheel.tick_loop fuel' w3 hd2 log'
            else
              w1 ← Wheel.wr (Wheel.with_next (Wheel.next tp)) (Wheel.prev tp) w;
              t1 ← Wheel.rd w1 (Some p);
              w2 ← match Wheel.next t1 with
                   | Some _ => Wheel.wr (Wheel.with_prev (Wheel.prev t1)) (Wheel.next t1) w1
                   | None => Ok w1
                   end;
              t2 ← Wheel.rd w2 (Some p);
              w3 ← Wheel.free p w2;
              Wheel.tick_loop fuel' w3 (Wheel.next t2) log'
      end
  end.
Proof. destruct fuel; reflexivity. Qed.

(** ** The wheel: taking an expired timer out of the current slot *)

Ltac wheel_wr_step a :=
  erewrite (wheel_wr_Ok _ _ a) by solve_lookup; mstep.

Ltac payload_at :=
  simpl;
  repeat first [ rewrite lookup_insert_eq
               | rewrite lookup_insert_ne by congruence
               | rewrite lookup_delete_ne by congruence ];
  match goal with
  | H : _ !! _ = Some _ |- _ => by rewrite H
  | _ => done
  end.

(** The part of [tick]'s loop body that unlinks and deletes the timer
    [p], which sits behind [done] in the current slot's list, and goes on
    with the timers [rest] behind it. *)
Lemma wheel_tick_remove (w : Wheel.time_wheel) (done rest : list nat)
    (p : nat) (tp : Wheel.tw_timer) (hd : option nat)
    (fuel : nat) (log : list fired) :
  0 ≤ Wheel.cur_slot w < Wheel.N →
  length (Wheel.slots w) = Z.to_nat Wheel.N →
  Wheel.slots w !! Z.to_nat (Wheel.cur_slot w) = Some hd →
  NoDup (done ++ p :: rest) →
  dlseg Wheel.next Wheel.prev (Wheel.mem w) None hd (done ++ p :: rest) None →
  Wheel.mem w !! p = Some tp →
  ∃ w3,
    (hd ← Wheel.slot_get w (Wheel.cur_slot w);
     if decide (Some p = hd) then
       w1 ← Wheel.slot_set (Wheel.cur_slot w) (Wheel.next tp) w;
       w2 ← Wheel.free p w1;
       hd1 ← Wheel.slot_get w2 (Wheel.cur_slot w2);
       w3 ← match hd1 with
            | Some _ => Wheel.wr (Wheel.with_prev None) hd1 w2
            | None => Ok w2
            end;
       hd2 ← Wheel.slot_get w3 (Wheel.cur_slot w3);
       Wheel.tick_loop fuel w3 hd2 log
     else
       w1 ← Wheel.wr (Wheel.with_next (Wheel.next tp)) (Wheel.prev tp) w;
       t1 ← Wheel.rd w1 (Some p);
       w2 ← match Wheel.next t1 with
            | Some _ => Wheel.wr (Wheel.with_prev (Wheel.prev t1)) (Wheel.next t1) w1
            | None => Ok w1
            end;
       t2 ← Wheel.rd w2 (Some p);
       w3 ← Wheel.free p w2;
       Wheel.tick_loop fuel w3 (Wheel.next t2) log)
    = Wheel.tick_loop fuel w3 (dl_head rest None) log
    ∧ Wheel.cur_slot w3 = Wheel.cur_slot w
    ∧ Wheel.slots w3
      = <[Z.to_nat (Wheel.cur_slot w) := dl_head (done ++ rest) None]> (Wheel.slots w)
    ∧ dlseg Wheel.next Wheel.prev (Wheel.mem w3) None
        (dl_head (done ++ rest) None) (done ++ rest) None
    ∧ Wheel.mem w3 !! p = None
    ∧ (∀ q, q ≠ p →
         wheel_payload <$> Wheel.mem w3 !! q = wheel_payload <$> Wheel.mem w !! q)
    ∧ (∀ q, q ∉ done ++ p :: rest → Wheel.mem w3 !! q = Wheel.mem w !! q).
Proof.
  intros Hcur Hlen Hslot Hnd Hseg Hp.
  destruct (dlseg_at _ _ _ _ _ _ _ _ _ Hseg) as (tp' & Hp' & Hprv & Hnxt).
  rewrite Hp in Hp'. injection Hp' as <-.
  pose proof (dlseg_head _ _ _ _ _ _ _ Hseg) as Hhd.
  rewrite (wheel_slot_get_Ok _ _ _ Hcur Hslot). mstep.
  destruct done as [|a done _] using rev_ind.
  - (* [p] is the head of the slot *)
    simpl in Hhd. change (dl_head (p :: rest) None) with (Some p) in Hhd.
    rewrite decide_True by done.
    rewrite (wheel_slot_set_Ok _ _ _ Hcur Hlen). mstep.
    erewrite wheel_free_Ok by (simpl; exact Hp). mstep.
    erewrite wheel_slot_get_Ok;
      [|done|simpl; apply list_lookup_insert_eq; lia].
    mstep. rewrite Hnxt.
    destruct rest as [|b rest].
    + change (dl_head [] None) with (@None nat). cbv iota. mstep.
      erewrite wheel_slot_get_Ok;
        [|done|simpl; apply list_lookup_insert_eq; lia].
      mstep. eexists. split; [done|]. simpl.
      split; [done|]. split; [done|]. split; [done|].
      split; [apply lookup_delete_eq|].
      split; intros q Hq; rewrite lookup_delete_ne; (done || clear -Hq; set_solver).
    + change (dl_head (b :: rest) None) with (Some b) in *. cbv iota.
      destruct (dlseg_at_succ _ _ _ _ _ [] _ _ _ _ Hseg) as (tb & Hb & Hpb).
      assert (Hbp : b ≠ p) by (clear -Hnd; nodup).
      wheel_wr_step b.
      erewrite wheel_slot_get_Ok;
        [|done|simpl; apply list_lookup_insert_eq; lia].
      mstep. eexists. split; [done|]. simpl.
      split; [done|]. split; [done|].
      split; [|split; [|split]].
      * destruct (dlseg_unlink Wheel.next Wheel.prev (Wheel.mem w)
                    (<[b:=Wheel.with_prev None tb]> (delete p (Wheel.mem w)))
                    p tp (b :: rest) None [] None hd)
          as (_ & _ & Hres); try done.
        { intros q tq Hq Hmq.
          assert (q ≠ p) by (clear -Hnd Hq; nodup).
          rewrite Hprv, Hnxt. unfold dl_last; simpl.
          destruct (decide (q = b)) as [->|]; simplify_eq; links_at. }
        by rewrite Hnxt in Hres.
      * by rewrite lookup_insert_ne, lookup_delete_eq.
      * intros q Hq. destruct (decide (q = b)) as [->|]; payload_at.
      * intros q Hq. rewrite lookup_insert_ne by (clear -Hq; set_solver).
        rewrite lookup_delete_ne by (clear -Hq; set_solver). done.
  - (* [p] has a predecessor *)
    assert (Hne : Some p ≠ hd).
    { rewrite Hhd. rewrite <- app_assoc. destruct done as [|c done]; simpl;
        intros [= <-]; clear -Hnd; nodup. }
    rewrite decide_False by done.
    rewrite dl_last_snoc in Hprv. rewrite Hprv.
    destruct (dlseg_at_pred _ _ _ _ _ _ _ _ _ _ Hseg) as (ta & Ha & Hna).
    assert (Hap : a ≠ p) by (clear -Hnd; nodup).
    assert (Hhd' : dl_head ((done ++ [a]) ++ rest) None = hd).
    { rewrite Hhd. rewrite <- !app_assoc. by destruct done. }
    wheel_wr_step a. erewrite wheel_rd_Ok by solve_lookup. mstep. rewrite Hnxt.
    destruct rest as [|b rest].
    + change (dl_head [] None) with (@None nat). cbv iota. mstep.
      erewrite wheel_rd_Ok by solve_lookup. mstep.
      erewrite wheel_free_Ok by solve_lookup. mstep.
      rewrite Hnxt. change (dl_head [] None) with (@None nat).
      eexists. split; [done|]. simpl.
      split; [done|].
      split; [rewrite Hhd'; symmetry; by apply list_insert_id|].
      split; [|split; [|split]].
      * rewrite Hhd'.
        destruct (dlseg_unlink Wheel.next Wheel.prev (Wheel.mem w)
                    (delete p (<[a:=Wheel.with_next None ta]> (Wheel.mem w)))
                    p tp [] None (done ++ [a]) None hd)
          as (_ & _ & Hres); try done.
        { intros q tq Hq Hmq.
          assert (q ≠ p) by (clear -Hnd Hq; nodup).
          rewrite Hprv, Hnxt. unfold dl_head; simpl.
          destruct (decide (q = a)) as [->|]; simplify_eq; links_at. }
        by rewrite match_snoc in Hres.
      * apply lookup_delete_eq.
      * intros q Hq. destruct (decide (q = a)) as [->|]; payload_at.
      * intros q Hq. rewrite lookup_delete_ne by (clear -Hq; set_solver).
        rewrite lookup_insert_ne by (clear -Hq; set_solver). done.
    + change (dl_head (b :: rest) None) with (Some b) in *. cbv iota.
      destruct (dlseg_at_succ _ _ _ _ _ _ _ _ _ _ Hseg) as (tb & Hb & Hpb).
      assert (Hbp : b ≠ p) by (clear -Hnd; nodup).
      assert (Hab : a ≠ b) by (clear -Hnd; nodup).
      rewrite Hprv. wheel_wr_step b.
      erewrite wheel_rd_Ok by solve_lookup. mstep.
      erewrite wheel_free_Ok by solve_lookup. mstep.
      rewrite Hnxt.
      eexists. split; [done|]. simpl.
      split; [done|].
      split; [rewrite Hhd'; symmetry; by apply list_insert_id|].
      split; [|split; [|split]].
      * rewrite Hhd'.
        destruct (dlseg_unlink Wheel.next Wheel.prev (Wheel.mem w)
                    (delete p (<[b:=Wheel.with_prev (Some a) tb]>
                       (<[a:=Wheel.with_next (Some b) ta]> (Wheel.mem w))))
                    p tp (b :: rest) None (done ++ [a]) None hd)
          as (_ & _ & Hres); try done.
        { intros q tq Hq Hmq.
          assert (q ≠ p) by (clear -Hnd Hq; nodup).
          rewrite Hprv, Hnxt.
          destruct (decide (q = a)) as [->|]; [|destruct (decide (q = b)) as [->|]];
            simplify_eq; links_at. }
        by rewrite match_snoc in Hres.
      * apply lookup_delete_eq.
      * intros q Hq.
        destruct (decide (q = a)) as [->|]; [|destruct (decide (q = b)) as [->|]];
          payload_at.
      * intros q Hq. rewrite lookup_delete_ne by (clear -Hq; set_solver).
        rewrite !lookup_insert_ne by (clear -Hq; set_solver). done.
Qed.

(** ** The wheel: the loop of [tick] *)

Lemma wheel_rotation_payload (w w' : Wheel.time_wheel) (q : nat) :
  wheel_payload <$> Wheel.mem w' !! q = wheel_payload <$> Wheel.mem w !! q →
  wheel_rotation w' q = wheel_rotation w q.
Proof.
  unfold wheel_rotation.
  destruct (Wheel.mem w' !! q) as [t'|], (Wheel.mem w !! q) as [t|]; simpl; try done.
  by intros [= -> _].
Qed.

Lemma wheel_fires_payload (w w' : Wheel.time_wheel) (q : nat) (e : fired) :
  wheel_payload <$> Wheel.mem w' !! q = wheel_payload <$> Wheel.mem w !! q →
  wheel_fires w' q e → wheel_fires w q e.
Proof.
  intros Hpay (t' & cb & Hq & Hcb & ->). rewrite Hq in Hpay.
  destruct (Wheel.mem w !! q) as [t|] eqn:Hq0; [|done].
  injection Hpay as Hr Hs Hc Hu. exists t, cb.
  split; [done|]. split; [congruence|]. by rewrite Hu.
Qed.

Lemma filter_ext_in {A} (P Q : A → Prop) `{∀ x, Decision (P x)}
    `{∀ x, Decision (Q x)} (l : list A) :
  (∀ x, x ∈ l → (P x ↔ Q x)) → filter P l = filter Q l.
Proof.
  induction l as [|a l IH]; intros Hext; [done|].
  rewrite !filter_cons.
  rewrite IH by (intros x Hx; apply Hext; by right).
  destruct (decide (P a)) as [Hp|Hp], (decide (Q a)) as [Hq|Hq]; try done.
  - destruct Hq. by apply (Hext a); [left|].
  - destruct Hp. by apply (Hext a); [left|].
Qed.

Lemma wheel_tick_loop_spec (rest : list nat) :
  ∀ (done : list nat) (fuel : nat) (w : Wheel.time_wheel) (log : list fired)
    (hd : option nat),
  0 ≤ Wheel.cur_slot w < Wheel.N →
  length (Wheel.slots w) = Z.to_nat Wheel.N →
  Wheel.slots w !! Z.to_nat (Wheel.cur_slot w) = Some hd →
  NoDup (done ++ rest) →
  dlseg Wheel.next Wheel.prev (Wheel.mem w) None hd (done ++ rest) None →
  (∀ p t, p ∈ rest → Wheel.mem w !! p = Some t → Wheel.rotation t ≤ 0 →
          is_Some (Wheel.cb_func t)) →
  (length rest < fuel)%nat →
  ∃ log' w',
    Wheel.tick_loop fuel w (dl_head rest None) log = Ok (log ++ log', w')
    ∧ wheel_loop_post w done rest w' log'.
Proof.
  induction rest as [|p rest IH];
    intros done fuel w log hd Hcur Hlen Hslot Hnd Hseg Hcb Hfuel;
    rewrite wheel_tick_loop_unfold.
  - change (dl_head [] None) with (@None nat). cbv iota.
    exists [], w. split; [by rewrite app_nil_r|].
    pose proof (dlseg_head _ _ _ _ _ _ _ Hseg) as Hhd.
    split;
      change (wheel_kept w []) with (@nil nat);
      change (wheel_expired w []) with (@nil nat).
    + done.
    + rewrite <- Hhd. symmetry. by apply list_insert_id.
    + by rewrite <- Hhd.
    + constructor.
    + intros q Hq. by apply elem_of_nil in Hq.
    + intros q t Hq. by apply elem_of_nil in Hq.
    + done.
    + done.
  - change (dl_head (p :: rest) None) with (Some p). cbv iota.
    destruct fuel as [|fuel]; [simpl in Hfuel; lia|].
    destruct (dlseg_at _ _ _ _ _ _ _ _ _ Hseg) as (tp & Hp & Hprv & Hnxt).
    rewrite (wheel_rd_Ok _ _ _ Hp). mstep.
    assert (Hrot : wheel_rotation w p = Wheel.rotation tp)
      by (by apply wheel_rotation_at).
    assert (Hpr : p ∉ rest) by (clear -Hnd; nodup).
    assert (Hpd : p ∉ done) by (clear -Hnd; nodup).
    destruct (Z.gtb_spec (Wheel.rotation tp) 0) as [Hpos|Hzero].
    + (* the timer stays for another rotation *)
      wheel_wr_step p. erewrite wheel_rd_Ok by solve_lookup. mstep.
      change (Wheel.next (Wheel.with_rotation _ tp)) with (Wheel.next tp).
      rewrite Hnxt.
      set (w1 := Wheel.set_mem _ w).
      assert (Hother : ∀ q, q ≠ p → Wheel.mem w1 !! q = Wheel.mem w !! q).
      { intros q Hq. unfold w1; simpl. by rewrite lookup_insert_ne. }
      assert (Hrot1 : ∀ q, q ≠ p → wheel_rotation w1 q = wheel_rotation w q).
      { intros q Hq. unfold wheel_rotation. by rewrite Hother. }
      destruct (IH (done ++ [p]) fuel w1 log hd) as (log' & w' & Hrun & Hpost);
        [done | done | done | by rewrite <- app_assoc | |  | simpl in Hfuel; lia |].
      { rewrite <- app_assoc. eapply dlseg_frame; [|exact Hseg].
        intros q tq Hq Hmq. unfold w1; simpl.
        destruct (decide (q = p)) as [->|].
        - rewrite lookup_insert_eq. simplify_eq. by eexists.
        - rewrite lookup_insert_ne by done. by eexists. }
      { intros q t Hq Hmq Hr. rewrite Hother in Hmq by (intros ->; done).
        apply (Hcb q t); [by right | done | done]. }
      exists log', w'. split; [done|].
      destruct Hpost as [Hc Hs Hsg Hf Hg Hk Hd Hfr].
      assert (Hkept : wheel_kept w (p :: rest) = p :: wheel_kept w1 rest).
      { unfold wheel_kept. rewrite filter_cons, decide_True by lia. f_equal.
        apply filter_ext_in. intros q Hq. rewrite Hrot1; [done|]. by intros ->. }
      assert (Hexp : wheel_expired w (p :: rest) = wheel_expired w1 rest).
      { unfold wheel_expired. rewrite filter_cons, decide_False by lia.
        apply filter_ext_in. intros q Hq. rewrite Hrot1; [done|]. by intros ->. }
      rewrite <- app_assoc in Hs, Hsg. simpl in Hs, Hsg.
      split.
      * done.
      * by rewrite Hkept.
      * by rewrite Hkept.
      * rewrite Hexp. eapply Forall2_impl; [exact Hf|].
        intros q e (t' & c & Hq & Hc' & ->).
        destruct (decide (q = p)) as [->|Hqp].
        -- unfold w1 in Hq; simpl in Hq. rewrite lookup_insert_eq in Hq.
           injection Hq as <-. by exists tp, c.
        -- rewrite Hother in Hq by done. by exists t', c.
      * rewrite Hexp. done.
      * rewrite Hkept. intros q t [->|Hq]%elem_of_cons Hmq.
        -- simplify_eq. specialize (Hd p). rewrite elem_of_app in Hd.
           specialize (Hd (or_intror (list_elem_of_here _ _))).
           unfold w1 in Hd; simpl in Hd. rewrite lookup_insert_eq in Hd.
           destruct (Wheel.mem w' !! p) as [t'|]; [|done].
           injection Hd as Hr Hs' Hc' Hu'. exists t'. split; [done|].
           split; [done|]. unfold wheel_data. congruence.
        -- apply Hk; [done|]. rewrite Hother; [done|].
           intros ->. apply Hpr. unfold wheel_kept in Hq.
           by apply list_elem_of_filter in Hq as [_ ?].
      * intros q Hq. rewrite Hd by (apply elem_of_app; by left).
        by rewrite Hother by (intros ->; done).
      * intros q Hq. rewrite Hfr.
        -- apply Hother. intros ->. apply Hq. apply elem_of_app. right. left.
        -- rewrite <- app_assoc. done.
    + (* the timer is due *)
      destruct (Hcb p tp) as [cb Hcbp]; [left | done | lia |].
      rewrite Hcbp. unfold invoke. mstep.
      destruct (wheel_tick_remove w done rest p tp hd fuel
                  (log ++ [Fired p cb (Wheel.user_data tp)]))
        as (w3 & -> & Hc3 & Hs3 & Hseg3 & Hgone3 & Hpay3 & Hfr3); try done.
      assert (Hrot3 : ∀ q, q ≠ p → wheel_rotation w3 q = wheel_rotation w q).
      { intros q Hq. by apply wheel_rotation_payload, Hpay3. }
      destruct (IH done fuel w3 (log ++ [Fired p cb (Wheel.user_data tp)])
                  (dl_head (done ++ rest) None))
        as (log' & w' & Hrun & Hpost).
      { by rewrite Hc3. }
      { rewrite Hs3. by rewrite length_insert. }
      { rewrite Hc3, Hs3. apply list_lookup_insert_eq. lia. }
      { clear -Hnd. nodup. }
      { done. }
      { intros q t Hq Hmq Hrq.
        assert (q ≠ p) by (intros ->; done).
        specialize (Hpay3 q H). rewrite Hmq in Hpay3.
        destruct (Wheel.mem w !! q) as [t0|] eqn:Hq0; [|done].
        injection Hpay3 as Hr Hs' Hc' Hu'. rewrite Hc'.
        apply (Hcb q t0); [by right | done | lia]. }
      { simpl in Hfuel; lia. }
      exists (Fired p cb (Wheel.user_data tp) :: log'), w'.
      split; [by rewrite Hrun, <- app_assoc|].
      destruct Hpost as [Hc Hs Hsg Hf Hg Hk Hd Hfr].
      assert (Hkept : wheel_kept w (p :: rest) = wheel_kept w3 rest).
      { unfold wheel_kept. rewrite filter_cons, decide_False by lia.
        apply filter_ext_in. intros q Hq. rewrite Hrot3; [done|]. by intros ->. }
      assert (Hexp : wheel_expired w (p :: rest) = p :: wheel_expired w3 rest).
      { unfold wheel_expired. rewrite filter_cons, decide_True by lia. f_equal.
        apply filter_ext_in. intros q Hq. rewrite Hrot3; [done|]. by intros ->. }
      split.
      * congruence.
      * rewrite Hkept, Hs, Hc3, Hs3. apply list_insert_insert_eq.
      * by rewrite Hkept.
      * rewrite Hexp. constructor; [by exists tp, cb|].
        eapply Forall2_impl; [exact Hf|].
        intros q e Hqe. destruct (decide (q = p)) as [->|Hqp].
        -- destruct Hqe as (t' & c & Hq & _). congruence.
        -- eapply wheel_fires_payload; [|exact Hqe]. by apply Hpay3.
      * rewrite Hexp. intros q [->|Hq]%elem_of_cons; [|by apply Hg].
        rewrite Hfr; [done|]. clear -Hpr Hpd. set_solver.
      * rewrite Hkept. intros q t Hq Hmq.
        assert (q ≠ p).
        { intros ->. apply Hpr. unfold wheel_kept in Hq.
          by apply list_elem_of_filter in Hq as [_ ?]. }
        specialize (Hpay3 q H). rewrite Hmq in Hpay3.
        destruct (Wheel.mem w3 !! q) as [t3|] eqn:Hq3; [|done].
        injection Hpay3 as Hr Hs' Hc' Hu'.
        destruct (Hk q t3 Hq Hq3) as (t' & Ht' & Hr' & Hd').
        exists t'. split; [done|]. split; [lia|].
        rewrite Hd'. unfold wheel_data. congruence.
      * intros q Hq. rewrite Hd by done. apply Hpay3. by intros ->.
      * intros q Hq. rewrite Hfr by (clear -Hq; set_solver).
        apply Hfr3. done.
Qed.

(** ** The wheel: [tick] *)

Lemma join_insert_sublist (ls : list (list nat)) (i : nat) (l l' : list nat) :
  ls !! i = Some l → sublist l' l → sublist (mjoin (<[i := l']> ls)) (mjoin ls).
Proof.
  intros Hi Hsub.
  rewrite insert_take_drop by (by eapply lookup_lt_Some).
  rewrite <- (take_drop_middle ls i l Hi) at 3.
  rewrite !join_app. simpl.
  apply sublist_app; [done|]. apply sublist_app; done.
Qed.

Lemma elem_of_join_lookup (ls : list (list nat)) (p : nat) :
  p ∈ mjoin ls ↔ ∃ i l, ls !! i = Some l ∧ p ∈ l.
Proof.
  rewrite list_elem_of_join. split.
  - intros (l & Hp & Hl). apply list_elem_of_lookup in Hl as [i Hi]. eauto.
  - intros (i & l & Hi & Hp). exists l. split; [done|].
    by eapply list_elem_of_lookup_2.
Qed.

(** Two slots of a wheel share no timer. *)
Lemma join_NoDup_disjoint (ls : list (list nat)) (i j : nat) (li lj : list nat)
    (p : nat) :
  NoDup (mjoin ls) → ls !! i = Some li → ls !! j = Some lj →
  p ∈ li → p ∈ lj → i = j.
Proof.
  revert i j. induction ls as [|l ls IH]; intros i j Hnd Hi Hj Hpi Hpj; [done|].
  simpl in Hnd. apply NoDup_app in Hnd as (Hl & Hdis & Hrest).
  destruct i as [|i], j as [|j]; simpl in *; simplify_eq; [done|..].
  - destruct (Hdis p Hpi). apply elem_of_join_lookup. eauto.
  - destruct (Hdis p Hpj). apply elem_of_join_lookup. eauto.
  - f_equal. by apply IH.
Qed.

Lemma join_NoDup_lookup (ls : list (list nat)) (i : nat) (l : list nat) :
  NoDup (mjoin ls) → ls !! i = Some l → NoDup l.
Proof.
  intros Hnd Hi. rewrite <- (take_drop_middle ls i l Hi) in Hnd.
  rewrite join_app in Hnd. simpl in Hnd.
  apply NoDup_app in Hnd as (_ & _ & Hnd). by apply NoDup_app in Hnd as (? & _).
Qed.

Lemma wheel_inv_slot (w : Wheel.time_wheel) (ls : list (list nat)) (i : nat) :
  wheel_inv w ls → (i < Z.to_nat Wheel.N)%nat →
  ∃ hd l, Wheel.slots w !! i = Some hd ∧ ls !! i = Some l
          ∧ NoDup l
          ∧ dlseg Wheel.next Wheel.prev (Wheel.mem w) None hd l None.
Proof.
  intros (Hcur & Hlen & Hall & Hnd & Hts) Hi.
  destruct (lookup_lt_is_Some_2 (Wheel.slots w) i) as [hd Hhd]; [lia|].
  destruct (Forall2_lookup_l _ _ _ _ _ Hall Hhd) as (l & Hl & Hseg).
  exists hd, l. split; [done|]. split; [done|].
  split; [by eapply join_NoDup_lookup | done].
Qed.

(** [tick] on a wheel: the timers of the current slot that have no
    rotation left are invoked, in list order, and destroyed; the others
    in that slot lose one rotation; the other slots are not touched; the
    wheel moves on by one slot. *)
Lemma wheel_tick_spec (w : Wheel.time_wheel) (ls : list (list nat)) :
  wheel_inv w ls → wheel_callbacks w ls →
  ∃ log w' l,
    ls !! Z.to_nat (Wheel.cur_slot w) = Some l
    ∧ Wheel.tick w = Ok (log, w')
    ∧ wheel_inv w' (<[Z.to_nat (Wheel.cur_slot w) := wheel_kept w l]> ls)
    ∧ wheel_callbacks w' (<[Z.to_nat (Wheel.cur_slot w) := wheel_kept w l]> ls)
    ∧ Wheel.cur_slot w' = (Wheel.cur_slot w + 1) `mod` Wheel.N
    ∧ Forall2 (wheel_fires w) (wheel_expired w l) log
    ∧ (∀ p, p ∈ wheel_expired w l → Wheel.mem w' !! p = None)
    ∧ (∀ p t, p ∈ wheel_kept w l → Wheel.mem w !! p = Some t →
         ∃ t', Wheel.mem w' !! p = Some t'
               ∧ Wheel.rotation t' = Wheel.rotation t - 1
               ∧ wheel_data t' = wheel_data t)
    ∧ (∀ p, p ∉ l → Wheel.mem w' !! p = Wheel.mem w !! p).
Proof.
  intros Hinv Hcb. pose proof Hinv as (Hcur & Hlen & Hall & Hnd & Hts).
  destruct (wheel_inv_slot w ls (Z.to_nat (Wheel.cur_slot w)) Hinv)
    as (hd & l & Hhd & Hl & Hndl & Hseg); [lia|].
  unfold Wheel.tick. rewrite (wheel_slot_get_Ok _ _ _ Hcur Hhd). mstep.
  pose proof (dlseg_head _ _ _ _ _ _ _ Hseg) as Hhead.
  destruct (wheel_tick_loop_spec l [] (S (size (Wheel.mem w))) w [] hd)
    as (log & w' & Hrun & Hpost); try done.
  { intros p t Hp Hmp _. apply (Hcb p t); [|done].
    apply elem_of_join_lookup. eauto. }
  { assert (length l ≤ size (Wheel.mem w))%nat; [|lia].
    apply NoDup_length_le_size; [done|]. intros p Hp. by eapply dlseg_lookup. }
  rewrite app_nil_l in Hrun. rewrite Hhead, Hrun. mstep.
  destruct Hpost as [Hc Hs Hsg Hf Hg Hk Hd Hfr]. simpl in Hs, Hsg, Hfr.
  set (c := Z.to_nat (Wheel.cur_slot w)) in *.
  set (ls' := <[c := wheel_kept w l]> ls).
  assert (Hother : ∀ i li p, i ≠ c → ls !! i = Some li → p ∈ li →
            Wheel.mem w' !! p = Wheel.mem w !! p).
  { intros i li p Hi Hli Hp. apply Hfr. intros Hpl.
    apply Hi. by eapply (join_NoDup_disjoint ls i c li l p). }
  assert (Hsub : sublist (wheel_kept w l) l) by apply sublist_filter.
  assert (Hin' : ∀ p, p ∈ mjoin ls' → p ∈ mjoin ls).
  { intros p Hp. eapply elem_of_sublist; [exact Hp|].
    by apply (join_insert_sublist ls c l). }
  assert (Hdata : ∀ p t', p ∈ mjoin ls' → Wheel.mem w' !! p = Some t' →
            ∃ t, Wheel.mem w !! p = Some t ∧ wheel_data t' = wheel_data t).
  { intros p t' (i & li & Hi & Hp)%elem_of_join_lookup Hmp.
    destruct (decide (i = c)) as [->|Hic].
    - unfold ls' in Hi. rewrite list_lookup_insert_eq in Hi
        by (by eapply lookup_lt_Some).
      injection Hi as <-.
      assert (Hpl : p ∈ l) by (by eapply elem_of_sublist).
      destruct (dlseg_lookup _ _ _ _ _ _ _ p Hseg Hpl) as [t Ht].
      destruct (Hk p t Hp Ht) as (t'' & Ht'' & _ & Hdd).
      exists t. split; [done|]. congruence.
    - unfold ls' in Hi. rewrite list_lookup_insert_ne in Hi by done.
      exists t'. split; [|done]. by rewrite <- (Hother i li p). }
  exists log, (Wheel.set_cur_slot (Z.rem (Wheel.cur_slot w' + 1) Wheel.N) w'), l.
  split; [done|]. split; [done|].
  split; [|split; [|split; [|split; [done|split; [done|split; [done|done]]]]]].
  - split; [simpl; unfold Wheel.N in *; zlia|].
    split; [simpl; by rewrite Hs, length_insert|].
    split; [|split].
    + simpl. rewrite Hs. apply Forall2_lookup. intros i.
      destruct (decide (i = c)) as [->|Hic].
      * unfold ls'. rewrite !list_lookup_insert_eq; [by constructor | |].
        -- by eapply lookup_lt_Some.
        -- by eapply lookup_lt_Some.
      * unfold ls'. rewrite !list_lookup_insert_ne by done.
        pose proof (proj1 (Forall2_lookup _ _ _) Hall i) as Hi.
        destruct (Wheel.slots w !! i) as [hdi|] eqn:E1, (ls !! i) as [li|] eqn:E2;
          inversion Hi as [? ? Hsegi|]; subst; constructor.
        eapply dlseg_frame; [|exact Hsegi].
        intros q tq Hq Hmq. exists tq. rewrite (Hother i li q); done.
    + eapply sublist_NoDup; [exact Hnd | by apply (join_insert_sublist ls c l)].
    + intros i li p t' Hi Hp Hmp. simpl in Hmp.
      destruct (Hdata p t') as (t & Ht & Hdd); [|done|].
      { apply elem_of_join_lookup. eauto. }
      injection Hdd as -> _ _.
      destruct (decide (i = c)) as [->|Hic].
      * unfold ls' in Hi. rewrite list_lookup_insert_eq in Hi
          by (by eapply lookup_lt_Some).
        injection Hi as <-. apply (Hts c l p t); [done | | done].
        by eapply elem_of_sublist.
      * unfold ls' in Hi. rewrite list_lookup_insert_ne in Hi by done.
        by apply (Hts i li p t).
  - intros p t' Hp Hmp. simpl in Hmp.
    destruct (Hdata p t' Hp Hmp) as (t & Ht & Hdd).
    injection Hdd as _ -> _. apply (Hcb p t); [by apply Hin' | done].
  - simpl. rewrite Hc. unfold Wheel.N in *. zlia.
Qed.

(** ** The wheel: [del_timer] *)

(** Replacing the list of one slot by a part of it, with the links of
    that part set right and the timers of the other slots left alone,
    gives a wheel again. *)
Lemma wheel_inv_update (w w' : Wheel.time_wheel) (ls : list (list nat))
    (i : nat) (l l' : list nat) :
  wheel_inv w ls → ls !! i = Some l → sublist l' l →
  Wheel.cur_slot w' = Wheel.cur_slot w →
  Wheel.slots w' = <[i := dl_head l' None]> (Wheel.slots w) →
  dlseg Wheel.next Wheel.prev (Wheel.mem w') None (dl_head l' None) l' None →
  (∀ p, p ∉ l → Wheel.mem w' !! p = Wheel.mem w !! p) →
  (∀ p t', p ∈ l' → Wheel.mem w' !! p = Some t' →
     ∃ t, Wheel.mem w !! p = Some t ∧ wheel_data t' = wheel_data t) →
  wheel_inv w' (<[i := l']> ls)
  ∧ (wheel_callbacks w ls → wheel_callbacks w' (<[i := l']> ls)).
Proof.
  intros (Hcur & Hlen & Hall & Hnd & Hts) Hl Hsub Hc Hs Hsg Hfr Hk.
  set (ls' := <[i := l']> ls).
  assert (Hother : ∀ j lj p, j ≠ i → ls !! j = Some lj → p ∈ lj →
            Wheel.mem w' !! p = Wheel.mem w !! p).
  { intros j lj p Hj Hlj Hp. apply Hfr. intros Hpl.
    apply Hj. by eapply (join_NoDup_disjoint ls j i lj l p). }
  assert (Hin' : ∀ p, p ∈ mjoin ls' → p ∈ mjoin ls).
  { intros p Hp. eapply elem_of_sublist; [exact Hp|].
    by apply (join_insert_sublist ls i l). }
  assert (Hdata : ∀ p t', p ∈ mjoin ls' → Wheel.mem w' !! p = Some t' →
            ∃ t, Wheel.mem w !! p = Some t ∧ wheel_data t' = wheel_data t).
  { intros p t' (j & lj & Hj & Hp)%elem_of_join_lookup Hmp.
    destruct (decide (j = i)) as [->|Hji].
    - unfold ls' in Hj. rewrite list_lookup_insert_eq in Hj
        by (by eapply lookup_lt_Some).
      injection Hj as <-. by apply Hk.
    - unfold ls' in Hj. rewrite list_lookup_insert_ne in Hj by done.
      exists t'. split; [|done]. by rewrite <- (Hother j lj p). }
  split.
  - split; [by rewrite Hc|]. split; [by rewrite Hs, length_insert|].
    split; [|split].
    + rewrite Hs. apply Forall2_lookup. intros j.
      destruct (decide (j = i)) as [->|Hji].
      * unfold ls'. rewrite !list_lookup_insert_eq; [by constructor | |].
        -- by eapply lookup_lt_Some.
        -- erewrite Forall2_length by exact Hall. by eapply lookup_lt_Some.
      * unfold ls'. rewrite !list_lookup_insert_ne by done.
        pose proof (proj1 (Forall2_lookup _ _ _) Hall j) as Hj.
        destruct (Wheel.slots w !! j) as [hdj|] eqn:E1, (ls !! j) as [lj|] eqn:E2;
          inversion Hj as [? ? Hsegj|]; subst; constructor.
        eapply dlseg_frame; [|exact Hsegj].
        intros q tq Hq Hmq. exists tq. rewrite (Hother j lj q); done.
    + eapply sublist_NoDup; [exact Hnd | by apply (join_insert_sublist ls i l)].
    + intros j lj p t' Hj Hp Hmp.
      destruct (Hdata p t') as (t & Ht & Hdd); [|done|].
      { apply elem_of_join_lookup. eauto. }
      injection Hdd as -> _ _.
      destruct (decide (j = i)) as [->|Hji].
      * unfold ls' in Hj. rewrite list_lookup_insert_eq in Hj
          by (by eapply lookup_lt_Some).
        injection Hj as <-. apply (Hts i l p t); [done | | done].
        by eapply elem_of_sublist.
      * unfold ls' in Hj. rewrite list_lookup_insert_ne in Hj by done.
        by apply (Hts j lj p t).
  - intros Hcb p t' Hp Hmp.
    destruct (Hdata p t' Hp Hmp) as (t & Ht & Hdd).
    injection Hdd as _ -> _. apply (Hcb p t); [by apply Hin' | done].
Qed.

Lemma sublist_delete_mid (l1 l2 : list nat) (t : nat) :
  sublist (l1 ++ l2) (l1 ++ t :: l2).
Proof. apply sublist_app; [done|]. by apply sublist_cons. Qed.

(** [del_timer] of a timer that is in the wheel: it leaves its slot and
    is destroyed. *)
Lemma wheel_del_timer_spec (w : Wheel.time_wheel) (ls : list (list nat))
    (i : nat) (l1 l2 : list nat) (t : nat) :
  wheel_inv w ls → ls !! i = Some (l1 ++ t :: l2) →
  ∃ w', Wheel.del_timer w (Some t) = Ok w'
        ∧ wheel_inv w' (<[i := l1 ++ l2]> ls)
        ∧ (wheel_callbacks w ls → wheel_callbacks w' (<[i := l1 ++ l2]> ls))
        ∧ Wheel.mem w' !! t = None
        ∧ t ∉ mjoin (<[i := l1 ++ l2]> ls).
Proof.
  intros Hinv Hl. pose proof Hinv as (Hcur & Hlen & Hall & Hnd & Hts).
  assert (Hi : (i < Z.to_nat Wheel.N)%nat).
  { rewrite <- Hlen. erewrite Forall2_length by exact Hall. by eapply lookup_lt_Some. }
  destruct (wheel_inv_slot w ls i Hinv Hi) as (hd & l & Hhd & Hl' & Hndl & Hseg).
  rewrite Hl in Hl'. injection Hl' as <-.
  destruct (dlseg_at _ _ _ _ _ _ _ _ _ Hseg) as (tm & Ht & Hprv & Hnxt).
  pose proof (dlseg_head _ _ _ _ _ _ _ Hseg) as Hhead.
  assert (Hslot : Wheel.time_slot tm = Z.of_nat i).
  { apply (Hts i _ t tm Hl); [|done]. apply elem_of_app. right. left. }
  assert (Hrange : 0 ≤ Z.of_nat i < Wheel.N) by lia.
  assert (Hnotin : t ∉ mjoin (<[i := l1 ++ l2]> ls)).
  { intros (j & lj & Hj & Hp)%elem_of_join_lookup.
    destruct (decide (j = i)) as [->|Hji].
    - rewrite list_lookup_insert_eq in Hj by (by eapply lookup_lt_Some).
      injection Hj as <-. clear -Hndl Hp. nodup.
    - rewrite list_lookup_insert_ne in Hj by done.
      apply Hji. eapply (join_NoDup_disjoint ls j i lj _ t); try done.
      apply elem_of_app. right. left. }
  assert (Hfinish : ∀ w',
    Wheel.cur_slot w' = Wheel.cur_slot w →
    Wheel.slots w' = <[i := dl_head (l1 ++ l2) None]> (Wheel.slots w) →
    dlseg Wheel.next Wheel.prev (Wheel.mem w') None (dl_head (l1 ++ l2) None)
      (l1 ++ l2) None →
    Wheel.mem w' !! t = None →
    (∀ q, q ≠ t →
       wheel_payload <$> Wheel.mem w' !! q = wheel_payload <$> Wheel.mem w !! q) →
    (∀ q, q ∉ l1 ++ t :: l2 → Wheel.mem w' !! q = Wheel.mem w !! q) →
    wheel_inv w' (<[i := l1 ++ l2]> ls)
    ∧ (wheel_callbacks w ls → wheel_callbacks w' (<[i := l1 ++ l2]> ls))
    ∧ Wheel.mem w' !! t = None
    ∧ t ∉ mjoin (<[i := l1 ++ l2]> ls)).
  { intros w' Hc Hs Hsg Hgone Hpay Hfr.
    destruct (wheel_inv_update w w' ls i (l1 ++ t :: l2) (l1 ++ l2))
      as [Hinv' Hcb']; try done.
    - apply sublist_delete_mid.
    - intros q t' Hq Hmq.
      assert (q ≠ t) by (clear -Hndl Hq; nodup).
      specialize (Hpay q H). rewrite Hmq in Hpay.
      destruct (Wheel.mem w !! q) as [t0|]; [|done].
      injection Hpay as _ Hs' Hc' Hu'. exists t0. split; [done|].
      unfold wheel_data. congruence. }
  unfold Wheel.del_timer. rewrite (wheel_rd_Ok _ _ _ Ht). mstep.
  rewrite Hslot. rewrite (wheel_slot_get_Ok _ _ hd) by (done || by rewrite Nat2Z.id).
  mstep.
  destruct l1 as [|a l1 _] using rev_ind.
  - (* the head of its slot *)
    simpl in Hhead. change (dl_head (t :: l2) None) with (Some t) in Hhead.
    rewrite decide_True by done. rewrite Hhead, (wheel_rd_Ok _ _ _ Ht). mstep.
    rewrite (wheel_slot_set_Ok _ _ _ Hrange Hlen). mstep.
    erewrite wheel_slot_get_Ok;
      [|done|simpl; apply list_lookup_insert_eq; lia].
    mstep. rewrite Hnxt. rewrite Nat2Z.id.
    destruct l2 as [|b l2].
    + change (dl_head [] None) with (@None nat). cbv iota. mstep.
      erewrite wheel_free_Ok by (simpl; exact Ht).
      eexists. split; [done|]. apply Hfinish; simpl; try done.
      * apply lookup_delete_eq.
      * intros q Hq. by rewrite lookup_delete_ne.
      * intros q Hq. rewrite lookup_delete_ne; (done || clear -Hq; set_solver).
    + change (dl_head (b :: l2) None) with (Some b) in *. cbv iota.
      destruct (dlseg_at_succ _ _ _ _ _ [] _ _ _ _ Hseg) as (tb & Hb & Hpb).
      assert (Hbt : b ≠ t) by (clear -Hndl; nodup).
      wheel_wr_step b.
      erewrite wheel_free_Ok by solve_lookup.
      eexists. split; [done|]. apply Hfinish; simpl; try done.
      * destruct (dlseg_unlink Wheel.next Wheel.prev (Wheel.mem w)
                    (delete t (<[b:=Wheel.with_prev None tb]> (Wheel.mem w)))
                    t tm (b :: l2) None [] None hd)
          as (_ & _ & Hres); try done.
        { intros q tq Hq Hmq.
          assert (q ≠ t) by (clear -Hndl Hq; nodup).
          rewrite Hprv, Hnxt. unfold dl_last; simpl.
          destruct (decide (q = b)) as [->|]; simplify_eq; links_at. }
        by rewrite Hnxt in Hres.
      * apply lookup_delete_eq.
      * intros q Hq. destruct (decide (q = b)) as [->|]; payload_at.
      * intros q Hq. rewrite lookup_delete_ne by (clear -Hq; set_solver).
        rewrite lookup_insert_ne by (clear -Hq; set_solver). done.
  - (* behind another timer *)
    assert (Hne : Some t ≠ hd).
    { rewrite Hhead. rewrite <- app_assoc. destruct l1 as [|c l1]; simpl;
        intros [= <-]; clear -Hndl; nodup. }
    rewrite decide_False by done.
    rewrite dl_last_snoc in Hprv. rewrite Hprv.
    destruct (dlseg_at_pred _ _ _ _ _ _ _ _ _ _ Hseg) as (ta & Ha & Hna).
    assert (Hat : a ≠ t) by (clear -Hndl; nodup).
    assert (Hhd' : dl_head ((l1 ++ [a]) ++ l2) None = hd).
    { rewrite Hhead. rewrite <- !app_assoc. by destruct l1. }
    assert (Hsl : <[i := hd]> (Wheel.slots w) = Wheel.slots w)
      by (by apply list_insert_id).
    wheel_wr_step a. erewrite wheel_rd_Ok by solve_lookup. mstep. rewrite Hnxt.
    destruct l2 as [|b l2].
    + change (dl_head [] None) with (@None nat). cbv iota. mstep.
      erewrite wheel_free_Ok by solve_lookup.
      eexists. split; [done|]. apply Hfinish; simpl; try done.
      * by rewrite Hhd', Hsl.
      * rewrite Hhd'.
        destruct (dlseg_unlink Wheel.next Wheel.prev (Wheel.mem w)
                    (delete t (<[a:=Wheel.with_next None ta]> (Wheel.mem w)))
                    t tm [] None (l1 ++ [a]) None hd)
          as (_ & _ & Hres); try done.
        { intros q tq Hq Hmq.
          assert (q ≠ t) by (clear -Hndl Hq; nodup).
          rewrite Hprv, Hnxt. unfold dl_head; simpl.
          destruct (decide (q = a)) as [->|]; simplify_eq; links_at. }
        by rewrite match_snoc in Hres.
      * apply lookup_delete_eq.
      * intros q Hq. destruct (decide (q = a)) as [->|]; payload_at.
      * intros q Hq. rewrite lookup_delete_ne by (clear -Hq; set_solver).
        rewrite lookup_insert_ne by (clear -Hq; set_solver). done.
    + change (dl_head (b :: l2) None) with (Some b) in *. cbv iota.
      destruct (dlseg_at_succ _ _ _ _ _ _ _ _ _ _ Hseg) as (tb & Hb & Hpb).
      assert (Hbt : b ≠ t) by (clear -Hndl; nodup).
      assert (Hab : a ≠ b) by (clear -Hndl; nodup).
      rewrite Hprv. wheel_wr_step b.
      erewrite wheel_free_Ok by solve_lookup.
      eexists. split; [done|]. apply Hfinish; simpl; try done.
      * by rewrite Hhd', Hsl.
      * rewrite Hhd'.
        destruct (dlseg_unlink Wheel.next Wheel.prev (Wheel.mem w)
                    (delete t (<[b:=Wheel.with_prev (Some a) tb]>
                       (<[a:=Wheel.with_next (Some b) ta]> (Wheel.mem w))))
                    t tm (b :: l2) None (l1 ++ [a]) None hd)
          as (_ & _ & Hres); try done.
        { intros q tq Hq Hmq.
          assert (q ≠ t) by (clear -Hndl Hq; nodup).
          rewrite Hprv, Hnxt.
          destruct (decide (q = a)) as [->|]; [|destruct (decide (q = b)) as [->|]];
            simplify_eq; links_at. }
        by rewrite match_snoc in Hres.
      * apply lookup_delete_eq.
      * intros q Hq.
        destruct (decide (q = a)) as [->|]; [|destruct (decide (q = b)) as [->|]];
          payload_at.
      * intros q Hq. rewrite lookup_delete_ne by (clear -Hq; set_solver).
        rewrite !lookup_insert_ne by (clear -Hq; set_solver). done.
Qed.

(** ** The wheel: construction and [add_timer] *)

Lemma join_replicate_nil (n : nat) : mjoin (replicate n (@nil nat)) = [].
Proof. induction n as [|n IH]; [done|]. simpl. done. Qed.

(** A new wheel is a wheel with sixty empty slots. *)
Lemma time_wheel_new_inv (m : gmap nat Wheel.tw_timer) :
  wheel_inv (Wheel.time_wheel_new m) (replicate (Z.to_nat Wheel.N) [])
  ∧ wheel_callbacks (Wheel.time_wheel_new m) (replicate (Z.to_nat Wheel.N) []).
Proof.
  split; [split; [|split; [|split; [|split]]]|].
  - unfold Wheel.time_wheel_new, Wheel.N; cbn [Wheel.cur_slot]. lia.
  - exact (length_replicate _ _).
  - unfold Wheel.time_wheel_new; cbn [Wheel.slots Wheel.mem].
    apply Forall2_replicate. done.
  - rewrite join_replicate_nil. constructor.
  - intros i l p t Hl Hp. apply lookup_replicate in Hl as [-> _].
    by apply elem_of_nil in Hp.
  - intros p t Hp. rewrite join_replicate_nil in Hp. by apply elem_of_nil in Hp.
Qed.

Lemma join_insert_cons (ls : list (list nat)) (i : nat) (l : list nat) (p : nat) :
  ls !! i = Some l →
  mjoin (<[i := p :: l]> ls) ≡ₚ p :: mjoin ls.
Proof.
  intros Hi.
  rewrite insert_take_drop by (by eapply lookup_lt_Some).
  rewrite <- (take_drop_middle ls i l Hi) at 3.
  rewrite !join_app. simpl. by rewrite <- Permutation_middle.
Qed.

(** Putting a new timer at the head of one slot, with the links set
    right and the other timers left alone, gives a wheel again. *)
Lemma wheel_inv_insert (w w' : Wheel.time_wheel) (ls : list (list nat))
    (i : nat) (l : list nat) (p : nat) (tp : Wheel.tw_timer) :
  wheel_inv w ls → ls !! i = Some l →
  Wheel.mem w !! p = None →
  (∀ q, q ∈ mjoin ls → is_Some (Wheel.mem w !! q)) →
  Wheel.cur_slot w' = Wheel.cur_slot w →
  Wheel.slots w' = <[i := Some p]> (Wheel.slots w) →
  dlseg Wheel.next Wheel.prev (Wheel.mem w') None (Some p) (p :: l) None →
  Wheel.mem w' !! p = Some tp → Wheel.time_slot tp = Z.of_nat i →
  (∀ q, q ∉ p :: l → Wheel.mem w' !! q = Wheel.mem w !! q) →
  (∀ q t', q ∈ l → Wheel.mem w' !! q = Some t' →
     ∃ t, Wheel.mem w !! q = Some t ∧ wheel_data t' = wheel_data t) →
  wheel_inv w' (<[i := p :: l]> ls).
Proof.
  intros (Hcur & Hlen & Hall & Hnd & Hts) Hl Hfresh Hlive Hc Hs Hsg Hp Hslot Hfr Hk.
  assert (Hpnot : p ∉ mjoin ls).
  { intros Hin. destruct (Hlive p Hin) as [? ?]. congruence. }
  assert (Hother : ∀ j lj q, j ≠ i → ls !! j = Some lj → q ∈ lj →
            Wheel.mem w' !! q = Wheel.mem w !! q).
  { intros j lj q Hj Hlj Hq. apply Hfr. intros [->|Hql]%elem_of_cons.
    - apply Hpnot. apply elem_of_join_lookup. eauto.
    - apply Hj. by eapply (join_NoDup_disjoint ls j i lj l q). }
  split; [by rewrite Hc|]. split; [by rewrite Hs, length_insert|].
  split; [|split].
  - rewrite Hs. apply Forall2_lookup. intros j.
    destruct (decide (j = i)) as [->|Hji].
    + rewrite !list_lookup_insert_eq; [by constructor | |].
      * by eapply lookup_lt_Some.
      * erewrite Forall2_length by exact Hall. by eapply lookup_lt_Some.
    + rewrite !list_lookup_insert_ne by done.
      pose proof (proj1 (Forall2_lookup _ _ _) Hall j) as Hj.
      destruct (Wheel.slots w !! j) as [hdj|] eqn:E1, (ls !! j) as [lj|] eqn:E2;
        inversion Hj as [? ? Hsegj|]; subst; constructor.
      eapply dlseg_frame; [|exact Hsegj].
      intros q tq Hq Hmq. exists tq. rewrite (Hother j lj q); done.
  - rewrite (join_insert_cons ls i l p Hl). by apply NoDup_cons.
  - intros j lj q t' Hj Hq Hmq.
    destruct (decide (j = i)) as [->|Hji].
    + rewrite list_lookup_insert_eq in Hj by (by eapply lookup_lt_Some).
      injection Hj as <-. apply elem_of_cons in Hq as [->|Hq].
      * congruence.
      * destruct (Hk q t' Hq Hmq) as (t & Ht & Hdd). injection Hdd as -> _ _.
        by apply (Hts i l q t).
    + rewrite list_lookup_insert_ne in Hj by done.
      rewrite (Hother j lj q) in Hmq by done. by apply (Hts j lj q t').
Qed.

Lemma wheel_inv_live (w : Wheel.time_wheel) (ls : list (list nat)) (q : nat) :
  wheel_inv w ls → q ∈ mjoin ls → is_Some (Wheel.mem w !! q).
Proof.
  intros (Hcur & Hlen & Hall & Hnd & Hts) (i & l & Hl & Hq)%elem_of_join_lookup.
  destruct (Forall2_lookup_r _ _ _ _ _ Hall Hl) as (hd & _ & Hseg).
  by eapply dlseg_lookup.
Qed.

(** [add_timer] with a timeout that is not negative and a slot sum
    that stays on the wheel: a new timer heads its slot. *)
Lemma wheel_add_timer_spec (w : Wheel.time_wheel) (ls : list (list nat))
    (timeout : Z) :
  wheel_inv w ls → 0 ≤ timeout →
  Wheel.add_timer_ts (Wheel.cur_slot w) timeout < Wheel.N →
  ∃ p w' l,
    Wheel.add_timer w timeout = Ok (Some p, w')
    ∧ Wheel.mem w !! p = None
    ∧ ls !! Z.to_nat (Wheel.add_timer_ts (Wheel.cur_slot w) timeout) = Some l
    ∧ wheel_inv w'
        (<[Z.to_nat (Wheel.add_timer_ts (Wheel.cur_slot w) timeout) := p :: l]> ls)
    ∧ (∃ tp, Wheel.mem w' !! p = Some tp
             ∧ Wheel.rotation tp = Wheel.add_timer_rotation timeout
             ∧ Wheel.time_slot tp = Wheel.add_timer_ts (Wheel.cur_slot w) timeout
             ∧ Wheel.cb_func tp = None)
    ∧ (∀ q, q ≠ p →
         wheel_payload <$> Wheel.mem w' !! q = wheel_payload <$> Wheel.mem w !! q).
Proof.
  intros Hinv Hpos Hts. pose proof Hinv as (Hcur & Hlen & Hall & Hnd & Hslots).
  set (ts := Wheel.add_timer_ts (Wheel.cur_slot w) timeout) in *.
  assert (Hrange : 0 ≤ ts < Wheel.N).
  { split; [|done]. unfold ts, Wheel.add_timer_ts, Wheel.add_timer_ticks, Wheel.N, Wheel.SI in *.
    destruct (timeout <? 1); zlia. }
  destruct (wheel_inv_slot w ls (Z.to_nat ts) Hinv) as (hd & l & Hhd & Hl & Hndl & Hseg);
    [lia|].
  pose proof (dlseg_head _ _ _ _ _ _ _ Hseg) as Hhead.
  unfold Wheel.add_timer. destruct (Z.ltb_spec timeout 0) as [|_]; [lia|].
  fold ts. set (p := fresh (dom (Wheel.mem w))).
  assert (Hfresh : Wheel.mem w !! p = None).
  { apply not_elem_of_dom. apply is_fresh. }
  assert (Hpl : p ∉ l).
  { intros Hin. destruct (dlseg_lookup _ _ _ _ _ _ _ p Hseg Hin). congruence. }
  set (new := Wheel.tw_timer_new (Wheel.add_timer_rotation timeout) ts).
  erewrite wheel_slot_get_Ok; [|done|simpl; exact Hhd]. mstep.
  destruct l as [|b l].
  - (* an empty slot *)
    change (dl_head [] None) with (@None nat) in Hhead. rewrite Hhead.
    rewrite wheel_slot_set_Ok by done. mstep.
    exists p, (Wheel.set_slots (<[Z.to_nat ts:=Some p]> (Wheel.slots w))
                 (Wheel.set_mem (<[p:=new]> (Wheel.mem w)) w)), [].
    split; [done|]. split; [done|]. split; [done|]. simpl.
    split; [|split].
    + eapply (wheel_inv_insert w _ ls (Z.to_nat ts) [] p new); try done.
      * intros q Hq. by eapply wheel_inv_live.
      * simpl. split; [done|]. exists new. by rewrite lookup_insert_eq.
      * simpl. apply lookup_insert_eq.
      * simpl. lia.
      * intros q Hq. simpl. rewrite lookup_insert_ne; [done|]. clear -Hq. set_solver.
      * intros q t' Hq. by apply elem_of_nil in Hq.
    + exists new. by rewrite lookup_insert_eq.
    + intros q Hq. by rewrite lookup_insert_ne.
  - (* a slot with timers *)
    change (dl_head (b :: l) None) with (Some b) in Hhead. rewrite Hhead.
    destruct (dlseg_at _ _ _ _ _ _ [] _ _ Hseg) as (tb & Hb & Hprv & Hnxt).
    assert (Hbp : b ≠ p) by (intros ->; congruence).
    wheel_wr_step p.
    erewrite wheel_slot_get_Ok; [|done|simpl; exact Hhd]. mstep.
    rewrite Hhead. wheel_wr_step b.
    rewrite wheel_slot_set_Ok by done. mstep.
    eexists p, _, (b :: l).
    split; [done|]. split; [done|]. split; [done|]. simpl.
    split; [|split].
    + eapply (wheel_inv_insert w _ ls (Z.to_nat ts) (b :: l) p
                (Wheel.with_next (Some b) new)); try done.
      * intros q Hq. by eapply wheel_inv_live.
      * simpl.
        pose proof (dlseg_link Wheel.next Wheel.prev (Wheel.mem w)
          (<[b:=Wheel.with_prev (Some p) tb]>
             (<[p:=Wheel.with_next (Some b) new]> (<[p:=new]> (Wheel.mem w))))
          p (Wheel.with_next (Some b) new) (b :: l) None [] None hd) as Hlink.
        simpl in Hlink. apply Hlink; clear Hlink; try done.
        -- by rewrite lookup_insert_ne, lookup_insert_eq.
        -- intros x tx Hx Hmx.
           assert (x ≠ p) by (intros ->; done).
           change (dl_head (b :: l) None) with (Some b).
           change (dl_last None []) with (@None nat).
           destruct (decide (x = b)) as [->|]; simplify_eq; links_at.
      * simpl. by rewrite lookup_insert_ne, lookup_insert_eq.
      * simpl. lia.
      * intros q Hq. simpl. rewrite !lookup_insert_ne; [done|..]; clear -Hq; set_solver.
      * intros q t' Hq Hmq. simpl in Hmq.
        assert (q ≠ p) by (intros ->; done).
        destruct (decide (q = b)) as [->|].
        -- rewrite lookup_insert_eq in Hmq. injection Hmq as <-. by exists tb.
        -- rewrite !lookup_insert_ne in Hmq by done. by exists t'.
    + exists (Wheel.with_next (Some b) new).
      by rewrite lookup_insert_ne, lookup_insert_eq.
    + intros q Hq. destruct (decide (q = b)) as [->|]; payload_at.
Qed.

(** Assigning the callback of a timer leaves the wheel a wheel. *)
Lemma wheel_set_cb_inv (w : Wheel.time_wheel) (ls : list (list nat)) (p : nat)
    (tp : Wheel.tw_timer) (cb : callback) (d : client_data) :
  wheel_inv w ls → Wheel.mem w !! p = Some tp →
  wheel_inv (Wheel.set_mem (<[p := Wheel.with_cb (Some cb) d tp]> (Wheel.mem w)) w) ls.
Proof.
  intros (Hcur & Hlen & Hall & Hnd & Hts) Hp.
  split; [done|]. split; [done|]. split; [|split; [done|]].
  - simpl. eapply Forall2_impl; [exact Hall|]. intros hd l Hseg.
    eapply dlseg_frame; [|exact Hseg].
    intros q tq Hq Hmq. destruct (decide (q = p)) as [->|].
    + rewrite lookup_insert_eq. simplify_eq. by eexists.
    + rewrite lookup_insert_ne by done. by eexists.
  - intros i l q t Hl Hq Hmq. simpl in Hmq.
    destruct (decide (q = p)) as [->|].
    + rewrite lookup_insert_eq in Hmq. injection Hmq as <-. simpl.
      by apply (Hts i l p tp).
    + rewrite lookup_insert_ne in Hmq by done. by apply (Hts i l q t).
Qed.

(** Scheduling on the wheel: [add_timer], then the callback is set. *)
Lemma wheel_schedule_spec (w : Wheel.time_wheel) (ls : list (list nat))
    (timeout : Z) (cb : callback) (d : client_data) :
  wheel_inv w ls → wheel_callbacks w ls → 0 ≤ timeout →
  Wheel.add_timer_ts (Wheel.cur_slot w) timeout < Wheel.N →
  ∃ p w' l,
    wheel_schedule w timeout cb d = Ok (Some p, w')
    ∧ ls !! Z.to_nat (Wheel.add_timer_ts (Wheel.cur_slot w) timeout) = Some l
    ∧ wheel_inv w'
        (<[Z.to_nat (Wheel.add_timer_ts (Wheel.cur_slot w) timeout) := p :: l]> ls)
    ∧ wheel_callbacks w'
        (<[Z.to_nat (Wheel.add_timer_ts (Wheel.cur_slot w) timeout) := p :: l]> ls)
    ∧ (∃ tp, Wheel.mem w' !! p = Some tp
             ∧ Wheel.rotation tp = Wheel.add_timer_rotation timeout
             ∧ Wheel.time_slot tp = Wheel.add_timer_ts (Wheel.cur_slot w) timeout
             ∧ Wheel.cb_func tp = Some cb ∧ Wheel.user_data tp = d).
Proof.
  intros Hinv Hcb Hpos Hts.
  destruct (wheel_add_timer_spec w ls timeout Hinv Hpos Hts)
    as (p & w1 & l & Hadd & Hfresh & Hl & Hinv1 & (tp & Hp & Hr & Hs & Hc) & Hpay).
  unfold wheel_schedule. rewrite Hadd. mstep.
  rewrite (wheel_wr_Ok _ _ _ _ Hp). mstep.
  eexists p, _, l. split; [done|]. split; [done|].
  split; [by apply wheel_set_cb_inv|]. split.
  - intros q t Hq Hmq. simpl in Hmq.
    destruct (decide (q = p)) as [->|Hqp].
    + rewrite lookup_insert_eq in Hmq. injection Hmq as <-. by eexists.
    + rewrite lookup_insert_ne in Hmq by done.
      specialize (Hpay q Hqp). rewrite Hmq in Hpay.
      destruct (Wheel.mem w !! q) as [t0|] eqn:Hq0; [|done].
      injection Hpay as _ _ Hcc _. rewrite Hcc. apply (Hcb q t0); [|done].
      apply elem_of_join_lookup in Hq as (j & lj & Hj & Hqj).
      apply elem_of_join_lookup.
      destruct (decide (j = Z.to_nat (Wheel.add_timer_ts (Wheel.cur_slot w) timeout)))
        as [->|Hne].
      * rewrite list_lookup_insert_eq in Hj by (by eapply lookup_lt_Some).
        injection Hj as <-. apply elem_of_cons in Hqj as [->|Hqj]; [done|]. eauto.
      * rewrite list_lookup_insert_ne in Hj by done. eauto.
  - eexists. simpl. rewrite lookup_insert_eq. split; [done|]. simpl. done.
Qed.

(** ** What [tick] invokes: the list *)

Lemma lst_fires_timers (s : Lst.sort_timer_lst) (l : list nat) (log : list fired) :
  Forall2 (lst_fires s) l log → f_timer <$> log = l.
Proof.
  induction 1 as [|p e l log (t & cb & _ & _ & ->) _ IH]; [done|].
  rewrite fmap_cons. by rewrite IH.
Qed.

(** On an ascending list [tick] invokes exactly the timers that have
    expired, each once, and destroys them. *)
Lemma lst_tick_due (cur : Z) (s : Lst.sort_timer_lst) (l : list nat) :
  lst_inv s l → lst_sorted s l → lst_callbacks s l →
  ∃ log s' l1 l2,
    l = l1 ++ l2
    ∧ Lst.tick s cur = Ok (log, s')
    ∧ lst_inv s' l2
    ∧ Forall2 (lst_fires s) l1 log
    ∧ NoDup l1
    ∧ (∀ p, p ∈ l → (p ∈ l1 ↔ lst_expire s p ≤ cur))
    ∧ (∀ p, p ∈ l1 → Lst.mem s' !! p = None).
Proof.
  intros Hinv Hsort Hcb. pose proof Hinv as [[Hnd _] _].
  destruct (lst_tick_spec cur s l Hinv Hcb)
    as (log & s' & l1 & l2 & -> & Hrun & Hinv' & Hdue & Hhd & Hfire & Hgone & _).
  exists log, s', l1, l2. split; [done|]. split; [done|]. split; [done|].
  split; [done|]. split; [by apply NoDup_app in Hnd as (? & _)|]. split; [|done].
  assert (Hlater : ∀ p, p ∈ l2 → cur < lst_expire s p).
  { unfold lst_sorted in Hsort. rewrite fmap_app in Hsort.
    apply ascending_app_inv in Hsort as [_ Hsort].
    destruct l2 as [|b l2]; [intros p Hp; by apply elem_of_nil in Hp|].
    specialize (Hhd b eq_refl). rewrite fmap_cons in Hsort.
    apply ascending_head_min in Hsort. rewrite Forall_fmap, Forall_forall in Hsort.
    intros p [->|Hp]%elem_of_cons; [done|].
    specialize (Hsort p Hp). simpl in Hsort. lia. }
  rewrite Forall_forall in Hdue.
  intros p Hp. split; [by apply Hdue|].
  intros Hle. apply elem_of_app in Hp as [Hp|Hp]; [done|].
  specialize (Hlater p Hp). lia.
Qed.

Lemma lst_ticks_not_in (t : nat) (curs : list Z) :
  ∀ s l, lst_inv s l → lst_callbacks s l → t ∉ l →
  ∃ log s', lst_ticks curs s = Ok (log, s') ∧ (t ∉ (f_timer <$> log)).
Proof.
  induction curs as [|cur curs IH]; intros s l Hinv Hcb Hnotin; simpl.
  - exists [], s. split; [done|]. apply not_elem_of_nil.
  - destruct (lst_tick_spec cur s l Hinv Hcb)
      as (l1' & s1 & l1 & l2 & -> & Hrun & Hinv1 & _ & _ & Hfire & _ & Hdata).
    pose proof Hinv as [[Hnd _] _].
    rewrite Hrun. mstep.
    destruct (IH s1 l2 Hinv1) as (log2 & s2 & -> & Hnot2).
    { intros q tq Hq Hmq.
      assert (Hq1 : q ∉ l1) by (clear -Hnd Hq; nodup).
      specialize (Hdata q Hq1). rewrite Hmq in Hdata.
      destruct (Lst.mem s !! q) as [t0|] eqn:Hq0; [|done].
      injection Hdata as _ Hc _. rewrite Hc. apply (Hcb q t0); [|done].
      apply elem_of_app. by right. }
    { clear -Hnotin. set_solver. }
    mstep. exists (l1' ++ log2), s2. split; [done|].
    rewrite fmap_app, not_elem_of_app. split; [|done].
    rewrite (lst_fires_timers _ _ _ Hfire). clear -Hnotin. set_solver.
Qed.

(** A timer cancelled in the list is never invoked by the ticks that
    follow. *)
Lemma lst_cancel_never_fires (s : Lst.sort_timer_lst) (l1 l2 : list nat)
    (t : nat) (curs : list Z) :
  lst_inv s (l1 ++ t :: l2) → lst_callbacks s (l1 ++ t :: l2) →
  ∃ s1 log s2,
    Lst.del_timer s (Some t) = Ok s1
    ∧ lst_ticks curs s1 = Ok (log, s2)
    ∧ (t ∉ (f_timer <$> log)).
Proof.
  intros Hinv Hcb. pose proof Hinv as [[Hnd _] _].
  destruct (lst_del_timer_spec s l1 l2 t Hinv) as (s1 & Hdel & Hinv1 & _ & Hdata).
  destruct (lst_ticks_not_in t curs s1 (l1 ++ l2) Hinv1) as (log & s2 & Hrun & Hnot).
  { intros q tq Hq Hmq.
    assert (Hqt : q ≠ t) by (clear -Hnd Hq; nodup).
    specialize (Hdata q Hqt). rewrite Hmq in Hdata.
    destruct (Lst.mem s !! q) as [t0|] eqn:Hq0; [|done].
    injection Hdata as _ Hc _. rewrite Hc. apply (Hcb q t0); [|done].
    clear -Hq. set_solver. }
  { clear -Hnd. nodup. }
  by exists s1, log, s2.
Qed.

(** ** What [tick] invokes: the wheel *)

Lemma wheel_fires_timers (w : Wheel.time_wheel) (l : list nat) (log : list fired) :
  Forall2 (wheel_fires w) l log → f_timer <$> log = l.
Proof.
  induction 1 as [|p e l log (t & cb & _ & _ & ->) _ IH]; [done|].
  rewrite fmap_cons. by rewrite IH.
Qed.

Lemma wheel_ticks_not_in (t : nat) (n : nat) :
  ∀ w ls, wheel_inv w ls → wheel_callbacks w ls → t ∉ mjoin ls →
  ∃ log w', wheel_ticks n w = Ok (log, w') ∧ (t ∉ (f_timer <$> log)).
Proof.
  induction n as [|n IH]; intros w ls Hinv Hcb Hnotin; simpl.
  - exists [], w. split; [done|]. apply not_elem_of_nil.
  - destruct (wheel_tick_spec w ls Hinv Hcb)
      as (log1 & w1 & l & Hl & Hrun & Hinv1 & Hcb1 & _ & Hfire & _).
    rewrite Hrun. mstep.
    destruct (IH w1 _ Hinv1 Hcb1) as (log2 & w2 & -> & Hnot2).
    { intros Hin. apply Hnotin. eapply elem_of_sublist; [exact Hin|].
      apply (join_insert_sublist ls _ l); [done|]. apply sublist_filter. }
    mstep. exists (log1 ++ log2), w2. split; [done|].
    rewrite fmap_app, not_elem_of_app. split; [|done].
    rewrite (wheel_fires_timers _ _ _ Hfire).
    intros Hin. apply Hnotin. apply elem_of_join_lookup.
    exists (Z.to_nat (Wheel.cur_slot w)), l. split; [done|].
    unfold wheel_expired in Hin. by apply list_elem_of_filter in Hin as [_ ?].
Qed.

(** A timer cancelled in the wheel is never invoked by the ticks that
    follow. *)
Lemma wheel_cancel_never_fires (w : Wheel.time_wheel) (ls : list (list nat))
    (i : nat) (l1 l2 : list nat) (t : nat) (n : nat) :
  wheel_inv w ls → wheel_callbacks w ls → ls !! i = Some (l1 ++ t :: l2) →
  ∃ w1 log w2,
    Wheel.del_timer w (Some t) = Ok w1
    ∧ wheel_ticks n w1 = Ok (log, w2)
    ∧ (t ∉ (f_timer <$> log)).
Proof.
  intros Hinv Hcb Hl.
  destruct (wheel_del_timer_spec w ls i l1 l2 t Hinv Hl)
    as (w1 & Hdel & Hinv1 & Hcb1 & _ & Hnotin).
  destruct (wheel_ticks_not_in t n w1 _ Hinv1 (Hcb1 Hcb) Hnotin)
    as (log & w2 & Hrun & Hnot).
  by exists w1, log, w2.
Qed.

(** ** The small states are what they are said to be *)

Lemma lst_ex_inv : lst_inv lst_ex [1%nat; 0%nat].
Proof.
  split; [split|].
  - apply NoDup_cons. split; [set_solver | apply NoDup_singleton].
  - simpl. split; [done|]. eexists. split; [by vm_compute|]. split; [done|].
    simpl. split; [done|]. eexists. split; [by vm_compute|]. done.
  - done.
Qed.

Lemma lst_ex_sorted : lst_sorted lst_ex [1%nat; 0%nat].
Proof. split; [by vm_compute | done]. Qed.

Lemma lst_ex_callbacks : lst_callbacks lst_ex [1%nat; 0%nat].
Proof.
  intros p t Hp Hm.
  assert (p = 1%nat ∨ p = 0%nat) as [-> | ->] by set_solver;
    vm_compute in Hm; injection Hm as <-; by eexists.
Qed.

Lemma heap_ex_run :
  heap_run heap_ex_ops (Heap.time_heap_new ∅ 2) = Ok heap_ex.
Proof. by vm_compute. Qed.

Lemma heap_ex_wf : heap_wf heap_ex ∧ heap_ordered heap_ex.
Proof.
  destruct (time_heap_new_wf ∅ 2) as [Hwf Hord]; [lia|].
  destruct (heap_run_inv heap_ex_ops _ Hwf Hord) as (h & Hrun & Hwf' & Hord').
  rewrite heap_ex_run in Hrun. by injection Hrun as <-.
Qed.

Lemma heap_ex1_wf : heap_wf heap_ex1 ∧ heap_ordered heap_ex1.
Proof.
  destruct (time_heap_new_wf ∅ 2) as [Hwf Hord]; [lia|].
  destruct (heap_run_inv [HSchedule 5 (Some 1%nat) 0%nat] _ Hwf Hord)
    as (h & Hrun & Hwf' & Hord').
  assert (heap_run [HSchedule 5 (Some 1%nat) 0%nat] (Heap.time_heap_new ∅ 2)
          = Ok heap_ex1) as Heq by (by vm_compute).
  rewrite Heq in Hrun. by injection Hrun as <-.
Qed.

Lemma wheel_ex_inv :
  wheel_inv wheel_ex wheel_ex_lists ∧ wheel_callbacks wheel_ex wheel_ex_lists.
Proof.
  destruct (time_wheel_new_inv ∅) as [Hinv0 Hcb0].
  destruct (wheel_schedule_spec _ _ 1 6%nat 7%nat Hinv0 Hcb0)
    as (p1 & w1 & l1 & Hs1 & Hl1 & Hinv1 & Hcb1 & _); [lia | by vm_compute |].
  vm_compute in Hs1. injection Hs1 as <- <-.
  vm_compute in Hl1. injection Hl1 as <-.
  destruct (wheel_schedule_spec _ _ 61 8%nat 9%nat Hinv1 Hcb1)
    as (p2 & w2 & l2 & Hs2 & Hl2 & Hinv2 & Hcb2 & _); [lia | by vm_compute |].
  vm_compute in Hs2. injection Hs2 as <- <-.
  vm_compute in Hl2. injection Hl2 as <-.
  destruct (wheel_tick_spec _ _ Hinv2 Hcb2)
    as (log & w3 & l3 & Hl3 & Hrun & Hinv3 & Hcb3 & _).
  vm_compute in Hl3. injection Hl3 as <-.
  vm_compute in Hrun. injection Hrun as <- <-.
  split.
  - exact Hinv3.
  - exact Hcb3.
Qed.

(** ** The wheel's slot and rotation arithmetic *)

Lemma add_timer_ticks_max (t : Z) :
  0 ≤ t → Wheel.add_timer_ticks t = Z.max 1 (t / Wheel.SI).
Proof.
  intros Ht. unfold Wheel.add_timer_ticks, Wheel.SI.
  rewrite Z.quot_1_r, Z.div_1_r.
  destruct (Z.ltb_spec t 1); lia.
Qed.

Lemma add_timer_rotation_spec (t : Z) :
  0 ≤ t → Wheel.add_timer_rotation t = spec_rotation t.
Proof.
  intros Ht. unfold Wheel.add_timer_rotation, spec_rotation.
  rewrite add_timer_ticks_max by done.
  apply Z.quot_div_nonneg; unfold Wheel.N; lia.
Qed.

(** Where the sum stays below [N] the slot is the one of the formula. *)
Lemma add_timer_ts_in_range (c t : Z) :
  0 ≤ t → 0 ≤ c →
  Wheel.add_timer_ts c t < Wheel.N →
  Wheel.add_timer_ts c t = spec_slot c t.
Proof.
  intros Ht Hc. unfold Wheel.add_timer_ts, spec_slot.
  rewrite add_timer_ticks_max by done.
  unfold Wheel.N, Wheel.SI. rewrite Z.div_1_r.
  intros Hlt. Z.to_euclidean_division_equations. lia.
Qed.

(** C1. After thirty ticks of a new wheel the current slot is 30; a
    timeout of 40 is then given the slot 30 + 40 % 60 = 70, not
    (30 + 40) mod 60 = 10 of the formula, and [add_timer] indexes the
    sixty-entry array [slots] at 70. *)
Theorem wheel_add_timer_slot_not_reduced :
  ∃ log w30,
    wheel_ticks 30 (Wheel.time_wheel_new ∅) = Ok (log, w30)
    ∧ Wheel.cur_slot w30 = 30
    ∧ Wheel.add_timer_ts (Wheel.cur_slot w30) 40 = 70
    ∧ spec_slot (Wheel.cur_slot w30) 40 = 10
    ∧ Wheel.add_timer w30 40 = Fault.
Proof.
  eexists _, _. split; [vm_compute; reflexivity|].
  repeat split; vm_compute; reflexivity.
Qed.

(** ** Null timer pointers *)



(** ** The wheel scenario: timeout 65 at slot 0 *)

(** C3, the claim as stated fails: after 65 calls of [tick] the callback
    has not been invoked at all. *)
Lemma wheel_scenario_65_ticks_nothing_fired :
  ¬ ∃ p w log w',
      wheel_schedule (Wheel.time_wheel_new ∅) 65 7%nat 9%nat = Ok (Some p, w)
      ∧ wheel_ticks 65 w = Ok (log, w')
      ∧ times_fired p log = 1%nat.
Proof.
  intros (p & w & log & w' & Hs & Ht & Hn).
  vm_compute in Hs. injection Hs as <- <-.
  vm_compute in Ht. injection Ht as <- <-.
  vm_compute in Hn. discriminate.
Qed.

(** C3, amended. With N = 60, SI = 1 and current slot 0, a timeout of 65
    gives a timer with rotation 1 in slot 5; the first 5 calls of [tick]
    and the first 65 invoke nothing; the 66th invokes the callback, once,
    and destroys the timer. *)
Theorem wheel_scenario_65 (cb : callback) (d : client_data) :
  ∃ p w,
    wheel_schedule (Wheel.time_wheel_new ∅) 65 cb d = Ok (Some p, w)
    ∧ (∃ t, Wheel.mem w !! p = Some t
            ∧ Wheel.rotation t = 1 ∧ Wheel.time_slot t = 5
            ∧ Wheel.slots w !! 5%nat = Some (Some p))
    ∧ (∃ w5, wheel_ticks 5 w = Ok ([], w5))
    ∧ (∃ w65, wheel_ticks 65 w = Ok ([], w65))
    ∧ (∃ w66, wheel_ticks 66 w = Ok ([Fired p cb d], w66)
              ∧ times_fired p [Fired p cb d] = 1%nat
              ∧ Wheel.mem w66 !! p = None).
Proof.
  eexists _, _. split; [vm_compute; reflexivity|].
  split; [eexists; repeat split; vm_compute; reflexivity|].
  split; [eexists; vm_compute; reflexivity|].
  split; [eexists; vm_compute; reflexivity|].
  eexists. split; [vm_compute; reflexivity|].
  split; vm_compute; reflexivity.
Qed.

(** ** Timeouts the wheel rejects *)




(** ** The list scenario: A at 10, B at 5, B adjusted to 20, tick at 15 *)

(** C9. After scheduling A (expire 10) and B (expire 5), B is first; once
    B's expiry is set to 20 and [adjust_timer] is called the list is A
    then B; [tick] at time 15 invokes A's callback only and B is what
    remains. *)
Theorem lst_scenario_adjust_then_tick (cbA cbB : callback) (dA dB : client_data) :
  ∃ a b s2 s3 s4,
    (∃ s1, lst_schedule (Lst.sort_timer_lst_new ∅) 10 cbA dA = Ok (a, s1)
           ∧ lst_schedule s1 5 cbB dB = Ok (b, s2))
    ∧ a ≠ b
    ∧ Lst.head s2 = Some b ∧ Lst.tail s2 = Some a
    ∧ lst_adjust s2 (Some b) 20 = Ok s3
    ∧ Lst.head s3 = Some a ∧ Lst.tail s3 = Some b
    ∧ Lst.next <$> Lst.mem s3 !! a = Some (Some b)
    ∧ Lst.prev <$> Lst.mem s3 !! b = Some (Some a)
    ∧ Lst.next <$> Lst.mem s3 !! b = Some None
    ∧ Lst.tick s3 15 = Ok ([Fired a cbA dA], s4)
    ∧ Lst.head s4 = Some b ∧ Lst.tail s4 = Some b
    ∧ Lst.mem s4 !! a = None
    ∧ Lst.mem s4 !! b = Some (Lst.mk_util_timer 20 (Some cbB) dB None None).
Proof.
  eexists _, _, _, _, _.
  split; [eexists; split; vm_compute; reflexivity|].
  split; [vm_compute; lia|].
  repeat split; vm_compute; reflexivity.
Qed.

(** ** The heap properties on the small states *)

Lemma heap_del_timer_lazy_witness :
  (∃ h', Heap.del_timer heap_ex (Some 2%nat) = Ok h'
         ∧ Heap.array h' = Heap.array heap_ex
         ∧ Heap.cur_size h' = Heap.cur_size heap_ex
         ∧ Heap.capacity h' = Heap.capacity heap_ex
         ∧ Heap.mem h' !! 2%nat = Some (Heap.mk_heap_timer 3 None 0%nat)
         ∧ (∀ q, q ≠ 2%nat → Heap.mem h' !! q = Heap.mem heap_ex !! q)
         ∧ (heap_wf heap_ex → heap_ordered heap_ex → heap_wf h' ∧ heap_ordered h')
         ∧ (∀ i, fst <$> heap_at h' i = fst <$> heap_at heap_ex i))
  ∧ (∃ log h', Heap.tick heap_ex 9 = Ok (log, h')
               ∧ (0%nat ∉ (f_timer <$> log))
               ∧ Heap.mem h' !! 0%nat = None
               ∧ ¬ in_heap h' 0%nat).
Proof.
  destruct heap_del_timer_lazy as [Hdel Htick]. split.
  - apply (Hdel heap_ex 2%nat (Heap.mk_heap_timer 3 (Some 3%nat) 0%nat)).
    vm_compute. reflexivity.
  - apply (Htick heap_ex 0%nat (Heap.mk_heap_timer 5 None 0%nat) 9).
    + exact (proj1 heap_ex_wf).
    + exact (proj2 heap_ex_wf).
    + exists 1, (Heap.mk_heap_timer 5 None 0%nat). vm_compute. reflexivity.
    + vm_compute. reflexivity.
    + reflexivity.
    + vm_compute. discriminate.
Defined.

Lemma heap_empty_top_pop_witness :
  (Heap.empty (Heap.time_heap_new ∅ 2) = true
   ∧ Heap.top (Heap.time_heap_new ∅ 2) = Ok None
   ∧ Heap.pop_timer (Heap.time_heap_new ∅ 2) = Ok (Heap.time_heap_new ∅ 2))
  ∧ (∃ p t h', heap_at heap_ex1 0 = Some (p, t)
               ∧ Heap.pop_timer heap_ex1 = Ok h'
               ∧ Heap.cur_size h' = 0
               ∧ Heap.mem h' !! p = None
               ∧ Heap.empty h' = true
               ∧ Heap.top h' = Ok None).
Proof.
  split.
  - apply (proj1 (heap_empty_top_pop (Heap.time_heap_new ∅ 2))). reflexivity.
  - apply (proj2 (heap_empty_top_pop heap_ex1)).
    + exact (proj1 heap_ex1_wf).
    + reflexivity.
Defined.

(** * Further properties of the three containers *)

(** ** The heap: what [add_timer], [top] and [pop_timer] give a caller *)

Lemma arr_set_capacity (h h' : Heap.time_heap) (i : Z) (p : option nat) :
  Heap.arr_set i p h = Ok h' → Heap.capacity h' = Heap.capacity h.
Proof.
  unfold Heap.arr_set. repeat case_decide; [|done..]. by intros [= <-].
Qed.

Lemma add_timer_loop_capacity (fuel : nat) :
  ∀ (h h' : Heap.time_heap) (timer : nat) (hole : Z),
  Heap.add_timer_loop fuel h timer hole = Ok h' →
  Heap.capacity h' = Heap.capacity h.
Proof.
  induction fuel as [|fuel IH]; intros h h' timer hole;
    rewrite add_timer_loop_unfold.
  - destruct (hole >? 0); [done|]. apply arr_set_capacity.
  - destruct (hole >? 0); [|apply arr_set_capacity].
    destruct (Heap.arr_get h ((hole - 1) ÷ 2)) as [pp| | |]; [|done..]. mstep.
    destruct (Heap.rd h pp) as [tp| | |]; [|done..]. mstep.
    destruct (Heap.rd h (Some timer)) as [tm| | |]; [|done..]. mstep.
    destruct (Heap.expire tp <=? Heap.expire tm); [apply arr_set_capacity|].
    destruct (Heap.arr_set hole pp h) as [h1| | |] eqn:Hset; [|done..]. mstep.
    intros Hrun. rewrite (IH _ _ _ _ Hrun). by eapply arr_set_capacity.
Qed.

Lemma percolate_down_loop_capacity (fuel : nat) :
  ∀ (g g' : Heap.time_heap) (tmp : option nat) (hole : Z),
  Heap.percolate_down_loop fuel g tmp hole = Ok g' →
  Heap.capacity g' = Heap.capacity g.
Proof.
  induction fuel as [|fuel IH]; intros g g' tmp hole;
    rewrite percolate_down_loop_unfold.
  - destruct (_ <=? _); [done | apply arr_set_capacity].
  - destruct (_ <=? _); [|apply arr_set_capacity].
    destruct (smaller_child g hole) as [c| | |]; [|done..]. mstep.
    destruct (Heap.arr_get g c) as [pc| | |]; [|done..]. mstep.
    destruct (Heap.rd g pc) as [tc| | |]; [|done..]. mstep.
    destruct (Heap.rd g tmp) as [tm| | |]; [|done..]. mstep.
    destruct (_ <? _); [|apply arr_set_capacity].
    destruct (Heap.arr_set hole pc g) as [g1| | |] eqn:Hset; [|done..]. mstep.
    intros Hrun. rewrite (IH _ _ _ _ Hrun). by eapply arr_set_capacity.
Qed.

Lemma heap_add_timer_capacity (h h' : Heap.time_heap) (timer : nat) :
  Heap.add_timer h (Some timer) = Ok h' →
  Heap.capacity h'
  = if Heap.cur_size h >=? Heap.capacity h then 2 * Heap.capacity h
    else Heap.capacity h.
Proof.
  unfold Heap.add_timer. intros Hrun.
  apply add_timer_loop_capacity in Hrun. rewrite Hrun.
  by destruct (Heap.cur_size h >=? Heap.capacity h).
Qed.

(** X1. [add_timer] of a live timer that is not in the heap returns and
    adds exactly that timer: the store is untouched, [cur_size] grows by
    one, the timers of the heap are the old ones and the new one, the
    heap is well formed and ordered, and the capacity is doubled by
    [resize] exactly when the heap was full.  The capacity is an [int] in
    the source and an integer without bound here: where the heap is full
    the doubled capacity is taken to fit an [int]. *)
Theorem heap_add_timer_inserts (h : Heap.time_heap) (timer : nat)
    (tm : Heap.heap_timer) :
  heap_wf h → heap_ordered h →
  Heap.mem h !! timer = Some tm → ¬ in_heap h timer →
  (Heap.cur_size h = Heap.capacity h → 2 * Heap.capacity h ≤ INT_MAX) →
  ∃ h', Heap.add_timer h (Some timer) = Ok h'
        ∧ Heap.mem h' = Heap.mem h
        ∧ Heap.cur_size h' = Heap.cur_size h + 1
        ∧ Heap.capacity h'
          = (if decide (Heap.cur_size h = Heap.capacity h)
             then 2 * Heap.capacity h else Heap.capacity h)
        ∧ heap_wf h' ∧ heap_ordered h'
        ∧ (∀ p, in_heap h' p ↔ p = timer ∨ in_heap h p).
Proof.
  intros Hwf Hord Htm Hfresh _.
  destruct (heap_add_timer_spec h timer tm Hwf Hord Htm Hfresh)
    as (h' & Hrun & Hm & Hs & Hwf' & Hord' & Hin).
  exists h'. split; [done|]. split; [done|]. split; [done|].
  split; [|done].
  rewrite (heap_add_timer_capacity h h' timer Hrun).
  destruct Hwf as [_ Hsz _ _ _].
  destruct (Z.geb_spec (Heap.cur_size h) (Heap.capacity h)); case_decide; lia.
Qed.

(** X2. On a heap that is not empty [top] returns the timer at the root,
    without changing anything, and no timer of the heap expires earlier
    than it. *)
Theorem heap_top_is_earliest (h : Heap.time_heap) :
  heap_wf h → heap_ordered h → 0 < Heap.cur_size h →
  ∃ p0 t0,
    Heap.top h = Ok (Some p0)
    ∧ Heap.mem h !! p0 = Some t0
    ∧ in_heap h p0
    ∧ (∀ p t, in_heap h p → Heap.mem h !! p = Some t →
              Heap.expire t0 ≤ Heap.expire t).
Proof.
  intros Hwf Hord Hne.
  destruct (wf_live h Hwf 0) as [[p0 t0] H0]; [lia|].
  exists p0, t0.
  pose proof (heap_at_reads h 0 p0 t0 (proj2 (wf_cur_size h Hwf)) H0) as [Hget _].
  apply heap_at_Some in H0 as H0'. destruct H0' as (_ & _ & Hm0).
  split.
  { unfold Heap.top, Heap.empty.
    destruct (Z.eqb_spec 0 (Heap.cur_size h)); [lia | done]. }
  split; [done|]. split; [by exists 0, t0|].
  intros p t (i & t' & Hat) Hm.
  pose proof (heap_root_min h p0 t0 Hord H0 i p t' Hat) as Hle.
  apply heap_at_Some in Hat as (_ & _ & Hm'). by simplify_eq.
Qed.

(** X3. [pop_timer] on a heap that is not empty deletes the timer [top]
    returns and nothing else: every other timer stays in the heap and in
    the store, [cur_size] shrinks by one and the heap is again well formed
    and ordered. *)
Theorem heap_pop_timer_removes_top (h : Heap.time_heap) :
  heap_wf h → heap_ordered h → 0 < Heap.cur_size h →
  ∃ p0 h',
    Heap.top h = Ok (Some p0)
    ∧ Heap.pop_timer h = Ok h'
    ∧ Heap.mem h' = delete p0 (Heap.mem h)
    ∧ Heap.cur_size h' = Heap.cur_size h - 1
    ∧ Heap.capacity h' = Heap.capacity h
    ∧ heap_wf h' ∧ heap_ordered h'
    ∧ (∀ p, in_heap h' p ↔ in_heap h p ∧ p ≠ p0).
Proof.
  intros Hwf Hord Hne.
  destruct (wf_live h Hwf 0) as [[p0 t0] H0]; [lia|].
  pose proof (heap_at_reads h 0 p0 t0 (proj2 (wf_cur_size h Hwf)) H0) as [Hget _].
  destruct (heap_pop_timer_spec h p0 t0 Hwf Hord H0)
    as (h' & Hpop & Hm & Hs & Hwf' & Hord' & Hin).
  exists p0, h'. split.
  { unfold Heap.top, Heap.empty.
    destruct (Z.eqb_spec 0 (Heap.cur_size h)); [lia | done]. }
  split; [done|]. split; [done|]. split; [done|]. split; [|done].
  destruct (pop_timer_unfold h p0 t0 Hwf H0) as (lst & _ & Heq).
  rewrite Heq in Hpop.
  by rewrite (percolate_down_loop_capacity _ _ _ _ _ Hpop).
Qed.

(** ** The heap: the order in which [tick] invokes *)

Lemma heap_expire_at (h : Heap.time_heap) (p : nat) (t : Heap.heap_timer) :
  Heap.mem h !! p = Some t → heap_expire h p = Heap.expire t.
Proof. unfold heap_expire. by intros ->. Qed.

Lemma heap_tick_loop_ascending (cur : Z) (fuel : nat) :
  ∀ (h : Heap.time_heap) (tmp : option nat) (log : list fired),
  heap_wf h → heap_ordered h →
  Heap.array h !! O = Some tmp →
  (Z.to_nat (Heap.cur_size h) ≤ fuel)%nat →
  ∃ log' h',
    Heap.tick_loop fuel h cur tmp log = Ok (log ++ log', h')
    ∧ Forall (in_heap h) (fired_timers log')
    ∧ ascending (heap_expire h <$> fired_timers log').
Proof.
  induction fuel as [|fuel IH]; intros h tmp log Hwf Hord Htmp Hfuel;
    rewrite heap_tick_loop_unfold; unfold Heap.empty;
    pose proof Hwf as [Hcap Hsz Hlen Hlive Hinj].
  - destruct (Z.eqb_spec 0 (Heap.cur_size h)) as [Hz|Hnz]; [|lia].
    exists [], h. rewrite app_nil_r. by repeat split.
  - destruct (Z.eqb_spec 0 (Heap.cur_size h)) as [Hz|Hnz].
    { exists [], h. rewrite app_nil_r. by repeat split. }
    destruct (Hlive 0) as [[p0 t0] H0]; [lia|].
    apply heap_at_Some in H0 as H0'. destruct H0' as (_ & Ha0 & Hm0).
    change (Z.to_nat 0) with O in Ha0. rewrite Ha0 in Htmp. injection Htmp as <-.
    replace (Heap.rd h (Some p0)) with (Ok t0) by (unfold Heap.rd; by rewrite Hm0).
    mstep.
    destruct (Z.gtb_spec (Heap.expire t0) cur) as [Hlater|Hdue].
    { exists [], h. rewrite app_nil_r. by repeat split. }
    replace (Heap.arr_get h 0) with (Ok (A:=option nat) (Some p0))
      by (symmetry; apply arr_get_Ok; split; [lia | done]).
    mstep.
    replace (Heap.rd h (Some p0)) with (Ok t0) by (unfold Heap.rd; by rewrite Hm0).
    mstep.
    destruct (heap_pop_timer_spec h p0 t0 Hwf Hord H0)
      as (h1 & -> & Hm1 & Hs1 & Hwf1 & Hord1 & Hin1).
    mstep.
    destruct (arr_get_in_range h1 0) as (tmp' & -> & Htmp');
      [apply Hwf1 | destruct Hwf1; lia |].
    mstep.
    set (ev := match Heap.cb_func t0 with
               | Some f => [Fired p0 f (Heap.user_data t0)]
               | None => []
               end).
    match goal with |- context [Heap.tick_loop _ _ _ _ ?l] =>
      replace l with (log ++ ev)
        by (unfold ev; destruct (Heap.cb_func t0); by rewrite ?app_nil_r)
    end.
    destruct (IH h1 tmp' (log ++ ev) Hwf1 Hord1 Htmp')
      as (log' & h' & -> & Hall & Hasc); [lia|].
    exists (ev ++ log'), h'. rewrite app_assoc. split; [done|].
    assert (Hin0 : in_heap h p0) by (by exists 0, t0).
    assert (Hall' : Forall (in_heap h) (fired_timers log')).
    { eapply Forall_impl; [exact Hall|]. intros p Hp. by apply Hin1 in Hp as [? _]. }
    assert (Heq : heap_expire h1 <$> fired_timers log'
                  = heap_expire h <$> fired_timers log').
    { apply Forall_fmap_ext. eapply Forall_impl; [exact Hall|].
      intros p Hp. apply Hin1 in Hp as [_ Hne]. unfold heap_expire.
      by rewrite Hm1, lookup_delete_ne. }
    rewrite Heq in Hasc.
    unfold ev. destruct (Heap.cb_func t0) as [f|]; [|by split].
    unfold fired_timers in *. rewrite !fmap_app. simpl. split.
    + constructor; [done | exact Hall'].
    + apply ascending_cons. split; [|done].
      rewrite (heap_expire_at h p0 t0 Hm0).
      intros b Hb. destruct log' as [|e log']; [done|].
      simpl in Hb. injection Hb as <-.
      apply Forall_cons in Hall' as [(i & t & Hat) _].
      pose proof (heap_root_min h p0 t0 Hord H0 i _ t Hat) as Hle.
      apply heap_at_Some in Hat as (_ & _ & Hm').
      by rewrite (heap_expire_at h _ t Hm').
Qed.

(** X4. [tick] on the heap invokes the callbacks in ascending order of
    expiry: the timers the trace was made for never step back in
    [expire]. *)
Theorem heap_tick_fires_in_expiry_order (h : Heap.time_heap) (cur : Z) :
  heap_wf h → heap_ordered h →
  ∃ log h',
    Heap.tick h cur = Ok (log, h')
    ∧ Forall (in_heap h) (fired_timers log)
    ∧ ascending (heap_expire h <$> fired_timers log).
Proof.
  intros Hwf Hord. unfold Heap.tick.
  destruct (arr_get_in_range h 0) as (tmp & -> & Htmp);
    [apply Hwf | destruct Hwf; lia |].
  mstep.
  destruct (heap_tick_loop_ascending cur (Z.to_nat (Heap.cur_size h)) h tmp []
              Hwf Hord Htmp) as (log & h' & Hrun & Hrest); [lia|].
  by exists log, h'.
Qed.

(** ** The heap: edge cases of the capacity and of the clock *)

(** X5. [time_heap(cap)] can take timers exactly when [cap] is
    positive: then [add_timer] of a live timer returns a heap that holds
    it, growing as needed; with [cap = 0], [resize] doubles 0 to 0 and
    [add_timer] stores through [array[0]] of an array without entries. *)
Theorem heap_new_add_timer_needs_capacity (m : gmap nat Heap.heap_timer)
    (cap : Z) (p : nat) (tm : Heap.heap_timer) :
  0 ≤ cap → m !! p = Some tm →
  (0 < cap →
     ∃ h', Heap.add_timer (Heap.time_heap_new m cap) (Some p) = Ok h'
           ∧ Heap.cur_size h' = 1 ∧ Heap.capacity h' = cap
           ∧ Heap.top h' = Ok (Some p)
           ∧ heap_wf h' ∧ heap_ordered h')
  ∧ (cap = 0 → Heap.add_timer (Heap.time_heap_new m cap) (Some p) = Fault).
Proof.
  intros Hcap Hp. split; [|by intros ->].
  intros Hpos. destruct (time_heap_new_wf m cap Hpos) as [Hwf Hord].
  destruct (heap_add_timer_spec _ p tm Hwf Hord Hp)
    as (h' & Hrun & Hm & Hs & Hwf' & Hord' & Hin).
  { by apply in_heap_empty. }
  exists h'. split; [done|]. split; [done|].
  split.
  { rewrite (heap_add_timer_capacity _ _ _ Hrun). simpl.
    destruct (Z.geb_spec 0 cap); [lia | done]. }
  split; [|done].
  destruct (wf_live h' Hwf' 0) as [[q tq] Hq]; [simpl in *; lia|].
  assert (q = p) as ->.
  { assert (in_heap h' q) as [->|Hold]%Hin by (by exists 0, tq); [done|].
    by apply in_heap_empty in Hold. }
  destruct (heap_at_reads h' 0 p tq (proj2 (wf_cur_size h' Hwf')) Hq) as [Hget _].
  unfold Heap.top, Heap.empty. rewrite Hs. done.
Qed.

(** A second [tick] at a clock reading that is not later finds nothing
    to do. *)
Lemma heap_tick_nothing_due (h : Heap.time_heap) (cur : Z) :
  heap_wf h →  heap_ordered h →
  (∀ p t, in_heap h p → Heap.mem h !! p = Some t → cur < Heap.expire t) →
  Heap.tick h cur = Ok ([], h).
Proof.
  intros Hwf Hord Hall. unfold Heap.tick.
  pose proof Hwf as [Hcap Hsz Hlen Hlive Hinj].
  destruct (arr_get_in_range h 0) as (tmp & -> & Htmp); [done | lia |].
  mstep. rewrite heap_tick_loop_unfold. unfold Heap.empty.
  destruct (Z.eqb_spec 0 (Heap.cur_size h)) as [Hz|Hnz]; [done|].
  destruct (Z.to_nat (Heap.cur_size h)) as [|fuel] eqn:Hf; [lia|].
  destruct (Hlive 0) as [[p0 t0] H0]; [lia|].
  apply heap_at_Some in H0 as H0'. destruct H0' as (_ & Ha0 & Hm0).
  change (Z.to_nat 0) with O in Ha0, Htmp. rewrite Ha0 in Htmp. injection Htmp as <-.
  replace (Heap.rd h (Some p0)) with (Ok t0) by (unfold Heap.rd; by rewrite Hm0).
  mstep.
  assert (cur < Heap.expire t0) by (apply (Hall p0); [by exists 0, t0 | done]).
  destruct (Z.gtb_spec (Heap.expire t0) cur); [done | lia].
Qed.

(** X6. After a [tick] at time [cur] every timer left in the heap
    expires later than [cur], and a further [tick] at a time that is not
    later invokes nothing and leaves the heap as it is. *)
Theorem heap_tick_again_is_idle (h : Heap.time_heap) (cur cur' : Z) :
  heap_wf h → heap_ordered h → cur' ≤ cur →
  ∃ log h',
    Heap.tick h cur = Ok (log, h')
    ∧ (∀ p t, in_heap h' p → Heap.mem h' !! p = Some t → cur < Heap.expire t)
    ∧ Heap.tick h' cur' = Ok ([], h').
Proof.
  intros Hwf Hord Hle.
  destruct (heap_tick_spec h cur Hwf Hord)
    as (log & h' & Hrun & Hwf' & Hord' & Hin & Hmem & _).
  exists log, h'. split; [done|].
  assert (Hall : ∀ p t, in_heap h' p → Heap.mem h' !! p = Some t →
                        cur < Heap.expire t).
  { intros p t Hp Hm. apply Hin in Hp as [Hp (t0 & Hm0 & Hlt)].
    rewrite (Hmem p t0 Hp Hm0) in Hm. rewrite decide_False in Hm by lia.
    by simplify_eq. }
  split; [done|].
  apply heap_tick_nothing_due; [done..|].
  intros p t Hp Hm. specialize (Hall p t Hp Hm). lia.
Qed.

(** X23. A [tick] at a time that is not earlier than any expiry in the
    heap empties it: every timer of the heap is deleted, [empty()] holds
    afterwards and [top()] returns the null pointer. *)
Theorem heap_tick_drains (h : Heap.time_heap) (cur : Z) :
  heap_wf h → heap_ordered h →
  (∀ p t, in_heap h p → Heap.mem h !! p = Some t → Heap.expire t ≤ cur) →
  ∃ log h',
    Heap.tick h cur = Ok (log, h')
    ∧ Heap.empty h' = true
    ∧ Heap.top h' = Ok None
    ∧ (∀ p, in_heap h p → Heap.mem h' !! p = None)
    ∧ (∀ p, ¬ in_heap h p → Heap.mem h' !! p = Heap.mem h !! p).
Proof.
  intros Hwf Hord Hall.
  destruct (heap_tick_spec h cur Hwf Hord)
    as (log & h' & Hrun & Hwf' & Hord' & Hin & Hmem & Hframe & _).
  exists log, h'. split; [done|].
  assert (Hz : Heap.cur_size h' = 0).
  { destruct (decide (Heap.cur_size h' = 0)) as [|Hnz]; [done|].
    destruct (wf_live h' Hwf' 0) as [[q tq] Hq];
      [pose proof (wf_cur_size h' Hwf'); lia|].
    assert (in_heap h' q) as [Hold (t & Ht & Hlt)]%Hin by (by exists 0, tq).
    specialize (Hall q t Hold Ht). lia. }
  unfold Heap.top, Heap.empty. rewrite Hz. split; [done|]. split; [done|].
  split; [|done].
  intros p Hp. pose proof Hp as (i & t & Hat).
  apply heap_at_Some in Hat as (_ & _ & Ht).
  rewrite (Hmem p t Hp Ht). rewrite decide_True; [done|]. by apply (Hall p t).
Qed.

(** ** The heap: sifting down in an array that is not yet a heap *)

Lemma heap_ordered_from_0 (h : Heap.time_heap) :
  heap_ordered_from 0 h ↔ heap_ordered h.
Proof.
  split; intros H i Hi; [apply H; [done | zlia] | intros _; by apply H].
Qed.

Lemma sift_finish (lo : Z) (h : Heap.time_heap) (temp : nat) (k hole : Z) :
  sift_inv lo h temp k hole →
  (∀ c, 0 < c < Heap.cur_size h → (c - 1) / 2 = hole → k ≤ hkey h c) →
  ∃ h', Heap.arr_set hole (Some temp) h = Ok h'
        ∧ Heap.mem h' = Heap.mem h
        ∧ Heap.cur_size h' = Heap.cur_size h
        ∧ heap_wf h' ∧ heap_ordered_from lo h'
        ∧ (∀ p, in_heap h' p ↔ p = temp ∨ in_heap_but h hole p).
Proof.
  intros [Hr Hlen (tm & Htm & Hk) Hlive Hinj Hord Hpar] Hchl.
  eexists. split; [apply arr_set_in_range; [done | lia]|].
  set (h' := Heap.set_array _ h).
  assert (Hat_hole : heap_at h' hole = Some (temp, tm)).
  { unfold h'. rewrite heap_at_set_same by lia. by rewrite Htm. }
  assert (Hat_other : ∀ i, i ≠ hole → heap_at h' i = heap_at h i).
  { intros i Hi. unfold h'. apply heap_at_set_other'; lia. }
  assert (Hkey_hole : hkey h' hole = k).
  { by rewrite (hkey_at _ _ _ _ Hat_hole). }
  assert (Hkey_other : ∀ i, i ≠ hole → hkey h' i = hkey h i).
  { intros i Hi. unfold hkey. by rewrite Hat_other. }
  split; [done|]. split; [done|].
  assert (Hlive' : ∀ i, 0 ≤ i < Heap.cur_size h' → is_Some (heap_at h' i)).
  { intros i Hi. destruct (decide (i = hole)) as [->|Hne].
    - by rewrite Hat_hole.
    - rewrite Hat_other by done.
      destruct (Hlive i) as (p & t & -> & _); done. }
  split; [|split].
  - split; simpl; [lia | lia | by rewrite length_insert | done |].
    intros i j p t t' Hi Hj.
    destruct (decide (i = hole)) as [->|Hni], (decide (j = hole)) as [->|Hnj];
      [done|..].
    + rewrite Hat_hole in Hi. rewrite Hat_other in Hj by done. simplify_eq.
      apply heap_at_Some in Hj as Hj'.
      destruct (Hlive j) as (p' & t'' & Hat & Hne); [simpl in *; lia | done|].
      congruence.
    + rewrite Hat_hole in Hj. rewrite Hat_other in Hi by done. simplify_eq.
      apply heap_at_Some in Hi as Hi'.
      destruct (Hlive i) as (p' & t'' & Hat & Hne); [simpl in *; lia | done|].
      congruence.
    + rewrite Hat_other in Hi, Hj by done. eauto.
  - intros i Hi Hlo. simpl in Hi.
    destruct (Hlive' i) as [[pi ti] Hpi]; [simpl; lia|].
    destruct (Hlive' ((i - 1) / 2)) as [[pp tp] Hpp]; [simpl; zlia|].
    exists pi, ti, pp, tp. split; [done|]. split; [done|].
    rewrite <- (hkey_at _ _ _ _ Hpi), <- (hkey_at _ _ _ _ Hpp).
    destruct (decide (i = hole)) as [->|Hni].
    + rewrite Hkey_hole, Hkey_other by zlia. apply Hpar. zlia.
    + destruct (decide ((i - 1) / 2 = hole)) as [Hp|Hnp].
      * rewrite Hp, Hkey_hole, Hkey_other by done. by apply Hchl.
      * rewrite !Hkey_other by done. by apply Hord.
  - intros p. split.
    + intros (i & t & Hi). destruct (decide (i = hole)) as [->|Hni].
      * rewrite Hat_hole in Hi. left. congruence.
      * right. exists i, t. by rewrite <- Hat_other.
    + intros [->|(i & t & Hi & Hat)].
      * by exists hole, tm.
      * exists i, t. by rewrite Hat_other.
Qed.

Lemma sift_step (lo : Z) (h : Heap.time_heap) (temp : nat) (k hole c : Z)
    (pc : nat) (tc : Heap.heap_timer) :
  sift_inv lo h temp k hole →
  0 < c < Heap.cur_size h → (c - 1) / 2 = hole →
  heap_at h c = Some (pc, tc) →
  Heap.expire tc < k →
  (∀ c', 0 < c' < Heap.cur_size h → (c' - 1) / 2 = hole →
         Heap.expire tc ≤ hkey h c') →
  ∃ h', Heap.arr_set hole (Some pc) h = Ok h'
        ∧ Heap.mem h' = Heap.mem h
        ∧ Heap.cur_size h' = Heap.cur_size h
        ∧ sift_inv lo h' temp k c
        ∧ (∀ p, in_heap_but h' c p ↔ in_heap_but h hole p).
Proof.
  intros [Hr Hlen (tm & Htm & Hk) Hlive Hinj Hord Hpar] Hc Hcp Hpc Hlt Hmin.
  assert (Hch : hole < c) by zlia.
  eexists. split; [apply arr_set_in_range; [done | lia]|].
  set (h' := Heap.set_array _ h).
  apply heap_at_Some in Hpc as Hpc'. destruct Hpc' as (_ & Hapc & Hmpc).
  assert (Hat_hole : heap_at h' hole = Some (pc, tc)).
  { unfold h'. rewrite heap_at_set_same by lia. by rewrite Hmpc. }
  assert (Hat_other : ∀ i, i ≠ hole → heap_at h' i = heap_at h i).
  { intros i Hi. unfold h'. apply heap_at_set_other'; lia. }
  assert (Hkey_hole : hkey h' hole = Heap.expire tc).
  { by rewrite (hkey_at _ _ _ _ Hat_hole). }
  assert (Hkey_c : hkey h c = Heap.expire tc).
  { by rewrite (hkey_at _ _ _ _ Hpc). }
  assert (Hkey_other : ∀ i, i ≠ hole → hkey h' i = hkey h i).
  { intros i Hi. unfold hkey. by rewrite Hat_other. }
  split; [done|]. split; [done|]. split; [split|].
  - simpl. lia.
  - simpl. by rewrite length_insert.
  - by exists tm.
  - intros i Hi Hne. simpl in Hi.
    destruct (decide (i = hole)) as [->|Hnh].
    + exists pc, tc. split; [done|].
      destruct (Hlive c) as (p' & t' & Hat & Hnt); [lia..|]. congruence.
    + rewrite Hat_other by done. apply Hlive; done.
  - intros i j p t t' Hi Hj Hati Hatj.
    destruct (decide (i = hole)) as [->|Hni], (decide (j = hole)) as [->|Hnj];
      [done|..].
    + rewrite Hat_hole in Hati. rewrite Hat_other in Hatj by done.
      injection Hati as <- <-.
      exfalso. apply Hj. symmetry. eapply (Hinj c j); [lia | done..].
    + rewrite Hat_hole in Hatj. rewrite Hat_other in Hati by done.
      injection Hatj as <- <-.
      exfalso. apply Hi. eapply (Hinj i c); [done | lia | done..].
    + rewrite Hat_other in Hati, Hatj by done. eauto.
  - intros i Hi Hni Hnp Hlo. simpl in Hi.
    destruct (decide (i = hole)) as [->|Hnh].
    + rewrite Hkey_hole, Hkey_other by zlia. rewrite <- Hkey_c.
      apply Hpar; [zlia | lia | done].
    + destruct (decide ((i - 1) / 2 = hole)) as [Hph|Hnph].
      * rewrite Hph, Hkey_hole, Hkey_other by done. by apply Hmin.
      * rewrite !Hkey_other by done. apply Hord; done.
  - intros _. rewrite Hcp, Hkey_hole. split; [lia|].
    intros c' Hc' Hcp'. simpl in Hc'. rewrite Hkey_other by zlia.
    rewrite <- Hkey_c, <- Hcp'. apply Hord; [done | zlia | lia | lia].
  - intros p. unfold in_heap_but. split.
    + intros (i & t & Hi & Hat). destruct (decide (i = hole)) as [->|Hnh].
      * rewrite Hat_hole in Hat. injection Hat as <- <-.
        exists c, tc. split; [lia | done].
      * exists i, t. by rewrite <- Hat_other.
    + intros (i & t & Hi & Hat). destruct (decide (i = c)) as [->|Hnp].
      * exists hole, t. split; [lia|]. congruence.
      * exists i, t. split; [done|]. by rewrite Hat_other.
Qed.

Lemma sift_smaller_child (lo : Z) (h : Heap.time_heap) (temp : nat) (k hole : Z) :
  sift_inv lo h temp k hole →
  hole * 2 + 1 ≤ Heap.cur_size h - 1 →
  ∃ c pc tc,
    smaller_child h hole = Ok c
    ∧ 0 < c < Heap.cur_size h ∧ (c - 1) / 2 = hole
    ∧ heap_at h c = Some (pc, tc)
    ∧ (∀ c', 0 < c' < Heap.cur_size h → (c' - 1) / 2 = hole →
             Heap.expire tc ≤ hkey h c').
Proof.
  intros Hinv Hin. pose proof Hinv as [Hr Hlen _ Hlive _ _ _].
  assert (Hcap : Heap.cur_size h ≤ Heap.capacity h) by lia.
  unfold smaller_child.
  destruct (Hlive (hole * 2 + 1)) as (p0 & t0 & Hat0 & _); [lia..|].
  destruct (heap_at_reads _ _ _ _ Hcap Hat0) as [Hg0 Hr0].
  destruct (Z.ltb_spec (hole * 2 + 1) (Heap.cur_size h - 1)) as [Htwo|Hone].
  - destruct (Hlive (hole * 2 + 1 + 1)) as (p1 & t1 & Hat1 & _); [lia..|].
    destruct (heap_at_reads _ _ _ _ Hcap Hat1) as [Hg1 Hr1].
    rewrite Hg1. mstep. rewrite Hr1. mstep. rewrite Hg0. mstep. rewrite Hr0. mstep.
    destruct (Z.ltb_spec (Heap.expire t1) (Heap.expire t0)) as [Hlt|Hge].
    + exists (hole * 2 + 1 + 1), p1, t1. split; [done|].
      split; [lia|]. split; [zlia|]. split; [done|].
      intros c' Hc' Hp'.
      assert (c' = hole * 2 + 1 ∨ c' = hole * 2 + 1 + 1) as [->| ->] by zlia.
      * rewrite (hkey_at _ _ _ _ Hat0). lia.
      * rewrite (hkey_at _ _ _ _ Hat1). lia.
    + exists (hole * 2 + 1), p0, t0. split; [done|].
      split; [lia|]. split; [zlia|]. split; [done|].
      intros c' Hc' Hp'.
      assert (c' = hole * 2 + 1 ∨ c' = hole * 2 + 1 + 1) as [->| ->] by zlia.
      * rewrite (hkey_at _ _ _ _ Hat0). lia.
      * rewrite (hkey_at _ _ _ _ Hat1). lia.
  - exists (hole * 2 + 1), p0, t0. split; [done|].
    split; [lia|]. split; [zlia|]. split; [done|].
    intros c' Hc' Hp'.
    assert (c' = hole * 2 + 1) as -> by zlia.
    rewrite (hkey_at _ _ _ _ Hat0). lia.
Qed.

(** The loop of [percolate_down] ends, and the subtree it was called
    for is a heap when it does. *)
Lemma sift_loop_spec (lo : Z) (fuel : nat) :
  ∀ (h : Heap.time_heap) (temp : nat) (k hole : Z),
  sift_inv lo h temp k hole →
  (Z.to_nat (Heap.cur_size h - hole) ≤ fuel)%nat →
  ∃ h', Heap.percolate_down_loop fuel h (Some temp) hole = Ok h'
        ∧ Heap.mem h' = Heap.mem h
        ∧ Heap.cur_size h' = Heap.cur_size h
        ∧ heap_wf h' ∧ heap_ordered_from lo h'
        ∧ (∀ p, in_heap h' p ↔ p = temp ∨ in_heap_but h hole p).
Proof.
  induction fuel as [|fuel IH]; intros h temp k hole Hinv Hfuel;
    rewrite percolate_down_loop_unfold;
    pose proof (sf_range _ _ _ _ _ Hinv) as Hr.
  - lia.
  - destruct (Z.leb_spec (hole * 2 + 1) (Heap.cur_size h - 1)) as [Hin|Hout].
    + destruct (sift_smaller_child lo h temp k hole Hinv Hin)
        as (c & pc & tc & -> & Hc & Hcp & Hat & Hmin).
      mstep.
      assert (Hcap : Heap.cur_size h ≤ Heap.capacity h) by lia.
      destruct (heap_at_reads _ _ _ _ Hcap Hat) as [-> Hrd].
      mstep. rewrite Hrd. mstep.
      destruct (sf_temp _ _ _ _ _ Hinv) as (tm & Htm & Hk).
      replace (Heap.rd h (Some temp)) with (Ok tm)
        by (unfold Heap.rd; by rewrite Htm).
      mstep.
      destruct (Z.ltb_spec (Heap.expire tc) (Heap.expire tm)) as [Hlt|Hge].
      * destruct (sift_step lo h temp k hole c pc tc)
          as (h1 & -> & Hm & Hs & Hinv1 & Hin1); [done | done | done | done | lia | done |].
        mstep.
        destruct (IH h1 temp k c Hinv1) as (h' & -> & Hm' & Hs' & Hwf & Hord & Hin');
          [rewrite Hs; zlia|].
        exists h'. split; [done|]. split; [congruence|]. split; [congruence|].
        split; [done|]. split; [done|].
        intros p. rewrite Hin'. by rewrite Hin1.
      * apply (sift_finish lo h temp k hole); [done|].
        intros c' Hc' Hcp'. specialize (Hmin c' Hc' Hcp'). lia.
    + apply (sift_finish lo h temp k hole); [done|].
      intros c' Hc' Hcp'. zlia.
Qed.

(** [percolate_down(i)] on an array that is a heap behind [i] makes it
    a heap from [i] on, with the same timers. *)
Lemma percolate_down_from_spec (h : Heap.time_heap) (i : Z) :
  heap_wf h → heap_ordered_from (i + 1) h → 0 ≤ i < Heap.cur_size h →
  ∃ h', Heap.percolate_down h i = Ok h'
        ∧ Heap.mem h' = Heap.mem h
        ∧ Heap.cur_size h' = Heap.cur_size h
        ∧ Heap.capacity h' = Heap.capacity h
        ∧ heap_wf h' ∧ heap_ordered_from i h'
        ∧ (∀ p, in_heap h' p ↔ in_heap h p).
Proof.
  intros Hwf Hord Hi. pose proof Hwf as [Hcap Hsz Hlen Hlive Hinj].
  destruct (Hlive i Hi) as [[temp tm] Hat].
  destruct (heap_at_reads _ _ _ _ (proj2 Hsz) Hat) as [Hget _].
  unfold Heap.percolate_down. rewrite Hget. mstep.
  assert (Hinv : sift_inv i h temp (Heap.expire tm) i).
  { split.
    - lia.
    - done.
    - exists tm. by apply heap_at_Some in Hat as (_ & _ & ?).
    - intros j Hj Hne. destruct (Hlive j Hj) as [[p t] Hp].
      exists p, t. split; [done|]. intros ->.
      by specialize (Hinj _ _ _ _ _ Hat Hp).
    - intros j j' p t t' _ _. apply Hinj.
    - intros j Hj Hne Hnp Hlo.
      destruct (Hord j Hj) as (pj & tj & pp & tp & Hatj & Hatp & Hle); [lia|].
      by rewrite (hkey_at _ _ _ _ Hatj), (hkey_at _ _ _ _ Hatp).
    - done. }
  destruct (sift_loop_spec i (Z.to_nat (Heap.cur_size h)) h temp _ i Hinv)
    as (h' & Hrun & Hm & Hs & Hwf' & Hord' & Hin); [lia|].
  exists h'. split; [done|]. split; [done|]. split; [done|].
  split; [by eapply percolate_down_loop_capacity|].
  split; [done|]. split; [done|].
  intros p. rewrite Hin. split.
  - intros [->|(j & t & _ & Hj)]; [by exists i, tm | by exists j, t].
  - intros (j & t & Hj). destruct (decide (j = i)) as [->|Hne].
    + left. congruence.
    + right. by exists j, t.
Qed.

(** ** The heap: the constructor that takes an array *)

Lemma init_copy_spec (init_array : list (option nat)) (n : nat) :
  ∀ (i : Z) (h : Heap.time_heap),
  0 ≤ i → i + Z.of_nat n ≤ Heap.capacity h →
  length (Heap.array h) = Z.to_nat (Heap.capacity h) →
  (Z.to_nat i + n ≤ length init_array)%nat →
  ∃ a, Heap.init_copy n i init_array h = Ok (Heap.set_array a h)
       ∧ length a = length (Heap.array h)
       ∧ (∀ j, (Z.to_nat i ≤ j < Z.to_nat i + n)%nat → a !! j = init_array !! j)
       ∧ (∀ j, ¬ (Z.to_nat i ≤ j < Z.to_nat i + n)%nat → a !! j = Heap.array h !! j).
Proof.
  induction n as [|n IH]; intros i h Hi Hcap Hlen Hinit; simpl.
  - exists (Heap.array h). split; [by destruct h|]. split; [done|].
    split; [lia | done].
  - destruct (lookup_lt_is_Some_2 init_array (Z.to_nat i)) as [p Hp]; [lia|].
    rewrite Hp. simpl. mstep.
    rewrite arr_set_in_range by (done || lia). mstep.
    destruct (IH (i + 1) (Heap.set_array (<[Z.to_nat i := p]> (Heap.array h)) h))
      as (a & -> & Hla & Hin & Hout);
      [lia | simpl; lia | simpl; by rewrite length_insert | lia |].
    simpl in *. rewrite length_insert in Hla.
    exists a. split; [done|]. split; [done|]. split.
    + intros j Hj. destruct (decide (j = Z.to_nat i)) as [->|Hne].
      * rewrite Hout by lia. rewrite list_lookup_insert_eq by lia. done.
      * apply Hin. lia.
    + intros j Hj. rewrite Hout by lia.
      apply list_lookup_insert_ne. lia.
Qed.

Lemma init_heapify_spec (fuel : nat) :
  ∀ (h : Heap.time_heap) (i : Z),
  heap_wf h → heap_ordered_from (i + 1) h → -1 ≤ i < Heap.cur_size h →
  (Z.to_nat (i + 1) ≤ fuel)%nat →
  ∃ h', Heap.init_heapify fuel h i = Ok h'
        ∧ Heap.mem h' = Heap.mem h
        ∧ Heap.cur_size h' = Heap.cur_size h
        ∧ Heap.capacity h' = Heap.capacity h
        ∧ heap_wf h' ∧ heap_ordered h'
        ∧ (∀ p, in_heap h' p ↔ in_heap h p).
Proof.
  induction fuel as [|fuel IH]; intros h i Hwf Hord Hi Hfuel.
  - assert (i = -1) as -> by lia. simpl.
    exists h. split; [done|]. split; [done|]. split; [done|]. split; [done|].
    split; [done|]. split; [by apply heap_ordered_from_0 | done].
  - simpl. destruct (Z.geb_spec i 0) as [Hge|Hlt].
    + destruct (percolate_down_from_spec h i Hwf Hord)
        as (h1 & -> & Hm1 & Hs1 & Hc1 & Hwf1 & Hord1 & Hin1); [lia|].
      mstep.
      destruct (IH h1 (i - 1) Hwf1) as (h' & -> & Hm & Hs & Hc & Hwf' & Hord' & Hin);
        [by replace (i - 1 + 1) with i by lia | lia | lia |].
      exists h'. split; [done|]. split; [congruence|]. split; [congruence|].
      split; [congruence|]. split; [done|]. split; [done|].
      intros p. by rewrite Hin, Hin1.
    + assert (i = -1) as -> by lia.
      exists h. split; [done|]. split; [done|]. split; [done|]. split; [done|].
      split; [done|]. split; [by apply heap_ordered_from_0 | done].
Qed.

(** X7. The constructor that takes an array throws when [capacity] is
    smaller than [size]; otherwise, given [size] distinct live timers in
    [init_array], it returns a well-formed heap of that size and capacity
    which holds exactly these timers and has the min-heap order. *)
Theorem time_heap_init_builds_heap (m : gmap nat Heap.heap_timer)
    (init_array : list (option nat)) (size capacity : Z) (ps : list nat) :
  (capacity < size →
     Heap.time_heap_init m init_array size capacity = Throw)
  ∧ (0 ≤ size ≤ capacity → 0 < capacity →
     take (Z.to_nat size) init_array = Some <$> ps →
     length ps = Z.to_nat size →
     NoDup ps → (∀ p, p ∈ ps → is_Some (m !! p)) →
     ∃ h, Heap.time_heap_init m init_array size capacity = Ok h
          ∧ Heap.mem h = m
          ∧ Heap.cur_size h = size
          ∧ Heap.capacity h = capacity
          ∧ heap_wf h ∧ heap_ordered h
          ∧ (∀ p, in_heap h p ↔ p ∈ ps)).
Proof.
  split.
  { intros Hlt. unfold Heap.time_heap_init.
    destruct (Z.ltb_spec capacity size); [done | lia]. }
  intros Hsz Hcap Htake Hlen Hnd Hlive. unfold Heap.time_heap_init.
  destruct (Z.ltb_spec capacity size); [lia|].
  destruct (Z.ltb_spec capacity 0); [lia|].
  set (h0 := Heap.mk_heap m _ capacity size).
  destruct (Z.eqb_spec size 0) as [->|Hnz].
  { exists h0. destruct ps; [|done].
    split; [done|]. split; [done|]. split; [done|]. split; [done|]. split; [|split].
    - split; simpl; [lia | lia | by rewrite length_replicate | lia | ].
      intros i j p t t' (Hi & _)%heap_at_Some. simpl in Hi. lia.
    - intros i Hi. simpl in Hi. lia.
    - intros p. split; [|by intros ?%elem_of_nil].
      intros (i & t & (Hi & _)%heap_at_Some). simpl in Hi. lia. }
  assert (Hinit : (Z.to_nat size ≤ length init_array)%nat).
  { apply (f_equal length) in Htake.
    rewrite length_take, length_fmap in Htake. lia. }
  destruct (init_copy_spec init_array (Z.to_nat size) 0 h0)
    as (a & -> & Hla & Hin & Hout);
    [lia | simpl; lia | simpl; by rewrite length_replicate | simpl; lia |].
  mstep. simpl in Hla. rewrite length_replicate in Hla.
  set (h1 := Heap.set_array a h0).
  assert (Ha : ∀ j p, ps !! j = Some p → a !! j = Some (Some p)).
  { intros j p Hj. pose proof (lookup_lt_Some _ _ _ Hj) as Hlt.
    rewrite Hin by (simpl; lia).
    rewrite <- (lookup_take_lt init_array (Z.to_nat size)) by lia.
    rewrite Htake, list_lookup_fmap, Hj. done. }
  assert (Hat : ∀ i p t, heap_at h1 i = Some (p, t) ↔
                         0 ≤ i < size ∧ ps !! Z.to_nat i = Some p ∧ m !! p = Some t).
  { intros i p t. rewrite heap_at_Some. simpl. split.
    - intros (Hi & Hai & Hm). split; [done|]. split; [|done].
      destruct (lookup_lt_is_Some_2 ps (Z.to_nat i)) as [q Hq]; [lia|].
      rewrite (Ha _ _ Hq) in Hai. congruence.
    - intros (Hi & Hp & Hm). split; [done|]. split; [|done]. by apply Ha. }
  assert (Hwf1 : heap_wf h1).
  { split; simpl; [lia | lia | lia | |].
    - intros i Hi.
      destruct (lookup_lt_is_Some_2 ps (Z.to_nat i)) as [q Hq]; [lia|].
      destruct (Hlive q) as [t Ht]; [by eapply list_elem_of_lookup_2|].
      exists (q, t). by apply Hat.
    - intros i j p t t' (Hi & Hpi & _)%Hat (Hj & Hpj & _)%Hat.
      pose proof (NoDup_lookup _ _ _ _ Hnd Hpi Hpj). lia. }
  destruct (init_heapify_spec (Z.to_nat size) h1 ((size - 1) ÷ 2) Hwf1)
    as (h & Hrun & Hm & Hs & Hc & Hwf & Hord & Hmem).
  { intros i Hi Hlo. simpl in Hi. zlia. }
  { simpl. zlia. }
  { zlia. }
  exists h. split; [exact Hrun|]. split; [done|]. split; [done|]. split; [done|].
  split; [done|]. split; [done|].
  intros p. rewrite Hmem. split.
  - intros (i & t & (_ & Hp & _)%Hat). by eapply list_elem_of_lookup_2.
  - intros (j & Hj)%list_elem_of_lookup_1.
    destruct (Hlive p) as [t Ht]; [by eapply list_elem_of_lookup_2|].
    exists (Z.of_nat j), t. apply Hat.
    pose proof (lookup_lt_Some _ _ _ Hj). rewrite Nat2Z.id. split; [lia | done].
Qed.

(** ** The destructors *)

Lemma lst_destroy_loop_unfold (fuel : nat) (s : Lst.sort_timer_lst)
    (tmp : option nat) :
  Lst.destroy_loop fuel s tmp =
  match tmp with
  | None => Ok s
  | Some p =>
      match fuel with
      | O => NoFuel
      | S fuel' =>
          tp ← Lst.rd s (Some p);
          let s1 := Lst.set_head (Lst.next tp) s in
          s2 ← Lst.free p s1;
          Lst.destroy_loop fuel' s2 (Lst.head s2)
      end
  end.
Proof. destruct fuel; reflexivity. Qed.

Lemma lst_destroy_loop_spec (l : list nat) :
  ∀ (pv : option nat) (s : Lst.sort_timer_lst) (fuel : nat),
  NoDup l →
  dlseg Lst.next Lst.prev (Lst.mem s) pv (Lst.head s) l None →
  (length l ≤ fuel)%nat →
  ∃ s', Lst.destroy_loop fuel s (Lst.head s) = Ok s'
        ∧ (∀ p, p ∈ l → Lst.mem s' !! p = None)
        ∧ (∀ p, p ∉ l → Lst.mem s' !! p = Lst.mem s !! p).
Proof.
  induction l as [|p l IH]; intros pv s fuel Hnd Hseg Hfuel;
    rewrite lst_destroy_loop_unfold.
  - simpl in Hseg. rewrite Hseg. exists s. split; [done|].
    split; [by intros ? ?%elem_of_nil | done].
  - destruct Hseg as [Hhd (t & Hp & Hpv & Hseg)]. rewrite Hhd.
    destruct fuel as [|fuel]; [simpl in Hfuel; lia|].
    rewrite (lst_rd_Ok s p t Hp). mstep.
    rewrite (lst_free_Ok _ p t) by done. mstep. simpl.
    apply NoDup_cons in Hnd as [Hnotin Hnd].
    set (s2 := Lst.set_mem _ _).
    destruct (IH (Some p) s2 fuel Hnd) as (s' & Hrun & Hgone & Hframe).
    { unfold s2; simpl.
      apply (dlseg_frame Lst.next Lst.prev (Lst.mem s)); [|done].
      intros q tq Hq Hmq. exists tq.
      rewrite lookup_delete_ne by (intros ->; done). done. }
    { simpl in Hfuel. lia. }
    exists s'. split; [exact Hrun|]. split.
    + intros q [->|Hq]%elem_of_cons; [|by apply Hgone].
      rewrite Hframe by done. unfold s2; simpl. apply lookup_delete_eq.
    + intros q Hq. apply not_elem_of_cons in Hq as [Hne Hq].
      rewrite Hframe by done. unfold s2; simpl. by apply lookup_delete_ne.
Qed.

(** X8. The destructor of the list deletes every timer of the list and
    nothing else: it returns, the timers of the list are gone from the
    store, and every other object of the store is as before. *)
Theorem lst_destroy_frees_all (s : Lst.sort_timer_lst) (l : list nat) :
  lst_inv s l →
  ∃ m', Lst.destroy s = Ok m'
        ∧ (∀ p, p ∈ l → m' !! p = None)
        ∧ (∀ p, p ∉ l → m' !! p = Lst.mem s !! p).
Proof.
  intros Hinv. pose proof (lst_inv_length s l Hinv) as Hlen.
  destruct Hinv as [[Hnd Hseg] _].
  destruct (lst_destroy_loop_spec l None s (size (Lst.mem s)) Hnd Hseg Hlen)
    as (s' & Hrun & Hgone & Hframe).
  exists (Lst.mem s'). unfold Lst.destroy. rewrite Hrun. done.
Qed.

Lemma heap_destroy_loop_spec (n : nat) :
  ∀ (i : Z) (g : Heap.time_heap),
  0 ≤ i → i + Z.of_nat n ≤ Heap.capacity g →
  (∀ j, i ≤ j < i + Z.of_nat n →
        ∃ p t, Heap.array g !! Z.to_nat j = Some (Some p)
               ∧ Heap.mem g !! p = Some t) →
  (∀ j j' p, i ≤ j < i + Z.of_nat n → i ≤ j' < i + Z.of_nat n →
             Heap.array g !! Z.to_nat j = Some (Some p) →
             Heap.array g !! Z.to_nat j' = Some (Some p) → j = j') →
  ∃ g', Heap.destroy_loop n i g = Ok g'
        ∧ (∀ p j, i ≤ j < i + Z.of_nat n →
                  Heap.array g !! Z.to_nat j = Some (Some p) →
                  Heap.mem g' !! p = None)
        ∧ (∀ p, (∀ j, i ≤ j < i + Z.of_nat n →
                      Heap.array g !! Z.to_nat j ≠ Some (Some p)) →
                Heap.mem g' !! p = Heap.mem g !! p).
Proof.
  induction n as [|n IH]; intros i g Hi Hcap Hlive Hinj; simpl.
  - exists g. split; [done|]. split; [intros; lia | done].
  - destruct (Hlive i) as (p & t & Hai & Hmp); [lia|].
    replace (Heap.arr_get g i) with (Ok (A:=option nat) (Some p))
      by (symmetry; apply arr_get_Ok; split; [lia | done]).
    mstep. unfold Heap.free. rewrite Hmp. mstep.
    set (g1 := Heap.set_mem _ g).
    destruct (IH (i + 1) g1) as (g' & -> & Hgone & Hframe).
    + lia.
    + unfold g1; simpl. lia.
    + intros j Hj. destruct (Hlive j) as (q & tq & Haj & Hmq); [lia|].
      exists q, tq. split; [done|]. unfold g1; simpl.
      rewrite lookup_delete_ne; [done|]. intros ->.
      pose proof (Hinj i j _ ltac:(lia) ltac:(lia) Hai Haj). lia.
    + intros j j' q Hj Hj'. unfold g1; simpl. apply Hinj; lia.
    + exists g'. split; [done|]. split.
      * intros q j Hj Haj. destruct (decide (j = i)) as [->|Hne].
        -- assert (q = p) as -> by congruence.
           rewrite Hframe; [unfold g1; simpl; apply lookup_delete_eq|].
           intros j' Hj' Haj'. unfold g1 in Haj'; simpl in Haj'.
           pose proof (Hinj i j' _ ltac:(lia) ltac:(lia) Hai Haj'). lia.
        -- apply (Hgone q j); [lia | done].
      * intros q Hq. rewrite Hframe.
        -- unfold g1; simpl. apply lookup_delete_ne. intros ->.
           by apply (Hq i); [lia|].
        -- intros j Hj. unfold g1; simpl. apply Hq. lia.
Qed.

(** X9. The destructor of the heap deletes every timer of the heap,
    tombstoned or not, and nothing else: it returns, the timers at the
    occupied positions are gone from the store, and every other object of
    the store is as before. *)
Theorem heap_destroy_frees_all (h : Heap.time_heap) :
  heap_wf h →
  ∃ m', Heap.destroy h = Ok m'
        ∧ (∀ p, in_heap h p → m' !! p = None)
        ∧ (∀ p, ¬ in_heap h p → m' !! p = Heap.mem h !! p).
Proof.
  intros [Hcap Hsz Hlen Hlive Hinj].
  destruct (heap_destroy_loop_spec (Z.to_nat (Heap.cur_size h)) 0 h)
    as (g' & Hrun & Hgone & Hframe).
  - lia.
  - lia.
  - intros j Hj. destruct (Hlive j) as [[p t] Hat]; [lia|].
    apply heap_at_Some in Hat as (_ & Ha & Hm). by exists p, t.
  - intros j j' p Hj Hj' Ha Ha'.
    destruct (Hlive j) as [[q t] Hat]; [lia|].
    destruct (Hlive j') as [[q' t'] Hat']; [lia|].
    apply heap_at_Some in Hat as Hx. destruct Hx as (_ & Hb & _).
    apply heap_at_Some in Hat' as Hx. destruct Hx as (_ & Hb' & _).
    assert (q = p) as -> by congruence. assert (q' = p) as -> by congruence.
    by eapply Hinj.
  - exists (Heap.mem g'). unfold Heap.destroy. rewrite Hrun. split; [done|].
    split.
    + intros p (j & t & (Hj & Ha & _)%heap_at_Some).
      apply (Hgone p j); [lia | done].
    + intros p Hp. apply Hframe. intros j Hj Ha. apply Hp.
      destruct (Hlive j) as [[q t] Hat]; [lia|].
      exists j, t. apply heap_at_Some in Hat as Hx. destruct Hx as (_ & Hb & _).
      assert (q = p) as -> by congruence. done.
Qed.

Lemma wheel_destroy_slot_unfold (fuel : nat) (w : Wheel.time_wheel) (i : Z)
    (tmp : option nat) :
  Wheel.destroy_slot fuel w i tmp =
  match tmp with
  | None => Ok w
  | Some p =>
      match fuel with
      | O => NoFuel
      | S fuel' =>
          tp ← Wheel.rd w (Some p);
          w1 ← Wheel.slot_set i (Wheel.next tp) w;
          w2 ← Wheel.free p w1;
          hd ← Wheel.slot_get w2 i;
          Wheel.destroy_slot fuel' w2 i hd
      end
  end.
Proof. destruct fuel; reflexivity. Qed.

Lemma wheel_destroy_slot_spec (i : Z) (l : list nat) :
  ∀ (pv hd : option nat) (w : Wheel.time_wheel) (fuel : nat),
  0 ≤ i < Wheel.N →
  length (Wheel.slots w) = Z.to_nat Wheel.N →
  Wheel.slots w !! Z.to_nat i = Some hd →
  NoDup l →
  dlseg Wheel.next Wheel.prev (Wheel.mem w) pv hd l None →
  (length l ≤ fuel)%nat →
  ∃ w', Wheel.destroy_slot fuel w i hd = Ok w'
        ∧ Wheel.cur_slot w' = Wheel.cur_slot w
        ∧ Wheel.slots w' = <[Z.to_nat i := None]> (Wheel.slots w)
        ∧ (∀ p, p ∈ l → Wheel.mem w' !! p = None)
        ∧ (∀ p, p ∉ l → Wheel.mem w' !! p = Wheel.mem w !! p).
Proof.
  induction l as [|p l IH]; intros pv hd w fuel Hi Hlen Hhd Hnd Hseg Hfuel;
    rewrite wheel_destroy_slot_unfold.
  - simpl in Hseg. subst hd. exists w. split; [done|]. split; [done|].
    split; [by rewrite list_insert_id|].
    split; [by intros ? ?%elem_of_nil | done].
  - destruct Hseg as [-> (t & Hp & Hpv & Hseg)].
    destruct fuel as [|fuel]; [simpl in Hfuel; lia|].
    rewrite (wheel_rd_Ok w p t Hp). mstep.
    rewrite (wheel_slot_set_Ok w i _ Hi Hlen). mstep.
    rewrite (wheel_free_Ok _ p t) by done. mstep.
    set (w2 := Wheel.set_mem _ _).
    assert (Hhd2 : Wheel.slots w2 !! Z.to_nat i = Some (Wheel.next t)).
    { unfold w2; simpl. apply list_lookup_insert_eq. unfold Wheel.N in *. lia. }
    rewrite (wheel_slot_get_Ok w2 i _ Hi Hhd2). mstep.
    apply NoDup_cons in Hnd as [Hnotin Hnd].
    destruct (IH (Some p) (Wheel.next t) w2 fuel Hi) as (w' & Hrun & Hc & Hs & Hgone & Hframe).
    { unfold w2; simpl. by rewrite length_insert. }
    { done. }
    { done. }
    { unfold w2; simpl.
      apply (dlseg_frame Wheel.next Wheel.prev (Wheel.mem w)); [|done].
      intros q tq Hq Hmq. exists tq.
      rewrite lookup_delete_ne by (intros ->; done). done. }
    { simpl in Hfuel. lia. }
    exists w'. split; [exact Hrun|]. split; [by rewrite Hc|].
    split; [rewrite Hs; unfold w2; simpl; apply list_insert_insert_eq|].
    split.
    + intros q [->|Hq]%elem_of_cons; [|by apply Hgone].
      rewrite Hframe by done. unfold w2; simpl. apply lookup_delete_eq.
    + intros q Hq. apply not_elem_of_cons in Hq as [Hne Hq].
      rewrite Hframe by done. unfold w2; simpl. by apply lookup_delete_ne.
Qed.

Lemma wheel_destroy_slots_spec (n : nat) :
  ∀ (i : nat) (w : Wheel.time_wheel) (ls : list (list nat)),
  wheel_inv w ls → (i + n ≤ Z.to_nat Wheel.N)%nat →
  ∃ w', Wheel.destroy_slots n (Z.of_nat i) w = Ok w'
        ∧ (∀ p j l, (i ≤ j < i + n)%nat → ls !! j = Some l → p ∈ l →
                    Wheel.mem w' !! p = None)
        ∧ (∀ p, (∀ j l, (i ≤ j < i + n)%nat → ls !! j = Some l → p ∉ l) →
                Wheel.mem w' !! p = Wheel.mem w !! p).
Proof.
  induction n as [|n IH]; intros i w ls Hinv Hn; simpl.
  - exists w. split; [done|]. split; [intros; lia | done].
  - pose proof Hinv as (Hcur & Hlen & Hall & Hnd & Hts).
    destruct (wheel_inv_slot w ls i Hinv) as (hd & l & Hhd & Hl & Hndl & Hseg); [lia|].
    assert (Hi : 0 ≤ Z.of_nat i < Wheel.N) by (unfold Wheel.N in *; lia).
    rewrite <- (Nat2Z.id i) in Hhd.
    rewrite (wheel_slot_get_Ok w _ _ Hi Hhd). mstep.
    destruct (wheel_destroy_slot_spec (Z.of_nat i) l None hd w (size (Wheel.mem w)))
      as (w1 & -> & Hc1 & Hs1 & Hgone1 & Hframe1); try done.
    { apply NoDup_length_le_size; [done|]. intros p Hp. by eapply dlseg_lookup. }
    mstep. rewrite Nat2Z.id in Hs1.
    destruct (wheel_inv_update w w1 ls i l [] Hinv Hl) as [Hinv1 _].
    { apply sublist_nil_l. }
    { done. }
    { done. }
    { done. }
    { done. }
    { by intros p t' ?%elem_of_nil. }
    replace (Z.of_nat i + 1) with (Z.of_nat (S i)) by lia.
    destruct (IH (S i) w1 _ Hinv1) as (w' & -> & Hgone & Hframe); [lia|].
    exists w'. split; [done|].
    assert (Hls1 : ∀ j, j ≠ i → <[i := []]> ls !! j = ls !! j).
    { intros j Hj. by apply list_lookup_insert_ne. }
    split.
    + intros p j lj Hj Hlj Hp. destruct (decide (j = i)) as [->|Hne].
      * assert (lj = l) as -> by congruence.
        rewrite Hframe; [by apply Hgone1|].
        intros j' l' Hj' Hl' Hp'. rewrite Hls1 in Hl' by lia.
        pose proof (join_NoDup_disjoint ls i j' l l' p Hnd Hl Hl' Hp Hp'). lia.
      * apply (Hgone p j lj); [lia | by rewrite Hls1 | done].
    + intros p Hp. rewrite Hframe.
      * apply Hframe1. apply (Hp i l); [lia | done].
      * intros j lj Hj Hlj. rewrite Hls1 in Hlj by lia. apply (Hp j lj); [lia | done].
Qed.

(** X10. The destructor of the wheel deletes every timer of every slot
    and nothing else: it returns, the timers of the wheel are gone from
    the store, and every other object of the store is as before. *)
Theorem wheel_destroy_frees_all (w : Wheel.time_wheel) (ls : list (list nat)) :
  wheel_inv w ls →
  ∃ m', Wheel.destroy w = Ok m'
        ∧ (∀ p, p ∈ mjoin ls → m' !! p = None)
        ∧ (∀ p, p ∉ mjoin ls → m' !! p = Wheel.mem w !! p).
Proof.
  intros Hinv. pose proof Hinv as (_ & Hlen & Hall & _).
  assert (Hlen' : length ls = Z.to_nat Wheel.N).
  { by rewrite <- (Forall2_length _ _ _ Hall). }
  destruct (wheel_destroy_slots_spec (Z.to_nat Wheel.N) 0 w ls Hinv)
    as (w' & Hrun & Hgone & Hframe); [lia|].
  exists (Wheel.mem w'). unfold Wheel.destroy.
  change 0 with (Z.of_nat 0). rewrite Hrun. split; [done|]. split.
  - intros p (j & l & Hl & Hp)%elem_of_join_lookup.
    apply (Hgone p j l); [|done..].
    pose proof (lookup_lt_Some _ _ _ Hl). lia.
  - intros p Hp. apply Hframe. intros j l _ Hl Hpl. apply Hp.
    apply elem_of_join_lookup. eauto.
Qed.

(** ** The list: [tick] touches the timers of the list only *)

Lemma lst_tick_step_frame (s s2 s3 : Lst.sort_timer_lst) (p : nat)
    (l : list nat) (tp : Lst.util_timer) :
  lst_inv s (p :: l) → Lst.mem s !! p = Some tp →
  (let s1 := Lst.set_head (Lst.next tp) s in
   match Lst.head s1 with
   | Some _ => Lst.wr (Lst.with_prev None) (Lst.head s1) s1
   | None => Ok s1
   end) = Ok s2 →
  Lst.free p s2 = Ok s3 →
  ∀ q, q ∉ p :: l → Lst.mem s3 !! q = Lst.mem s !! q.
Proof.
  intros [[Hnd Hseg] _] Hp Hs2 Hs3 q Hq.
  apply not_elem_of_cons in Hq as [Hqp Hql].
  assert (Hm2 : ∀ r, r ∉ l → Lst.mem s2 !! r = Lst.mem s !! r).
  { intros r Hr. simpl in Hs2. destruct (Lst.next tp) as [b|] eqn:Hnext.
    - destruct Hseg as [_ (tp' & Hp' & _ & Hseg)].
      assert (tp' = tp) as -> by congruence. rewrite Hnext in Hseg.
      destruct l as [|b' l]; [done|]. destruct Hseg as [[= <-] (tb & Hb & _)].
      apply not_elem_of_cons in Hr as [Hrb _].
      unfold Lst.wr in Hs2. simpl in Hs2. rewrite Hb in Hs2.
      injection Hs2 as <-. simpl. by rewrite lookup_insert_ne.
    - by injection Hs2 as <-. }
  unfold Lst.free in Hs3. destruct (Lst.mem s2 !! p); [|done].
  injection Hs3 as <-. simpl. rewrite lookup_delete_ne by done. by apply Hm2.
Qed.

Lemma lst_tick_loop_frame (cur : Z) (l : list nat) :
  ∀ (fuel : nat) (s s' : Lst.sort_timer_lst) (log log' : list fired),
  lst_inv s l →
  Lst.tick_loop fuel s cur (Lst.head s) log = Ok (log', s') →
  ∀ q, q ∉ l → Lst.mem s' !! q = Lst.mem s !! q.
Proof.
  induction l as [|p l IH]; intros fuel s s' log log' Hinv;
    rewrite lst_tick_loop_unfold; rewrite (lst_inv_head _ _ Hinv); simpl.
  - by intros [= _ <-].
  - destruct fuel as [|fuel]; [done|].
    pose proof Hinv as [[Hnd Hseg] _].
    destruct (dlseg_at _ _ _ _ _ _ [] _ _ Hseg) as (tp & Hp & _ & _).
    rewrite (lst_rd_Ok _ _ _ Hp). mstep.
    destruct (cur <? Lst.expire tp); [by intros [= _ <-]|].
    destruct (Lst.cb_func tp) as [cb|]; [|done]. unfold invoke. mstep.
    destruct (lst_tick_step s p l tp Hinv Hp)
      as (s2 & s3 & Hstep & Hfree & Hinv3 & _).
    pose proof (lst_tick_step_frame s s2 s3 p l tp Hinv Hp Hstep Hfree) as Hfr.
    simpl in Hstep. rewrite Hstep. mstep. rewrite Hfree. mstep.
    intros Hrun q Hq.
    rewrite (IH _ _ _ _ _ Hinv3 Hrun q) by (by apply not_elem_of_cons in Hq as [_ ?]).
    by apply Hfr.
Qed.

Lemma lst_tick_frame (cur : Z) (s s' : Lst.sort_timer_lst) (l : list nat)
    (log : list fired) :
  lst_inv s l → Lst.tick s cur = Ok (log, s') →
  ∀ q, q ∉ l → Lst.mem s' !! q = Lst.mem s !! q.
Proof.
  intros Hinv. unfold Lst.tick. destruct (Lst.head s) as [h|] eqn:Hh.
  - rewrite <- Hh. by apply lst_tick_loop_frame.
  - by intros [= _ <-].
Qed.

Lemma lst_wr_tail (f : Lst.util_timer → Lst.util_timer) (p : option nat)
    (s s' : Lst.sort_timer_lst) :
  Lst.wr f p s = Ok s' → Lst.tail s' = Lst.tail s.
Proof.
  unfold Lst.wr. destruct p as [a|]; [|done].
  destruct (Lst.mem s !! a); [|done]. by intros [= <-].
Qed.

Lemma lst_free_tail (a : nat) (s s' : Lst.sort_timer_lst) :
  Lst.free a s = Ok s' → Lst.tail s' = Lst.tail s.
Proof.
  unfold Lst.free. destruct (Lst.mem s !! a); [|done]. by intros [= <-].
Qed.

(** [tick] assigns [head] and fields of timers, never [tail]. *)
Lemma lst_tick_loop_tail (cur : Z) (fuel : nat) :
  ∀ (s s' : Lst.sort_timer_lst) (tmp : option nat) (log log' : list fired),
  Lst.tick_loop fuel s cur tmp log = Ok (log', s') → Lst.tail s' = Lst.tail s.
Proof.
  induction fuel as [|fuel IH]; intros s s' tmp log log';
    rewrite lst_tick_loop_unfold.
  - destruct tmp; [done | by intros [= _ <-]].
  - destruct tmp as [p|]; [|by intros [= _ <-]].
    destruct (Lst.rd s (Some p)) as [tp| | |]; [|done..]. mstep.
    destruct (cur <? Lst.expire tp); [by intros [= _ <-]|].
    destruct (invoke _ _ _ _) as [log1| | |]; [|done..]. mstep. cbv zeta.
    match goal with |- mbind _ ?e = _ → _ =>
      destruct e as [s2| | |] eqn:H2; [|done..] end.
    mstep.
    destruct (Lst.free p s2) as [s3| | |] eqn:H3; [|done..]. mstep.
    intros Hrun. rewrite (IH _ _ _ _ _ Hrun), (lst_free_tail _ _ _ H3).
    destruct (Lst.head _); [by apply lst_wr_tail in H2 | by injection H2 as <-].
Qed.

Lemma lst_tick_tail (cur : Z) (s s' : Lst.sort_timer_lst) (log : list fired) :
  Lst.tick s cur = Ok (log, s') → Lst.tail s' = Lst.tail s.
Proof.
  unfold Lst.tick. destruct (Lst.head s); [|by intros [= _ <-]].
  apply lst_tick_loop_tail.
Qed.

(** ** The list: what the operations give a caller *)

(** X11. [add_timer] of a fresh timer puts it behind every timer that
    expires no later than it and in front of the first timer that expires
    later, among the timers it walks over; timers with equal expiry
    therefore stay in the order they were added.  The list order of the
    other timers and what every timer carries are unchanged. *)
Theorem lst_add_timer_position (s : Lst.sort_timer_lst) (l : list nat) (t : nat)
    (tm : Lst.util_timer) :
  lst_inv s l → t ∉ l →
  Lst.mem s !! t = Some tm → Lst.prev tm = None → Lst.next tm = None →
  ∃ s' la lb,
    l = la ++ lb
    ∧ Lst.add_timer s (Some t) = Ok s'
    ∧ lst_inv s' (la ++ t :: lb)
    ∧ Forall (λ q, lst_expire s q ≤ Lst.expire tm) la
    ∧ (∀ b, head lb = Some b → Lst.expire tm < lst_expire s b)
    ∧ (∀ q, lst_data <$> Lst.mem s' !! q = lst_data <$> Lst.mem s !! q).
Proof. apply lst_add_timer_spec. Qed.

(** X12. [del_timer] of a timer of the list unlinks and deletes that
    timer only: the others keep their order and what they carry. *)
Theorem lst_del_timer_removes_only_target (s : Lst.sort_timer_lst)
    (l1 l2 : list nat) (t : nat) :
  lst_inv s (l1 ++ t :: l2) →
  ∃ s', Lst.del_timer s (Some t) = Ok s'
        ∧ lst_inv s' (l1 ++ l2)
        ∧ Lst.mem s' !! t = None
        ∧ (∀ q, q ≠ t → lst_data <$> Lst.mem s' !! q = lst_data <$> Lst.mem s !! q).
Proof. apply lst_del_timer_spec. Qed.

(** X13. [add_timer] followed by [del_timer] of the same timer gives
    back the list as it was: the same timers in the same order, carrying
    the same data, and the added timer is deleted. *)
Theorem lst_add_then_del_restores (s : Lst.sort_timer_lst) (l : list nat)
    (t : nat) (tm : Lst.util_timer) :
  lst_inv s l → t ∉ l →
  Lst.mem s !! t = Some tm → Lst.prev tm = None → Lst.next tm = None →
  ∃ s1 s2,
    Lst.add_timer s (Some t) = Ok s1
    ∧ Lst.del_timer s1 (Some t) = Ok s2
    ∧ lst_inv s2 l
    ∧ Lst.mem s2 !! t = None
    ∧ (∀ q, q ≠ t → lst_data <$> Lst.mem s2 !! q = lst_data <$> Lst.mem s !! q).
Proof.
  intros Hinv Hnotin Htm Hprev Hnext.
  destruct (lst_add_timer_spec s l t tm Hinv Hnotin Htm Hprev Hnext)
    as (s1 & la & lb & -> & Hadd & Hinv1 & _ & _ & Hdata1).
  destruct (lst_del_timer_spec s1 la lb t Hinv1)
    as (s2 & Hdel & Hinv2 & Hgone & Hdata2).
  exists s1, s2. split; [done|]. split; [done|]. split; [done|]. split; [done|].
  intros q Hq. by rewrite Hdata2, Hdata1.
Qed.

(** X14. Whatever the order of the list, [tick] walks it from the head
    and stops at the first timer that has not expired: it invokes the
    callbacks of the expired timers in front of that one, in list order,
    deletes them, and leaves the rest of the list as it is, even if
    expired timers stand further back.  Objects of the store that are not
    in the list are not touched. *)
Theorem lst_tick_fires_expired_prefix (cur : Z) (s : Lst.sort_timer_lst)
    (l : list nat) :
  lst_inv s l → lst_callbacks s l →
  ∃ log s' l1 l2,
    l = l1 ++ l2
    ∧ Lst.tick s cur = Ok (log, s')
    ∧ lst_inv s' l2
    ∧ Forall (λ p, lst_expire s p ≤ cur) l1
    ∧ (∀ b, head l2 = Some b → cur < lst_expire s b)
    ∧ fired_timers log = l1
    ∧ Forall2 (lst_fires s) l1 log
    ∧ (∀ p, p ∈ l1 → Lst.mem s' !! p = None)
    ∧ (∀ q, q ∉ l1 → lst_data <$> Lst.mem s' !! q = lst_data <$> Lst.mem s !! q)
    ∧ (∀ q, q ∉ l → Lst.mem s' !! q = Lst.mem s !! q).
Proof.
  intros Hinv Hcb.
  destruct (lst_tick_spec cur s l Hinv Hcb)
    as (log & s' & l1 & l2 & Hl & Hrun & Hinv' & Hexp & Hstop & Hfire & Hgone & Hdata).
  exists log, s', l1, l2. repeat (split; [done|]).
  split; [by apply (lst_fires_timers s)|]. repeat (split; [done|]).
  by apply (lst_tick_frame cur s s' l log).
Qed.

(** X15. [adjust_timer] moves a timer only towards the tail: the timers
    in front of it stay in front, the relative order of all the others is
    kept, what every timer carries is unchanged, and the timer comes to
    rest in front of the first timer behind it that expires later. *)
Theorem lst_adjust_timer_moves_back (s : Lst.sort_timer_lst) (l1 l2 : list nat)
    (t : nat) (tm : Lst.util_timer) :
  lst_inv s (l1 ++ t :: l2) → Lst.mem s !! t = Some tm →
  ∃ s' l2a l2b,
    l2 = l2a ++ l2b
    ∧ Lst.adjust_timer s (Some t) = Ok s'
    ∧ lst_inv s' (l1 ++ l2a ++ t :: l2b)
    ∧ (∀ q, lst_data <$> Lst.mem s' !! q = lst_data <$> Lst.mem s !! q)
    ∧ Forall (λ q, lst_expire s q ≤ Lst.expire tm) l2a
    ∧ (∀ c, head l2b = Some c → Lst.expire tm < lst_expire s c).
Proof.
  intros Hinv Htm.
  destruct (lst_adjust_timer_spec s l1 l2 t tm Hinv Htm)
    as (s' & l' & Hrun & Hinv' & Hdata & [[-> Hstay]|Hmove]).
  - exists s', [], l2. split; [done|]. split; [done|]. split; [done|].
    split; [done|]. split; [constructor | done].
  - destruct Hmove as (b & l2a & l2b & -> & Hb & -> & Hall & Hnext).
    exists s', (b :: l2a), l2b. split; [done|]. split; [done|].
    split; [done|]. split; [done|]. split; [by constructor | done].
Qed.

(** X16. After a [tick] at time [cur], a further [tick] at a time that
    is not later invokes nothing and leaves the list as it is. *)
Theorem lst_tick_again_is_idle (cur cur' : Z) (s : Lst.sort_timer_lst)
    (l : list nat) :
  lst_inv s l → lst_callbacks s l → cur' ≤ cur →
  ∃ log s', Lst.tick s cur = Ok (log, s') ∧ Lst.tick s' cur' = Ok ([], s').
Proof.
  intros Hinv Hcb Hle.
  destruct (lst_tick_spec cur s l Hinv Hcb)
    as (log & s' & l1 & l2 & Hl & Hrun & Hinv' & _ & Hstop & _ & _ & Hdata).
  exists log, s'. split; [done|].
  unfold Lst.tick. rewrite (lst_inv_head s' l2 Hinv').
  destruct l2 as [|b l2]; [done|]. cbn [head].
  rewrite lst_tick_loop_unfold.
  destruct Hinv' as [[Hnd' [_ (tb & Hb & _)]] _].
  rewrite (lst_rd_Ok s' b tb Hb). mstep.
  assert (Hnotin : b ∉ l1).
  { destruct Hinv as [[Hnd _] _]. subst l.
    apply NoDup_app in Hnd as (_ & Hdisj & _). intros Hin.
    apply (Hdisj b Hin). by left. }
  assert (lst_expire s' b = lst_expire s b) as Hexp
    by (apply lst_expire_data; by apply Hdata).
  rewrite (lst_expire_at s' b tb Hb) in Hexp.
  specialize (Hstop b eq_refl).
  destruct (Z.ltb_spec cur' (Lst.expire tb)); [done | lia].
Qed.

(** X24. A [tick] at a time that is not earlier than any expiry in the
    list invokes every timer, deletes them all and leaves [head] null;
    [tail] is not reset, and still [add_timer] of a new timer then gives
    the list of that timer alone, with [head] and [tail] pointing to it. *)
Theorem lst_tick_drains_then_add (cur : Z) (s : Lst.sort_timer_lst)
    (l : list nat) (t : nat) (tm : Lst.util_timer) :
  lst_inv s l → lst_callbacks s l →
  (∀ p, p ∈ l → lst_expire s p ≤ cur) →
  t ∉ l → Lst.mem s !! t = Some tm →
  Lst.prev tm = None → Lst.next tm = None →
  ∃ log s' s'',
    Lst.tick s cur = Ok (log, s')
    ∧ fired_timers log = l
    ∧ Lst.head s' = None
    ∧ Lst.tail s' = Lst.tail s
    ∧ (∀ p, p ∈ l → Lst.mem s' !! p = None)
    ∧ Lst.add_timer s' (Some t) = Ok s''
    ∧ lst_inv s'' [t]
    ∧ Lst.head s'' = Some t ∧ Lst.tail s'' = Some t.
Proof.
  intros Hinv Hcb Hall Hnotin Htm Hprev Hnext.
  destruct (lst_tick_spec cur s l Hinv Hcb)
    as (log & s' & l1 & l2 & Hl & Hrun & Hinv' & _ & Hstop & Hfire & Hgone & _).
  assert (l2 = []) as ->.
  { destruct l2 as [|b l2]; [done|]. specialize (Hstop b eq_refl).
    assert (lst_expire s b ≤ cur); [|lia].
    apply Hall. subst l. apply elem_of_app. right. by left. }
  rewrite app_nil_r in Hl. subst l1.
  pose proof (lst_tick_frame cur s s' l log Hinv Hrun t Hnotin) as Hfr.
  rewrite Htm in Hfr.
  destruct (lst_add_timer_spec s' [] t tm Hinv' (not_elem_of_nil t) Hfr Hprev Hnext)
    as (s'' & la & lb & Hlab & Hadd & Hinv'' & _).
  symmetry in Hlab. apply app_eq_nil in Hlab as [-> ->].
  exists log, s', s''. split; [done|].
  split; [by apply (lst_fires_timers s)|].
  pose proof (lst_inv_head s' [] Hinv') as Hhd. simpl in Hhd.
  split; [done|].
  split; [by apply (lst_tick_tail cur s s' log)|].
  split; [done|]. split; [done|]. split; [done|].
  unfold Lst.add_timer in Hadd. rewrite Hhd in Hadd. by injection Hadd as <-.
Qed.

(** ** Preconditions the containers do not check *)

(** X25. The list's and the wheel's [tick] call [cb_func] without
    testing it: when the first timer they reach is due and has no
    callback, the call goes through a null function pointer.  (The heap's
    [tick] tests [cb_func] first.) *)
Theorem tick_without_callback_faults :
  (∀ s p l tp cur,
     lst_inv s (p :: l) → Lst.mem s !! p = Some tp →
     Lst.expire tp ≤ cur → Lst.cb_func tp = None →
     Lst.tick s cur = Fault)
  ∧ (∀ w ls p l tp,
       wheel_inv w ls →
       ls !! Z.to_nat (Wheel.cur_slot w) = Some (p :: l) →
       Wheel.mem w !! p = Some tp →
       Wheel.rotation tp ≤ 0 → Wheel.cb_func tp = None →
       Wheel.tick w = Fault).
Proof.
  split.
  - intros s p l tp cur Hinv Hp Hdue Hcb.
    unfold Lst.tick. rewrite (lst_inv_head s _ Hinv). cbn [head].
    rewrite lst_tick_loop_unfold, (lst_rd_Ok s p tp Hp). mstep.
    destruct (Z.ltb_spec cur (Lst.expire tp)); [lia|].
    by rewrite Hcb.
  - intros w ls p l tp Hinv Hl Hp Hrot Hcb.
    pose proof Hinv as (Hcur & _).
    destruct (wheel_inv_slot w ls (Z.to_nat (Wheel.cur_slot w)) Hinv)
      as (hd & l' & Hhd & Hl' & _ & Hseg); [lia|].
    assert (l' = p :: l) as -> by congruence.
    destruct Hseg as [-> _].
    unfold Wheel.tick. rewrite (wheel_slot_get_Ok w _ _ Hcur Hhd). mstep.
    rewrite wheel_tick_loop_unfold, (wheel_rd_Ok w p tp Hp). mstep.
    destruct (Z.gtb_spec (Wheel.rotation tp) 0); [lia|].
    by rewrite Hcb.
Qed.

(** X26. None of the containers keeps track of the handles it gave
    out: once a timer has been deleted (by [tick] or by [del_timer]),
    passing its old pointer to [del_timer], or to the list's
    [adjust_timer], reads the deleted object. *)
Theorem stale_handle_faults :
  (∀ s l t, lst_inv s l → Lst.mem s !! t = None →
            Lst.del_timer s (Some t) = Fault
            ∧ Lst.adjust_timer s (Some t) = Fault)
  ∧ (∀ h t, Heap.mem h !! t = None → Heap.del_timer h (Some t) = Fault)
  ∧ (∀ w t, Wheel.mem w !! t = None → Wheel.del_timer w (Some t) = Fault).
Proof.
  split; [|split].
  - intros s l t Hinv Ht.
    assert (Hrd : Lst.rd s (Some t) = Fault) by (unfold Lst.rd; by rewrite Ht).
    split; [|unfold Lst.adjust_timer; by rewrite Hrd].
    assert (Hhd : Some t ≠ Lst.head s).
    { rewrite (lst_inv_head s l Hinv). destruct l as [|a l]; [done|].
      intros [= <-]. destruct Hinv as [[_ [_ (ta & Ha & _)]] _]. congruence. }
    unfold Lst.del_timer.
    rewrite decide_False by tauto. rewrite decide_False by done.
    case_decide as Htl; [|by rewrite Hrd].
    rewrite <- Htl, Hrd. done.
  - intros h t Ht. unfold Heap.del_timer. by rewrite Ht.
  - intros w t Ht. unfold Wheel.del_timer, Wheel.rd. by rewrite Ht.
Qed.

(** ** The wheel: what the operations give a caller *)

Lemma wheel_slot_set_cur (i : Z) (p : option nat) (w w' : Wheel.time_wheel) :
  Wheel.slot_set i p w = Ok w' → Wheel.cur_slot w' = Wheel.cur_slot w.
Proof. unfold Wheel.slot_set. repeat case_decide; [|done..]. by intros [= <-]. Qed.

Lemma wheel_wr_cur (f : Wheel.tw_timer → Wheel.tw_timer) (p : option nat)
    (w w' : Wheel.time_wheel) :
  Wheel.wr f p w = Ok w' → Wheel.cur_slot w' = Wheel.cur_slot w.
Proof.
  unfold Wheel.wr. destruct p as [a|]; [|done].
  destruct (Wheel.mem w !! a); [|done]. by intros [= <-].
Qed.

Lemma wheel_add_timer_cur_slot (w w' : Wheel.time_wheel) (timeout : Z)
    (p : option nat) :
  Wheel.add_timer w timeout = Ok (p, w') → Wheel.cur_slot w' = Wheel.cur_slot w.
Proof.
  unfold Wheel.add_timer. destruct (timeout <? 0); [by intros [= _ <-]|].
  cbv zeta.
  destruct (Wheel.slot_get _ _) as [hd| | |]; [|done..]. mstep.
  destruct hd as [a|].
  - destruct (Wheel.wr _ _ _) as [w1| | |] eqn:H1; [|done..]. mstep.
    destruct (Wheel.slot_get w1 _) as [hd1| | |]; [|done..]. mstep.
    destruct (Wheel.wr _ hd1 w1) as [w2| | |] eqn:H2; [|done..]. mstep.
    destruct (Wheel.slot_set _ _ w2) as [w3| | |] eqn:H3; [|done..]. mstep.
    intros [= _ <-]. apply wheel_slot_set_cur in H3.
    apply wheel_wr_cur in H2. apply wheel_wr_cur in H1. simpl in *. congruence.
  - destruct (Wheel.slot_set _ _ _) as [w1| | |] eqn:H1; [|done..]. mstep.
    intros [= _ <-]. by apply wheel_slot_set_cur in H1.
Qed.

(** X17. Where the slot [add_timer] computes lies inside the wheel, it
    returns a new timer linked in as the head of that slot's list, with
    the rotation count [ticks / N] and that slot number; [cur_slot] is
    unchanged and the other timers keep their slots, their order and what
    they carry. *)
Theorem wheel_add_timer_places (w : Wheel.time_wheel) (ls : list (list nat))
    (timeout : Z) :
  wheel_inv w ls → 0 ≤ timeout →
  Wheel.add_timer_ts (Wheel.cur_slot w) timeout < Wheel.N →
  ∃ p w' l,
    Wheel.add_timer w timeout = Ok (Some p, w')
    ∧ Wheel.mem w !! p = None
    ∧ ls !! Z.to_nat (Wheel.add_timer_ts (Wheel.cur_slot w) timeout) = Some l
    ∧ wheel_inv w'
        (<[Z.to_nat (Wheel.add_timer_ts (Wheel.cur_slot w) timeout) := p :: l]> ls)
    ∧ Wheel.cur_slot w' = Wheel.cur_slot w
    ∧ (∃ tp, Wheel.mem w' !! p = Some tp
             ∧ Wheel.rotation tp = Wheel.add_timer_rotation timeout
             ∧ Wheel.time_slot tp = Wheel.add_timer_ts (Wheel.cur_slot w) timeout)
    ∧ (∀ q, q ≠ p →
         wheel_payload <$> Wheel.mem w' !! q = wheel_payload <$> Wheel.mem w !! q).
Proof.
  intros Hinv Hto Hts.
  destruct (wheel_add_timer_spec w ls timeout Hinv Hto Hts)
    as (p & w' & l & Hrun & Hfresh & Hl & Hinv' & (tp & Hp & Hrot & Hslot & _) & Hpay).
  exists p, w', l. repeat (split; [done|]).
  split; [by apply (wheel_add_timer_cur_slot w w' timeout (Some p))|].
  split; [|done]. by exists tp.
Qed.

(** X18. [del_timer] of a timer of the wheel unlinks it from its slot's
    list and deletes it; the wheel is well formed again, the other timers
    of the slot keep their order, and the other slots are as before. *)
Theorem wheel_del_timer_unlinks (w : Wheel.time_wheel) (ls : list (list nat))
    (i : nat) (l1 l2 : list nat) (t : nat) :
  wheel_inv w ls → ls !! i = Some (l1 ++ t :: l2) →
  ∃ w', Wheel.del_timer w (Some t) = Ok w'
        ∧ wheel_inv w' (<[i := l1 ++ l2]> ls)
        ∧ (wheel_callbacks w ls → wheel_callbacks w' (<[i := l1 ++ l2]> ls))
        ∧ Wheel.mem w' !! t = None
        ∧ t ∉ mjoin (<[i := l1 ++ l2]> ls).
Proof. intros Hinv Hl. by apply wheel_del_timer_spec. Qed.

(** X19. [add_timer] followed by [del_timer] of the timer it returned
    gives back the wheel's lists as they were, and the timer is deleted. *)
Theorem wheel_add_then_del_restores (w : Wheel.time_wheel)
    (ls : list (list nat)) (timeout : Z) :
  wheel_inv w ls → 0 ≤ timeout →
  Wheel.add_timer_ts (Wheel.cur_slot w) timeout < Wheel.N →
  ∃ p w1 w2,
    Wheel.add_timer w timeout = Ok (Some p, w1)
    ∧ Wheel.del_timer w1 (Some p) = Ok w2
    ∧ wheel_inv w2 ls
    ∧ Wheel.mem w2 !! p = None.
Proof.
  intros Hinv Hto Hts.
  destruct (wheel_add_timer_spec w ls timeout Hinv Hto Hts)
    as (p & w1 & l & Hrun & Hfresh & Hl & Hinv1 & _).
  set (i := Z.to_nat (Wheel.add_timer_ts (Wheel.cur_slot w) timeout)) in *.
  destruct (wheel_del_timer_spec w1 (<[i := p :: l]> ls) i [] l p Hinv1)
    as (w2 & Hdel & Hinv2 & _ & Hgone & _).
  { apply list_lookup_insert_eq. by eapply lookup_lt_Some. }
  exists p, w1, w2. split; [done|]. split; [done|]. split; [|done].
  simpl in Hinv2. by rewrite list_insert_insert_eq, list_insert_id in Hinv2.
Qed.

(** ** The wheel: when a timer fires *)

Lemma times_fired_none (p : nat) (log : list fired) :
  p ∉ fired_timers log → times_fired p log = 0%nat.
Proof.
  unfold times_fired, fired_timers. induction log as [|e log IH]; [done|].
  rewrite fmap_cons, not_elem_of_cons. intros [Hne Hnotin].
  rewrite filter_cons_False by (simpl; congruence). by apply IH.
Qed.

Lemma times_fired_once (p : nat) (log : list fired) :
  NoDup (fired_timers log) → p ∈ fired_timers log → times_fired p log = 1%nat.
Proof.
  unfold fired_timers. induction log as [|e log IH]; [by intros _ ?%elem_of_nil|].
  rewrite fmap_cons, NoDup_cons, elem_of_cons. intros [Hnotin Hnd] [->|Hin].
  - unfold times_fired. rewrite filter_cons_True by done. simpl.
    f_equal. by apply times_fired_none.
  - unfold times_fired. rewrite filter_cons_False; [by apply IH|].
    simpl. intros Heq. by rewrite Heq in Hnotin.
Qed.

Lemma wheel_inv_time_slot (w : Wheel.time_wheel) (ls : list (list nat))
    (p : nat) (t : Wheel.tw_timer) :
  wheel_inv w ls → p ∈ mjoin ls → Wheel.mem w !! p = Some t →
  ∃ l, ls !! Z.to_nat (Wheel.time_slot t) = Some l ∧ p ∈ l
       ∧ 0 ≤ Wheel.time_slot t < Wheel.N.
Proof.
  intros (_ & Hlen & Hall & _ & Hts) (i & l & Hl & Hp)%elem_of_join_lookup Hm.
  rewrite (Hts i l p t Hl Hp Hm), Nat2Z.id. exists l. split; [done|]. split; [done|].
  pose proof (lookup_lt_Some _ _ _ Hl) as Hlt.
  rewrite <- (Forall2_length _ _ _ Hall), Hlen in Hlt. lia.
Qed.

(** A [tick] that does not find the timer due brings it one call nearer. *)
Lemma wheel_tick_waits (w : Wheel.time_wheel) (ls : list (list nat)) (p : nat)
    (t : Wheel.tw_timer) :
  wheel_inv w ls → wheel_callbacks w ls →
  p ∈ mjoin ls → Wheel.mem w !! p = Some t →
  0 ≤ Wheel.rotation t → 0 < wheel_wait w t →
  ∃ log w' ls' t',
    Wheel.tick w = Ok (log, w')
    ∧ wheel_inv w' ls' ∧ wheel_callbacks w' ls'
    ∧ p ∈ mjoin ls' ∧ Wheel.mem w' !! p = Some t'
    ∧ 0 ≤ Wheel.rotation t' ∧ wheel_data t' = wheel_data t
    ∧ wheel_wait w' t' = wheel_wait w t - 1
    ∧ (p ∉ fired_timers log).
Proof.
  intros Hinv Hcb Hp Hm Hrot Hwait.
  destruct (wheel_inv_time_slot w ls p t Hinv Hp Hm) as (li & Hli & Hpi & Hts).
  pose proof Hinv as (Hcur & _ & _ & Hnd & _).
  destruct (wheel_tick_spec w ls Hinv Hcb)
    as (log & w' & l & Hl & Hrun & Hinv' & Hcb' & Hcur' & Hfire & Hgone & Hkept & Hframe).
  set (c := Z.to_nat (Wheel.cur_slot w)) in *.
  exists log, w', (<[c := wheel_kept w l]> ls).
  assert (Hlog : fired_timers log = wheel_expired w l)
    by (by apply (wheel_fires_timers w)).
  unfold wheel_wait in *. unfold Wheel.N in *.
  destruct (decide (Wheel.time_slot t = Wheel.cur_slot w)) as [Heq|Hne].
  - (* the wheel is at the timer's slot: a rotation is taken off *)
    rewrite Heq in Hli. fold c in Hli. assert (li = l) as -> by congruence.
    assert (Hk : p ∈ wheel_kept w l).
    { apply list_elem_of_filter. split; [|done].
      rewrite (wheel_rotation_at w p t Hm). zlia. }
    destruct (Hkept p t Hk Hm) as (t' & Hm' & Hrot' & Hdata).
    exists t'. split; [done|]. split; [done|]. split; [done|].
    split.
    { apply elem_of_join_lookup. exists c, (wheel_kept w l). split; [|done].
      apply list_lookup_insert_eq. by eapply lookup_lt_Some. }
    split; [done|]. split; [zlia|]. split; [done|].
    split.
    { injection Hdata as -> _ _. rewrite Hcur', Hrot'. zlia. }
    rewrite Hlog. intros (Hle & _)%list_elem_of_filter.
    rewrite (wheel_rotation_at w p t Hm) in Hle. zlia.
  - (* another slot: the timer is not touched *)
    assert (Hnl : p ∉ l).
    { intros Hpl.
      pose proof (join_NoDup_disjoint ls _ _ li l p Hnd Hli Hl Hpi Hpl). lia. }
    exists t. split; [done|]. split; [done|]. split; [done|].
    split.
    { apply elem_of_join_lookup. exists (Z.to_nat (Wheel.time_slot t)), li.
      split; [|done]. rewrite list_lookup_insert_ne; [done|]. unfold c. lia. }
    split; [by rewrite Hframe|]. split; [done|]. split; [done|].
    split; [rewrite Hcur'; zlia|].
    rewrite Hlog. by intros (_ & Hpl)%list_elem_of_filter.
Qed.

(** The [tick] that finds the timer due invokes it once and deletes it. *)
Lemma wheel_tick_fires (w : Wheel.time_wheel) (ls : list (list nat)) (p : nat)
    (t : Wheel.tw_timer) :
  wheel_inv w ls → wheel_callbacks w ls →
  p ∈ mjoin ls → Wheel.mem w !! p = Some t →
  0 ≤ Wheel.rotation t → wheel_wait w t = 0 →
  ∃ log w' cb,
    Wheel.tick w = Ok (log, w')
    ∧ Wheel.cb_func t = Some cb
    ∧ Fired p cb (Wheel.user_data t) ∈ log
    ∧ times_fired p log = 1%nat
    ∧ Wheel.mem w' !! p = None.
Proof.
  intros Hinv Hcb Hp Hm Hrot Hwait.
  destruct (wheel_inv_time_slot w ls p t Hinv Hp Hm) as (li & Hli & Hpi & Hts).
  pose proof Hinv as (Hcur & _ & _ & Hnd & _).
  destruct (wheel_tick_spec w ls Hinv Hcb)
    as (log & w' & l & Hl & Hrun & _ & _ & _ & Hfire & Hgone & _).
  assert (Hlog : fired_timers log = wheel_expired w l)
    by (by apply (wheel_fires_timers w)).
  unfold wheel_wait in Hwait. unfold Wheel.N in *.
  assert (Wheel.time_slot t = Wheel.cur_slot w) as Heq by zlia.
  rewrite Heq in Hli. assert (li = l) as -> by congruence.
  assert (He : p ∈ wheel_expired w l).
  { apply list_elem_of_filter. split; [|done].
    rewrite (wheel_rotation_at w p t Hm). zlia. }
  apply list_elem_of_lookup_1 in He as Hi. destruct Hi as [i Hi].
  destruct (Forall2_lookup_l _ _ _ _ _ Hfire Hi) as (e & Hei & t0 & cb & Hm0 & Hcb0 & ->).
  assert (t0 = t) as -> by congruence.
  exists log, w', cb. split; [done|]. split; [done|].
  split; [by eapply list_elem_of_lookup_2|].
  split; [|by apply Hgone].
  apply times_fired_once; rewrite Hlog; [|done].
  apply NoDup_filter. by eapply join_NoDup_lookup.
Qed.

Lemma wheel_fires_after_wait_run (n : nat) :
  ∀ (w : Wheel.time_wheel) (ls : list (list nat)) (p : nat) (t : Wheel.tw_timer),
  wheel_inv w ls → wheel_callbacks w ls →
  p ∈ mjoin ls → Wheel.mem w !! p = Some t →
  0 ≤ Wheel.rotation t → wheel_wait w t = Z.of_nat n →
  ∃ log w1 log1 w2 cb,
    wheel_ticks n w = Ok (log, w1)
    ∧ (p ∉ fired_timers log)
    ∧ Wheel.tick w1 = Ok (log1, w2)
    ∧ Wheel.cb_func t = Some cb
    ∧ Fired p cb (Wheel.user_data t) ∈ log1
    ∧ times_fired p log1 = 1%nat
    ∧ Wheel.mem w2 !! p = None.
Proof.
  induction n as [|n IH]; intros w ls p t Hinv Hcb Hp Hm Hrot Hwait.
  - destruct (wheel_tick_fires w ls p t Hinv Hcb Hp Hm Hrot Hwait)
      as (log1 & w2 & cb & Hrun & Hcbt & Hin & Honce & Hgone).
    exists [], w, log1, w2, cb. split; [done|].
    split; [apply not_elem_of_nil|]. done.
  - destruct (wheel_tick_waits w ls p t Hinv Hcb Hp Hm Hrot)
      as (l0 & w' & ls' & t' & Hrun & Hinv' & Hcb' & Hp' & Hm' & Hrot' & Hdata
          & Hwait' & Hnot0); [lia|].
    destruct (IH w' ls' p t' Hinv' Hcb' Hp' Hm' Hrot')
      as (log & w1 & log1 & w2 & cb & Hticks & Hnot & Htick & Hcbt & Hin & Honce & Hgone);
      [lia|].
    injection Hdata as _ Hcbeq Hdeq.
    exists (l0 ++ log), w1, log1, w2, cb.
    split; [simpl; rewrite Hrun; mstep; rewrite Hticks; by mstep|].
    split.
    { unfold fired_timers in *. rewrite fmap_app, not_elem_of_app. done. }
    split; [done|]. split; [congruence|]. split; [by rewrite <- Hdeq|]. done.
Qed.

(** X20. A timer of the wheel with [rotation >= 0] is passed over by
    exactly [wheel_wait] calls of [tick] (the slots up to its own, and
    [N] more for every rotation left) without being invoked; the next
    call invokes its callback, once, with its [user_data], and deletes
    it. *)
Theorem wheel_fires_after_wait (w : Wheel.time_wheel) (ls : list (list nat))
    (p : nat) (t : Wheel.tw_timer) :
  wheel_inv w ls → wheel_callbacks w ls →
  p ∈ mjoin ls → Wheel.mem w !! p = Some t →
  0 ≤ Wheel.rotation t →
  ∃ log w1 log1 w2 cb,
    wheel_ticks (Z.to_nat (wheel_wait w t)) w = Ok (log, w1)
    ∧ (p ∉ fired_timers log)
    ∧ Wheel.tick w1 = Ok (log1, w2)
    ∧ Wheel.cb_func t = Some cb
    ∧ Fired p cb (Wheel.user_data t) ∈ log1
    ∧ times_fired p log1 = 1%nat
    ∧ Wheel.mem w2 !! p = None.
Proof.
  intros Hinv Hcb Hp Hm Hrot.
  apply (wheel_fires_after_wait_run _ w ls p t); try done.
  unfold wheel_wait, Wheel.N. zlia.
Qed.

Lemma wheel_schedule_cur_slot (w w' : Wheel.time_wheel) (timeout : Z)
    (cb : callback) (d : client_data) (p : option nat) :
  wheel_schedule w timeout cb d = Ok (p, w') →
  Wheel.cur_slot w' = Wheel.cur_slot w.
Proof.
  unfold wheel_schedule.
  destruct (Wheel.add_timer w timeout) as [[q w1]| | |] eqn:Hadd; [|done..].
  mstep. apply wheel_add_timer_cur_slot in Hadd.
  destruct q as [a|]; [|by intros [= _ <-]].
  destruct (Wheel.wr _ _ w1) as [w2| | |] eqn:Hwr; [|done..]. mstep.
  intros [= _ <-]. apply wheel_wr_cur in Hwr. congruence.
Qed.

(** X21. A timer scheduled with a timeout of [t >= 0] (where its slot
    lies inside the wheel) is not invoked by the next [max(1, t/SI)]
    calls of [tick]; the call after these invokes the callback the host
    assigned, once, with the host's data, and deletes the timer. *)
Theorem wheel_schedule_fires_after_ticks (w : Wheel.time_wheel)
    (ls : list (list nat)) (timeout : Z) (cb : callback) (d : client_data) :
  wheel_inv w ls → wheel_callbacks w ls → 0 ≤ timeout →
  Wheel.add_timer_ts (Wheel.cur_slot w) timeout < Wheel.N →
  ∃ p w0 log w1 log1 w2,
    wheel_schedule w timeout cb d = Ok (Some p, w0)
    ∧ wheel_ticks (Z.to_nat (Wheel.add_timer_ticks timeout)) w0 = Ok (log, w1)
    ∧ (p ∉ fired_timers log)
    ∧ Wheel.tick w1 = Ok (log1, w2)
    ∧ Fired p cb d ∈ log1
    ∧ times_fired p log1 = 1%nat
    ∧ Wheel.mem w2 !! p = None.
Proof.
  intros Hinv Hcb Hto Hts.
  destruct (wheel_schedule_spec w ls timeout cb d Hinv Hcb Hto Hts)
    as (p & w0 & l & Hrun & Hl & Hinv0 & Hcb0 & tp & Hm & Hrot & Hslot & Hcbp & Hdp).
  pose proof (wheel_schedule_cur_slot _ _ _ _ _ _ Hrun) as Hcur.
  pose proof Hinv as (Hc & _).
  assert (Hticks : 1 ≤ Wheel.add_timer_ticks timeout).
  { unfold Wheel.add_timer_ticks, Wheel.SI.
    destruct (Z.ltb_spec timeout 1); [lia|]. rewrite Z.quot_1_r. lia. }
  assert (Hwait : wheel_wait w0 tp = Wheel.add_timer_ticks timeout).
  { unfold wheel_wait. rewrite Hslot, Hrot, Hcur.
    unfold Wheel.add_timer_ts, Wheel.add_timer_rotation, Wheel.N in *. zlia. }
  destruct (wheel_fires_after_wait_run (Z.to_nat (Wheel.add_timer_ticks timeout))
              w0 _ p tp Hinv0 Hcb0)
    as (log & w1 & log1 & w2 & cb' & Hrun1 & Hnot & Htick & Hcb' & Hin & Honce & Hgone).
  { apply elem_of_join_lookup. eexists _, (p :: l). split; [|by left].
    apply list_lookup_insert_eq. by eapply lookup_lt_Some. }
  { done. }
  { rewrite Hrot. unfold Wheel.add_timer_rotation, Wheel.N. zlia. }
  { lia. }
  exists p, w0, log, w1, log1, w2. split; [done|]. split; [done|].
  split; [done|]. split; [done|]. split; [|done].
  assert (cb' = cb) as -> by congruence. by rewrite <- Hdp.
Qed.

(** X22. [tick] turns the wheel by one slot and wraps around after the
    last: any number of calls on a well-formed wheel whose timers have
    callbacks returns, and after [n] calls the current slot is
    [(cur_slot + n) mod N]; after [N] calls it is the slot it was. *)
Theorem wheel_ticks_turn (n : nat) :
  ∀ (w : Wheel.time_wheel) (ls : list (list nat)),
  wheel_inv w ls → wheel_callbacks w ls →
  ∃ log w' ls',
    wheel_ticks n w = Ok (log, w')
    ∧ wheel_inv w' ls' ∧ wheel_callbacks w' ls'
    ∧ Wheel.cur_slot w' = (Wheel.cur_slot w + Z.of_nat n) `mod` Wheel.N
    ∧ (n = Z.to_nat Wheel.N → Wheel.cur_slot w' = Wheel.cur_slot w).
Proof.
  assert (Hrun : ∀ n w ls, wheel_inv w ls → wheel_callbacks w ls →
    ∃ log w' ls',
      wheel_ticks n w = Ok (log, w')
      ∧ wheel_inv w' ls' ∧ wheel_callbacks w' ls'
      ∧ Wheel.cur_slot w' = (Wheel.cur_slot w + Z.of_nat n) `mod` Wheel.N).
  { clear n. induction n as [|n IH]; intros w ls Hinv Hcb.
    - exists [], w, ls. split; [done|]. split; [done|]. split; [done|].
      destruct Hinv as (Hc & _). unfold Wheel.N in *. zlia.
    - destruct (wheel_tick_spec w ls Hinv Hcb)
        as (l0 & w1 & l & _ & Hrun & Hinv1 & Hcb1 & Hcur1 & _).
      destruct (IH w1 _ Hinv1 Hcb1) as (log & w' & ls' & Hticks & Hinv' & Hcb' & Hcur').
      exists (l0 ++ log), w', ls'.
      split; [simpl; rewrite Hrun; mstep; rewrite Hticks; by mstep|].
      split; [done|]. split; [done|].
      rewrite Hcur', Hcur1. unfold Wheel.N. zlia. }
  intros w ls Hinv Hcb.
  destruct (Hrun n w ls Hinv Hcb) as (log & w' & ls' & Hticks & Hinv' & Hcb' & Hcur').
  exists log, w', ls'. split; [done|]. split; [done|]. split; [done|]. split; [done|].
  intros ->. rewrite Hcur'. destruct Hinv as (Hc & _). unfold Wheel.N in *. zlia.
Qed.

(** ** The properties on the small states: the heap *)

Lemma heap_ex0_wf : heap_wf heap_ex0 ∧ heap_ordered heap_ex0.
Proof. apply time_heap_new_wf. lia. Qed.

Lemma heap_ex_in_heap (p : nat) :
  in_heap heap_ex p → p = 0%nat ∨ p = 1%nat ∨ p = 2%nat.
Proof.
  intros (i & t & (Hi & Ha & _)%heap_at_Some). simpl in Hi.
  assert (i = 0 ∨ i = 1 ∨ i = 2) as [->|[->| ->]] by lia;
    vm_compute in Ha; injection Ha as <-; tauto.
Qed.

Lemma heap_ex_full_wf : heap_wf heap_ex_full ∧ heap_ordered heap_ex_full.
Proof.
  split; [split|].
  - simpl. lia.
  - simpl. lia.
  - reflexivity.
  - intros i Hi. simpl in Hi.
    assert (i = 0 ∨ i = 1) as [-> | ->] by lia; vm_compute; eauto.
  - intros i j p t t' (Hi & Hai & _)%heap_at_Some (Hj & Haj & _)%heap_at_Some.
    simpl in Hi, Hj.
    assert (i = 0 ∨ i = 1) as [-> | ->] by lia;
      assert (j = 0 ∨ j = 1) as [-> | ->] by lia;
      vm_compute in Hai, Haj; congruence.
  - intros i Hi. simpl in Hi. assert (i = 1) as -> by lia.
    eexists _, _, _, _. split; [by vm_compute|]. split; [by vm_compute|].
    simpl. lia.
Qed.

Lemma heap_ex_full_in_heap (p : nat) :
  in_heap heap_ex_full p → p = 0%nat ∨ p = 1%nat.
Proof.
  intros (i & t & (Hi & Ha & _)%heap_at_Some). simpl in Hi.
  assert (i = 0 ∨ i = 1) as [-> | ->] by lia;
    vm_compute in Ha; injection Ha as <-; tauto.
Qed.

Lemma heap_add_timer_inserts_witness :
  ∃ h', Heap.add_timer heap_ex_full (Some 2%nat) = Ok h'
        ∧ Heap.mem h' = Heap.mem heap_ex_full
        ∧ Heap.cur_size h' = Heap.cur_size heap_ex_full + 1
        ∧ Heap.capacity h'
          = (if decide (Heap.cur_size heap_ex_full = Heap.capacity heap_ex_full)
             then 2 * Heap.capacity heap_ex_full else Heap.capacity heap_ex_full)
        ∧ heap_wf h' ∧ heap_ordered h'
        ∧ (∀ p, in_heap h' p ↔ p = 2%nat ∨ in_heap heap_ex_full p)
        ∧ Heap.capacity h' = 4
        ∧ Heap.array h' = [Some 2%nat; Some 0%nat; Some 1%nat; None].
Proof.
  destruct (heap_add_timer_inserts heap_ex_full 2%nat
              (Heap.mk_heap_timer 1 (Some 3%nat) 0%nat))
    as (h' & Hrun & Hrest).
  - exact (proj1 heap_ex_full_wf).
  - exact (proj2 heap_ex_full_wf).
  - vm_compute. reflexivity.
  - intros [H | H]%heap_ex_full_in_heap; discriminate.
  - intros _. vm_compute. discriminate.
  - exists h'. split; [done|].
    destruct Hrest as (Hm & Hs & Hc & Hwf & Hord & Hin).
    repeat (split; [done|]).
    vm_compute in Hrun. injection Hrun as <-. split; reflexivity.
Defined.

Lemma heap_top_is_earliest_witness :
  ∃ p0 t0,
    Heap.top heap_ex = Ok (Some p0)
    ∧ Heap.mem heap_ex !! p0 = Some t0
    ∧ in_heap heap_ex p0
    ∧ (∀ p t, in_heap heap_ex p → Heap.mem heap_ex !! p = Some t →
              Heap.expire t0 ≤ Heap.expire t).
Proof.
  apply (heap_top_is_earliest heap_ex).
  - exact (proj1 heap_ex_wf).
  - exact (proj2 heap_ex_wf).
  - vm_compute. reflexivity.
Defined.

Lemma heap_pop_timer_removes_top_witness :
  ∃ p0 h',
    Heap.top heap_ex = Ok (Some p0)
    ∧ Heap.pop_timer heap_ex = Ok h'
    ∧ Heap.mem h' = delete p0 (Heap.mem heap_ex)
    ∧ Heap.cur_size h' = Heap.cur_size heap_ex - 1
    ∧ Heap.capacity h' = Heap.capacity heap_ex
    ∧ heap_wf h' ∧ heap_ordered h'
    ∧ (∀ p, in_heap h' p ↔ in_heap heap_ex p ∧ p ≠ p0).
Proof.
  apply (heap_pop_timer_removes_top heap_ex).
  - exact (proj1 heap_ex_wf).
  - exact (proj2 heap_ex_wf).
  - vm_compute. reflexivity.
Defined.

Lemma heap_tick_fires_in_expiry_order_witness :
  ∃ log h',
    Heap.tick heap_ex 9 = Ok (log, h')
    ∧ Forall (in_heap heap_ex) (fired_timers log)
    ∧ ascending (heap_expire heap_ex <$> fired_timers log).
Proof.
  apply (heap_tick_fires_in_expiry_order heap_ex 9).
  - exact (proj1 heap_ex_wf).
  - exact (proj2 heap_ex_wf).
Defined.

Lemma heap_new_add_timer_needs_capacity_witness :
  (∃ h', Heap.add_timer (Heap.time_heap_new (Heap.mem heap_ex0) 2) (Some 0%nat) = Ok h'
         ∧ Heap.cur_size h' = 1 ∧ Heap.capacity h' = 2
         ∧ Heap.top h' = Ok (Some 0%nat)
         ∧ heap_wf h' ∧ heap_ordered h')
  ∧ Heap.add_timer (Heap.time_heap_new (Heap.mem heap_ex0) 0) (Some 0%nat) = Fault.
Proof.
  split.
  - apply (proj1 (heap_new_add_timer_needs_capacity (Heap.mem heap_ex0) 2 0%nat
                    (Heap.mk_heap_timer 5 (Some 1%nat) 0%nat)
                    ltac:(lia) ltac:(vm_compute; reflexivity))).
    lia.
  - apply (proj2 (heap_new_add_timer_needs_capacity (Heap.mem heap_ex0) 0 0%nat
                    (Heap.mk_heap_timer 5 (Some 1%nat) 0%nat)
                    ltac:(lia) ltac:(vm_compute; reflexivity))).
    reflexivity.
Defined.

Lemma heap_tick_again_is_idle_witness :
  ∃ log h',
    Heap.tick heap_ex 4 = Ok (log, h')
    ∧ (∀ p t, in_heap h' p → Heap.mem h' !! p = Some t → 4 < Heap.expire t)
    ∧ Heap.tick h' 4 = Ok ([], h').
Proof.
  apply (heap_tick_again_is_idle heap_ex 4 4).
  - exact (proj1 heap_ex_wf).
  - exact (proj2 heap_ex_wf).
  - lia.
Defined.

Lemma heap_tick_drains_witness :
  ∃ log h',
    Heap.tick heap_ex 9 = Ok (log, h')
    ∧ Heap.empty h' = true
    ∧ Heap.top h' = Ok None
    ∧ (∀ p, in_heap heap_ex p → Heap.mem h' !! p = None)
    ∧ (∀ p, ¬ in_heap heap_ex p → Heap.mem h' !! p = Heap.mem heap_ex !! p).
Proof.
  apply (heap_tick_drains heap_ex 9).
  - exact (proj1 heap_ex_wf).
  - exact (proj2 heap_ex_wf).
  - intros p t [->|[->| ->]]%heap_ex_in_heap Hm;
      vm_compute in Hm; injection Hm as <-; simpl; lia.
Defined.

Lemma time_heap_init_builds_heap_witness :
  Heap.time_heap_init heap_init_mem heap_init_array 3 2 = Throw
  ∧ ∃ h, Heap.time_heap_init heap_init_mem heap_init_array 3 4 = Ok h
         ∧ Heap.mem h = heap_init_mem
         ∧ Heap.cur_size h = 3
         ∧ Heap.capacity h = 4
         ∧ heap_wf h ∧ heap_ordered h
         ∧ (∀ p, in_heap h p ↔ p ∈ [0%nat; 1%nat; 2%nat]).
Proof.
  split.
  - apply (proj1 (time_heap_init_builds_heap heap_init_mem heap_init_array 3 2 [])).
    lia.
  - apply (proj2 (time_heap_init_builds_heap heap_init_mem heap_init_array 3 4
                    [0%nat; 1%nat; 2%nat])).
    + lia.
    + lia.
    + reflexivity.
    + reflexivity.
    + apply NoDup_cons. split; [set_solver|].
      apply NoDup_cons. split; [set_solver | apply NoDup_singleton].
    + intros p Hp.
      assert (p = 0%nat ∨ p = 1%nat ∨ p = 2%nat) as [->|[->| ->]] by set_solver;
        vm_compute; by eexists.
Defined.

Lemma heap_destroy_frees_all_witness :
  ∃ m', Heap.destroy heap_ex = Ok m'
        ∧ (∀ p, in_heap heap_ex p → m' !! p = None)
        ∧ (∀ p, ¬ in_heap heap_ex p → m' !! p = Heap.mem heap_ex !! p).
Proof. apply (heap_destroy_frees_all heap_ex). exact (proj1 heap_ex_wf). Defined.

(** ** The properties on the small states: the list *)

Lemma lst_add_timer_position_witness :
  ∃ s' la lb,
    [1%nat; 0%nat] = la ++ lb
    ∧ Lst.add_timer lst_ex (Some 2%nat) = Ok s'
    ∧ lst_inv s' (la ++ 2%nat :: lb)
    ∧ Forall (λ q, lst_expire lst_ex q ≤ 7) la
    ∧ (∀ b, head lb = Some b → 7 < lst_expire lst_ex b)
    ∧ (∀ q, lst_data <$> Lst.mem s' !! q = lst_data <$> Lst.mem lst_ex !! q).
Proof.
  apply (lst_add_timer_position lst_ex [1%nat; 0%nat] 2%nat
           (Lst.util_timer_new 7 (Some 3%nat) 3%nat)).
  - exact lst_ex_inv.
  - set_solver.
  - vm_compute. reflexivity.
  - reflexivity.
  - reflexivity.
Defined.

Lemma lst_del_timer_removes_only_target_witness :
  ∃ s', Lst.del_timer lst_ex (Some 1%nat) = Ok s'
        ∧ lst_inv s' ([] ++ [0%nat])
        ∧ Lst.mem s' !! 1%nat = None
        ∧ (∀ q, q ≠ 1%nat →
             lst_data <$> Lst.mem s' !! q = lst_data <$> Lst.mem lst_ex !! q).
Proof.
  apply (lst_del_timer_removes_only_target lst_ex [] [0%nat] 1%nat).
  exact lst_ex_inv.
Defined.

Lemma lst_add_then_del_restores_witness :
  ∃ s1 s2,
    Lst.add_timer lst_ex (Some 2%nat) = Ok s1
    ∧ Lst.del_timer s1 (Some 2%nat) = Ok s2
    ∧ lst_inv s2 [1%nat; 0%nat]
    ∧ Lst.mem s2 !! 2%nat = None
    ∧ (∀ q, q ≠ 2%nat →
         lst_data <$> Lst.mem s2 !! q = lst_data <$> Lst.mem lst_ex !! q).
Proof.
  apply (lst_add_then_del_restores lst_ex [1%nat; 0%nat] 2%nat
           (Lst.util_timer_new 7 (Some 3%nat) 3%nat)).
  - exact lst_ex_inv.
  - set_solver.
  - vm_compute. reflexivity.
  - reflexivity.
  - reflexivity.
Defined.

Lemma lst_tick_fires_expired_prefix_witness :
  ∃ log s' l1 l2,
    [1%nat; 0%nat] = l1 ++ l2
    ∧ Lst.tick lst_ex 7 = Ok (log, s')
    ∧ lst_inv s' l2
    ∧ Forall (λ p, lst_expire lst_ex p ≤ 7) l1
    ∧ (∀ b, head l2 = Some b → 7 < lst_expire lst_ex b)
    ∧ fired_timers log = l1
    ∧ Forall2 (lst_fires lst_ex) l1 log
    ∧ (∀ p, p ∈ l1 → Lst.mem s' !! p = None)
    ∧ (∀ q, q ∉ l1 →
         lst_data <$> Lst.mem s' !! q = lst_data <$> Lst.mem lst_ex !! q)
    ∧ (∀ q, q ∉ [1%nat; 0%nat] → Lst.mem s' !! q = Lst.mem lst_ex !! q).
Proof.
  apply (lst_tick_fires_expired_prefix 7 lst_ex [1%nat; 0%nat]).
  - exact lst_ex_inv.
  - exact lst_ex_callbacks.
Defined.

Lemma lst_ex_late_inv : lst_inv lst_ex_late [1%nat; 0%nat].
Proof.
  split; [split|].
  - apply NoDup_cons. split; [set_solver | apply NoDup_singleton].
  - simpl. split; [done|]. eexists. split; [by vm_compute|]. split; [done|].
    simpl. split; [done|]. eexists. split; [by vm_compute|]. done.
  - done.
Qed.

Lemma lst_adjust_timer_moves_back_witness :
  ∃ s' l2a l2b,
    [0%nat] = l2a ++ l2b
    ∧ Lst.adjust_timer lst_ex_late (Some 1%nat) = Ok s'
    ∧ lst_inv s' ([] ++ l2a ++ 1%nat :: l2b)
    ∧ (∀ q, lst_data <$> Lst.mem s' !! q = lst_data <$> Lst.mem lst_ex_late !! q)
    ∧ Forall (λ q, lst_expire lst_ex_late q ≤ 20) l2a
    ∧ (∀ c, head l2b = Some c → 20 < lst_expire lst_ex_late c)
    ∧ l2a = [0%nat] ∧ l2b = []
    ∧ Lst.head s' = Some 0%nat ∧ Lst.tail s' = Some 1%nat.
Proof.
  destruct (lst_adjust_timer_moves_back lst_ex_late [] [0%nat] 1%nat
              (Lst.mk_util_timer 20 (Some 2%nat) 2%nat None (Some 0%nat)))
    as (s' & l2a & l2b & Hl & Hrun & Hinv & Hdata & Hpass & Hstop).
  - exact lst_ex_late_inv.
  - vm_compute. reflexivity.
  - exists s', l2a, l2b. repeat (split; [done|]).
    assert (l2a = [0%nat] ∧ l2b = []) as [-> ->].
    { destruct l2a as [|a l2a].
      - simpl in Hl. subst l2b. specialize (Hstop 0%nat eq_refl).
        vm_compute in Hstop. discriminate.
      - injection Hl as <- Hl. symmetry in Hl.
        by apply app_eq_nil in Hl as [-> ->]. }
    split; [done|]. split; [done|].
    vm_compute in Hrun. by injection Hrun as <-.
Defined.

Lemma lst_tick_again_is_idle_witness :
  ∃ log s', Lst.tick lst_ex 7 = Ok (log, s') ∧ Lst.tick s' 7 = Ok ([], s').
Proof.
  apply (lst_tick_again_is_idle 7 7 lst_ex [1%nat; 0%nat]).
  - exact lst_ex_inv.
  - exact lst_ex_callbacks.
  - lia.
Defined.

Lemma lst_destroy_frees_all_witness :
  ∃ m', Lst.destroy lst_ex = Ok m'
        ∧ (∀ p, p ∈ [1%nat; 0%nat] → m' !! p = None)
        ∧ (∀ p, p ∉ [1%nat; 0%nat] → m' !! p = Lst.mem lst_ex !! p).
Proof. apply (lst_destroy_frees_all lst_ex [1%nat; 0%nat]). exact lst_ex_inv. Defined.

Lemma lst_tick_drains_then_add_witness :
  ∃ log s' s'',
    Lst.tick lst_ex 30 = Ok (log, s')
    ∧ fired_timers log = [1%nat; 0%nat]
    ∧ Lst.head s' = None
    ∧ Lst.tail s' = Lst.tail lst_ex
    ∧ (∀ p, p ∈ [1%nat; 0%nat] → Lst.mem s' !! p = None)
    ∧ Lst.add_timer s' (Some 2%nat) = Ok s''
    ∧ lst_inv s'' [2%nat]
    ∧ Lst.head s'' = Some 2%nat ∧ Lst.tail s'' = Some 2%nat.
Proof.
  apply (lst_tick_drains_then_add 30 lst_ex [1%nat; 0%nat] 2%nat
           (Lst.util_timer_new 7 (Some 3%nat) 3%nat)).
  - exact lst_ex_inv.
  - exact lst_ex_callbacks.
  - intros p Hp.
    assert (p = 1%nat ∨ p = 0%nat) as [-> | ->] by set_solver; vm_compute; discriminate.
  - set_solver.
  - vm_compute. reflexivity.
  - reflexivity.
  - reflexivity.
Defined.

(** ** The properties on the small states: the wheel *)

Lemma wheel_add_timer_places_witness :
  ∃ p w' l,
    Wheel.add_timer wheel_ex 3 = Ok (Some p, w')
    ∧ Wheel.mem wheel_ex !! p = None
    ∧ wheel_ex_lists !! Z.to_nat (Wheel.add_timer_ts (Wheel.cur_slot wheel_ex) 3)
      = Some l
    ∧ wheel_inv w'
        (<[Z.to_nat (Wheel.add_timer_ts (Wheel.cur_slot wheel_ex) 3) := p :: l]>
           wheel_ex_lists)
    ∧ Wheel.cur_slot w' = Wheel.cur_slot wheel_ex
    ∧ (∃ tp, Wheel.mem w' !! p = Some tp
             ∧ Wheel.rotation tp = Wheel.add_timer_rotation 3
             ∧ Wheel.time_slot tp = Wheel.add_timer_ts (Wheel.cur_slot wheel_ex) 3)
    ∧ (∀ q, q ≠ p →
         wheel_payload <$> Wheel.mem w' !! q
         = wheel_payload <$> Wheel.mem wheel_ex !! q).
Proof.
  apply (wheel_add_timer_places wheel_ex wheel_ex_lists 3).
  - exact (proj1 wheel_ex_inv).
  - lia.
  - vm_compute. reflexivity.
Defined.

Lemma wheel_del_timer_unlinks_witness :
  ∃ w', Wheel.del_timer wheel_ex (Some 0%nat) = Ok w'
        ∧ wheel_inv w' (<[1%nat := [1%nat] ++ []]> wheel_ex_lists)
        ∧ (wheel_callbacks wheel_ex wheel_ex_lists →
           wheel_callbacks w' (<[1%nat := [1%nat] ++ []]> wheel_ex_lists))
        ∧ Wheel.mem w' !! 0%nat = None
        ∧ 0%nat ∉ mjoin (<[1%nat := [1%nat] ++ []]> wheel_ex_lists).
Proof.
  apply (wheel_del_timer_unlinks wheel_ex wheel_ex_lists 1%nat [1%nat] [] 0%nat).
  - exact (proj1 wheel_ex_inv).
  - vm_compute. reflexivity.
Defined.

Lemma wheel_add_then_del_restores_witness :
  ∃ p w1 w2,
    Wheel.add_timer wheel_ex 3 = Ok (Some p, w1)
    ∧ Wheel.del_timer w1 (Some p) = Ok w2
    ∧ wheel_inv w2 wheel_ex_lists
    ∧ Wheel.mem w2 !! p = None.
Proof.
  apply (wheel_add_then_del_restores wheel_ex wheel_ex_lists 3).
  - exact (proj1 wheel_ex_inv).
  - lia.
  - vm_compute. reflexivity.
Defined.

Lemma wheel_fires_after_wait_witness :
  ∃ log w1 log1 w2 cb,
    wheel_ticks
      (Z.to_nat (wheel_wait wheel_ex
                   (Wheel.mk_tw_timer 1 1 (Some 8%nat) 9%nat (Some 0%nat) None)))
      wheel_ex = Ok (log, w1)
    ∧ (1%nat ∉ fired_timers log)
    ∧ Wheel.tick w1 = Ok (log1, w2)
    ∧ Some 8%nat = Some cb
    ∧ Fired 1%nat cb 9%nat ∈ log1
    ∧ times_fired 1%nat log1 = 1%nat
    ∧ Wheel.mem w2 !! 1%nat = None.
Proof.
  apply (wheel_fires_after_wait wheel_ex wheel_ex_lists 1%nat
           (Wheel.mk_tw_timer 1 1 (Some 8%nat) 9%nat (Some 0%nat) None)).
  - exact (proj1 wheel_ex_inv).
  - exact (proj2 wheel_ex_inv).
  - vm_compute. set_solver.
  - vm_compute. reflexivity.
  - simpl. lia.
Defined.

Lemma wheel_schedule_fires_after_ticks_witness :
  ∃ p w0 log w1 log1 w2,
    wheel_schedule wheel_ex 3 4%nat 5%nat = Ok (Some p, w0)
    ∧ wheel_ticks (Z.to_nat (Wheel.add_timer_ticks 3)) w0 = Ok (log, w1)
    ∧ (p ∉ fired_timers log)
    ∧ Wheel.tick w1 = Ok (log1, w2)
    ∧ Fired p 4%nat 5%nat ∈ log1
    ∧ times_fired p log1 = 1%nat
    ∧ Wheel.mem w2 !! p = None.
Proof.
  apply (wheel_schedule_fires_after_ticks wheel_ex wheel_ex_lists 3 4%nat 5%nat).
  - exact (proj1 wheel_ex_inv).
  - exact (proj2 wheel_ex_inv).
  - lia.
  - vm_compute. reflexivity.
Defined.

Lemma wheel_ticks_turn_witness :
  ∃ log w' ls',
    wheel_ticks 60 wheel_ex = Ok (log, w')
    ∧ wheel_inv w' ls' ∧ wheel_callbacks w' ls'
    ∧ Wheel.cur_slot w' = (Wheel.cur_slot wheel_ex + Z.of_nat 60) `mod` Wheel.N
    ∧ (60%nat = Z.to_nat Wheel.N → Wheel.cur_slot w' = Wheel.cur_slot wheel_ex).
Proof.
  apply (wheel_ticks_turn 60 wheel_ex wheel_ex_lists).
  - exact (proj1 wheel_ex_inv).
  - exact (proj2 wheel_ex_inv).
Defined.

Lemma wheel_destroy_frees_all_witness :
  ∃ m', Wheel.destroy wheel_ex = Ok m'
        ∧ (∀ p, p ∈ mjoin wheel_ex_lists → m' !! p = None)
        ∧ (∀ p, p ∉ mjoin wheel_ex_lists → m' !! p = Wheel.mem wheel_ex !! p).
Proof.
  apply (wheel_destroy_frees_all wheel_ex wheel_ex_lists).
  exact (proj1 wheel_ex_inv).
Defined.

(** ** The properties on the small states: unchecked preconditions *)

Lemma lst_ex_nocb_inv : lst_inv lst_ex_nocb [0%nat].
Proof.
  split; [split|].
  - apply NoDup_singleton.
  - simpl. split; [done|]. eexists. split; [by vm_compute|]. done.
  - done.
Qed.

Lemma wheel_ex_nocb_inv : wheel_inv wheel_ex_nocb wheel_ex_nocb_lists.
Proof.
  split; [vm_compute; split; [discriminate | reflexivity]|].
  split; [reflexivity|]. split; [|split].
  - apply Forall2_lookup. intros i.
    unfold wheel_ex_nocb, wheel_ex_nocb_lists. cbn [Wheel.slots Wheel.mem].
    destruct (decide (i = 1%nat)) as [->|Hne].
    + rewrite !list_lookup_insert_eq by (rewrite length_replicate; lia).
      constructor. simpl. split; [done|]. eexists.
      split; [by vm_compute|]. done.
    + rewrite !list_lookup_insert_ne by done.
      destruct (decide (i < 60)%nat) as [Hlt|Hge].
      * rewrite !lookup_replicate_2 by done. by constructor.
      * rewrite !lookup_ge_None_2 by (rewrite length_replicate; lia). constructor.
  - vm_compute. apply NoDup_singleton.
  - intros i l p t Hl Hp Hm. unfold wheel_ex_nocb_lists in Hl.
    destruct (decide (i = 1%nat)) as [->|Hne].
    + rewrite list_lookup_insert_eq in Hl by (rewrite length_replicate; lia).
      injection Hl as <-. apply list_elem_of_singleton in Hp as ->.
      vm_compute in Hm. by injection Hm as <-.
    + rewrite list_lookup_insert_ne in Hl by done.
      apply lookup_replicate in Hl as [-> _]. by apply elem_of_nil in Hp.
Qed.

Lemma tick_without_callback_faults_witness :
  Lst.tick lst_ex_nocb 9 = Fault ∧ Wheel.tick wheel_ex_nocb = Fault.
Proof.
  destruct tick_without_callback_faults as [Hlst Hwheel]. split.
  - apply (Hlst lst_ex_nocb 0%nat [] (Lst.util_timer_new 5 None 0%nat) 9).
    + exact lst_ex_nocb_inv.
    + vm_compute. reflexivity.
    + simpl. lia.
    + reflexivity.
  - apply (Hwheel wheel_ex_nocb wheel_ex_nocb_lists 0%nat [] (Wheel.tw_timer_new 0 1)).
    + exact wheel_ex_nocb_inv.
    + vm_compute. reflexivity.
    + vm_compute. reflexivity.
    + simpl. lia.
    + reflexivity.
Defined.

Lemma stale_handle_faults_witness :
  (Lst.del_timer lst_ex (Some 5%nat) = Fault
   ∧ Lst.adjust_timer lst_ex (Some 5%nat) = Fault)
  ∧ Heap.del_timer heap_ex (Some 5%nat) = Fault
  ∧ Wheel.del_timer wheel_ex (Some 5%nat) = Fault.
Proof.
  destruct stale_handle_faults as (Hlst & Hheap & Hwheel). split; [|split].
  - apply (Hlst lst_ex [1%nat; 0%nat] 5%nat); [exact lst_ex_inv | by vm_compute].
  - apply (Hheap heap_ex 5%nat). by vm_compute.
  - apply (Hwheel wheel_ex 5%nat). by vm_compute.
Defined.

(** * What the operations rely on: callbacks and capacity *)

(** ** The list: [tick] where the expired timers have callbacks *)

Lemma lst_callbacks_due_weaken (cur : Z) (s : Lst.sort_timer_lst) (l : list nat) :
  lst_callbacks s l → lst_callbacks_due cur s l.
Proof. intros Hcb p t Hp Hm _. by apply (Hcb p t). Qed.

Lemma lst_tick_loop_spec_due (cur : Z) (l : list nat) :
  ∀ (fuel : nat) (s : Lst.sort_timer_lst) (log : list fired),
  lst_inv s l → lst_callbacks_due cur s l → (length l < fuel)%nat →
  ∃ log' s' l1 l2,
    l = l1 ++ l2
    ∧ Lst.tick_loop fuel s cur (Lst.head s) log = Ok (log ++ log', s')
    ∧ lst_inv s' l2
    ∧ Forall (λ p, lst_expire s p ≤ cur) l1
    ∧ (∀ b, head l2 = Some b → cur < lst_expire s b)
    ∧ Forall2 (lst_fires s) l1 log'
    ∧ (∀ p, p ∈ l1 → Lst.mem s' !! p = None)
    ∧ (∀ q, q ∉ l1 → lst_data <$> Lst.mem s' !! q = lst_data <$> Lst.mem s !! q).
Proof.
  induction l as [|p l IH]; intros fuel s log Hinv Hcb Hfuel;
    rewrite lst_tick_loop_unfold; rewrite (lst_inv_head _ _ Hinv); simpl.
  - exists [], s, [], []. split; [done|]. split; [by rewrite app_nil_r|].
    split; [done|]. split; [constructor|]. split; [done|].
    split; [constructor|]. split; [|done].
    intros p Hp. by apply elem_of_nil in Hp.
  - destruct fuel as [|fuel]; [simpl in Hfuel; lia|].
    pose proof Hinv as [[Hnd Hseg] _].
    destruct (dlseg_at _ _ _ _ _ _ [] _ _ Hseg) as (tp & Hp & _ & _).
    rewrite (lst_rd_Ok _ _ _ Hp). mstep.
    destruct (Z.ltb_spec cur (Lst.expire tp)) as [Hlater|Hdue].
    + exists [], s, [], (p :: l). split; [done|]. split; [by rewrite app_nil_r|].
      split; [done|]. split; [constructor|].
      split; [intros b [= <-]; by rewrite (lst_expire_at _ _ _ Hp)|].
      split; [constructor|]. split; [|done].
      intros q Hq. by apply elem_of_nil in Hq.
    + destruct (Hcb p tp) as [cb Hcbp]; [left | done | done |].
      rewrite Hcbp. unfold invoke. mstep.
      destruct (lst_tick_step s p l tp Hinv Hp)
        as (s2 & s3 & Hstep & Hfree & Hinv3 & Hdel & Hdata).
      simpl in Hstep. rewrite Hstep. mstep. rewrite Hfree. mstep.
      destruct (IH fuel s3 (log ++ [Fired p cb (Lst.user_data tp)]) Hinv3)
        as (log' & s' & l1 & l2 & -> & Hrun & Hinv' & Hdue' & Hhd' & Hfire' & Hdel' & Hdata');
        [|simpl in Hfuel; lia|].
      { intros q tq Hq Hmq Hle. apply NoDup_cons in Hnd as [Hpl _].
        assert (q ≠ p) as Hqp by (intros ->; done).
        specialize (Hdata q Hqp). rewrite Hmq in Hdata.
        destruct (Lst.mem s !! q) as [tq0|] eqn:Hq0; [|done].
        simpl in Hdata. injection Hdata as He Hc Hu. rewrite Hc.
        apply (Hcb q tq0); [by right | done | lia]. }
      apply NoDup_cons in Hnd as [Hpl Hnd].
      assert (Hne : ∀ q, q ∈ l1 ++ l2 → q ≠ p) by (intros q Hq ->; done).
      exists (Fired p cb (Lst.user_data tp) :: log'), s', (p :: l1), l2.
      split; [done|]. split; [by rewrite Hrun, <- app_assoc|].
      split; [done|]. split; [|split; [|split; [|split]]].
      * constructor; [by rewrite (lst_expire_at _ _ _ Hp)|].
        apply Forall_forall. intros q Hq. rewrite Forall_forall in Hdue'.
        rewrite <- (lst_expire_data s s3 q); [by apply Hdue'|].
        apply Hdata. apply Hne. apply elem_of_app. by left.
      * intros b Hb. rewrite <- (lst_expire_data s s3 b); [by apply Hhd'|].
        apply Hdata. apply Hne. apply elem_of_app. right.
        destruct l2; simpl in Hb; [done|]. injection Hb as ->. left.
      * constructor; [by exists tp, cb|].
        assert (Hl1 : ∀ q, q ∈ l1 → q ≠ p).
        { intros q Hq. apply Hne. apply elem_of_app. by left. }
        clear -Hfire' Hdata Hl1. induction Hfire' as [|q e l1 log' Hqe _ IH'];
          constructor.
        -- destruct Hqe as (t & c & Hq & Hc & ->).
           assert (Hqp : q ≠ p) by (apply Hl1; left).
           specialize (Hdata q Hqp). rewrite Hq in Hdata.
           destruct (Lst.mem s !! q) as [t0|] eqn:Hq0; [|done].
           injection Hdata as He Hcc Hu. exists t0, c.
           split; [done|]. split; [congruence|]. by rewrite Hu.
        -- apply IH'. intros q' Hq'. apply Hl1. by right.
      * intros q [->|Hq]%elem_of_cons; [|by apply Hdel'].
        destruct (decide (p ∈ l1)) as [Hin|Hnin]; [by apply Hdel'|].
        specialize (Hdata' p Hnin). rewrite Hdel in Hdata'.
        by destruct (Lst.mem s' !! p).
      * intros q Hq. apply not_elem_of_cons in Hq as [Hqp Hq].
        rewrite Hdata' by done. by apply Hdata.
Qed.

Lemma lst_tick_spec_due (cur : Z) (s : Lst.sort_timer_lst) (l : list nat) :
  lst_inv s l → lst_callbacks_due cur s l →
  ∃ log s' l1 l2,
    l = l1 ++ l2
    ∧ Lst.tick s cur = Ok (log, s')
    ∧ lst_inv s' l2
    ∧ Forall (λ p, lst_expire s p ≤ cur) l1
    ∧ (∀ b, head l2 = Some b → cur < lst_expire s b)
    ∧ Forall2 (lst_fires s) l1 log
    ∧ (∀ p, p ∈ l1 → Lst.mem s' !! p = None)
    ∧ (∀ q, q ∉ l1 → lst_data <$> Lst.mem s' !! q = lst_data <$> Lst.mem s !! q).
Proof.
  intros Hinv Hcb. unfold Lst.tick.
  destruct (Lst.head s) as [h|] eqn:Hh.
  - rewrite <- Hh.
    destruct (lst_tick_loop_spec_due cur l (S (size (Lst.mem s))) s [] Hinv Hcb)
      as (log & s' & l1 & l2 & Hl & Hrun & Hrest).
    { pose proof (lst_inv_length _ _ Hinv). lia. }
    by exists log, s', l1, l2.
  - rewrite (lst_inv_head _ _ Hinv) in Hh. destruct l; [|done].
    exists [], s, [], []. split; [done|]. split; [done|].
    split; [done|]. split; [constructor|]. split; [done|].
    split; [constructor|]. split; [|done].
    intros p Hp. by apply elem_of_nil in Hp.
Qed.

(** [tick] leaves an ascending list ascending. *)
Lemma lst_tick_sorted_due (s : Lst.sort_timer_lst) (l : list nat) (cur : Z) :
  lst_inv s l → lst_sorted s l → lst_callbacks_due cur s l →
  ∃ log s' l1 l2,
    l = l1 ++ l2
    ∧ Lst.tick s cur = Ok (log, s')
    ∧ lst_inv s' l2
    ∧ lst_sorted s' l2.
Proof.
  intros Hinv Hsort Hcb.
  pose proof Hinv as [[Hnd _] _].
  destruct (lst_tick_spec_due cur s l Hinv Hcb)
    as (log & s' & l1 & l2 & -> & Hrun & Hinv' & _ & _ & _ & _ & Hdata).
  exists log, s', l1, l2. split; [done|]. split; [done|]. split; [done|].
  unfold lst_sorted in *.
  rewrite (lst_sorted_data s s').
  - rewrite fmap_app in Hsort. by apply ascending_app_inv in Hsort as [_ ?].
  - intros q Hq. apply Hdata. clear -Hnd Hq. nodup.
Qed.

(** On an ascending list [tick] invokes exactly the expired timers. *)
Lemma lst_tick_exact_due (cur : Z) (s : Lst.sort_timer_lst) (l : list nat) :
  lst_inv s l → lst_sorted s l → lst_callbacks_due cur s l →
  ∃ log s' l1 l2,
    l = l1 ++ l2
    ∧ Lst.tick s cur = Ok (log, s')
    ∧ lst_inv s' l2
    ∧ Forall2 (lst_fires s) l1 log
    ∧ NoDup l1
    ∧ (∀ p, p ∈ l → (p ∈ l1 ↔ lst_expire s p ≤ cur))
    ∧ (∀ p, p ∈ l1 → Lst.mem s' !! p = None).
Proof.
  intros Hinv Hsort Hcb. pose proof Hinv as [[Hnd _] _].
  destruct (lst_tick_spec_due cur s l Hinv Hcb)
    as (log & s' & l1 & l2 & -> & Hrun & Hinv' & Hdue & Hhd & Hfire & Hgone & _).
  exists log, s', l1, l2. split; [done|]. split; [done|]. split; [done|].
  split; [done|]. split; [by apply NoDup_app in Hnd as (? & _)|]. split; [|done].
  assert (Hlater : ∀ p, p ∈ l2 → cur < lst_expire s p).
  { unfold lst_sorted in Hsort. rewrite fmap_app in Hsort.
    apply ascending_app_inv in Hsort as [_ Hsort].
    destruct l2 as [|b l2]; [intros p Hp; by apply elem_of_nil in Hp|].
    specialize (Hhd b eq_refl). rewrite fmap_cons in Hsort.
    apply ascending_head_min in Hsort. rewrite Forall_fmap, Forall_forall in Hsort.
    intros p [->|Hp]%elem_of_cons; [done|].
    specialize (Hsort p Hp). simpl in Hsort. lia. }
  rewrite Forall_forall in Hdue.
  intros p Hp. split; [by apply Hdue|].
  intros Hle. apply elem_of_app in Hp as [Hp|Hp]; [done|].
  specialize (Hlater p Hp). lia.
Qed.

(** ** The list: a deleted timer is never invoked *)

Lemma lst_wr_dead (f : Lst.util_timer → Lst.util_timer) (p : option nat)
    (s s' : Lst.sort_timer_lst) (t : nat) :
  Lst.wr f p s = Ok s' → Lst.mem s !! t = None → Lst.mem s' !! t = None.
Proof.
  unfold Lst.wr. destruct p as [a|]; [|done].
  destruct (Lst.mem s !! a) eqn:Ha; [|done]. intros [= <-] Ht. simpl.
  rewrite lookup_insert_ne; [done|]. congruence.
Qed.

Lemma lst_free_dead (a : nat) (s s' : Lst.sort_timer_lst) (t : nat) :
  Lst.free a s = Ok s' → Lst.mem s !! t = None → Lst.mem s' !! t = None.
Proof.
  unfold Lst.free. destruct (Lst.mem s !! a); [|done]. intros [= <-] Ht. simpl.
  destruct (decide (a = t)) as [->|Hne];
    [apply lookup_delete_eq | by rewrite lookup_delete_ne].
Qed.

(** The loop of [tick] calls only timers that are in the store, and it
    adds none to the store. *)
Lemma lst_tick_loop_dead (t : nat) (cur : Z) (fuel : nat) :
  ∀ (s s' : Lst.sort_timer_lst) (tmp : option nat) (log logr : list fired),
  Lst.mem s !! t = None →
  Lst.tick_loop fuel s cur tmp log = Ok (logr, s') →
  Lst.mem s' !! t = None
  ∧ (t ∉ fired_timers log → t ∉ fired_timers logr).
Proof.
  induction fuel as [|fuel IH]; intros s s' tmp log logr Ht;
    rewrite lst_tick_loop_unfold.
  - destruct tmp; [done | by intros [= <- <-]].
  - destruct tmp as [p|]; [|by intros [= <- <-]].
    unfold Lst.rd. destruct (Lst.mem s !! p) as [tp|] eqn:Hp; [|done]. mstep.
    destruct (cur <? Lst.expire tp); [by intros [= <- <-]|].
    unfold invoke. destruct (Lst.cb_func tp) as [cb|]; [|done]. mstep. cbv zeta.
    match goal with |- mbind _ ?e = _ → _ =>
      destruct e as [s2| | |] eqn:H2; [|done..] end.
    mstep.
    destruct (Lst.free p s2) as [s3| | |] eqn:H3; [|done..]. mstep.
    intros Hrun.
    assert (Ht2 : Lst.mem s2 !! t = None).
    { destruct (Lst.head _); [by eapply lst_wr_dead | by injection H2 as <-]. }
    pose proof (lst_free_dead _ _ _ t H3 Ht2) as Ht3.
    destruct (IH _ _ _ _ _ Ht3 Hrun) as [Hgone Hlog].
    split; [done|]. intros Hnot. apply Hlog.
    unfold fired_timers in *. rewrite fmap_app, not_elem_of_app. split; [done|].
    simpl. rewrite list_elem_of_singleton. congruence.
Qed.

Lemma lst_tick_dead (t : nat) (cur : Z) (s s' : Lst.sort_timer_lst)
    (log : list fired) :
  Lst.mem s !! t = None → Lst.tick s cur = Ok (log, s') →
  Lst.mem s' !! t = None ∧ t ∉ fired_timers log.
Proof.
  intros Ht. unfold Lst.tick. destruct (Lst.head s).
  - intros Hrun. destruct (lst_tick_loop_dead t cur _ _ _ _ _ _ Ht Hrun) as [? Hlog].
    split; [done|]. apply Hlog. apply not_elem_of_nil.
  - intros [= <- <-]. split; [done | apply not_elem_of_nil].
Qed.

Lemma lst_ticks_dead (t : nat) (curs : list Z) :
  ∀ (s s' : Lst.sort_timer_lst) (log : list fired),
  Lst.mem s !! t = None → lst_ticks curs s = Ok (log, s') →
  t ∉ fired_timers log.
Proof.
  induction curs as [|cur curs IH]; intros s s' log Ht; simpl.
  - intros [= <- <-]. apply not_elem_of_nil.
  - destruct (Lst.tick s cur) as [[l1 s1]| | |] eqn:Htick; [|done..]. mstep.
    destruct (lst_ticks curs s1) as [[l2 s2]| | |] eqn:Hticks; [|done..]. mstep.
    intros [= <- <-].
    destruct (lst_tick_dead t cur s s1 l1 Ht Htick) as [Ht1 Hn1].
    pose proof (IH s1 s2 l2 Ht1 Hticks) as Hn2.
    unfold fired_timers in *. rewrite fmap_app, not_elem_of_app. done.
Qed.

(** ** The wheel: [tick] where the due timers have callbacks *)

Lemma wheel_callbacks_due_weaken (w : Wheel.time_wheel) (ls : list (list nat)) :
  wheel_callbacks w ls → wheel_callbacks_due w ls.
Proof.
  intros Hcb l p t Hl Hp Hm _. apply (Hcb p t); [|done].
  apply elem_of_join_lookup. eauto.
Qed.

Lemma wheel_callbacks_within_weaken (n : nat) (w : Wheel.time_wheel)
    (ls : list (list nat)) :
  wheel_callbacks w ls → wheel_callbacks_within n w ls.
Proof. intros Hcb p t Hp Hm _. by apply (Hcb p t). Qed.

Lemma wheel_tick_spec_due (w : Wheel.time_wheel) (ls : list (list nat)) :
  wheel_inv w ls → wheel_callbacks_due w ls →
  ∃ log w' l,
    ls !! Z.to_nat (Wheel.cur_slot w) = Some l
    ∧ Wheel.tick w = Ok (log, w')
    ∧ wheel_inv w' (<[Z.to_nat (Wheel.cur_slot w) := wheel_kept w l]> ls)
    ∧ Wheel.cur_slot w' = (Wheel.cur_slot w + 1) `mod` Wheel.N
    ∧ Forall2 (wheel_fires w) (wheel_expired w l) log
    ∧ (∀ p, p ∈ wheel_expired w l → Wheel.mem w' !! p = None)
    ∧ (∀ p t, p ∈ wheel_kept w l → Wheel.mem w !! p = Some t →
         ∃ t', Wheel.mem w' !! p = Some t'
               ∧ Wheel.rotation t' = Wheel.rotation t - 1
               ∧ wheel_data t' = wheel_data t)
    ∧ (∀ p, p ∉ l → Wheel.mem w' !! p = Wheel.mem w !! p).
Proof.
  intros Hinv Hcb. pose proof Hinv as (Hcur & Hlen & Hall & Hnd & Hts).
  destruct (wheel_inv_slot w ls (Z.to_nat (Wheel.cur_slot w)) Hinv)
    as (hd & l & Hhd & Hl & Hndl & Hseg); [lia|].
  unfold Wheel.tick. rewrite (wheel_slot_get_Ok _ _ _ Hcur Hhd). mstep.
  pose proof (dlseg_head _ _ _ _ _ _ _ Hseg) as Hhead.
  destruct (wheel_tick_loop_spec l [] (S (size (Wheel.mem w))) w [] hd)
    as (log & w' & Hrun & Hpost); try done.
  { intros p t Hp Hmp Hrot. by apply (Hcb l p t). }
  { assert (length l ≤ size (Wheel.mem w))%nat; [|lia].
    apply NoDup_length_le_size; [done|]. intros p Hp. by eapply dlseg_lookup. }
  rewrite app_nil_l in Hrun. rewrite Hhead, Hrun. mstep.
  destruct Hpost as [Hc Hs Hsg Hf Hg Hk Hd Hfr]. simpl in Hs, Hsg, Hfr.
  set (c := Z.to_nat (Wheel.cur_slot w)) in *.
  set (ls' := <[c := wheel_kept w l]> ls).
  assert (Hother : ∀ i li p, i ≠ c → ls !! i = Some li → p ∈ li →
            Wheel.mem w' !! p = Wheel.mem w !! p).
  { intros i li p Hi Hli Hp. apply Hfr. intros Hpl.
    apply Hi. by eapply (join_NoDup_disjoint ls i c li l p). }
  assert (Hsub : sublist (wheel_kept w l) l) by apply sublist_filter.
  assert (Hdata : ∀ p t', p ∈ mjoin ls' → Wheel.mem w' !! p = Some t' →
            ∃ t, Wheel.mem w !! p = Some t ∧ wheel_data t' = wheel_data t).
  { intros p t' (i & li & Hi & Hp)%elem_of_join_lookup Hmp.
    destruct (decide (i = c)) as [->|Hic].
    - unfold ls' in Hi. rewrite list_lookup_insert_eq in Hi
        by (by eapply lookup_lt_Some).
      injection Hi as <-.
      assert (Hpl : p ∈ l) by (by eapply elem_of_sublist).
      destruct (dlseg_lookup _ _ _ _ _ _ _ p Hseg Hpl) as [t Ht].
      destruct (Hk p t Hp Ht) as (t'' & Ht'' & _ & Hdd).
      exists t. split; [done|]. congruence.
    - unfold ls' in Hi. rewrite list_lookup_insert_ne in Hi by done.
      exists t'. split; [|done]. by rewrite <- (Hother i li p). }
  exists log, (Wheel.set_cur_slot (Z.rem (Wheel.cur_slot w' + 1) Wheel.N) w'), l.
  split; [done|]. split; [done|].
  split; [|split; [|split; [done|split; [done|split; [done|done]]]]].
  - split; [simpl; unfold Wheel.N in *; zlia|].
    split; [simpl; by rewrite Hs, length_insert|].
    split; [|split].
    + simpl. rewrite Hs. apply Forall2_lookup. intros i.
      destruct (decide (i = c)) as [->|Hic].
      * unfold ls'. rewrite !list_lookup_insert_eq; [by constructor | |].
        -- by eapply lookup_lt_Some.
        -- by eapply lookup_lt_Some.
      * unfold ls'. rewrite !list_lookup_insert_ne by done.
        pose proof (proj1 (Forall2_lookup _ _ _) Hall i) as Hi.
        destruct (Wheel.slots w !! i) as [hdi|] eqn:E1, (ls !! i) as [li|] eqn:E2;
          inversion Hi as [? ? Hsegi|]; subst; constructor.
        eapply dlseg_frame; [|exact Hsegi].
        intros q tq Hq Hmq. exists tq. rewrite (Hother i li q); done.
    + eapply sublist_NoDup; [exact Hnd | by apply (join_insert_sublist ls c l)].
    + intros i li p t' Hi Hp Hmp. simpl in Hmp.
      destruct (Hdata p t') as (t & Ht & Hdd); [|done|].
      { apply elem_of_join_lookup. eauto. }
      injection Hdd as -> _ _.
      destruct (decide (i = c)) as [->|Hic].
      * unfold ls' in Hi. rewrite list_lookup_insert_eq in Hi
          by (by eapply lookup_lt_Some).
        injection Hi as <-. apply (Hts c l p t); [done | | done].
        by eapply elem_of_sublist.
      * unfold ls' in Hi. rewrite list_lookup_insert_ne in Hi by done.
        by apply (Hts i li p t).
  - simpl. rewrite Hc. unfold Wheel.N in *. zlia.
Qed.

(** The timers that the next call finds due are among those that the next
    calls find due. *)
Lemma wheel_callbacks_within_due (n : nat) (w : Wheel.time_wheel)
    (ls : list (list nat)) :
  wheel_inv w ls → wheel_callbacks_within (S n) w ls → wheel_callbacks_due w ls.
Proof.
  intros (Hcur & _ & _ & _ & Hts) Hcb l p t Hl Hp Hm Hrot.
  apply (Hcb p t); [apply elem_of_join_lookup; eauto | done |].
  pose proof (Hts _ l p t Hl Hp Hm) as Hslot.
  unfold wheel_due_in. rewrite Hslot, Z2Nat.id by lia.
  rewrite Z.sub_diag, Z.mod_0_l by (unfold Wheel.N; lia).
  rewrite Z.max_l by lia. lia.
Qed.

(** A call of [tick] brings every timer that stays one call nearer. *)
Lemma wheel_callbacks_within_tick (n : nat) (w w' : Wheel.time_wheel)
    (ls : list (list nat)) (l : list nat) :
  wheel_inv w ls → wheel_callbacks_within (S n) w ls →
  ls !! Z.to_nat (Wheel.cur_slot w) = Some l →
  Wheel.cur_slot w' = (Wheel.cur_slot w + 1) `mod` Wheel.N →
  (∀ p t, p ∈ wheel_kept w l → Wheel.mem w !! p = Some t →
     ∃ t', Wheel.mem w' !! p = Some t'
           ∧ Wheel.rotation t' = Wheel.rotation t - 1
           ∧ wheel_data t' = wheel_data t) →
  (∀ p, p ∉ l → Wheel.mem w' !! p = Wheel.mem w !! p) →
  wheel_callbacks_within n w' (<[Z.to_nat (Wheel.cur_slot w) := wheel_kept w l]> ls).
Proof.
  intros Hinv Hcb Hl Hcur' Hkept Hframe p t' Hp Hm' Hwait.
  pose proof Hinv as (Hcur & Hlen & Hall & Hnd & Hts).
  set (c := Z.to_nat (Wheel.cur_slot w)) in *.
  apply elem_of_join_lookup in Hp as (i & li & Hi & Hp).
  destruct (decide (i = c)) as [->|Hic].
  - rewrite list_lookup_insert_eq in Hi by (by eapply lookup_lt_Some).
    injection Hi as <-.
    assert (Hpl : p ∈ l) by (by apply list_elem_of_filter in Hp as [_ ?]).
    assert (Hrot : 0 < wheel_rotation w p) by (by apply list_elem_of_filter in Hp as [? _]).
    destruct (Wheel.mem w !! p) as [t|] eqn:Hm.
    2:{ unfold wheel_rotation in Hrot. rewrite Hm in Hrot. simpl in Hrot. lia. }
    rewrite (wheel_rotation_at _ _ _ Hm) in Hrot.
    destruct (Hkept p t Hp Hm) as (t'' & Ht'' & Hr & Hdd).
    rewrite Hm' in Ht''. injection Ht'' as <-.
    injection Hdd as Hslot' Hc _. rewrite Hc.
    apply (Hcb p t); [apply elem_of_join_lookup; eauto | done |].
    pose proof (Hts c l p t Hl Hpl Hm) as Hslot.
    unfold wheel_due_in in *. rewrite Hslot', Hr, Hcur' in Hwait.
    unfold c in Hslot. rewrite Z2Nat.id in Hslot by lia.
    rewrite Hslot in *. unfold Wheel.N in *. zlia.
  - rewrite list_lookup_insert_ne in Hi by done.
    assert (Hpl : p ∉ l).
    { intros Hpl. apply Hic. by eapply (join_NoDup_disjoint ls i c li l p). }
    rewrite (Hframe p Hpl) in Hm'.
    apply (Hcb p t'); [apply elem_of_join_lookup; eauto | done |].
    pose proof (Hts i li p t' Hi Hp Hm') as Hslot.
    assert (Hilt : (i < Z.to_nat Wheel.N)%nat).
    { rewrite <- Hlen. erewrite Forall2_length by exact Hall. by eapply lookup_lt_Some. }
    unfold wheel_due_in in *. rewrite Hcur' in Hwait. rewrite Hslot in *.
    assert (Z.of_nat i ≠ Wheel.cur_slot w) by (unfold c in Hic; lia).
    unfold Wheel.N in *. zlia.
Qed.

(** [n] calls of [tick] in a row all return where the timers they find
    due have their callbacks. *)
Lemma wheel_ticks_total (n : nat) :
  ∀ (w : Wheel.time_wheel) (ls : list (list nat)),
  wheel_inv w ls → wheel_callbacks_within n w ls →
  ∃ log w', wheel_ticks n w = Ok (log, w').
Proof.
  induction n as [|n IH]; intros w ls Hinv Hcb; simpl.
  - by exists [], w.
  - destruct (wheel_tick_spec_due w ls Hinv (wheel_callbacks_within_due n w ls Hinv Hcb))
      as (log1 & w1 & l & Hl & Hrun & Hinv1 & Hcur1 & _ & _ & Hkept & Hframe).
    rewrite Hrun. mstep.
    destruct (IH w1 _ Hinv1) as (log2 & w2 & ->).
    { by apply (wheel_callbacks_within_tick n w w1 ls l). }
    mstep. by exists (log1 ++ log2), w2.
Qed.

(** ** The list: the ticks after a cancellation all return *)

Lemma lst_ticks_total (curs : list Z) :
  ∀ (s : Lst.sort_timer_lst) (l : list nat),
  lst_inv s l → (∀ cur, cur ∈ curs → lst_callbacks_due cur s l) →
  ∃ log s', lst_ticks curs s = Ok (log, s').
Proof.
  induction curs as [|cur curs IH]; intros s l Hinv Hcb; simpl.
  - by exists [], s.
  - pose proof Hinv as [[Hnd _] _].
    destruct (lst_tick_spec_due cur s l Hinv)
      as (log1 & s1 & l1 & l2 & -> & Hrun & Hinv1 & _ & _ & _ & _ & Hdata).
    { apply Hcb. left. }
    rewrite Hrun. mstep.
    destruct (IH s1 l2 Hinv1) as (log2 & s2 & ->).
    { intros c Hc q tq Hq Hmq Hle.
      assert (Hq1 : q ∉ l1) by (clear -Hnd Hq; nodup).
      specialize (Hdata q Hq1). rewrite Hmq in Hdata.
      destruct (Lst.mem s !! q) as [t0|] eqn:Hq0; [|done].
      simpl in Hdata. injection Hdata as He Hcc Hu. rewrite Hcc.
      apply (Hcb c ltac:(by right) q t0); [|done|lia].
      apply elem_of_app. by right. }
    mstep. by exists (log1 ++ log2), s2.
Qed.

(** ** The wheel: a deleted timer is never invoked *)

Lemma wheel_wr_dead (f : Wheel.tw_timer → Wheel.tw_timer) (p : option nat)
    (w w' : Wheel.time_wheel) (t : nat) :
  Wheel.wr f p w = Ok w' → Wheel.mem w !! t = None →
  Wheel.mem w' !! t = None ∧ Wheel.cur_slot w' = Wheel.cur_slot w.
Proof.
  unfold Wheel.wr. destruct p as [a|]; [|done].
  destruct (Wheel.mem w !! a) eqn:Ha; [|done]. intros [= <-] Ht. simpl.
  split; [|done]. rewrite lookup_insert_ne; [done|]. congruence.
Qed.

Lemma wheel_free_dead (a : nat) (w w' : Wheel.time_wheel) (t : nat) :
  Wheel.free a w = Ok w' → Wheel.mem w !! t = None → Wheel.mem w' !! t = None.
Proof.
  unfold Wheel.free. destruct (Wheel.mem w !! a); [|done]. intros [= <-] Ht. simpl.
  destruct (decide (a = t)) as [->|Hne];
    [apply lookup_delete_eq | by rewrite lookup_delete_ne].
Qed.

Lemma wheel_slot_set_mem (i : Z) (p : option nat) (w w' : Wheel.time_wheel) :
  Wheel.slot_set i p w = Ok w' → Wheel.mem w' = Wheel.mem w.
Proof.
  unfold Wheel.slot_set. repeat case_decide; [|done..]. by intros [= <-].
Qed.

Lemma wheel_wr_opt_dead (f : Wheel.tw_timer → Wheel.tw_timer) (p : option nat)
    (w w' : Wheel.time_wheel) (t : nat) :
  match p with Some _ => Wheel.wr f p w | None => Ok w end = Ok w' →
  Wheel.mem w !! t = None → Wheel.mem w' !! t = None.
Proof.
  destruct p; [|by intros [= <-]]. intros H Ht.
  by destruct (wheel_wr_dead _ _ _ _ t H Ht).
Qed.

(** The loop of [tick] calls only timers that are in the store, and it
    adds none to the store. *)
Lemma wheel_tick_loop_dead (t : nat) (fuel : nat) :
  ∀ (w w' : Wheel.time_wheel) (tmp : option nat) (log logr : list fired),
  Wheel.mem w !! t = None →
  Wheel.tick_loop fuel w tmp log = Ok (logr, w') →
  Wheel.mem w' !! t = None
  ∧ (t ∉ fired_timers log → t ∉ fired_timers logr).
Proof.
  induction fuel as [|fuel IH]; intros w w' tmp log logr Ht;
    rewrite wheel_tick_loop_unfold.
  - destruct tmp; [done | by intros [= <- <-]].
  - destruct tmp as [p|]; [|by intros [= <- <-]].
    destruct (Wheel.rd w (Some p)) as [tp| | |] eqn:Hrd; [|done..]. mstep.
    assert (Hpt : p ≠ t).
    { intros ->. unfold Wheel.rd in Hrd. by rewrite Ht in Hrd. }
    destruct (Wheel.rotation tp >? 0).
    + destruct (Wheel.wr _ (Some p) w) as [w1| | |] eqn:H1; [|done..]. mstep.
      destruct (Wheel.rd w1 (Some p)) as [t1| | |]; [|done..]. mstep.
      destruct (wheel_wr_dead _ _ _ _ t H1 Ht) as [Ht1 _].
      by apply IH.
    + unfold invoke. destruct (Wheel.cb_func tp) as [cb|]; [|done]. mstep.
      assert (Hlog : t ∉ fired_timers log →
                t ∉ fired_timers (log ++ [Fired p cb (Wheel.user_data tp)])).
      { intros Hnot. unfold fired_timers in *.
        rewrite fmap_app, not_elem_of_app. split; [done|].
        simpl. rewrite list_elem_of_singleton. congruence. }
      destruct (Wheel.slot_get w (Wheel.cur_slot w)) as [hd| | |]; [|done..]. mstep.
      case_decide.
      * destruct (Wheel.slot_set _ _ w) as [w1| | |] eqn:H1; [|done..]. mstep.
        destruct (Wheel.free p w1) as [w2| | |] eqn:H2; [|done..]. mstep.
        destruct (Wheel.slot_get w2 _) as [hd1| | |]; [|done..]. mstep.
        match goal with |- mbind _ ?e = _ → _ =>
          destruct e as [w3| | |] eqn:H3; [|done..] end.
        mstep.
        destruct (Wheel.slot_get w3 _) as [hd2| | |]; [|done..]. mstep.
        intros Hrun.
        assert (Ht1 : Wheel.mem w1 !! t = None)
          by (by rewrite (wheel_slot_set_mem _ _ _ _ H1)).
        pose proof (wheel_free_dead _ _ _ t H2 Ht1) as Ht2.
        pose proof (wheel_wr_opt_dead _ _ _ _ t H3 Ht2) as Ht3.
        destruct (IH _ _ _ _ _ Ht3 Hrun) as [Hgone Hl]. split; [done|]. auto.
      * destruct (Wheel.wr _ (Wheel.prev tp) w) as [w1| | |] eqn:H1; [|done..]. mstep.
        destruct (Wheel.rd w1 (Some p)) as [t1| | |]; [|done..]. mstep.
        match goal with |- mbind _ ?e = _ → _ =>
          destruct e as [w2| | |] eqn:H2; [|done..] end.
        mstep.
        destruct (Wheel.rd w2 (Some p)) as [t2| | |]; [|done..]. mstep.
        destruct (Wheel.free p w2) as [w3| | |] eqn:H3; [|done..]. mstep.
        intros Hrun.
        destruct (wheel_wr_dead _ _ _ _ t H1 Ht) as [Ht1 _].
        pose proof (wheel_wr_opt_dead _ _ _ _ t H2 Ht1) as Ht2.
        pose proof (wheel_free_dead _ _ _ t H3 Ht2) as Ht3.
        destruct (IH _ _ _ _ _ Ht3 Hrun) as [Hgone Hl]. split; [done|]. auto.
Qed.

Lemma wheel_tick_dead (t : nat) (w w' : Wheel.time_wheel) (log : list fired) :
  Wheel.mem w !! t = None → Wheel.tick w = Ok (log, w') →
  Wheel.mem w' !! t = None ∧ t ∉ fired_timers log.
Proof.
  intros Ht. unfold Wheel.tick.
  destruct (Wheel.slot_get w _) as [hd| | |]; [|done..]. mstep.
  destruct (Wheel.tick_loop _ w hd []) as [[log1 w1]| | |] eqn:Hrun; [|done..]. mstep.
  intros [= <- <-].
  destruct (wheel_tick_loop_dead t _ _ _ _ _ _ Ht Hrun) as [? Hlog].
  split; [done|]. apply Hlog. apply not_elem_of_nil.
Qed.

Lemma wheel_ticks_dead (t : nat) (n : nat) :
  ∀ (w w' : Wheel.time_wheel) (log : list fired),
  Wheel.mem w !! t = None → wheel_ticks n w = Ok (log, w') →
  t ∉ fired_timers log.
Proof.
  induction n as [|n IH]; intros w w' log Ht; simpl.
  - intros [= <- <-]. apply not_elem_of_nil.
  - destruct (Wheel.tick w) as [[l1 w1]| | |] eqn:Htick; [|done..]. mstep.
    destruct (wheel_ticks n w1) as [[l2 w2]| | |] eqn:Hticks; [|done..]. mstep.
    intros [= <- <-].
    destruct (wheel_tick_dead t w w1 l1 Ht Htick) as [Ht1 Hn1].
    pose proof (IH w1 w2 l2 Ht1 Hticks) as Hn2.
    unfold fired_timers in *. rewrite fmap_app, not_elem_of_app. done.
Qed.

(** ** The heap of capacity 0 *)

(** C5, at the capacity 0. The constructor accepts the capacity 0.  On
    the empty heap it builds, whatever the store holds, the first
    [add_timer] finds the heap full, [resize] doubles the capacity 0 to
    0, and the timer is stored through [array[0]] of an array without
    entries; the first [tick] reads [array[0]] of that array.  Neither
    run reaches a heap of which the order could hold, whatever operations
    follow. *)
Theorem heap_capacity_zero_faults (m : gmap nat Heap.heap_timer)
    (ops : list heap_op) :
  Heap.capacity (Heap.resize (Heap.time_heap_new m 0)) = 0
  ∧ Heap.array (Heap.resize (Heap.time_heap_new m 0)) = []
  ∧ (∀ p, Heap.add_timer (Heap.time_heap_new m 0) (Some p) = Fault)
  ∧ (∀ e cb d,
       heap_run (HSchedule e cb d :: ops) (Heap.time_heap_new m 0) = Fault)
  ∧ (∀ cur, heap_run (HTick cur :: ops) (Heap.time_heap_new m 0) = Fault).
Proof.
  split; [reflexivity|]. split; [reflexivity|].
  assert (Hadd : ∀ (m' : gmap nat Heap.heap_timer) p,
            Heap.add_timer (Heap.time_heap_new m' 0) (Some p) = Fault)
    by (intros m' p; reflexivity).
  split; [exact (Hadd m)|]. split.
  - intros e cb d. cbn [heap_run heap_step]. unfold heap_schedule, Heap.alloc.
    change (Heap.set_mem ?m' (Heap.time_heap_new m 0))
      with (Heap.time_heap_new m' 0).
    by rewrite Hadd.
  - intros cur. reflexivity.
Qed.

(** ** The small states with a null callback *)

Lemma lst_ex_nocb2_inv : lst_inv lst_ex_nocb2 [0%nat; 1%nat].
Proof.
  split; [split|].
  - apply NoDup_cons. split; [set_solver | apply NoDup_singleton].
  - simpl. split; [done|]. eexists. split; [by vm_compute|]. split; [done|].
    simpl. split; [done|]. eexists. split; [by vm_compute|]. done.
  - done.
Qed.

Lemma wheel_ex_nocb2_inv : wheel_inv wheel_ex_nocb2 wheel_ex_lists.
Proof.
  split; [vm_compute; split; [discriminate | reflexivity]|].
  split; [reflexivity|]. split; [|split].
  - apply Forall2_lookup. intros i.
    unfold wheel_ex_nocb2, wheel_ex_lists. cbn [Wheel.slots Wheel.mem].
    destruct (decide (i = 1%nat)) as [->|Hne].
    + rewrite !list_lookup_insert_eq by (rewrite length_replicate; lia).
      constructor. simpl. split; [done|]. eexists.
      split; [by vm_compute|]. split; [done|]. simpl. split; [done|].
      eexists. split; [by vm_compute|]. done.
    + rewrite !list_lookup_insert_ne by done.
      destruct (decide (i < 60)%nat) as [Hlt|Hge].
      * rewrite !lookup_replicate_2 by done. by constructor.
      * rewrite !lookup_ge_None_2 by (rewrite length_replicate; lia). constructor.
  - vm_compute. apply NoDup_cons. split; [set_solver | apply NoDup_singleton].
  - intros i l p t Hl Hp Hm. unfold wheel_ex_lists in Hl.
    destruct (decide (i = 1%nat)) as [->|Hne].
    + rewrite list_lookup_insert_eq in Hl by (rewrite length_replicate; lia).
      injection Hl as <-.
      assert (p = 1%nat ∨ p = 0%nat) as [-> | ->] by set_solver;
        vm_compute in Hm; by injection Hm as <-.
    + rewrite list_lookup_insert_ne in Hl by done.
      apply lookup_replicate in Hl as [-> _]. by apply elem_of_nil in Hp.
Qed.

(** ** The list is ascending after every operation *)

(** C6, the claim as stated fails: the list's [tick] calls [cb_func] of
    an expired timer without testing it, and on a well-formed ascending
    list whose only timer has expired and has a null callback it does not
    return a list at all. *)
Lemma lst_tick_null_callback_no_list :
  lst_inv lst_ex_nocb [0%nat]
  ∧ lst_sorted lst_ex_nocb [0%nat]
  ∧ Lst.tick lst_ex_nocb 9 = Fault
  ∧ ¬ (∃ log s' l', Lst.tick lst_ex_nocb 9 = Ok (log, s')
                    ∧ lst_inv s' l' ∧ lst_sorted s' l').
Proof.
  assert (Hrun : Lst.tick lst_ex_nocb 9 = Fault) by (by vm_compute).
  split; [exact lst_ex_nocb_inv|]. split; [exact I|]. split; [done|].
  intros (log & s' & l' & Hok & _). rewrite Hrun in Hok. discriminate.
Qed.

(** C6, amended. On a list in ascending order of [expire]: [add_timer] of a new
    timer, [del_timer] of a timer of the list, [tick] at a time at which
    every expired timer has its callback set, and [adjust_timer] after
    the expiry of a timer of the list was set to a value that is no
    smaller, all return and leave a list in ascending order: every
    adjacent pair (a, b) has a.expire <= b.expire. *)
Theorem lst_sorted_invariant :
  (∀ s l t tm,
     lst_inv s l → lst_sorted s l → t ∉ l →
     Lst.mem s !! t = Some tm → Lst.prev tm = None → Lst.next tm = None →
     ∃ s' la lb,
       l = la ++ lb
       ∧ Lst.add_timer s (Some t) = Ok s'
       ∧ lst_inv s' (la ++ t :: lb)
       ∧ lst_sorted s' (la ++ t :: lb))
  ∧ (∀ s l1 l2 t,
       lst_inv s (l1 ++ t :: l2) → lst_sorted s (l1 ++ t :: l2) →
       ∃ s', Lst.del_timer s (Some t) = Ok s'
             ∧ lst_inv s' (l1 ++ l2)
             ∧ lst_sorted s' (l1 ++ l2)
             ∧ Lst.mem s' !! t = None)
  ∧ (∀ s l cur,
       lst_inv s l → lst_sorted s l → lst_callbacks_due cur s l →
       ∃ log s' l1 l2,
         l = l1 ++ l2
         ∧ Lst.tick s cur = Ok (log, s')
         ∧ lst_inv s' l2
         ∧ lst_sorted s' l2)
  ∧ (∀ s l t e',
       lst_inv s l → lst_sorted s l → t ∈ l → lst_expire s t ≤ e' →
       ∃ s' l',
         lst_adjust s (Some t) e' = Ok s'
         ∧ lst_inv s' l'
         ∧ l' ≡ₚ l
         ∧ lst_sorted s' l'
         ∧ lst_expire s' t = e').
Proof.
  split; [|split; [|split]].
  - intros. by apply lst_add_timer_sorted with (tm := tm).
  - intros. by apply lst_del_timer_sorted.
  - intros. by apply lst_tick_sorted_due.
  - intros. by apply lst_adjust_sorted.
Qed.

Lemma lst_ex_nocb2_due_4 : lst_callbacks_due 4 lst_ex_nocb2 [0%nat; 1%nat].
Proof.
  intros p t Hp Hm Hle.
  assert (p = 0%nat ∨ p = 1%nat) as [-> | ->] by set_solver;
    vm_compute in Hm; injection Hm as <-; simpl in Hle; lia.
Qed.

Lemma lst_sorted_invariant_witness :
  (∃ s' la lb,
     [1%nat; 0%nat] = la ++ lb
     ∧ Lst.add_timer lst_ex (Some 2%nat) = Ok s'
     ∧ lst_inv s' (la ++ 2%nat :: lb)
     ∧ lst_sorted s' (la ++ 2%nat :: lb))
  ∧ (∃ s', Lst.del_timer lst_ex (Some 1%nat) = Ok s'
           ∧ lst_inv s' ([] ++ [0%nat])
           ∧ lst_sorted s' ([] ++ [0%nat])
           ∧ Lst.mem s' !! 1%nat = None)
  ∧ (∃ log s' l1 l2,
       [1%nat; 0%nat] = l1 ++ l2
       ∧ Lst.tick lst_ex 7 = Ok (log, s')
       ∧ lst_inv s' l2
       ∧ lst_sorted s' l2)
  ∧ (∃ log s' l1 l2,
       [0%nat; 1%nat] = l1 ++ l2
       ∧ Lst.tick lst_ex_nocb2 4 = Ok (log, s')
       ∧ lst_inv s' l2
       ∧ lst_sorted s' l2)
  ∧ (∃ s' l',
       lst_adjust lst_ex (Some 1%nat) 20 = Ok s'
       ∧ lst_inv s' l'
       ∧ l' ≡ₚ [1%nat; 0%nat]
       ∧ lst_sorted s' l'
       ∧ lst_expire s' 1%nat = 20).
Proof.
  destruct lst_sorted_invariant as (Hadd & Hdel & Htick & Hadj).
  split; [|split; [|split; [|split]]].
  - apply (Hadd lst_ex [1%nat; 0%nat] 2%nat (Lst.util_timer_new 7 (Some 3%nat) 3%nat)).
    + exact lst_ex_inv.
    + exact lst_ex_sorted.
    + set_solver.
    + vm_compute. reflexivity.
    + reflexivity.
    + reflexivity.
  - apply (Hdel lst_ex [] [0%nat] 1%nat).
    + exact lst_ex_inv.
    + exact lst_ex_sorted.
  - apply (Htick lst_ex [1%nat; 0%nat] 7).
    + exact lst_ex_inv.
    + exact lst_ex_sorted.
    + exact (lst_callbacks_due_weaken 7 _ _ lst_ex_callbacks).
  - apply (Htick lst_ex_nocb2 [0%nat; 1%nat] 4).
    + exact lst_ex_nocb2_inv.
    + split; [by vm_compute | done].
    + exact lst_ex_nocb2_due_4.
  - apply (Hadj lst_ex [1%nat; 0%nat] 1%nat 20).
    + exact lst_ex_inv.
    + exact lst_ex_sorted.
    + set_solver.
    + vm_compute. discriminate.
Defined.

(** ** What [tick] invokes *)

(** C7, the claim as stated fails: behind a timer that is due and has a
    null callback, a timer that is due and has a callback is not invoked.
    The [tick] of the list and the [tick] of the wheel call the null
    [cb_func] of the first and do not come to the second. *)
Lemma tick_null_callback_hides_due :
  (lst_inv lst_ex_nocb2 [0%nat; 1%nat]
   ∧ lst_sorted lst_ex_nocb2 [0%nat; 1%nat]
   ∧ lst_expire lst_ex_nocb2 1%nat ≤ 9
   ∧ Lst.cb_func <$> Lst.mem lst_ex_nocb2 !! 1%nat = Some (Some 4%nat)
   ∧ Lst.tick lst_ex_nocb2 9 = Fault
   ∧ ¬ (∃ log s', Lst.tick lst_ex_nocb2 9 = Ok (log, s')
                  ∧ times_fired 1%nat log = 1%nat))
  ∧ (wheel_inv wheel_ex_nocb2 wheel_ex_lists
     ∧ wheel_ex_lists !! Z.to_nat (Wheel.cur_slot wheel_ex_nocb2)
       = Some [1%nat; 0%nat]
     ∧ wheel_rotation wheel_ex_nocb2 0%nat ≤ 0
     ∧ Wheel.cb_func <$> Wheel.mem wheel_ex_nocb2 !! 0%nat = Some (Some 6%nat)
     ∧ Wheel.tick wheel_ex_nocb2 = Fault
     ∧ ¬ (∃ log w', Wheel.tick wheel_ex_nocb2 = Ok (log, w')
                    ∧ times_fired 0%nat log = 1%nat)).
Proof.
  assert (Hl : Lst.tick lst_ex_nocb2 9 = Fault) by (by vm_compute).
  assert (Hw : Wheel.tick wheel_ex_nocb2 = Fault) by (by vm_compute).
  split.
  - split; [exact lst_ex_nocb2_inv|].
    split; [split; [by vm_compute | done]|].
    split; [by vm_compute|]. split; [by vm_compute|]. split; [done|].
    intros (log & s' & Hok & _). rewrite Hl in Hok. discriminate.
  - split; [exact wheel_ex_nocb2_inv|].
    split; [by vm_compute|].
    split; [by vm_compute|]. split; [by vm_compute|]. split; [done|].
    intros (log & w' & Hok & _). rewrite Hw in Hok. discriminate.
Qed.

(** C7, amended. In each of the three containers [tick] invokes no callback of a
    timer that is not yet due (expiry later than the clock in the list and
    the heap, rotations left or another slot in the wheel), invokes the
    callback of every timer that is due exactly once and destroys the
    timer, and a timer that was cancelled with [del_timer] is never
    invoked by the ticks that follow.  The [tick] of the list and of the
    wheel call [cb_func] without testing it, so for these two the timers
    that a [tick] finds due have their callbacks set: for one [tick] the
    timers due at that call, for the ticks after a cancellation the
    timers due at any of them.  Without that, what holds of the ticks
    after a cancellation is that none of them that returns has invoked
    the cancelled timer. *)
Theorem tick_invokes_exactly_the_due :
  (* the list *)
  (∀ s l cur,
     lst_inv s l → lst_sorted s l → lst_callbacks_due cur s l →
     ∃ log s' l1 l2,
       l = l1 ++ l2
       ∧ Lst.tick s cur = Ok (log, s')
       ∧ lst_inv s' l2
       ∧ Forall2 (lst_fires s) l1 log
       ∧ NoDup l1
       ∧ (∀ p, p ∈ l → (p ∈ l1 ↔ lst_expire s p ≤ cur))
       ∧ (∀ p, p ∈ l1 → Lst.mem s' !! p = None))
  ∧ (∀ s l1 l2 t curs,
       lst_inv s (l1 ++ t :: l2) →
       ∃ s1,
         Lst.del_timer s (Some t) = Ok s1
         ∧ (∀ log s2, lst_ticks curs s1 = Ok (log, s2) → t ∉ (f_timer <$> log))
         ∧ ((∀ cur, cur ∈ curs → lst_callbacks_due cur s1 (l1 ++ l2)) →
            ∃ log s2, lst_ticks curs s1 = Ok (log, s2)
                      ∧ (t ∉ (f_timer <$> log))))
  (* the heap *)
  ∧ (∀ h cur,
       heap_wf h → heap_ordered h →
       ∃ log h',
         Heap.tick h cur = Ok (log, h')
         ∧ heap_wf h' ∧ heap_ordered h'
         ∧ NoDup (f_timer <$> log)
         ∧ (∀ e, e ∈ log ↔ heap_due h cur e)
         ∧ (∀ p t, in_heap h p → Heap.mem h !! p = Some t →
              Heap.mem h' !! p = if decide (Heap.expire t ≤ cur) then None else Some t))
  ∧ (∀ h p t curs,
       heap_wf h → heap_ordered h → Heap.mem h !! p = Some t →
       ∃ h1 log h2,
         Heap.del_timer h (Some p) = Ok h1
         ∧ heap_ticks curs h1 = Ok (log, h2)
         ∧ (p ∉ (f_timer <$> log)))
  (* the wheel *)
  ∧ (∀ w ls,
       wheel_inv w ls → wheel_callbacks_due w ls →
       ∃ log w' l,
         ls !! Z.to_nat (Wheel.cur_slot w) = Some l
         ∧ Wheel.tick w = Ok (log, w')
         ∧ wheel_inv w' (<[Z.to_nat (Wheel.cur_slot w) := wheel_kept w l]> ls)
         ∧ Forall2 (wheel_fires w) (wheel_expired w l) log
         ∧ NoDup (wheel_expired w l)
         ∧ (∀ p, p ∈ wheel_expired w l → Wheel.mem w' !! p = None)
         ∧ (∀ p t, p ∈ wheel_kept w l → Wheel.mem w !! p = Some t →
              ∃ t', Wheel.mem w' !! p = Some t'
                    ∧ Wheel.rotation t' = Wheel.rotation t - 1
                    ∧ wheel_data t' = wheel_data t)
         ∧ (∀ p, p ∉ l → Wheel.mem w' !! p = Wheel.mem w !! p))
  ∧ (∀ w ls i l1 l2 t n,
       wheel_inv w ls → ls !! i = Some (l1 ++ t :: l2) →
       ∃ w1,
         Wheel.del_timer w (Some t) = Ok w1
         ∧ (∀ log w2, wheel_ticks n w1 = Ok (log, w2) → t ∉ (f_timer <$> log))
         ∧ (wheel_callbacks_within n w1 (<[i := l1 ++ l2]> ls) →
            ∃ log w2, wheel_ticks n w1 = Ok (log, w2)
                      ∧ (t ∉ (f_timer <$> log)))).
Proof.
  split; [|split; [|split; [|split; [|split]]]].
  - intros s l cur Hinv Hsort Hcb. by apply lst_tick_exact_due.
  - intros s l1 l2 t curs Hinv.
    destruct (lst_del_timer_spec s l1 l2 t Hinv) as (s1 & Hdel & Hinv1 & Hgone & _).
    exists s1. split; [done|].
    assert (Hsafe : ∀ log s2, lst_ticks curs s1 = Ok (log, s2) →
              t ∉ (f_timer <$> log)).
    { intros log s2 Hrun. by apply (lst_ticks_dead t curs s1 s2 log). }
    split; [done|]. intros Hcb.
    destruct (lst_ticks_total curs s1 (l1 ++ l2) Hinv1 Hcb) as (log & s2 & Hrun).
    exists log, s2. split; [done|]. by apply (Hsafe log s2).
  - intros h cur Hwf Hord.
    destruct (heap_tick_spec h cur Hwf Hord)
      as (log & h' & Hrun & Hwf' & Hord' & _ & Hmem & _ & Hnd & Hev & _).
    by exists log, h'.
  - intros h p t curs Hwf Hord Hp. by apply (heap_cancel_never_fires h p t).
  - intros w ls Hinv Hcb.
    destruct (wheel_tick_spec_due w ls Hinv Hcb)
      as (log & w' & l & Hl & Hrun & Hinv' & _ & Hfire & Hgone & Hkept & Hfr).
    exists log, w', l. split; [done|]. split; [done|]. split; [done|].
    split; [done|]. split; [|done].
    apply NoDup_filter.
    destruct Hinv as (_ & _ & _ & Hnd & _). by eapply join_NoDup_lookup.
  - intros w ls i l1 l2 t n Hinv Hl.
    destruct (wheel_del_timer_spec w ls i l1 l2 t Hinv Hl)
      as (w1 & Hdel & Hinv1 & _ & Hgone & _).
    exists w1. split; [done|].
    assert (Hsafe : ∀ log w2, wheel_ticks n w1 = Ok (log, w2) →
              t ∉ (f_timer <$> log)).
    { intros log w2 Hrun. by apply (wheel_ticks_dead t n w1 w2 log). }
    split; [done|]. intros Hcb.
    destruct (wheel_ticks_total n w1 _ Hinv1 Hcb) as (log & w2 & Hrun).
    exists log, w2. split; [done|]. by apply (Hsafe log w2).
Qed.

Lemma tick_invokes_exactly_the_due_witness :
  (∃ log s' l1 l2,
     [1%nat; 0%nat] = l1 ++ l2
     ∧ Lst.tick lst_ex 7 = Ok (log, s')
     ∧ lst_inv s' l2
     ∧ Forall2 (lst_fires lst_ex) l1 log
     ∧ NoDup l1
     ∧ (∀ p, p ∈ [1%nat; 0%nat] → (p ∈ l1 ↔ lst_expire lst_ex p ≤ 7))
     ∧ (∀ p, p ∈ l1 → Lst.mem s' !! p = None))
  ∧ (∃ s1,
       Lst.del_timer lst_ex (Some 1%nat) = Ok s1
       ∧ (∀ log s2, lst_ticks [7; 30] s1 = Ok (log, s2) →
                    1%nat ∉ (f_timer <$> log))
       ∧ (∃ log s2, lst_ticks [7; 30] s1 = Ok (log, s2)
                    ∧ (1%nat ∉ (f_timer <$> log))))
  ∧ (∃ log h',
       Heap.tick heap_ex 4 = Ok (log, h')
       ∧ heap_wf h' ∧ heap_ordered h'
       ∧ NoDup (f_timer <$> log)
       ∧ (∀ e, e ∈ log ↔ heap_due heap_ex 4 e)
       ∧ (∀ p t, in_heap heap_ex p → Heap.mem heap_ex !! p = Some t →
            Heap.mem h' !! p = if decide (Heap.expire t ≤ 4) then None else Some t))
  ∧ (∃ h1 log h2,
       Heap.del_timer heap_ex (Some 2%nat) = Ok h1
       ∧ heap_ticks [4; 9] h1 = Ok (log, h2)
       ∧ (2%nat ∉ (f_timer <$> log)))
  ∧ (∃ log w' l,
       wheel_ex_lists !! Z.to_nat (Wheel.cur_slot wheel_ex) = Some l
       ∧ Wheel.tick wheel_ex = Ok (log, w')
       ∧ wheel_inv w'
           (<[Z.to_nat (Wheel.cur_slot wheel_ex) := wheel_kept wheel_ex l]> wheel_ex_lists)
       ∧ Forall2 (wheel_fires wheel_ex) (wheel_expired wheel_ex l) log
       ∧ NoDup (wheel_expired wheel_ex l)
       ∧ (∀ p, p ∈ wheel_expired wheel_ex l → Wheel.mem w' !! p = None)
       ∧ (∀ p t, p ∈ wheel_kept wheel_ex l → Wheel.mem wheel_ex !! p = Some t →
            ∃ t', Wheel.mem w' !! p = Some t'
                  ∧ Wheel.rotation t' = Wheel.rotation t - 1
                  ∧ wheel_data t' = wheel_data t)
       ∧ (∀ p, p ∉ l → Wheel.mem w' !! p = Wheel.mem wheel_ex !! p))
  ∧ (∃ w1,
       Wheel.del_timer wheel_ex (Some 0%nat) = Ok w1
       ∧ (∀ log w2, wheel_ticks 61 w1 = Ok (log, w2) →
                    0%nat ∉ (f_timer <$> log))
       ∧ (∃ log w2, wheel_ticks 61 w1 = Ok (log, w2)
                    ∧ (0%nat ∉ (f_timer <$> log)))).
Proof.
  destruct tick_invokes_exactly_the_due as (Hl1 & Hl2 & Hh1 & Hh2 & Hw1 & Hw2).
  split; [|split; [|split; [|split; [|split]]]].
  - apply (Hl1 lst_ex [1%nat; 0%nat] 7).
    + exact lst_ex_inv.
    + exact lst_ex_sorted.
    + exact (lst_callbacks_due_weaken 7 _ _ lst_ex_callbacks).
  - destruct (Hl2 lst_ex [] [0%nat] 1%nat [7; 30] lst_ex_inv)
      as (s1 & Hdel & Hsafe & Hrun).
    exists s1. split; [done|]. split; [done|]. apply Hrun.
    vm_compute in Hdel. injection Hdel as <-.
    intros cur _ p t Hp Hm _.
    assert (p = 0%nat) as -> by set_solver.
    vm_compute in Hm. injection Hm as <-. by eexists.
  - apply (Hh1 heap_ex 4).
    + exact (proj1 heap_ex_wf).
    + exact (proj2 heap_ex_wf).
  - apply (Hh2 heap_ex 2%nat (Heap.mk_heap_timer 3 (Some 3%nat) 0%nat) [4; 9]).
    + exact (proj1 heap_ex_wf).
    + exact (proj2 heap_ex_wf).
    + vm_compute. reflexivity.
  - apply (Hw1 wheel_ex wheel_ex_lists).
    + exact (proj1 wheel_ex_inv).
    + exact (wheel_callbacks_due_weaken _ _ (proj2 wheel_ex_inv)).
  - destruct (Hw2 wheel_ex wheel_ex_lists 1%nat [1%nat] [] 0%nat 61%nat
                (proj1 wheel_ex_inv))
      as (w1 & Hdel & Hsafe & Hrun); [by vm_compute|].
    exists w1. split; [done|]. split; [done|]. apply Hrun.
    apply wheel_callbacks_within_weaken.
    destruct (wheel_del_timer_spec wheel_ex wheel_ex_lists 1%nat [1%nat] [] 0%nat
                (proj1 wheel_ex_inv)) as (w1' & Hdel' & _ & Hcb & _);
      [by vm_compute|].
    rewrite Hdel in Hdel'. injection Hdel' as <-.
    exact (Hcb (proj2 wheel_ex_inv)).
Defined.
